(** * In-memory segment construction (index/scorch/segment/mem/build.go)

    A shallow embedding of [NewFromAnalyzedDocs] and of the functions it
    calls, followed by the properties of the built segment.

    Conventions of the embedding.
    - Go's [int] is 64 bits wide.  Lengths of slices and maps are
      non-negative ints; on those the conversions [uint64(..)] and [int(..)]
      change nothing and are left out.  Every other conversion and every
      fixed-width subtraction or addition is written with its wrap-around
      ([uint16], [uint64], [int] below).
    - A slice is a list; indexing a slice outside its bounds panics.  A panic
      is recorded with the line of build.go that raises it.
    - A Go map is a [gmap]; reading a missing key gives the zero value.
      [range] over a map enumerates its entries in an order the language
      leaves open: a [Schedule] supplies the order of every such loop.
    - Token-frequency maps are shared by reference between the analysis
      results and the collation of a document, and the collation merges
      into them in place.  They live in a store, and analysis results hold
      addresses into it.  An address that the store does not hold stands
      for a nil map.
    - The pointers that build.go follows (to the analysis results, their
      documents, the entries of the token-frequency maps and their
      locations) are not nil. *)

From Stdlib Require Import ZArith Lia Strings.Byte.
From stdpp Require Import base numbers list gmap strings sorting pretty.

Local Open Scope Z_scope.

(** ** Fixed-width integers *)

Definition uint16 (z : Z) : Z := z mod 2 ^ 16.
Definition uint32 (z : Z) : Z := z mod 2 ^ 32.
Definition uint64 (z : Z) : Z := z mod 2 ^ 64.
Definition int (z : Z) : Z := (z + 2 ^ 63) mod 2 ^ 64 - 2 ^ 63.

(** The largest value of an [int]. *)
Definition maxInt : Z := 2 ^ 63 - 1.

(** [len(l)] *)
Definition len {A} (l : list A) : Z := Z.of_nat (length l).

(** ** Panics *)

Inductive Result (A : Type) : Type :=
  | Ok (a : A)
  | Panic (line : nat).
Arguments Ok {A} a.
Arguments Panic {A} line.

Definition bind {A B} (m : Result A) (k : A → Result B) : Result B :=
  match m with
  | Ok a => k a
  | Panic line => Panic line
  end.

Notation "'do' x <- m ; k" := (bind m (fun x => k))
  (at level 10, x pattern, m at level 100, k at level 200,
   format "'[v' 'do'  x  <-  m ; '/' k ']'").

(** [for _, x := range l { body }] over a slice. *)
Fixpoint forEach {A S} (body : A → S → Result S) (l : list A) (s : S)
    : Result S :=
  match l with
  | [] => Ok s
  | x :: l => do s' <- body x s; forEach body l s'
  end.

(** [for i, x := range l] : the elements of a slice with their indices. *)
Fixpoint enumerateFrom {A} (i : Z) (l : list A) : list (Z * A) :=
  match l with
  | [] => []
  | x :: l => (i, x) :: enumerateFrom (i + 1) l
  end.
Definition enumerate {A} (l : list A) : list (Z * A) := enumerateFrom 0 l.

Definition inBounds {A} (l : list A) (i : Z) : bool :=
  (0 <=? i) && (i <? len l).

(** [l[i]] read at [line]. *)
Definition index {A} (line : nat) (l : list A) (i : Z) : Result A :=
  if inBounds l i then
    match l !! Z.to_nat i with
    | Some x => Ok x
    | None => Panic line
    end
  else Panic line.

(** [l[i] = x] at [line]. *)
Definition assign {A} (line : nat) (l : list A) (i : Z) (x : A)
    : Result (list A) :=
  if inBounds l i then Ok (<[Z.to_nat i := x]> l) else Panic line.

(** [l[i] = f(l[i])] at [line]. *)
Definition modify {A} (line : nat) (l : list A) (i : Z) (f : A → A)
    : Result (list A) :=
  do x <- index line l i; assign line l i (f x).

(** ** Analysis results (packages analysis, document and index) *)

Record TokenLocation := {
  Field : string;
  ArrayPositions : list Z;
  Start : Z;
  End_ : Z;
  Position : Z
}.

Record TokenFreq := {
  Locations : list TokenLocation;
  Frequency : Z
}.

(** [analysis.TokenFrequencies] is [map[string]*TokenFreq]. *)
Abbreviation TokenFrequencies := (gmap string TokenFreq).

(** The store of token-frequency maps, by address.  An address outside the
    store is a nil map: reading it and ranging over it find no entry, as
    with an empty map, and it cannot take an entry. *)
Abbreviation Store := (gmap nat (gmap string TokenFreq)).

(** The entries that reading the map at address [a] finds. *)
Definition deref (h : Store) (a : nat) : TokenFrequencies :=
  default ∅ (h !! a).

(** Modelled from the spec: [TokenFrequencies.MergeAll] of package analysis,
    which build.go calls and which is not part of the sources at hand.  The
    spec has the incoming map merged into the running map of the field, and
    "frequencies and location lists combine additively"; it gives the field
    name passed along no role. *)
Definition MergeAll (remoteField : string) (tfs other : TokenFrequencies)
    : TokenFrequencies :=
  union_with
    (λ existingTf tf,
       Some {| Locations := Locations existingTf ++ Locations tf;
               Frequency := int (Frequency existingTf + Frequency tf) |})
    tfs other.

(** The kinds of [document.Field] that [encodeFieldType] tells apart. *)
Inductive FieldKind :=
  | TextField
  | NumericField
  | DateTimeField
  | BooleanField
  | GeoPointField
  | CompositeFieldKind
  | OtherField.

(** A regular field, through the methods build.go calls on it:
    [Name()], [Options().IsStored()], [Options().IncludeDocValues()],
    [Value()] and [ArrayPositions()]. *)
Record DocField := {
  Name : string;
  Kind : FieldKind;
  IsStored : bool;
  IncludeDocValues : bool;
  Value : list byte;
  FieldArrayPositions : list Z
}.

(** Modelled from the spec: a composite field of package document, "able to
    report its own analyzed token length and term-frequency map on demand".
    [Analyze()] hands out that length and that map. *)
Record CompositeField := {
  CompositeName : string;
  totalLength : Z;
  compositeFrequencies : nat
}.

Definition Analyze (field : CompositeField) : Z * nat :=
  (totalLength field, compositeFrequencies field).

Record Document := {
  CompositeFields : list CompositeField;
  Fields : list DocField
}.

(** [index.AnalysisResult]: [Analyzed] and [Length] run parallel to the
    regular fields of the document. *)
Record AnalysisResult := {
  Doc : Document;
  Analyzed : list nat;
  Length : list Z
}.

(** ** The order of map iteration *)

(** [pick n l] is the order in which the [n]-th [range] loop over a map of
    the run visits the entries [l] of that map. *)
Record Schedule := {
  pick : nat → ∀ A : Type, list A → list A;
  pick_perm : ∀ n A (l : list A), pick n A l ≡ₚ l
}.

(** ** The segment *)

(** Norm weights are [float32] values, each the result of
    [float32(1.0 / math.Sqrt(float64(l)))] for an int [l].  The build stores
    them and never computes with them; the embedding keeps the expression. *)
Inductive float32 := InvSqrt (l : Z).

(** A [roaring.Bitmap] (package roaring, outside this repository) is a set
    of 32-bit numbers; [AddInt(x)] is [Add(uint32(x))]. *)
Abbreviation Bitmap := (gset Z).

Definition AddInt (x : Z) (rb : Bitmap) : Bitmap := {[uint32 x]} ∪ rb.

(** The fields of [Segment] that build.go reads or writes, and the size
    recorded by [updateSizeInBytes]. *)
Record Segment := {
  FieldsMap : gmap string Z;
  FieldsInv : list string;
  Dicts : list (gmap string Z);
  DictKeys : list (list string);
  Postings : list Bitmap;
  PostingsLocs : list Bitmap;
  Freqs : list (list Z);
  Norms : list (list float32);
  Locfields : list (list Z);
  Locstarts : list (list Z);
  Locends : list (list Z);
  Locpos : list (list Z);
  Locarraypos : list (list (list Z));
  Stored : list (gmap Z (list (list byte)));
  StoredTypes : list (gmap Z (list byte));
  StoredPos : list (gmap Z (list (list Z)));
  DocValueFields : gmap Z bool;
  sizeInBytes : Z
}.

(** Assignment to one field of the segment. *)

Definition set_FieldsMap v (s : Segment) : Segment :=
  {| FieldsMap := v;
     FieldsInv := FieldsInv s;
     Dicts := Dicts s;
     DictKeys := DictKeys s;
     Postings := Postings s;
     PostingsLocs := PostingsLocs s;
     Freqs := Freqs s;
     Norms := Norms s;
     Locfields := Locfields s;
     Locstarts := Locstarts s;
     Locends := Locends s;
     Locpos := Locpos s;
     Locarraypos := Locarraypos s;
     Stored := Stored s;
     StoredTypes := StoredTypes s;
     StoredPos := StoredPos s;
     DocValueFields := DocValueFields s;
     sizeInBytes := sizeInBytes s |}.

Definition set_FieldsInv v (s : Segment) : Segment :=
  {| FieldsMap := FieldsMap s;
     FieldsInv := v;
     Dicts := Dicts s;
     DictKeys := DictKeys s;
     Postings := Postings s;
     PostingsLocs := PostingsLocs s;
     Freqs := Freqs s;
     Norms := Norms s;
     Locfields := Locfields s;
     Locstarts := Locstarts s;
     Locends := Locends s;
     Locpos := Locpos s;
     Locarraypos := Locarraypos s;
     Stored := Stored s;
     StoredTypes := StoredTypes s;
     StoredPos := StoredPos s;
     DocValueFields := DocValueFields s;
     sizeInBytes := sizeInBytes s |}.

Definition set_Dicts v (s : Segment) : Segment :=
  {| FieldsMap := FieldsMap s;
     FieldsInv := FieldsInv s;
     Dicts := v;
     DictKeys := DictKeys s;
     Postings := Postings s;
     PostingsLocs := PostingsLocs s;
     Freqs := Freqs s;
     Norms := Norms s;
     Locfields := Locfields s;
     Locstarts := Locstarts s;
     Locends := Locends s;
     Locpos := Locpos s;
     Locarraypos := Locarraypos s;
     Stored := Stored s;
     StoredTypes := StoredTypes s;
     StoredPos := StoredPos s;
     DocValueFields := DocValueFields s;
     sizeInBytes := sizeInBytes s |}.

Definition set_DictKeys v (s : Segment) : Segment :=
  {| FieldsMap := FieldsMap s;
     FieldsInv := FieldsInv s;
     Dicts := Dicts s;
     DictKeys := v;
     Postings := Postings s;
     PostingsLocs := PostingsLocs s;
     Freqs := Freqs s;
     Norms := Norms s;
     Locfields := Locfields s;
     Locstarts := Locstarts s;
     Locends := Locends s;
     Locpos := Locpos s;
     Locarraypos := Locarraypos s;
     Stored := Stored s;
     StoredTypes := StoredTypes s;
     StoredPos := StoredPos s;
     DocValueFields := DocValueFields s;
     sizeInBytes := sizeInBytes s |}.

Definition set_Postings v (s : Segment) : Segment :=
  {| FieldsMap := FieldsMap s;
     FieldsInv := FieldsInv s;
     Dicts := Dicts s;
     DictKeys := DictKeys s;
     Postings := v;
     PostingsLocs := PostingsLocs s;
     Freqs := Freqs s;
     Norms := Norms s;
     Locfields := Locfields s;
     Locstarts := Locstarts s;
     Locends := Locends s;
     Locpos := Locpos s;
     Locarraypos := Locarraypos s;
     Stored := Stored s;
     StoredTypes := StoredTypes s;
     StoredPos := StoredPos s;
     DocValueFields := DocValueFields s;
     sizeInBytes := sizeInBytes s |}.

Definition set_PostingsLocs v (s : Segment) : Segment :=
  {| FieldsMap := FieldsMap s;
     FieldsInv := FieldsInv s;
     Dicts := Dicts s;
     DictKeys := DictKeys s;
     Postings := Postings s;
     PostingsLocs := v;
     Freqs := Freqs s;
     Norms := Norms s;
     Locfields := Locfields s;
     Locstarts := Locstarts s;
     Locends := Locends s;
     Locpos := Locpos s;
     Locarraypos := Locarraypos s;
     Stored := Stored s;
     StoredTypes := StoredTypes s;
     StoredPos := StoredPos s;
     DocValueFields := DocValueFields s;
     sizeInBytes := sizeInBytes s |}.

Definition set_Freqs v (s : Segment) : Segment :=
  {| FieldsMap := FieldsMap s;
     FieldsInv := FieldsInv s;
     Dicts := Dicts s;
     DictKeys := DictKeys s;
     Postings := Postings s;
     PostingsLocs := PostingsLocs s;
     Freqs := v;
     Norms := Norms s;
     Locfields := Locfields s;
     Locstarts := Locstarts s;
     Locends := Locends s;
     Locpos := Locpos s;
     Locarraypos := Locarraypos s;
     Stored := Stored s;
     StoredTypes := StoredTypes s;
     StoredPos := StoredPos s;
     DocValueFields := DocValueFields s;
     sizeInBytes := sizeInBytes s |}.

Definition set_Norms v (s : Segment) : Segment :=
  {| FieldsMap := FieldsMap s;
     FieldsInv := FieldsInv s;
     Dicts := Dicts s;
     DictKeys := DictKeys s;
     Postings := Postings s;
     PostingsLocs := PostingsLocs s;
     Freqs := Freqs s;
     Norms := v;
     Locfields := Locfields s;
     Locstarts := Locstarts s;
     Locends := Locends s;
     Locpos := Locpos s;
     Locarraypos := Locarraypos s;
     Stored := Stored s;
     StoredTypes := StoredTypes s;
     StoredPos := StoredPos s;
     DocValueFields := DocValueFields s;
     sizeInBytes := sizeInBytes s |}.

Definition set_Locfields v (s : Segment) : Segment :=
  {| FieldsMap := FieldsMap s;
     FieldsInv := FieldsInv s;
     Dicts := Dicts s;
     DictKeys := DictKeys s;
     Postings := Postings s;
     PostingsLocs := PostingsLocs s;
     Freqs := Freqs s;
     Norms := Norms s;
     Locfields := v;
     Locstarts := Locstarts s;
     Locends := Locends s;
     Locpos := Locpos s;
     Locarraypos := Locarraypos s;
     Stored := Stored s;
     StoredTypes := StoredTypes s;
     StoredPos := StoredPos s;
     DocValueFields := DocValueFields s;
     sizeInBytes := sizeInBytes s |}.

Definition set_Locstarts v (s : Segment) : Segment :=
  {| FieldsMap := FieldsMap s;
     FieldsInv := FieldsInv s;
     Dicts := Dicts s;
     DictKeys := DictKeys s;
     Postings := Postings s;
     PostingsLocs := PostingsLocs s;
     Freqs := Freqs s;
     Norms := Norms s;
     Locfields := Locfields s;
     Locstarts := v;
     Locends := Locends s;
     Locpos := Locpos s;
     Locarraypos := Locarraypos s;
     Stored := Stored s;
     StoredTypes := StoredTypes s;
     StoredPos := StoredPos s;
     DocValueFields := DocValueFields s;
     sizeInBytes := sizeInBytes s |}.

Definition set_Locends v (s : Segment) : Segment :=
  {| FieldsMap := FieldsMap s;
     FieldsInv := FieldsInv s;
     Dicts := Dicts s;
     DictKeys := DictKeys s;
     Postings := Postings s;
     PostingsLocs := PostingsLocs s;
     Freqs := Freqs s;
     Norms := Norms s;
     Locfields := Locfields s;
     Locstarts := Locstarts s;
     Locends := v;
     Locpos := Locpos s;
     Locarraypos := Locarraypos s;
     Stored := Stored s;
     StoredTypes := StoredTypes s;
     StoredPos := StoredPos s;
     DocValueFields := DocValueFields s;
     sizeInBytes := sizeInBytes s |}.

Definition set_Locpos v (s : Segment) : Segment :=
  {| FieldsMap := FieldsMap s;
     FieldsInv := FieldsInv s;
     Dicts := Dicts s;
     DictKeys := DictKeys s;
     Postings := Postings s;
     PostingsLocs := PostingsLocs s;
     Freqs := Freqs s;
     Norms := Norms s;
     Locfields := Locfields s;
     Locstarts := Locstarts s;
     Locends := Locends s;
     Locpos := v;
     Locarraypos := Locarraypos s;
     Stored := Stored s;
     StoredTypes := StoredTypes s;
     StoredPos := StoredPos s;
     DocValueFields := DocValueFields s;
     sizeInBytes := sizeInBytes s |}.

Definition set_Locarraypos v (s : Segment) : Segment :=
  {| FieldsMap := FieldsMap s;
     FieldsInv := FieldsInv s;
     Dicts := Dicts s;
     DictKeys := DictKeys s;
     Postings := Postings s;
     PostingsLocs := PostingsLocs s;
     Freqs := Freqs s;
     Norms := Norms s;
     Locfields := Locfields s;
     Locstarts := Locstarts s;
     Locends := Locends s;
     Locpos := Locpos s;
     Locarraypos := v;
     Stored := Stored s;
     StoredTypes := StoredTypes s;
     StoredPos := StoredPos s;
     DocValueFields := DocValueFields s;
     sizeInBytes := sizeInBytes s |}.

Definition set_Stored v (s : Segment) : Segment :=
  {| FieldsMap := FieldsMap s;
     FieldsInv := FieldsInv s;
     Dicts := Dicts s;
     DictKeys := DictKeys s;
     Postings := Postings s;
     PostingsLocs := PostingsLocs s;
     Freqs := Freqs s;
     Norms := Norms s;
     Locfields := Locfields s;
     Locstarts := Locstarts s;
     Locends := Locends s;
     Locpos := Locpos s;
     Locarraypos := Locarraypos s;
     Stored := v;
     StoredTypes := StoredTypes s;
     StoredPos := StoredPos s;
     DocValueFields := DocValueFields s;
     sizeInBytes := sizeInBytes s |}.

Definition set_StoredTypes v (s : Segment) : Segment :=
  {| FieldsMap := FieldsMap s;
     FieldsInv := FieldsInv s;
     Dicts := Dicts s;
     DictKeys := DictKeys s;
     Postings := Postings s;
     PostingsLocs := PostingsLocs s;
     Freqs := Freqs s;
     Norms := Norms s;
     Locfields := Locfields s;
     Locstarts := Locstarts s;
     Locends := Locends s;
     Locpos := Locpos s;
     Locarraypos := Locarraypos s;
     Stored := Stored s;
     StoredTypes := v;
     StoredPos := StoredPos s;
     DocValueFields := DocValueFields s;
     sizeInBytes := sizeInBytes s |}.

Definition set_StoredPos v (s : Segment) : Segment :=
  {| FieldsMap := FieldsMap s;
     FieldsInv := FieldsInv s;
     Dicts := Dicts s;
     DictKeys := DictKeys s;
     Postings := Postings s;
     PostingsLocs := PostingsLocs s;
     Freqs := Freqs s;
     Norms := Norms s;
     Locfields := Locfields s;
     Locstarts := Locstarts s;
     Locends := Locends s;
     Locpos := Locpos s;
     Locarraypos := Locarraypos s;
     Stored := Stored s;
     StoredTypes := StoredTypes s;
     StoredPos := v;
     DocValueFields := DocValueFields s;
     sizeInBytes := sizeInBytes s |}.

Definition set_DocValueFields v (s : Segment) : Segment :=
  {| FieldsMap := FieldsMap s;
     FieldsInv := FieldsInv s;
     Dicts := Dicts s;
     DictKeys := DictKeys s;
     Postings := Postings s;
     PostingsLocs := PostingsLocs s;
     Freqs := Freqs s;
     Norms := Norms s;
     Locfields := Locfields s;
     Locstarts := Locstarts s;
     Locends := Locends s;
     Locpos := Locpos s;
     Locarraypos := Locarraypos s;
     Stored := Stored s;
     StoredTypes := StoredTypes s;
     StoredPos := StoredPos s;
     DocValueFields := v;
     sizeInBytes := sizeInBytes s |}.

Definition set_sizeInBytes v (s : Segment) : Segment :=
  {| FieldsMap := FieldsMap s;
     FieldsInv := FieldsInv s;
     Dicts := Dicts s;
     DictKeys := DictKeys s;
     Postings := Postings s;
     PostingsLocs := PostingsLocs s;
     Freqs := Freqs s;
     Norms := Norms s;
     Locfields := Locfields s;
     Locstarts := Locstarts s;
     Locends := Locends s;
     Locpos := Locpos s;
     Locarraypos := Locarraypos s;
     Stored := Stored s;
     StoredTypes := StoredTypes s;
     StoredPos := StoredPos s;
     DocValueFields := DocValueFields s;
     sizeInBytes := v |}.

(** Modelled from the spec: [New()] of segment.go, which is not part of the
    sources at hand; "create an empty segment". *)
Definition New : Segment :=
  {| FieldsMap := ∅; FieldsInv := []; Dicts := []; DictKeys := [];
     Postings := []; PostingsLocs := []; Freqs := []; Norms := [];
     Locfields := []; Locstarts := []; Locends := []; Locpos := [];
     Locarraypos := []; Stored := []; StoredTypes := []; StoredPos := [];
     DocValueFields := ∅; sizeInBytes := 0 |}.

(** ** Field registry *)

Definition getOrDefineField (name : string) (s : Segment) : Z * Segment :=
  match FieldsMap s !! name with
  | Some fieldID => (uint16 (fieldID - 1), s)
  | None =>
      let fieldID := uint16 (len (FieldsInv s) + 1) in
      let s := set_FieldsMap (<[name := fieldID]> (FieldsMap s)) s in
      let s := set_FieldsInv (FieldsInv s ++ [name]) s in
      let s := set_Dicts (Dicts s ++ [∅]) s in
      let s := set_DictKeys (DictKeys s ++ [[]]) s in
      (uint16 (fieldID - 1), s)
  end.

Definition addDocument (s : Segment) : Z * Segment :=
  let docNum := len (Stored s) in
  let s := set_Stored (Stored s ++ [∅]) s in
  let s := set_StoredTypes (StoredTypes s ++ [∅]) s in
  let s := set_StoredPos (StoredPos s ++ [∅]) s in
  (docNum, s).

Definition encodeFieldType (f : DocField) : byte :=
  match Kind f with
  | TextField => x74
  | NumericField => x6e
  | DateTimeField => x64
  | BooleanField => x62
  | GeoPointField => x67
  | CompositeFieldKind => x63
  | OtherField => x78
  end.

(** [sort.Strings]: increasing order of the strings, compared byte by byte. *)
Definition sortStrings (l : list string) : list string :=
  merge_sort String.le l.

(** ** The build *)

(** What a build works on: the segment, the store of token-frequency maps
    it reads and merges into, and the number of [range] loops over maps
    run so far. *)
Record State := {
  seg : Segment;
  store : Store;
  clock : nat
}.

Definition set_seg (s : Segment) (st : State) : State :=
  {| seg := s; store := store st; clock := clock st |}.

(** The values collated for one document: [docMap] and [fieldLens]. *)
Record Collation := {
  docMap : gmap Z nat;
  fieldLens : gmap Z Z
}.

Section Build.

Context (sched : Schedule).

(** Modelled from the spec: the footprint that [updateSizeInBytes] of
    segment.go (not part of the sources at hand) computes, "the sum of the
    retained size of every structure"; "metadata only". *)
Context (footprint : Segment → Z).

Definition updateSizeInBytes (s : Segment) : Segment :=
  set_sizeInBytes (footprint s) s.

(** The entries of a map in the order of the [range] loop numbered [n]. *)
Definition range {K V} `{Countable K} (n : nat) (m : gmap K V)
    : list (K * V) :=
  pick sched n _ (map_to_list m).

(** *** First pass: dictionaries *)

(** The body of the loop of [processField] (lines 94 to 99). *)
Definition dictTerm (fieldID : Z) (term : string) (acc : Segment * Z)
    : Result (Segment * Z) :=
  let '(s, numPostings) := acc in
  do dict <- index 94 (Dicts s) fieldID;
  match dict !! term with
  | Some _ => Ok (s, numPostings)
  | None =>
      let numPostings := numPostings + 1 in
      do dicts <- modify 97 (Dicts s) fieldID
                    (λ dict, <[term := uint64 numPostings]> dict);
      let s := set_Dicts dicts s in
      do keys <- modify 98 (DictKeys s) fieldID (λ keys, keys ++ [term]);
      let s := set_DictKeys keys s in
      Ok (s, numPostings)
  end.

(** The closure [processField] of [initializeDict]. *)
Definition dictField (fieldID : Z) (tf : nat) (acc : State * Z)
    : Result (State * Z) :=
  let '(st, numPostings) := acc in
  let terms := (range (clock st) (deref (store st) tf)).*1 in
  do (s, numPostings) <- forEach (dictTerm fieldID) terms
                            (seg st, numPostings);
  Ok ({| seg := s; store := store st; clock := S (clock st) |},
      numPostings).

Definition dictComposite (field : CompositeField) (acc : State * Z)
    : Result (State * Z) :=
  let '(st, numPostings) := acc in
  let '(fieldID, s) := getOrDefineField (CompositeName field) (seg st) in
  let fieldID := uint16 fieldID in
  let '(_, tf) := Analyze field in
  dictField fieldID tf (set_seg s st, numPostings).

Definition dictRegular (result : AnalysisResult) (entry : Z * DocField)
    (acc : State * Z) : Result (State * Z) :=
  let '(i, field) := entry in
  let '(st, numPostings) := acc in
  let '(fieldID, s) := getOrDefineField (Name field) (seg st) in
  let fieldID := uint16 fieldID in
  do tf <- index 114 (Analyzed result) i;
  dictField fieldID tf (set_seg s st, numPostings).

(** The body of the loop over the results (lines 104 to 116). *)
Definition dictDocument (result : AnalysisResult) (acc : State * Z)
    : Result (State * Z) :=
  do acc <- forEach dictComposite (CompositeFields (Doc result)) acc;
  forEach (dictRegular result) (enumerate (Fields (Doc result))) acc.

(** [make([]T, n)] with every slot set to [x]. *)
Definition make {A} (n : Z) (x : A) : list A := replicate (Z.to_nat n) x.

(** Lines 119 to 133.  [numPostings] is an int: the embedding counts in
    [Z], and a count that no int holds cannot be the length of the slices
    made here. *)
Definition allocate (numPostings : Z) (s : Segment) : Result Segment :=
  if numPostings <=? maxInt then
    let s := set_Postings (make numPostings ∅) s in
    let s := set_PostingsLocs (make numPostings ∅) s in
    let s := set_Freqs (make numPostings []) s in
    let s := set_Norms (make numPostings []) s in
    let s := set_Locfields (make numPostings []) s in
    let s := set_Locstarts (make numPostings []) s in
    let s := set_Locends (make numPostings []) s in
    let s := set_Locpos (make numPostings []) s in
    let s := set_Locarraypos (make numPostings []) s in
    Ok s
  else Panic 119.

Definition initializeDict (results : list AnalysisResult) (st : State)
    : Result State :=
  do (st, numPostings) <- forEach dictDocument results (st, 0);
  do s <- allocate numPostings (seg st);
  Ok (set_seg s st).

(** *** Second pass: documents *)

(** Modelled from the spec: the call [existingFreqs.MergeAll(name, tf)] of
    line 146, on maps given by their addresses.  [MergeAll] merges "into
    the field's running term-frequency map": it writes through the address
    of the receiving map.  A nil map takes no entry in Go, so merging a map
    that has entries into a nil map panics with the first of them, and
    merging a map without entries writes nothing. *)
Definition mergeInto (name : string) (existingFreqs tf : nat) (h : Store)
    : Result Store :=
  match h !! existingFreqs with
  | Some tfs => Ok (<[existingFreqs := MergeAll name tfs (deref h tf)]> h)
  | None => if decide (size (deref h tf) = 0%nat) then Ok h else Panic 146
  end.

(** The closure [processField] of [processDocument]; [tf] and the maps of
    [docMap] are addresses.  A nil map stored in [docMap] is found there
    like any other ([ok] is true at line 145). *)
Definition processField (field : Z) (name : string) (l : Z) (tf : nat)
    (acc : Collation * Store) : Result (Collation * Store) :=
  let '(c, h) := acc in
  let fieldLens' :=
    <[field := int (default 0 (fieldLens c !! field) + l)]> (fieldLens c) in
  match docMap c !! field with
  | Some existingFreqs =>
      do h <- mergeInto name existingFreqs tf h;
      Ok ({| docMap := docMap c; fieldLens := fieldLens' |}, h)
  | None =>
      Ok ({| docMap := <[field := tf]> (docMap c); fieldLens := fieldLens' |},
          h)
  end.

(** The closure [storeField]. *)
Definition storeField (docNum field : Z) (typ : byte) (val : list byte)
    (pos : list Z) (s : Segment) : Result Segment :=
  do stored <- modify 153 (Stored s) docNum
                 (λ m, <[field := default [] (m !! field) ++ [val]]> m);
  let s := set_Stored stored s in
  do types <- modify 154 (StoredTypes s) docNum
                (λ m, <[field := default [] (m !! field) ++ [typ]]> m);
  let s := set_StoredTypes types s in
  do poss <- modify 155 (StoredPos s) docNum
               (λ m, <[field := default [] (m !! field) ++ [pos]]> m);
  let s := set_StoredPos poss s in
  Ok s.

(** What the two loops over the fields of a document work on. *)
Record Assembly := {
  aseg : Segment;
  astore : Store;
  acoll : Collation
}.

(** Lines 160 to 162. *)
Definition collateComposite (field : CompositeField) (a : Assembly)
    : Result Assembly :=
  let '(fieldID, s) := getOrDefineField (CompositeName field) (aseg a) in
  let fieldID := uint16 fieldID in
  let '(l, tf) := Analyze field in
  do (c, h) <- processField fieldID (CompositeName field) l tf
                 (acoll a, astore a);
  Ok {| aseg := s; astore := h; acoll := c |}.

(** Lines 167 to 177. *)
Definition collateRegular (result : AnalysisResult) (docNum : Z)
    (entry : Z * DocField) (a : Assembly) : Result Assembly :=
  let '(i, field) := entry in
  let '(fieldID, s) := getOrDefineField (Name field) (aseg a) in
  let fieldID := uint16 fieldID in
  do l <- index 168 (Length result) i;
  do tf <- index 169 (Analyzed result) i;
  do (c, h) <- processField fieldID (Name field) l tf (acoll a, astore a);
  do s <- (if IsStored field then
             storeField docNum fieldID (encodeFieldType field) (Value field)
               (FieldArrayPositions field) s
           else Ok s);
  let s := if IncludeDocValues field then
             set_DocValueFields (<[fieldID := true]> (DocValueFields s)) s
           else s in
  Ok {| aseg := s; astore := h; acoll := c |}.

(** Lines 193 to 205: one location of a term. *)
Definition walkLocation (pid fieldID : Z) (loc : TokenLocation) (s : Segment)
    : Result Segment :=
  let '(locf, s) :=
    if decide (Field loc = EmptyString) then (fieldID, s)
    else let '(f, s) := getOrDefineField (Field loc) s in (uint16 f, s) in
  do locfields <- modify 197 (Locfields s) pid (λ l, l ++ [locf]);
  let s := set_Locfields locfields s in
  do locstarts <- modify 198 (Locstarts s) pid (λ l, l ++ [uint64 (Start loc)]);
  let s := set_Locstarts locstarts s in
  do locends <- modify 199 (Locends s) pid (λ l, l ++ [uint64 (End_ loc)]);
  let s := set_Locends locends s in
  do locpos <- modify 200 (Locpos s) pid (λ l, l ++ [uint64 (Position loc)]);
  let s := set_Locpos locpos s in
  if 0 <? len (ArrayPositions loc) then
    do locarraypos <- modify 202 (Locarraypos s) pid
                        (λ l, l ++ [ArrayPositions loc]);
    Ok (set_Locarraypos locarraypos s)
  else
    do locarraypos <- modify 204 (Locarraypos s) pid (λ l, l ++ [[]]);
    Ok (set_Locarraypos locarraypos s).

(** Lines 183 to 207: one term of a collated field. *)
Definition walkTerm (docNum : Z) (lens : gmap Z Z) (fieldID : Z)
    (entry : string * TokenFreq) (s : Segment) : Result Segment :=
  let '(term, tokenFreq) := entry in
  do dict <- index 183 (Dicts s) fieldID;
  let fieldTermPostings := default 0 (dict !! term) in
  let pid := uint64 (fieldTermPostings - 1) in
  do bs <- index 185 (Postings s) pid;
  do postings <- assign 185 (Postings s) pid (AddInt (int docNum) bs);
  let s := set_Postings postings s in
  do freqs <- modify 187 (Freqs s) pid
                (λ l, l ++ [uint64 (Frequency tokenFreq)]);
  let s := set_Freqs freqs s in
  do norms <- modify 188 (Norms s) pid
                (λ l, l ++ [InvSqrt (default 0 (lens !! fieldID))]);
  let s := set_Norms norms s in
  do locationBS <- index 189 (PostingsLocs s) pid;
  if 0 <? len (Locations tokenFreq) then
    do postingsLocs <- assign 189 (PostingsLocs s) pid
                         (AddInt (int docNum) locationBS);
    let s := set_PostingsLocs postingsLocs s in
    forEach (walkLocation pid fieldID) (Locations tokenFreq) s
  else Ok s.

(** Lines 181 to 208: one field of [docMap]. *)
Definition walkField (docNum : Z) (lens : gmap Z Z) (h : Store)
    (entry : Z * nat) (acc : Segment * nat) : Result (Segment * nat) :=
  let '(fieldID, tokenFrequencies) := entry in
  let '(s, n) := acc in
  do s <- forEach (walkTerm docNum lens fieldID)
            (range n (deref h tokenFrequencies)) s;
  Ok (s, S n).

(** The two loops over the fields of the document (lines 159 to 178). *)
Definition collate (result : AnalysisResult) (docNum : Z) (a : Assembly)
    : Result Assembly :=
  do a <- forEach collateComposite (CompositeFields (Doc result)) a;
  forEach (collateRegular result docNum) (enumerate (Fields (Doc result))) a.

Definition emptyCollation : Collation := {| docMap := ∅; fieldLens := ∅ |}.

Definition processDocument (result : AnalysisResult) (st : State)
    : Result State :=
  let '(docNum, s) := addDocument (seg st) in
  do a <- collate result docNum
            {| aseg := s; astore := store st; acoll := emptyCollation |};
  let fields := range (clock st) (docMap (acoll a)) in
  do (s, n) <- forEach (walkField docNum (fieldLens (acoll a)) (astore a))
                  fields (aseg a, S (clock st));
  Ok {| seg := s; store := astore a; clock := n |}.

(** Lines 43 to 45. *)
Definition sortDictKeys (s : Segment) : Segment :=
  set_DictKeys (sortStrings <$> DictKeys s) s.

(** The segment with the identity field registered (lines 29 to 32). *)
Definition initial : Segment := (getOrDefineField "_id" New).2.

(** The segment after the two passes, before the term lists are sorted. *)
Definition assembled (results : list AnalysisResult) (h : Store)
    : Result State :=
  do st <- initializeDict results {| seg := initial; store := h; clock := 0 |};
  forEach processDocument results st.

(** The result is the segment; the store is returned with it, since the
    build merges into the maps it was given. *)
Definition NewFromAnalyzedDocs (results : list AnalysisResult) (h : Store)
    : Result (Segment * Store) :=
  do st <- assembled results h;
  let s := sortDictKeys (seg st) in
  let s := updateSizeInBytes s in
  Ok (s, store st).

End Build.

(** ** Notions used in the statements *)

(** [l !! i] for an integer index. *)
Definition get {A} (l : list A) (i : Z) : option A :=
  if inBounds l i then l !! Z.to_nat i else None.

(** [s.Dicts[fieldID][term]], when both lookups find something. *)
Definition dictLookup (s : Segment) (fieldID : Z) (term : string) : option Z :=
  get (Dicts s) fieldID ≫= (λ dict, dict !! term).

(** The field id that [getOrDefineField] returns for a registered name. *)
Definition extId (s : Segment) (name : string) : option Z :=
  (λ fieldID, uint16 (fieldID - 1)) <$> FieldsMap s !! name.

Definition fieldIdOf (s : Segment) (name : string) : Z :=
  default 0 (extId s name).

(** The distinct elements of a list, in the order of their first
    occurrences. *)
Definition addDistinct {A} `{EqDecision A} (acc : list A) (x : A) : list A :=
  if decide (x ∈ acc) then acc else acc ++ [x].

Definition distinctInOrder {A} `{EqDecision A} (l : list A) : list A :=
  foldl addDistinct [] l.

(** The position of the first occurrence of [x] in [l]. *)
Definition position {A} `{EqDecision A} (x : A) (l : list A) : option nat :=
  fst <$> list_find (λ y, y = x) l.

(** The members of a bitmap in increasing order, as its iterator yields
    them. *)
Definition members (b : Bitmap) : list Z := merge_sort Z.le (elements b).

(** The fields of a document in the order both passes scan them: composite
    fields first, then regular fields; each with the address of its
    token-frequency map. *)
Definition fieldsOf (r : AnalysisResult) : list (string * nat) :=
  ((λ c, (CompositeName c, compositeFrequencies c)) <$> CompositeFields (Doc r))
  ++ zip (Name <$> Fields (Doc r)) (Analyzed r).

Definition batchFields (results : list AnalysisResult) : list (string * nat) :=
  results ≫= fieldsOf.

(** The token lengths of the fields of a document, in the same order. *)
Definition lengthsOf (r : AnalysisResult) : list (string * Z) :=
  ((λ c, (CompositeName c, totalLength c)) <$> CompositeFields (Doc r))
  ++ zip (Name <$> Fields (Doc r)) (Length r).


(** The regular fields of [r] that are stored and have field id [fieldID]. *)
Definition storedFields (s : Segment) (r : AnalysisResult) (fieldID : Z)
    : list DocField :=
  filter (λ f, IsStored f = true ∧ fieldIdOf s (Name f) = fieldID)
    (Fields (Doc r)).

(** No token-frequency map is shared between fields of different names. *)
Definition ownedByName (results : list AnalysisResult) : Prop :=
  ∀ name1 name2 a,
    (name1, a) ∈ batchFields results → (name2, a) ∈ batchFields results →
    name1 = name2.

(** The entries at index [p] of the nine arrays that run parallel to the
    posting ordinals. *)
Record Slot := {
  sPostings : Bitmap;
  sPostingsLocs : Bitmap;
  sFreqs : list Z;
  sNorms : list float32;
  sLocfields : list Z;
  sLocstarts : list Z;
  sLocends : list Z;
  sLocpos : list Z;
  sLocarraypos : list (list Z)
}.

Definition slot (s : Segment) (p : Z) : option Slot :=
  b ← get (Postings s) p; bl ← get (PostingsLocs s) p;
  fs ← get (Freqs s) p; ns ← get (Norms s) p;
  lf ← get (Locfields s) p; ls ← get (Locstarts s) p;
  le ← get (Locends s) p; lp ← get (Locpos s) p;
  la ← get (Locarraypos s) p;
  Some {| sPostings := b; sPostingsLocs := bl; sFreqs := fs; sNorms := ns;
          sLocfields := lf; sLocstarts := ls; sLocends := le; sLocpos := lp;
          sLocarraypos := la |}.

(** The state a build starts from. *)
Definition start (h : Store) : State :=
  {| seg := initial; store := h; clock := 0 |}.

Section Runs.

Context (sched : Schedule).

(** The (field name, term) pairs in the order the first pass visits them:
    the fields in scan order, the terms of a field in the order of the
    [range] loop over its map, the loops numbered from [n]. *)
Fixpoint scanFrom (h : Store) (n : nat) (fields : list (string * nat))
    : list (string * string) :=
  match fields with
  | [] => []
  | (name, a) :: fields =>
      ((λ e, (name, e.1)) <$> range sched n (deref h a))
      ++ scanFrom h (S n) fields
  end.

Definition scan (results : list AnalysisResult) (h : Store)
    : list (string * string) :=
  scanFrom h 0 (batchFields results).

(** The same pairs with the field ids of segment [s]. *)
Definition scanIds (s : Segment) (results : list AnalysisResult) (h : Store)
    : list (Z * string) :=
  (λ e, (fieldIdOf s e.1, e.2)) <$> scan results h.

(** The (field id, term, frequency) entries in the order the loops of lines
    181 and 182 visit them, the loops over the inner maps numbered from
    [n]. *)
Fixpoint walked (h : Store) (n : nat) (fields : list (Z * nat))
    : list (Z * string * TokenFreq) :=
  match fields with
  | [] => []
  | (fieldID, a) :: fields =>
      ((λ e, (fieldID, e.1, e.2)) <$> range sched n (deref h a))
      ++ walked h (S n) fields
  end.

(** The state after the first pass and the first [k] documents. *)
Definition assembledUpTo (results : list AnalysisResult) (h : Store) (k : nat)
    : Result State :=
  do st <- initializeDict sched results (start h);
  forEach (processDocument sched) (take k results) st.

End Runs.

(** The registry structures agree: they have one size, and the name at
    index [k] of [FieldsInv] is mapped to the 16-bit value of [k + 1]. *)
Definition registryOK (s : Segment) : Prop :=
  length (Dicts s) = length (FieldsInv s) ∧
  length (DictKeys s) = length (FieldsInv s) ∧
  size (FieldsMap s) = length (FieldsInv s) ∧
  NoDup (FieldsInv s) ∧
  ∀ name v,
    FieldsMap s !! name = Some v ↔
    ∃ k : nat, FieldsInv s !! k = Some name ∧ v = uint16 (Z.of_nat k + 1).

(** The arrays indexed by posting ordinal, and the stored values. *)
Definition arrays (s : Segment) :=
  (Postings s, PostingsLocs s, Freqs s, Norms s, Locfields s, Locstarts s,
   Locends s, Locpos s, Locarraypos s).

Definition documents (s : Segment) :=
  (Stored s, StoredTypes s, StoredPos s).

(** [s'] has the registered names of [s] and its dictionaries, followed by
    empty dictionaries. *)
Definition grows (s s' : Segment) : Prop :=
  FieldsMap s ⊆ FieldsMap s' ∧
  ∃ k, Dicts s' = Dicts s ++ replicate k ∅.

(** The dictionaries hold exactly the pairs of [ord], each with the 64-bit
    value of its position in [ord], counted from one. *)
Definition dictOK (ord : list (Z * string)) (s : Segment) : Prop :=
  NoDup ord ∧
  ∀ f t v,
    dictLookup s f t = Some v ↔
    ∃ i : nat, ord !! i = Some (f, t) ∧ v = uint64 (Z.of_nat i + 1).

(** [s'] differs from [s] at most in the contents of the dictionaries and
    of the term lists. *)
Definition sameButDicts (s s' : Segment) : Prop :=
  FieldsMap s' = FieldsMap s ∧ FieldsInv s' = FieldsInv s ∧
  length (Dicts s') = length (Dicts s) ∧
  length (DictKeys s') = length (DictKeys s) ∧
  arrays s' = arrays s ∧ documents s' = documents s ∧
  DocValueFields s' = DocValueFields s ∧ sizeInBytes s' = sizeInBytes s.

(** What the first pass does for one field, given by its name and the
    address of its token-frequency map. *)
Definition dictNamed (sched : Schedule) (e : string * nat) (acc : State * Z)
    : Result (State * Z) :=
  let '(st, numPostings) := acc in
  let '(fieldID, s) := getOrDefineField e.1 (seg st) in
  dictField sched (uint16 fieldID) e.2 (set_seg s st, numPostings).

(** What holds after the first pass has visited the fields [fields]. *)
Definition dictPassInv (sched : Schedule) (st0 : State) (fields : list (string * nat))
    (acc : State * Z) : Prop :=
  let s := seg acc.1 in
  let ord :=
    distinctInOrder
      ((λ e, (fieldIdOf s e.1, e.2))
         <$> scanFrom sched (store st0) (clock st0) fields) in
  registryOK s ∧ FieldsMap (seg st0) ⊆ FieldsMap s ∧
  (∀ name, name ∈ fields.*1 → is_Some (FieldsMap s !! name)) ∧
  dictOK ord s ∧ acc.2 = len ord ∧
  store acc.1 = store st0 ∧
  clock acc.1 = (clock st0 + length fields)%nat ∧
  arrays s = arrays (seg st0) ∧ documents s = documents (seg st0) ∧
  DocValueFields s = DocValueFields (seg st0) ∧
  sizeInBytes s = sizeInBytes (seg st0).


(** The (field id, term) pairs of the batch, by the field ids of [s]. *)
Definition batchPairs (s : Segment) (results : list AnalysisResult) (h : Store)
    : gset (Z * string) :=
  list_to_set
    (batchFields results ≫= λ e,
       (λ t, (fieldIdOf s e.1, t)) <$> elements (dom (deref h e.2))).

(** The dictionaries and the arrays fit together: the pairs of [ord] hold
    the ordinals, there is a slot per ordinal in each of the nine arrays,
    and their number is an int. *)
Definition postingsOK (ord : list (Z * string)) (s : Segment) : Prop :=
  dictOK ord s ∧ len (Postings s) = len ord ∧ len ord ≤ maxInt ∧
  len (PostingsLocs s) = len ord ∧ len (Freqs s) = len ord ∧
  len (Norms s) = len ord ∧ len (Locfields s) = len ord ∧
  len (Locstarts s) = len ord ∧ len (Locends s) = len ord ∧
  len (Locpos s) = len ord ∧ len (Locarraypos s) = len ord.

(** [s'] has the registry, the dictionaries and the term lists of [s]. *)
Definition sameDicts (s s' : Segment) : Prop :=
  FieldsMap s' = FieldsMap s ∧ FieldsInv s' = FieldsInv s ∧
  Dicts s' = Dicts s ∧ DictKeys s' = DictKeys s.

(** [n] locations were appended to the location sequences of a slot, and
    nothing else changed. *)
Definition locsAdded (n : nat) (sl sl' : Slot) : Prop :=
  sPostings sl' = sPostings sl ∧ sPostingsLocs sl' = sPostingsLocs sl ∧
  sFreqs sl' = sFreqs sl ∧ sNorms sl' = sNorms sl ∧
  length (sLocfields sl') = (length (sLocfields sl) + n)%nat ∧
  length (sLocstarts sl') = (length (sLocstarts sl) + n)%nat ∧
  length (sLocends sl') = (length (sLocends sl) + n)%nat ∧
  length (sLocpos sl') = (length (sLocpos sl) + n)%nat ∧
  length (sLocarraypos sl') = (length (sLocarraypos sl) + n)%nat.

(** Document [docNum] was entered into a slot with the norm [nrm] and the
    frequency and the locations of [tf]. *)
Definition hit (docNum : Z) (nrm : float32) (tf : TokenFreq) (sl sl' : Slot)
    : Prop :=
  sPostings sl' = AddInt (int docNum) (sPostings sl) ∧
  sPostingsLocs sl' = (if decide (Locations tf = []) then sPostingsLocs sl
                       else AddInt (int docNum) (sPostingsLocs sl)) ∧
  sFreqs sl' = sFreqs sl ++ [uint64 (Frequency tf)] ∧
  sNorms sl' = sNorms sl ++ [nrm] ∧
  length (sLocfields sl') = (length (sLocfields sl) + length (Locations tf))%nat ∧
  length (sLocstarts sl') = (length (sLocstarts sl) + length (Locations tf))%nat ∧
  length (sLocends sl') = (length (sLocends sl) + length (Locations tf))%nat ∧
  length (sLocpos sl') = (length (sLocpos sl) + length (Locations tf))%nat ∧
  length (sLocarraypos sl') = (length (sLocarraypos sl) + length (Locations tf))%nat.

(** The body of the loops of lines 181 and 182 for one walked entry. *)
Definition walkEntry (docNum : Z) (lens : gmap Z Z)
    (e : Z * string * TokenFreq) (s : Segment) : Result Segment :=
  walkTerm docNum lens e.1.1 (e.1.2, e.2) s.

(** What the walk over the entries [entries] does to the slots: a slot
    whose ordinal belongs to none of the entries is left as it is, and a
    slot whose ordinal belongs to an entry is hit with that entry. *)
Definition slotEffect (docNum : Z) (lens : gmap Z Z)
    (entries : list (Z * string * TokenFreq)) (s s' : Segment) : Prop :=
  ∀ p sl, slot s p = Some sl →
    (slot s' p = Some sl ∧
     ∀ e, e ∈ entries → dictLookup s e.1.1 e.1.2 ≠ Some (p + 1)) ∨
    (∃ e sl', e ∈ entries ∧ dictLookup s e.1.1 e.1.2 = Some (p + 1) ∧
              slot s' p = Some sl' ∧
              hit docNum (InvSqrt (default 0 (lens !! e.1.1))) e.2 sl sl').

(** A field of a document as the loops of lines 159 to 178 use it: its
    name, its token length, the address of its token-frequency map and, for
    a regular field, the field itself. *)
Record Item := {
  iName : string;
  iLength : Z;
  iFreqs : nat;
  iField : option DocField
}.

Definition compositeItem (c : CompositeField) : Item :=
  {| iName := CompositeName c; iLength := totalLength c;
     iFreqs := compositeFrequencies c; iField := None |}.

Fixpoint regularItems (fields : list DocField) (analyzed : list nat)
    (lengths : list Z) : list Item :=
  match fields, analyzed, lengths with
  | f :: fields, a :: analyzed, l :: lengths =>
      {| iName := Name f; iLength := l; iFreqs := a; iField := Some f |}
      :: regularItems fields analyzed lengths
  | _, _, _ => []
  end.

Definition itemsOf (r : AnalysisResult) : list Item :=
  (compositeItem <$> CompositeFields (Doc r))
  ++ regularItems (Fields (Doc r)) (Analyzed r) (Length r).

(** What lines 159 to 178 do for one field. *)
Definition collateItem (docNum : Z) (it : Item) (a : Assembly)
    : Result Assembly :=
  let '(fieldID, s) := getOrDefineField (iName it) (aseg a) in
  let fieldID := uint16 fieldID in
  do (c, h) <- processField fieldID (iName it) (iLength it) (iFreqs it)
                 (acoll a, astore a);
  do s <- match iField it with
          | Some field =>
              if IsStored field then
                storeField docNum fieldID (encodeFieldType field) (Value field)
                  (FieldArrayPositions field) s
              else Ok s
          | None => Ok s
          end;
  let s := match iField it with
           | Some field =>
               if IncludeDocValues field then
                 set_DocValueFields (<[fieldID := true]> (DocValueFields s)) s
               else s
           | None => s
           end in
  Ok {| aseg := s; astore := h; acoll := c |}.

(** Both [Analyzed] and [Length] have an entry for every regular field. *)
Definition aligned (r : AnalysisResult) : Prop :=
  (length (Fields (Doc r)) ≤ length (Analyzed r))%nat ∧
  (length (Fields (Doc r)) ≤ length (Length r))%nat.

(** What holds while the fields of a document are collated: [s0] is the
    segment after [addDocument], [St], [Ty] and [Po] are the stored values
    of the documents before, and [pre] are the fields collated so far. *)
Definition collateInv (s0 : Segment)
    (St : list (gmap Z (list (list byte)))) (Ty : list (gmap Z (list byte)))
    (Po : list (gmap Z (list (list Z)))) (pre : list Item) (a : Assembly)
    : Prop :=
  let s := aseg a in
  registryOK s ∧ grows s0 s ∧ arrays s = arrays s0 ∧
  (∀ it, it ∈ pre → is_Some (FieldsMap s !! iName it)) ∧
  (∀ it fld, it ∈ pre → iField it = Some fld → Name fld = iName it) ∧
  (∀ f, default 0 (fieldLens (acoll a) !! f)
        = foldl (λ acc l, int (acc + l)) 0
            (filter (λ e, fieldIdOf s e.1 = f)
               ((λ it, (iName it, iLength it)) <$> pre)).*2) ∧
  (∀ f addr, docMap (acoll a) !! f = Some addr →
             ∃ name, (name, addr) ∈ ((λ it, (iName it, iFreqs it)) <$> pre) ∧
                     fieldIdOf s name = f) ∧
  ∃ m1 m2 m3,
    documents s = (St ++ [m1], Ty ++ [m2], Po ++ [m3]) ∧
    ∀ f, let fs := filter (λ fld, IsStored fld = true ∧
                                  fieldIdOf s (Name fld) = f)
                     (omap iField pre) in
         default [] (m1 !! f) = Value <$> fs ∧
         default [] (m2 !! f) = encodeFieldType <$> fs ∧
         default [] (m3 !! f) = FieldArrayPositions <$> fs.

(** What holds of the state after the first pass and [k] documents. *)
Definition runInv (ord : list (Z * string)) (k : nat) (st : State) : Prop :=
  registryOK (seg st) ∧ postingsOK ord (seg st) ∧
  len (Stored (seg st)) = Z.of_nat k ∧
  len (StoredTypes (seg st)) = Z.of_nat k ∧
  len (StoredPos (seg st)) = Z.of_nat k.

(** The membership bitmaps of a segment that holds [k] documents run
    parallel to the frequency and norm sequences. *)
Definition slotsOK (k : nat) (s : Segment) : Prop :=
  ∀ p sl, slot s p = Some sl →
    length (sFreqs sl) = size (sPostings sl) ∧
    length (sNorms sl) = size (sPostings sl) ∧
    (∀ z, z ∈ sPostings sl → 0 ≤ z < Z.of_nat k).

(** The location data of the slots of a segment are consistent. *)
Definition locsOK (s : Segment) : Prop :=
  ∀ p sl, slot s p = Some sl →
    sPostingsLocs sl ⊆ sPostings sl ∧
    length (sLocstarts sl) = length (sLocfields sl) ∧
    length (sLocends sl) = length (sLocfields sl) ∧
    length (sLocpos sl) = length (sLocfields sl) ∧
    length (sLocarraypos sl) = length (sLocfields sl).

(** Document [d] of the batch contributed the entries number [K] of the
    frequency and norm sequences of slot [p]: when it was assembled, both
    sequences had [K] entries, and [x] and [y] were appended to them. *)
Definition contributes (sched : Schedule) (results : list AnalysisResult)
    (h : Store) (p : Z) (d K : nat) (x : Z) (y : float32) : Prop :=
  ∃ st st' sl sl',
    assembledUpTo sched results h d = Ok st ∧
    assembledUpTo sched results h (S d) = Ok st' ∧
    slot (seg st) p = Some sl ∧ slot (seg st') p = Some sl' ∧
    length (sFreqs sl) = K ∧ length (sNorms sl) = K ∧
    sFreqs sl' = sFreqs sl ++ [x] ∧ sNorms sl' = sNorms sl ++ [y].

(** The names [walkTerm] looks up for an entry: the fields that its
    locations name. *)
Definition locationNames (tf : TokenFreq) : list string :=
  filter (λ name, name ≠ EmptyString) (Field <$> Locations tf).

(** [getOrDefineField] for a list of names, in order. *)
Definition lookups (names : list string) (s : Segment) : Segment :=
  foldl (λ s name, (getOrDefineField name s).2) s names.

(** The segments that the operations of build.go lead to from the segment
    with the identity field registered, each with the names looked up on
    the way, in order. *)
Inductive reach : list string → Segment → Prop :=
  | reach_initial : reach ["_id"] initial
  | reach_getOrDefineField names s name :
      reach names s → reach (names ++ [name]) (getOrDefineField name s).2
  | reach_dictTerm names s f t n s' n' :
      reach names s → dictTerm f t (s, n) = Ok (s', n') → reach names s'
  | reach_allocate names s n s' :
      reach names s → allocate n s = Ok s' → reach names s'
  | reach_addDocument names s :
      reach names s → reach names (addDocument s).2
  | reach_storeField names s docNum f typ val pos s' :
      reach names s → storeField docNum f typ val pos s = Ok s' →
      reach names s'
  | reach_docValues names s f :
      reach names s →
      reach names (set_DocValueFields (<[f := true]> (DocValueFields s)) s)
  | reach_walkTerm names s docNum lens f e s' :
      reach names s → walkTerm docNum lens f e s = Ok s' →
      reach (names ++ locationNames e.2) s'
  | reach_sortDictKeys names s :
      reach names s → reach names (sortDictKeys s)
  | reach_updateSizeInBytes names s footprint :
      reach names s → reach names (updateSizeInBytes footprint s).

(** The registry agrees with the names looked up so far. *)
Definition registryOf (names : list string) (s : Segment) : Prop :=
  registryOK s ∧ FieldsInv s = distinctInOrder names.

(** Every term of every map of the batch has an ordinal in the dictionary
    of the field the map belongs to. *)
Definition storeOK (s : Segment) (results : list AnalysisResult) (h : Store)
    : Prop :=
  ∀ name a t,
    (name, a) ∈ batchFields results → t ∈ dom (deref h a) →
    is_Some (dictLookup s (fieldIdOf s name) t).

(** What holds of the state after the first pass and any number of
    documents; [s1] is the segment after the first pass. *)
Definition ordinalsInv (ord : list (Z * string)) (s1 : Segment)
    (results : list AnalysisResult) (st : State) : Prop :=
  registryOK (seg st) ∧ postingsOK ord (seg st) ∧
  len (StoredTypes (seg st)) = len (Stored (seg st)) ∧
  len (StoredPos (seg st)) = len (Stored (seg st)) ∧
  grows s1 (seg st) ∧ storeOK s1 results (store st).

(** [ownedByName], checked on the fields of the batch. *)
Definition ownedByNameb (results : list AnalysisResult) : bool :=
  forallb
    (λ e1, forallb
             (λ e2, if decide (e1.2 = e2.2) then bool_decide (e1.1 = e2.1)
                    else true)
             (batchFields results))
    (batchFields results).

(** The result is not the panic of line 185. *)
Definition avoids185 {A} (r : Result A) : Prop := r ≠ Panic 185.

(** ** Notions for the behaviour on any input *)

(** The result is a value, or the panic of one of the lines [lines]. *)
Definition within {A} (lines : list nat) (r : Result A) : Prop :=
  match r with
  | Ok _ => True
  | Panic line => line ∈ lines
  end.

(** The number of entries of the token-frequency maps of the batch, a map
    counted once for every field it is given to. *)
Definition termCount (results : list AnalysisResult) (h : Store) : nat :=
  sum_list ((λ e, size (deref h e.2)) <$> batchFields results).

(** A document with an entry of [Analyzed], or of [Length], for every
    regular field. *)
Definition hasAnalyzed (r : AnalysisResult) : Prop :=
  (length (Fields (Doc r)) ≤ length (Analyzed r))%nat.

Definition hasLengths (r : AnalysisResult) : Prop :=
  (length (Fields (Doc r)) ≤ length (Length r))%nat.

(** What the loops over the fields of a document keep: the registry, and
    the slot of the document in the three lists of stored values. *)
Definition collating (docNum : Z) (a : Assembly) : Prop :=
  registryOK (aseg a) ∧ 0 ≤ docNum < len (Stored (aseg a)) ∧
  0 ≤ docNum < len (StoredTypes (aseg a)) ∧
  0 ≤ docNum < len (StoredPos (aseg a)).

(** No token-frequency map of the batch is nil. *)
Definition noNilMaps (results : list AnalysisResult) (h : Store) : Prop :=
  ∀ name a, (name, a) ∈ batchFields results → is_Some (h !! a).

(** [noNilMaps], checked on the fields of the batch. *)
Definition noNilMapsb (results : list AnalysisResult) (h : Store) : bool :=
  forallb (λ e, bool_decide (is_Some (h !! e.2))) (batchFields results).

(** The maps of the fields [fields] and the maps collated so far are not
    nil. *)
Definition held (fields : list (string * nat)) (a : Assembly) : Prop :=
  (∀ name e, (name, e) ∈ fields → is_Some (astore a !! e)) ∧
  ∀ f e, docMap (acoll a) !! f = Some e → is_Some (astore a !! e).

Global Instance hasAnalyzed_dec r : Decision (hasAnalyzed r).
Proof. unfold hasAnalyzed. apply _. Defined.

Global Instance hasLengths_dec r : Decision (hasLengths r).
Proof. unfold hasLengths. apply _. Defined.

(** The term list of every field holds the terms of its dictionary, each
    of them once. *)
Definition keysOK (s : Segment) : Prop :=
  length (DictKeys s) = length (Dicts s) ∧
  ∀ (i : nat) dict keys,
    Dicts s !! i = Some dict → DictKeys s !! i = Some keys →
    NoDup keys ∧ ∀ t, t ∈ keys ↔ is_Some (dict !! t).

(** Document [d] of the batch holds the term [t] in the map collated for
    field id [f], with the frequency and the locations [tf]: the entry that
    the loops of lines 181 and 182 walk when the document is assembled. *)
Definition collated (sched : Schedule) (results : list AnalysisResult)
    (h : Store) (d : nat) (f : Z) (t : string) (tf : TokenFreq) : Prop :=
  ∃ r st a addr,
    results !! d = Some r ∧ assembledUpTo sched results h d = Ok st ∧
    collate r (Z.of_nat d)
      {| aseg := (addDocument (seg st)).2; astore := store st;
         acoll := emptyCollation |} = Ok a ∧
    docMap (acoll a) !! f = Some addr ∧ deref (astore a) addr !! t = Some tf.

(** The field id recorded with a location of a term of field [fieldID]:
    the id of the field that the location names, or [fieldID] when it names
    none (lines 193 to 197). *)
Definition locField (s : Segment) (fieldID : Z) (loc : TokenLocation) : Z :=
  if decide (Field loc = EmptyString) then fieldID
  else fieldIdOf s (Field loc).

(** The locations [locs], each with the field id of its term, were
    appended to the five location sequences of a slot, in order; the field
    ids of named fields are those of [s]. *)
Definition located (s : Segment) (locs : list (Z * TokenLocation))
    (sl sl' : Slot) : Prop :=
  sLocfields sl' = sLocfields sl ++ ((λ x, locField s x.1 x.2) <$> locs) ∧
  sLocstarts sl' = sLocstarts sl ++ ((λ x, uint64 (Start x.2)) <$> locs) ∧
  sLocends sl' = sLocends sl ++ ((λ x, uint64 (End_ x.2)) <$> locs) ∧
  sLocpos sl' = sLocpos sl ++ ((λ x, uint64 (Position x.2)) <$> locs) ∧
  sLocarraypos sl' = sLocarraypos sl ++ ((λ x, ArrayPositions x.2) <$> locs).

(** The locations of a term of field [fieldID]. *)
Definition locationsOf (fieldID : Z) (tf : TokenFreq)
    : list (Z * TokenLocation) :=
  (λ loc, (fieldID, loc)) <$> Locations tf.

(** The locations of the entries whose term has the ordinal [p + 1]. *)
Definition locsFor (s : Segment) (p : Z)
    (entries : list (Z * string * TokenFreq)) : list (Z * TokenLocation) :=
  filter (λ e, dictLookup s e.1.1 e.1.2 = Some (p + 1)) entries
  ≫= λ e, locationsOf e.1.1 e.2.

(** ** Example inputs *)

(** Map iteration in the order of the entries as stored, and in the
    opposite order. *)
Definition inOrder : Schedule :=
  {| pick := λ _ _ l, l; pick_perm := λ _ _ l, reflexivity l |}.

Definition reversed : Schedule :=
  {| pick := λ _ _ l, reverse l; pick_perm := λ _ _ l, reverse_Permutation l |}.

Definition noFootprint (s : Segment) : Z := 0.

Definition textField (name : string) (stored : bool) (value : list byte)
    : DocField :=
  {| Name := name; Kind := TextField; IsStored := stored;
     IncludeDocValues := false; Value := value; FieldArrayPositions := [] |}.

Definition freq (n : Z) (locs : list TokenLocation) : TokenFreq :=
  {| Locations := locs; Frequency := n |}.

Definition at_ (start end_ pos : Z) : TokenLocation :=
  {| Field := EmptyString; ArrayPositions := []; Start := start; End_ := end_;
     Position := pos |}.

(** Two documents with a field "body": "cat dog cat" and "dog". *)
Definition exStore : Store :=
  {[ 1%nat := {[ "cat" := freq 2 [at_ 0 3 1; at_ 8 11 3];
                 "dog" := freq 1 [at_ 4 7 2] ]};
     2%nat := {[ "dog" := freq 1 [] ]} ]}.

Definition exDoc0 : AnalysisResult :=
  {| Doc := {| CompositeFields := [];
               Fields := [textField "body" true [x63; x61; x74]] |};
     Analyzed := [1%nat]; Length := [3] |}.

Definition exDoc1 : AnalysisResult :=
  {| Doc := {| CompositeFields := [];
               Fields := [textField "body" false [x64; x6f; x67]] |};
     Analyzed := [2%nat]; Length := [1] |}.

Definition exBatch : list AnalysisResult := [exDoc0; exDoc1].

(** The state after the first pass over the example, and the built
    segment. *)
Definition exDictState : State :=
  Eval vm_compute in
    match initializeDict inOrder exBatch (start exStore) with
    | Ok st => st
    | Panic _ => start exStore
    end.

Definition exBuilt : Segment * Store :=
  Eval vm_compute in
    match NewFromAnalyzedDocs inOrder noFootprint exBatch exStore with
    | Ok r => r
    | Panic _ => (New, ∅)
    end.

(** The state after both passes over the example. *)
Definition exAssembled : State :=
  Eval vm_compute in
    match assembled inOrder exBatch exStore with
    | Ok st => st
    | Panic _ => start exStore
    end.

(** The state after the first pass and the first document of the example. *)
Definition exAfterDoc0 : State :=
  Eval vm_compute in
    match assembledUpTo inOrder exBatch exStore 1 with
    | Ok st => st
    | Panic _ => start exStore
    end.

(** The field names "f0", "f1", ... *)
Definition fieldNames (n : nat) : list string :=
  (λ i : nat, "f" +:+ pretty i) <$> seq 0 n.

(** 65536 field names, and the segment with the identity field and these
    names registered. *)
Definition manyNames : list string := fieldNames (Z.to_nat (2 ^ 16)).

Definition manyFields : Segment := lookups manyNames initial.

(** The segment built from the example when maps are iterated in the
    opposite order. *)
Definition exBuiltReversed : Segment * Store :=
  Eval vm_compute in
    match NewFromAnalyzedDocs reversed noFootprint exBatch exStore with
    | Ok r => r
    | Panic _ => (New, ∅)
    end.

(** A document whose fields "a" and "b" were given one and the same
    token-frequency map, followed by a second field "a". *)
Definition exSharedStore : Store :=
  {[ 1%nat := {[ "x" := freq 1 [] ]}; 2%nat := {[ "y" := freq 1 [] ]} ]}.

Definition exSharedDoc : AnalysisResult :=
  {| Doc := {| CompositeFields := [];
               Fields := [textField "a" false []; textField "b" false [];
                          textField "a" false []] |};
     Analyzed := [1%nat; 1%nat; 2%nat]; Length := [1; 1; 1] |}.

(** A batch of 2^32 + 1 documents, each with the field "body" = "dog". *)
Definition manyDocs : list AnalysisResult :=
  replicate (Z.to_nat (2 ^ 32 + 1)) exDoc1.

(** A document with a field and no analysis for it, and one with the
    analysis and no token length. *)
Definition exUnanalyzedDoc : AnalysisResult :=
  {| Doc := {| CompositeFields := [];
               Fields := [textField "title" false []] |};
     Analyzed := []; Length := [] |}.

Definition exUnmeasuredDoc : AnalysisResult :=
  {| Doc := {| CompositeFields := [];
               Fields := [textField "body" false []] |};
     Analyzed := [2%nat]; Length := [] |}.

(** A document with a numeric field that asks for doc values, and the
    segment built from it. *)
Definition exPricedDoc : AnalysisResult :=
  {| Doc := {| CompositeFields := [];
               Fields := [{| Name := "price"; Kind := NumericField;
                             IsStored := false; IncludeDocValues := true;
                             Value := []; FieldArrayPositions := [] |}] |};
     Analyzed := [2%nat]; Length := [1] |}.

Definition exPricedBuilt : Segment * Store :=
  Eval vm_compute in
    match NewFromAnalyzedDocs inOrder noFootprint [exPricedDoc] exStore with
    | Ok r => r
    | Panic _ => (New, ∅)
    end.

(** A document whose field "a" comes twice, the first time with a nil map
    (no map is stored at address 7) and then with the map at address 1. *)
Definition exNilDoc : AnalysisResult :=
  {| Doc := {| CompositeFields := [];
               Fields := [textField "a" false []; textField "a" false []] |};
     Analyzed := [7%nat; 1%nat]; Length := [0; 1] |}.

(** * Properties *)

(** ** Integers, indexing and loops *)

Lemma uint64_small z : 0 ≤ z ≤ maxInt → uint64 z = z.
Proof. unfold uint64, maxInt. intros. apply Z.mod_small. lia. Qed.

Lemma uint16_small z : 0 ≤ z < 2 ^ 16 → uint16 z = z.
Proof. unfold uint16. intros. by apply Z.mod_small. Qed.

Lemma uint16_range z : 0 ≤ uint16 z < 2 ^ 16.
Proof. unfold uint16. apply Z.mod_pos_bound. lia. Qed.

Lemma uint16_idemp z : uint16 (uint16 z) = uint16 z.
Proof. unfold uint16. apply Z.mod_mod. lia. Qed.

Lemma uint16_pred_succ z : uint16 (uint16 (z + 1) - 1) = uint16 z.
Proof.
  unfold uint16. rewrite Zminus_mod_idemp_l. f_equal. lia.
Qed.

Lemma uint16_le z : 0 ≤ z → uint16 z ≤ z.
Proof. unfold uint16. intros. apply Z.mod_le; lia. Qed.

Lemma uint64_minus_one : uint64 (0 - 1) = 2 ^ 64 - 1.
Proof. reflexivity. Qed.

Lemma int_small z : - 2 ^ 63 ≤ z ≤ maxInt → int z = z.
Proof.
  unfold int, maxInt. intros. rewrite Z.mod_small; lia.
Qed.

Lemma len_app {A} (l k : list A) : len (l ++ k) = len l + len k.
Proof. unfold len. rewrite length_app. lia. Qed.

Lemma len_nonneg {A} (l : list A) : 0 ≤ len l.
Proof. unfold len. lia. Qed.

Lemma inBounds_true {A} (l : list A) i :
  inBounds l i = true ↔ 0 ≤ i < len l.
Proof. unfold inBounds. rewrite andb_true_iff. lia. Qed.

Lemma inBounds_false {A} (l : list A) i :
  inBounds l i = false ↔ ¬ (0 ≤ i < len l).
Proof. rewrite <- inBounds_true. by destruct (inBounds l i). Qed.

Lemma get_Some {A} (l : list A) i x :
  get l i = Some x ↔ 0 ≤ i ∧ l !! Z.to_nat i = Some x.
Proof.
  unfold get. destruct (inBounds l i) eqn:E.
  - apply inBounds_true in E. naive_solver lia.
  - apply inBounds_false in E. split; [done|]. intros [? Hx].
    apply lookup_lt_Some in Hx. unfold len in E. lia.
Qed.

Lemma get_is_Some {A} (l : list A) i : is_Some (get l i) ↔ 0 ≤ i < len l.
Proof.
  unfold get. destruct (inBounds l i) eqn:E.
  - apply inBounds_true in E. split; [done|]. intros _.
    apply lookup_lt_is_Some. unfold len in E. lia.
  - apply inBounds_false in E. split; [by intros [? ?]|done].
Qed.

Lemma get_None {A} (l : list A) i : get l i = None ↔ ¬ (0 ≤ i < len l).
Proof. rewrite <- get_is_Some, eq_None_not_Some. done. Qed.

Lemma get_of_nat {A} (l : list A) (k : nat) : get l (Z.of_nat k) = l !! k.
Proof.
  destruct (l !! k) as [x|] eqn:E.
  - apply get_Some. rewrite Nat2Z.id. split; [lia|done].
  - apply get_None. apply lookup_ge_None in E. unfold len. lia.
Qed.

Lemma get_app_l {A} (l k : list A) i :
  i < len l → get (l ++ k) i = get l i.
Proof.
  intros Hi. destruct (decide (0 ≤ i)) as [H0|H0].
  - rewrite <- (Z2Nat.id i) by done. rewrite !get_of_nat.
    apply lookup_app_l. unfold len in Hi. lia.
  - transitivity (@None A); [|symmetry]; apply get_None; lia.
Qed.

Lemma get_app_Some {A} (l k : list A) i x :
  get l i = Some x → get (l ++ k) i = Some x.
Proof.
  intros H. rewrite get_app_l; [done|].
  assert (is_Some (get l i)) as Hs by eauto. apply get_is_Some in Hs. lia.
Qed.

Lemma get_snoc {A} (l : list A) x : get (l ++ [x]) (len l) = Some x.
Proof.
  unfold len. rewrite get_of_nat. by apply list_lookup_middle.
Qed.

Lemma get_insert {A} (l : list A) i j x :
  0 ≤ i < len l →
  get (<[Z.to_nat i := x]> l) j = if decide (j = i) then Some x else get l j.
Proof.
  intros Hi. case_decide as Hj.
  - subst j. apply get_Some. split; [lia|].
    apply list_lookup_insert_eq. unfold len in Hi. lia.
  - destruct (decide (0 ≤ j)) as [H0|H0].
    + rewrite <- (Z2Nat.id j) by done. rewrite !get_of_nat.
      apply list_lookup_insert_ne. lia.
    + transitivity (@None A); [|symmetry]; apply get_None; lia.
Qed.

Lemma len_insert {A} (l : list A) n x : len (<[n := x]> l) = len l.
Proof. unfold len. by rewrite length_insert. Qed.

Lemma len_make {A} n (x : A) : 0 ≤ n → len (make n x) = n.
Proof. intros. unfold len, make. rewrite length_replicate. lia. Qed.

Lemma get_make {A} n (x : A) i : 0 ≤ i < n → get (make n x) i = Some x.
Proof.
  intros. apply get_Some. split; [lia|]. unfold make.
  apply lookup_replicate. split; [done|lia].
Qed.

Lemma index_Ok {A} line (l : list A) i x :
  index line l i = Ok x ↔ get l i = Some x.
Proof.
  unfold index, get. destruct (inBounds l i); [|done].
  destruct (l !! Z.to_nat i); naive_solver.
Qed.

Lemma index_Panic {A} line line' (l : list A) i :
  index line l i = Panic line' ↔ get l i = None ∧ line' = line.
Proof.
  unfold index, get. destruct (inBounds l i); [|naive_solver].
  destruct (l !! Z.to_nat i); naive_solver.
Qed.

Lemma index_get {A} line (l : list A) i :
  index line l i = match get l i with Some x => Ok x | None => Panic line end.
Proof.
  unfold index, get. destruct (inBounds l i); [|done].
  by destruct (l !! Z.to_nat i).
Qed.

Lemma assign_Ok {A} line (l l' : list A) i x :
  assign line l i x = Ok l' ↔ 0 ≤ i < len l ∧ l' = <[Z.to_nat i := x]> l.
Proof.
  unfold assign. destruct (inBounds l i) eqn:E.
  - apply inBounds_true in E. naive_solver.
  - apply inBounds_false in E. naive_solver.
Qed.

Lemma modify_Ok {A} line (l l' : list A) i f :
  modify line l i f = Ok l' ↔
  ∃ x, get l i = Some x ∧ l' = <[Z.to_nat i := f x]> l.
Proof.
  unfold modify. rewrite index_get. destruct (get l i) as [x|] eqn:E; simpl.
  - rewrite assign_Ok. split.
    + intros [_ ->]. eauto.
    + intros (y & [= <-] & ->). split; [|done].
      apply get_is_Some. rewrite E. eauto.
  - split; [done|]. by intros (? & ? & _).
Qed.

Lemma modify_Panic {A} line line' (l : list A) i f :
  modify line l i f = Panic line' ↔ get l i = None ∧ line' = line.
Proof.
  unfold modify. rewrite index_get. destruct (get l i) as [x|] eqn:E; simpl.
  - unfold assign. assert (is_Some (get l i)) as Hs by eauto.
    apply get_is_Some, inBounds_true in Hs. rewrite Hs. naive_solver.
  - naive_solver.
Qed.

Lemma get_modified {A} (l : list A) i j x f :
  get l i = Some x →
  get (<[Z.to_nat i := f x]> l) j
  = if decide (j = i) then Some (f x) else get l j.
Proof.
  intros H. apply get_insert. apply get_is_Some. rewrite H. eauto.
Qed.

Lemma bind_Ok {A B} (m : Result A) (k : A → Result B) b :
  bind m k = Ok b ↔ ∃ a, m = Ok a ∧ k a = Ok b.
Proof. destruct m; naive_solver. Qed.

Lemma bind_Panic {A B} (m : Result A) (k : A → Result B) line :
  bind m k = Panic line ↔
  m = Panic line ∨ ∃ a, m = Ok a ∧ k a = Panic line.
Proof. destruct m; naive_solver. Qed.

(** Splits the hypotheses that say a sequence of steps returned. *)
Ltac inv_ok :=
  repeat match goal with
  | H : bind _ _ = Ok _ |- _ =>
      let a := fresh "a" in
      let Ha := fresh "Ha" in
      apply bind_Ok in H as (a & Ha & H)
  | H : Ok _ = Ok _ |- _ => injection H as H
  | H : Panic _ = Ok _ |- _ => discriminate H
  | H : index _ _ _ = Ok _ |- _ => apply index_Ok in H
  | H : modify _ _ _ _ = Ok _ |- _ =>
      let x := fresh "x" in
      let Hx := fresh "Hx" in
      apply modify_Ok in H as (x & Hx & H)
  | H : assign _ _ _ _ = Ok _ |- _ => apply assign_Ok in H as [? H]
  end.

Lemma forEach_app {A S} (body : A → S → Result S) l k s :
  forEach body (l ++ k) s = do s' <- forEach body l s; forEach body k s'.
Proof.
  revert s. induction l as [|x l IH]; intros s; simpl; [done|].
  destruct (body x s); simpl; [apply IH|done].
Qed.

Lemma forEach_snoc {A S} (body : A → S → Result S) l x s :
  forEach body (l ++ [x]) s = do s' <- forEach body l s; body x s'.
Proof.
  rewrite forEach_app. destruct (forEach body l s) as [s'|]; simpl; [|done].
  by destruct (body x s').
Qed.

(** An invariant of the loop that holds of the elements done so far. *)
Lemma forEach_invariant {A S} (body : A → S → Result S)
    (I : list A → S → Prop) l s s' :
  I [] s →
  (∀ done x t t',
     x ∈ l → I done t → body x t = Ok t' → I (done ++ [x]) t') →
  forEach body l s = Ok s' → I l s'.
Proof.
  intros H0 Hstep. revert s' .
  induction l as [|x l IH] using rev_ind; intros s' Hrun.
  - by injection Hrun as <-.
  - rewrite forEach_snoc in Hrun. apply bind_Ok in Hrun as (t & Ht & Hx).
    eapply Hstep; [set_solver| |done].
    eapply IH; [|done]. intros ?????. apply Hstep. set_solver.
Qed.

(** The same without the elements. *)
Lemma forEach_preserves {A S} (body : A → S → Result S) (I : S → Prop)
    l s s' :
  I s → (∀ x t t', x ∈ l → I t → body x t = Ok t' → I t') →
  forEach body l s = Ok s' → I s'.
Proof.
  intros H0 Hstep. apply (forEach_invariant body (λ _, I)); [done|].
  intros ?????. by apply Hstep.
Qed.

(** Two loops that take the same steps on related states. *)
Lemma forEach_ext {A S} (body body' : A → S → Result S) l s :
  (∀ x t, x ∈ l → body x t = body' x t) →
  forEach body l s = forEach body' l s.
Proof.
  revert s. induction l as [|x l IH]; intros s H; simpl; [done|].
  rewrite H by set_solver. destruct (body' x s); simpl; [|done].
  apply IH. intros. apply H. set_solver.
Qed.

(** The same, where the step knows which elements come before and after. *)
Lemma forEach_invariant_split {A S} (body : A → S → Result S)
    (I : list A → S → Prop) l s s' :
  I [] s →
  (∀ pre x rest t t',
     l = pre ++ x :: rest → I pre t → body x t = Ok t' → I (pre ++ [x]) t') →
  forEach body l s = Ok s' → I l s'.
Proof.
  intros H0 Hstep.
  cut (∀ pre k t, l = pre ++ k → I pre t → forEach body k t = Ok s' → I l s').
  { intros Hcut. by apply (Hcut [] l s). }
  intros pre k. revert pre. induction k as [|x k IH]; intros pre t -> HI Hrun.
  - injection Hrun as <-. by rewrite app_nil_r.
  - simpl in Hrun. apply bind_Ok in Hrun as (t' & Hx & Hrun).
    apply (IH (pre ++ [x]) t'); [by rewrite <- app_assoc| |done].
    by eapply Hstep.
Qed.

(** ** The field registry *)

Lemma getOrDefineField_known name s v :
  FieldsMap s !! name = Some v →
  getOrDefineField name s = (uint16 (v - 1), s).
Proof. intros H. unfold getOrDefineField. by rewrite H. Qed.

Lemma getOrDefineField_frame name s :
  arrays (getOrDefineField name s).2 = arrays s ∧
  documents (getOrDefineField name s).2 = documents s ∧
  DocValueFields (getOrDefineField name s).2 = DocValueFields s ∧
  sizeInBytes (getOrDefineField name s).2 = sizeInBytes s.
Proof. unfold getOrDefineField. by destruct (FieldsMap s !! name). Qed.

Lemma getOrDefineField_new name s :
  FieldsMap s !! name = None →
  let s' := (getOrDefineField name s).2 in
  FieldsMap s' = <[name := uint16 (len (FieldsInv s) + 1)]> (FieldsMap s) ∧
  FieldsInv s' = FieldsInv s ++ [name] ∧
  Dicts s' = Dicts s ++ [∅] ∧
  DictKeys s' = DictKeys s ++ [[]] ∧
  (getOrDefineField name s).1 = uint16 (len (FieldsInv s)).
Proof.
  intros H. unfold getOrDefineField. rewrite H. simpl.
  split_and!; try done. apply uint16_pred_succ.
Qed.

Lemma getOrDefineField_registryOK name s :
  registryOK s → registryOK (getOrDefineField name s).2.
Proof.
  intros (HD & HK & HS & Hnd & Hmap).
  destruct (FieldsMap s !! name) as [v|] eqn:E.
  { rewrite (getOrDefineField_known _ _ _ E). by split_and!. }
  unfold registryOK.
  destruct (getOrDefineField_new name s E) as (-> & -> & -> & -> & _).
  assert (name ∉ FieldsInv s) as Hfresh.
  { intros (k & Hk)%list_elem_of_lookup.
    assert (FieldsMap s !! name = Some (uint16 (Z.of_nat k + 1))) as Hv
      by (apply Hmap; eauto).
    congruence. }
  split_and!.
  - rewrite !length_app. simpl. lia.
  - rewrite !length_app. simpl. lia.
  - rewrite map_size_insert_None by done. rewrite length_app. simpl. lia.
  - apply NoDup_app. split_and!; [done| |apply NoDup_singleton].
    intros x Hx ->%list_elem_of_singleton. done.
  - intros n v. rewrite lookup_insert. case_decide as En.
    + subst n. split.
      * intros [= <-]. exists (length (FieldsInv s)).
        split; [by apply list_lookup_middle|done].
      * intros (k & Hk & ->).
        apply lookup_snoc_Some in Hk as [[_ Hk]|[-> _]]; [|done].
        destruct Hfresh. apply list_elem_of_lookup. eauto.
    + rewrite Hmap. split.
      * intros (k & Hk & ->). exists k. split; [|done].
        by apply lookup_app_l_Some.
      * intros (k & Hk & ->). exists k. split; [|done].
        apply lookup_snoc_Some in Hk as [[_ Hk]|[_ ?]]; [done|congruence].
Qed.

Lemma registryOK_New : registryOK New.
Proof.
  unfold registryOK. simpl. split_and!; try done; [apply NoDup_nil_2|].
  intros name v. rewrite lookup_empty. split; [done|].
  by intros (k & Hk & _).
Qed.

Lemma registryOK_initial : registryOK initial.
Proof. apply getOrDefineField_registryOK, registryOK_New. Qed.

Lemma registryOK_value s name v :
  registryOK s → FieldsMap s !! name = Some v →
  0 ≤ uint16 (v - 1) < len (Dicts s).
Proof.
  intros (HD & _ & _ & _ & Hmap) (k & Hk & ->)%Hmap.
  rewrite uint16_pred_succ. apply lookup_lt_Some in Hk.
  pose proof (uint16_le (Z.of_nat k)). pose proof (uint16_range (Z.of_nat k)).
  unfold len. lia.
Qed.

(** The id returned is the id recorded for the name, and it indexes the
    dictionaries. *)
Lemma getOrDefineField_id name s :
  registryOK s →
  let r := getOrDefineField name s in
  extId r.2 name = Some r.1 ∧ 0 ≤ r.1 < len (Dicts r.2) ∧ uint16 r.1 = r.1.
Proof.
  intros Hok. pose proof (getOrDefineField_registryOK name s Hok) as Hok'.
  destruct (FieldsMap s !! name) as [v|] eqn:E.
  - rewrite (getOrDefineField_known _ _ _ E) in *. simpl.
    unfold extId. rewrite E. simpl. split; [done|]. split; [|apply uint16_idemp].
    by eapply registryOK_value.
  - destruct (getOrDefineField_new name s E) as (HM & HI & HD & HK & Hid).
    simpl in *. rewrite Hid. unfold extId. rewrite HM, lookup_insert_eq. simpl.
    rewrite uint16_pred_succ. split; [done|]. split; [|apply uint16_idemp].
    rewrite HD, len_app. destruct Hok as (HDl & _).
    pose proof (uint16_le (len (FieldsInv s)) (len_nonneg _)).
    pose proof (uint16_range (len (FieldsInv s))).
    unfold len in *. simpl. lia.
Qed.

Lemma grows_refl s : grows s s.
Proof. split; [done|]. exists 0%nat. simpl. by rewrite app_nil_r. Qed.

Lemma grows_trans s1 s2 s3 : grows s1 s2 → grows s2 s3 → grows s1 s3.
Proof.
  intros [H1 [k1 E1]] [H2 [k2 E2]]. split; [by etrans|].
  exists (k1 + k2)%nat. rewrite E2, E1, <- app_assoc. f_equal.
  by rewrite replicate_add.
Qed.

Lemma getOrDefineField_grows name s : grows s (getOrDefineField name s).2.
Proof.
  destruct (FieldsMap s !! name) as [v|] eqn:E.
  - rewrite (getOrDefineField_known _ _ _ E). apply grows_refl.
  - unfold grows.
    destruct (getOrDefineField_new name s E) as (-> & _ & -> & _).
    split; [by apply insert_subseteq|]. by exists 1%nat.
Qed.

Lemma grows_extId s s' name v :
  grows s s' → extId s name = Some v → extId s' name = Some v.
Proof.
  intros [Hsub _]. unfold extId.
  destruct (FieldsMap s !! name) as [w|] eqn:E; [|done].
  intros [= <-]. by rewrite (lookup_weaken _ _ _ _ E Hsub).
Qed.

Lemma grows_fieldIdOf s s' name :
  grows s s' → is_Some (FieldsMap s !! name) →
  fieldIdOf s' name = fieldIdOf s name.
Proof.
  intros Hg [w E]. unfold fieldIdOf.
  assert (extId s name = Some (uint16 (w - 1))) as Hs
    by (unfold extId; by rewrite E).
  by rewrite (grows_extId _ _ _ _ Hg Hs), Hs.
Qed.

Lemma get_app_replicate_empty {K} `{Countable K} {V}
    (l : list (gmap K V)) k i (x : K) :
  get (l ++ replicate k ∅) i ≫= (λ d, d !! x) = get l i ≫= (λ d, d !! x).
Proof.
  destruct (get l i) as [d|] eqn:E.
  - by rewrite (get_app_Some _ _ _ _ E).
  - destruct (get (l ++ replicate k ∅) i) as [d|] eqn:E'; [|done].
    simpl. apply get_Some in E' as [H0 E'].
    apply lookup_app_Some in E' as [E'|[_ E']].
    + assert (get l i = Some d) by (apply get_Some; done). congruence.
    + apply lookup_replicate in E' as [-> _]. apply lookup_empty.
Qed.

Lemma grows_dictLookup s s' f t :
  grows s s' → dictLookup s' f t = dictLookup s f t.
Proof.
  intros [_ [k E]]. unfold dictLookup. rewrite E.
  apply get_app_replicate_empty.
Qed.

Lemma grows_len_Dicts s s' : grows s s' → len (Dicts s) ≤ len (Dicts s').
Proof.
  intros [_ [k E]]. rewrite E, len_app. pose proof (len_nonneg (replicate k (∅ : gmap string Z))). lia.
Qed.

(** ** Distinct elements in order of first occurrence *)

Section Distinct.

Context {A : Type} `{EqDecision A}.
Implicit Types (l acc : list A) (x y : A).

Lemma elem_of_addDistinct acc x y : y ∈ addDistinct acc x ↔ y ∈ acc ∨ y = x.
Proof. unfold addDistinct. case_decide; set_solver. Qed.

Lemma NoDup_addDistinct acc x : NoDup acc → NoDup (addDistinct acc x).
Proof.
  intros H. unfold addDistinct. case_decide; [done|].
  apply NoDup_app. split_and!; [done|set_solver|apply NoDup_singleton].
Qed.

Lemma addDistinct_prefix acc x : acc `prefix_of` addDistinct acc x.
Proof.
  unfold addDistinct. case_decide; [done|]. by apply prefix_app_r.
Qed.

Lemma addDistinct_old acc x : x ∈ acc → addDistinct acc x = acc.
Proof. intros. unfold addDistinct. by case_decide. Qed.

Lemma addDistinct_new acc x : x ∉ acc → addDistinct acc x = acc ++ [x].
Proof. intros. unfold addDistinct. by case_decide. Qed.

Lemma elem_of_foldl_addDistinct acc l y :
  y ∈ foldl addDistinct acc l ↔ y ∈ acc ∨ y ∈ l.
Proof.
  revert acc. induction l as [|x l IH]; intros acc; simpl; [set_solver|].
  rewrite IH, elem_of_addDistinct. set_solver.
Qed.

Lemma NoDup_foldl_addDistinct acc l :
  NoDup acc → NoDup (foldl addDistinct acc l).
Proof.
  revert acc. induction l as [|x l IH]; intros acc H; simpl; [done|].
  by apply IH, NoDup_addDistinct.
Qed.

Lemma foldl_addDistinct_prefix acc l : acc `prefix_of` foldl addDistinct acc l.
Proof.
  revert acc. induction l as [|x l IH]; intros acc; simpl; [done|].
  etrans; [apply addDistinct_prefix|apply IH].
Qed.

Lemma distinctInOrder_app l k :
  distinctInOrder (l ++ k) = foldl addDistinct (distinctInOrder l) k.
Proof. unfold distinctInOrder. by rewrite foldl_app. Qed.

Lemma elem_of_distinctInOrder l y : y ∈ distinctInOrder l ↔ y ∈ l.
Proof. unfold distinctInOrder. rewrite elem_of_foldl_addDistinct. set_solver. Qed.

Lemma NoDup_distinctInOrder l : NoDup (distinctInOrder l).
Proof. apply NoDup_foldl_addDistinct, NoDup_nil_2. Qed.

Lemma distinctInOrder_NoDup l : NoDup l → distinctInOrder l = l.
Proof.
  induction l as [|x l IH] using rev_ind; intros H; [done|].
  apply NoDup_app in H as (Hl & Hx & _).
  rewrite distinctInOrder_app. simpl. rewrite IH by done.
  apply addDistinct_new. intros Hin. apply (Hx x Hin). set_solver.
Qed.

Lemma distinctInOrder_head x l : distinctInOrder (x :: l) !! 0%nat = Some x.
Proof.
  destruct (foldl_addDistinct_prefix [x] l) as [k Hk].
  unfold distinctInOrder. simpl. unfold addDistinct at 2.
  rewrite decide_False by apply not_elem_of_nil. simpl. by rewrite Hk.
Qed.

(** The position of the first occurrence. *)
Lemma position_Some x l a :
  position x l = Some a ↔
  l !! a = Some x ∧ ∀ b, (b < a)%nat → l !! b ≠ Some x.
Proof.
  unfold position. split.
  - intros H0. destruct (list_find _ l) as [[a' y]|] eqn:E; [|done].
    simpl in H0. injection H0 as ->.
    apply list_find_Some in E as (H1 & -> & H3). split; [done|].
    intros b Hb Hl. by apply (H3 b x Hl Hb).
  - intros [H1 H2].
    assert (list_find (λ y, y = x) l = Some (a, x)) as ->; [|done].
    apply list_find_Some. split_and!; [done|done|].
    intros j y Hj Hlt ->. by apply (H2 j).
Qed.

Lemma position_is_Some x l : x ∈ l → is_Some (position x l).
Proof.
  intros Hin. unfold position.
  destruct (list_find_elem_of (λ y, y = x) l x Hin eq_refl) as [[a y] ->].
  by eexists.
Qed.

Lemma position_lt x l a : position x l = Some a → (a < length l)%nat.
Proof. intros [H1 _]%position_Some. by eapply lookup_lt_Some. Qed.

Lemma position_app_l x l k a :
  position x l = Some a → position x (l ++ k) = Some a.
Proof.
  intros H0. pose proof (position_lt _ _ _ H0) as Hlt.
  apply position_Some in H0 as [H1 H2]. apply position_Some. split.
  - by apply lookup_app_l_Some.
  - intros b Hb. rewrite lookup_app_l by lia. by apply H2.
Qed.

Lemma position_new x l : x ∉ l → position x (l ++ [x]) = Some (length l).
Proof.
  intros Hx. apply position_Some. split.
  - by apply list_lookup_middle.
  - intros b Hb. rewrite lookup_app_l by lia.
    intros Hl. apply Hx. by eapply list_elem_of_lookup_2.
Qed.

(** The distinct elements stand in the order of their first occurrences. *)
Lemma distinctInOrder_order l i j x y :
  distinctInOrder l !! i = Some x → distinctInOrder l !! j = Some y →
  ∃ a b, position x l = Some a ∧ position y l = Some b ∧
         ((i < j)%nat ↔ (a < b)%nat).
Proof.
  revert i j x y. induction l as [|z l IH] using rev_ind; intros i j x y.
  { unfold distinctInOrder. simpl. by rewrite lookup_nil. }
  rewrite distinctInOrder_app. simpl.
  destruct (decide (z ∈ distinctInOrder l)) as [Hz|Hz].
  - rewrite addDistinct_old by done. intros Hi Hj.
    destruct (IH _ _ _ _ Hi Hj) as (a & b & Ha & Hb & Hab).
    exists a, b. split_and!; [by apply position_app_l..|done].
  - rewrite addDistinct_new by done.
    assert (z ∉ l) as Hzl by (by rewrite <- elem_of_distinctInOrder).
    pose proof (position_new z l Hzl) as Hpz.
    intros [Hi|[Hi Hxz]]%lookup_app_Some [Hj|[Hj Hyz]]%lookup_app_Some.
    + destruct (IH _ _ _ _ Hi Hj) as (a & b & Ha & Hb & Hab).
      exists a, b. split_and!; [by apply position_app_l..|done].
    + apply list_lookup_singleton_Some in Hyz as [_ <-].
      apply lookup_lt_Some in Hi as Hlt.
      apply list_elem_of_lookup_2 in Hi. rewrite elem_of_distinctInOrder in Hi.
      apply position_is_Some in Hi as [a Ha].
      pose proof (position_lt _ _ _ Ha).
      exists a, (length l). split_and!; [by apply position_app_l|done|lia].
    + apply list_lookup_singleton_Some in Hxz as [_ <-].
      apply lookup_lt_Some in Hj as Hlt.
      apply list_elem_of_lookup_2 in Hj. rewrite elem_of_distinctInOrder in Hj.
      apply position_is_Some in Hj as [b Hb].
      pose proof (position_lt _ _ _ Hb).
      exists (length l), b. split_and!; [done|by apply position_app_l|lia].
    + apply list_lookup_singleton_Some in Hxz as [Ei <-].
      apply list_lookup_singleton_Some in Hyz as [Ej <-].
      exists (length l), (length l). split_and!; [done..|lia].
Qed.

End Distinct.

(** Two lists with the same elements have equally many distinct ones. *)
Lemma distinctInOrder_length `{Countable A} (l k : list A) :
  (∀ x, x ∈ l ↔ x ∈ k) →
  length (distinctInOrder l) = length (distinctInOrder k).
Proof.
  intros Hlk.
  rewrite <- (size_list_to_set (C := gset A) (distinctInOrder l))
    by apply NoDup_distinctInOrder.
  rewrite <- (size_list_to_set (C := gset A) (distinctInOrder k))
    by apply NoDup_distinctInOrder.
  f_equal. apply set_eq. intros x.
  rewrite !elem_of_list_to_set, !elem_of_distinctInOrder. apply Hlk.
Qed.

(** ** The first pass *)

Arguments dictTerm : simpl never.
Arguments dictField : simpl never.
Arguments getOrDefineField : simpl never.

Lemma sameButDicts_refl s : sameButDicts s s.
Proof. by repeat split. Qed.

Lemma sameButDicts_trans s1 s2 s3 :
  sameButDicts s1 s2 → sameButDicts s2 s3 → sameButDicts s1 s3.
Proof.
  unfold sameButDicts. intros (?&?&?&?&?&?&?&?) (?&?&?&?&?&?&?&?).
  split_and!; congruence.
Qed.

Lemma sameButDicts_registryOK s s' :
  sameButDicts s s' → registryOK s → registryOK s'.
Proof.
  unfold sameButDicts, registryOK.
  intros (-> & -> & -> & -> & _) H. done.
Qed.

Lemma sameButDicts_len_Dicts s s' :
  sameButDicts s s' → len (Dicts s') = len (Dicts s).
Proof. intros (_ & _ & H & _). unfold len. by rewrite H. Qed.

Lemma dictOK_nil s : (∀ f t, dictLookup s f t = None) → dictOK [] s.
Proof.
  intros H. split; [apply NoDup_nil_2|]. intros f t v. rewrite H.
  split; [done|]. by intros (i & Hi & _).
Qed.

Lemma dictOK_in ord s f t :
  dictOK ord s → (f, t) ∈ ord ↔ is_Some (dictLookup s f t).
Proof.
  intros [_ H]. split.
  - intros (i & Hi)%list_elem_of_lookup. eexists. apply H. eauto.
  - intros [v (i & Hi & _)%H]. apply list_elem_of_lookup. eauto.
Qed.

(** One term of one field: the pair is given the next ordinal unless it
    has one. *)
Lemma dictTerm_spec f t s n s' n' ord :
  dictOK ord s → n = len ord →
  dictTerm f t (s, n) = Ok (s', n') →
  dictOK (addDistinct ord (f, t)) s' ∧ n' = len (addDistinct ord (f, t)) ∧
  sameButDicts s s'.
Proof.
  intros Hok -> Hrun. unfold dictTerm in Hrun.
  apply bind_Ok in Hrun as (dict & Hdict%index_Ok & Hrun).
  destruct (dict !! t) as [v|] eqn:Ht.
  - injection Hrun as <- <-.
    assert ((f, t) ∈ ord) as Hin.
    { apply (dictOK_in _ s); [done|]. unfold dictLookup. rewrite Hdict.
      simpl. eauto. }
    rewrite addDistinct_old by done. split_and!; [done..|].
    apply sameButDicts_refl.
  - assert ((f, t) ∉ ord) as Hnew.
    { intros [v Hv]%(dictOK_in _ s); [|done]. unfold dictLookup in Hv.
      rewrite Hdict in Hv. simpl in Hv. congruence. }
    rewrite addDistinct_new by done.
    apply bind_Ok in Hrun as (dicts & Hd & Hrun).
    apply modify_Ok in Hd as (d0 & Hd0 & ->).
    apply bind_Ok in Hrun as (keys & Hk & Hrun).
    apply modify_Ok in Hk as (k0 & Hk0 & ->).
    injection Hrun as <- <-. simpl in *.
    assert (d0 = dict) as -> by congruence.
    split_and!.
    + destruct Hok as [Hnd Hok]. split.
      { apply NoDup_app. split_and!; [done|set_solver|apply NoDup_singleton]. }
      intros f' t' v. unfold dictLookup. simpl.
      rewrite (get_modified _ _ _ _ _ Hdict). case_decide as Ef.
      * subst f'. simpl. rewrite lookup_insert. case_decide as Et.
        -- subst t'. split.
           ++ intros [= <-]. exists (length ord).
              split; [by apply list_lookup_middle|done].
           ++ intros (i & Hi & ->).
              apply lookup_snoc_Some in Hi as [[_ Hi]|[-> _]]; [|done].
              destruct Hnew. apply list_elem_of_lookup. eauto.
        -- specialize (Hok f t' v). unfold dictLookup in Hok.
           rewrite Hdict in Hok. simpl in Hok. rewrite Hok.
           split; intros (i & Hi & ->); exists i; (split; [|done]).
           ++ by apply lookup_app_l_Some.
           ++ apply lookup_snoc_Some in Hi as [[_ Hi]|[_ ?]];
                [done|congruence].
      * specialize (Hok f' t' v). unfold dictLookup in Hok. rewrite Hok.
        split; intros (i & Hi & ->); exists i; (split; [|done]).
        -- by apply lookup_app_l_Some.
        -- apply lookup_snoc_Some in Hi as [[_ Hi]|[_ ?]];
             [done|congruence].
    + rewrite len_app. unfold len. simpl. lia.
    + unfold sameButDicts. simpl. rewrite !length_insert. by split_and!.
Qed.

(** The terms of one field. *)
Lemma dictField_spec sched f a st n st' n' ord :
  dictOK ord (seg st) → n = len ord →
  dictField sched f a (st, n) = Ok (st', n') →
  let pairs := (λ e, (f, e.1)) <$> range sched (clock st) (deref (store st) a) in
  dictOK (foldl addDistinct ord pairs) (seg st') ∧
  n' = len (foldl addDistinct ord pairs) ∧
  sameButDicts (seg st) (seg st') ∧
  store st' = store st ∧ clock st' = S (clock st).
Proof.
  intros Hok Hn Hrun. unfold dictField in Hrun.
  apply bind_Ok in Hrun as ([s1 n1] & Hloop & [= <- <-]). simpl.
  apply (forEach_invariant _
    (λ ts (acc : Segment * Z),
       dictOK (foldl addDistinct ord ((λ t, (f, t)) <$> ts)) acc.1 ∧
       acc.2 = len (foldl addDistinct ord ((λ t, (f, t)) <$> ts)) ∧
       sameButDicts (seg st) acc.1)) in Hloop.
  - rewrite <- list_fmap_compose in Hloop. destruct Hloop as (? & ? & ?).
    by split_and!.
  - split_and!; [done|done|apply sameButDicts_refl].
  - intros ts t [s2 n2] [s3 n3] _ (H1 & H2 & H3) Hstep. simpl in *.
    rewrite fmap_app, foldl_app. simpl.
    destruct (dictTerm_spec _ _ _ _ _ _ _ H1 H2 Hstep) as (? & ? & ?).
    split_and!; [done|done|by eapply sameButDicts_trans].
Qed.

Lemma fieldIdOf_weaken s s' name :
  FieldsMap s ⊆ FieldsMap s' → is_Some (FieldsMap s !! name) →
  fieldIdOf s' name = fieldIdOf s name.
Proof.
  intros Hsub [w E]. unfold fieldIdOf, extId.
  by rewrite (lookup_weaken _ _ _ _ E Hsub), E.
Qed.

Lemma forEach_fmap {A B S} (g : A → B) (body : B → S → Result S) l s :
  forEach body (g <$> l) s = forEach (λ x, body (g x)) l s.
Proof.
  revert s. induction l as [|x l IH]; intros s; simpl; [done|].
  destruct (body (g x) s); simpl; [apply IH|done].
Qed.

Lemma forEach_bind {A B S} (g : A → list B) (body : B → S → Result S) l s :
  forEach body (l ≫= g) s = forEach (λ x, forEach body (g x)) l s.
Proof.
  revert s. induction l as [|x l IH]; intros s; simpl; [done|].
  rewrite forEach_app. destruct (forEach body (g x) s); simpl; [apply IH|done].
Qed.

Section FirstPass.

Context (sched : Schedule).

(** The loops of the first pass visit the fields of [batchFields]. *)
Lemma dictComposite_named c acc :
  dictComposite sched c acc
  = dictNamed sched (CompositeName c, compositeFrequencies c) acc.
Proof.
  destruct acc as [st n]. unfold dictComposite, dictNamed. simpl.
  by destruct (getOrDefineField (CompositeName c) (seg st)).
Qed.

Lemma dictRegular_named r k fields acc acc' :
  forEach (dictRegular sched r) (enumerateFrom (Z.of_nat k) fields) acc
  = Ok acc' →
  forEach (dictNamed sched) (zip (Name <$> fields) (drop k (Analyzed r))) acc
  = Ok acc'.
Proof.
  revert k acc. induction fields as [|fld fields IH]; intros k acc; [done|].
  simpl. intros (acc1 & Hstep & Hrest)%bind_Ok.
  destruct acc as [st n]. unfold dictRegular in Hstep.
  destruct (getOrDefineField (Name fld) (seg st)) as [fid s] eqn:Hg.
  apply bind_Ok in Hstep as (tf & Htf%index_Ok & Hstep).
  rewrite get_of_nat in Htf.
  rewrite (drop_S _ _ _ Htf). simpl.
  unfold dictNamed at 1. simpl. rewrite Hg, Hstep. simpl.
  apply IH. replace (Z.of_nat (S k)) with (Z.of_nat k + 1) by lia. done.
Qed.

Lemma dictDocument_named r acc acc' :
  dictDocument sched r acc = Ok acc' →
  forEach (dictNamed sched) (fieldsOf r) acc = Ok acc'.
Proof.
  unfold dictDocument, fieldsOf.
  intros (acc1 & Hc & Hr)%bind_Ok. rewrite forEach_app, forEach_fmap.
  rewrite (forEach_ext _ (dictComposite sched)), Hc; simpl.
  - rewrite <- (drop_0 (Analyzed r)). by apply dictRegular_named.
  - intros. by rewrite dictComposite_named.
Qed.

Lemma dictDocuments_named results acc acc' :
  forEach (dictDocument sched) results acc = Ok acc' →
  forEach (dictNamed sched) (batchFields results) acc = Ok acc'.
Proof.
  revert acc. induction results as [|r results IH]; intros acc; [done|].
  simpl. intros (acc1 & Hd & Hrest)%bind_Ok.
  unfold batchFields. simpl. rewrite forEach_app.
  rewrite (dictDocument_named _ _ _ Hd). simpl. by apply IH.
Qed.

Lemma scanFrom_snoc h n fields name a :
  scanFrom sched h n (fields ++ [(name, a)])
  = scanFrom sched h n fields
    ++ ((λ e, (name, e.1)) <$> range sched (n + length fields) (deref h a)).
Proof.
  revert n. induction fields as [|[name' a'] fields IH]; intros n; simpl.
  - by rewrite app_nil_r, Nat.add_0_r.
  - rewrite IH, <- app_assoc. do 3 f_equal.
    unfold range. f_equal. lia.
Qed.

Lemma scanFrom_names h n fields e :
  e ∈ scanFrom sched h n fields → e.1 ∈ fields.*1.
Proof.
  revert n. induction fields as [|[name a] fields IH]; intros n; simpl.
  - by intros ?%elem_of_nil.
  - rewrite elem_of_app, list_elem_of_fmap.
    intros [(e' & -> & _)|H]; simpl; [left|right; eauto].
Qed.

Lemma scanIds_weaken s s' h n fields :
  FieldsMap s ⊆ FieldsMap s' →
  (∀ name, name ∈ fields.*1 → is_Some (FieldsMap s !! name)) →
  (λ e, (fieldIdOf s' e.1, e.2)) <$> scanFrom sched h n fields
  = (λ e, (fieldIdOf s e.1, e.2)) <$> scanFrom sched h n fields.
Proof.
  intros Hsub Hreg. apply list_fmap_ext. intros i e Hi. f_equal.
  apply fieldIdOf_weaken; [done|]. apply Hreg.
  eapply scanFrom_names, list_elem_of_lookup_2, Hi.
Qed.

Lemma dictNamed_step st0 fields e acc acc' :
  dictPassInv sched st0 fields acc →
  dictNamed sched e acc = Ok acc' →
  dictPassInv sched st0 (fields ++ [e]) acc'.
Proof.
  destruct acc as [st n], acc' as [st' n'], e as [name a].
  unfold dictPassInv. simpl.
  intros (Hreg & Hsub & Hnames & Hok & Hn & Hst & Hcl & Harr & Hdoc & Hdv & Hsz).
  unfold dictNamed. simpl.
  pose proof (getOrDefineField_registryOK name _ Hreg) as Hreg1.
  pose proof (getOrDefineField_grows name (seg st)) as Hgrow.
  pose proof (getOrDefineField_id name _ Hreg) as (Hid & _ & Hfid).
  pose proof (getOrDefineField_frame name (seg st)) as (Harr1 & Hdoc1 & Hdv1 & Hsz1).
  destruct (getOrDefineField name (seg st)) as [fid s1]. simpl in *.
  intros Hrun.
  assert (dictOK (distinctInOrder
            ((λ e, (fieldIdOf (seg st) e.1, e.2))
               <$> scanFrom sched (store st0) (clock st0) fields)) s1) as Hok1.
  { destruct Hok as [Hnd Hok]. split; [done|]. intros f t v.
    by rewrite (grows_dictLookup _ _ _ _ Hgrow). }
  apply dictField_spec with (ord := distinctInOrder
            ((λ e, (fieldIdOf (seg st) e.1, e.2))
               <$> scanFrom sched (store st0) (clock st0) fields)) in Hrun;
    [|done|done].
  simpl in Hrun. destruct Hrun as (Hok' & Hn' & Hsame & Hst' & Hcl').
  pose proof Hsame as (HFM & HFI & _ & _ & Harr' & Hdoc' & Hdv' & Hsz').
  assert (FieldsMap (seg st) ⊆ FieldsMap (seg st')) as Hsub1.
  { rewrite HFM. apply Hgrow. }
  assert (fieldIdOf (seg st') name = fid) as Hname.
  { unfold fieldIdOf, extId in *. rewrite HFM.
    destruct (FieldsMap s1 !! name); simpl in *; congruence. }
  assert ((λ e, (fieldIdOf (seg st') e.1, e.2))
            <$> scanFrom sched (store st0) (clock st0) (fields ++ [(name, a)])
          = ((λ e, (fieldIdOf (seg st) e.1, e.2))
               <$> scanFrom sched (store st0) (clock st0) fields)
            ++ ((λ e, (uint16 fid, e.1))
                  <$> range sched (clock st) (deref (store st) a))) as Hscan.
  { rewrite scanFrom_snoc, fmap_app, (scanIds_weaken (seg st)) by done.
    f_equal. rewrite <- list_fmap_compose, Hcl, Hst, Hfid.
    apply list_fmap_ext. intros i e _. simpl. by rewrite Hname. }
  rewrite Hscan, distinctInOrder_app.
  split_and!; try congruence.
  - by eapply sameButDicts_registryOK.
  - by etrans.
  - intros nm. rewrite fmap_app, elem_of_app. simpl.
    intros [Hnm| ->%list_elem_of_singleton].
    + destruct (Hnames nm Hnm) as [w Hw]. exists w.
      by eapply lookup_weaken.
    + rewrite HFM. unfold extId in Hid.
      destruct (FieldsMap s1 !! name); [eauto|done].
  - rewrite Hcl', Hcl, length_app. simpl. lia.
Qed.

Lemma dictPassInv_start st0 :
  registryOK (seg st0) → (∀ f t, dictLookup (seg st0) f t = None) →
  dictPassInv sched st0 [] (st0, 0).
Proof.
  intros Hreg Hempty. unfold dictPassInv. simpl.
  split_and!; try done.
  - intros name ?%elem_of_nil. done.
  - by apply dictOK_nil.
Qed.

Lemma dictDocuments_inv st0 results acc :
  registryOK (seg st0) → (∀ f t, dictLookup (seg st0) f t = None) →
  forEach (dictDocument sched) results (st0, 0) = Ok acc →
  dictPassInv sched st0 (batchFields results) acc.
Proof.
  intros Hreg Hempty Hrun%dictDocuments_named.
  eapply (forEach_invariant _ (dictPassInv sched st0)); [| |done].
  - by apply dictPassInv_start.
  - intros ???? _. apply dictNamed_step.
Qed.

End FirstPass.

Lemma sameDicts_refl s : sameDicts s s.
Proof. done. Qed.

Lemma sameDicts_trans s1 s2 s3 :
  sameDicts s1 s2 → sameDicts s2 s3 → sameDicts s1 s3.
Proof.
  unfold sameDicts. intros (?&?&?&?) (?&?&?&?). split_and!; congruence.
Qed.

Lemma sameDicts_registryOK s s' :
  sameDicts s s' → registryOK s → registryOK s'.
Proof. unfold sameDicts, registryOK. by intros (-> & -> & -> & ->). Qed.

Lemma sameDicts_dictLookup s s' f t :
  sameDicts s s' → dictLookup s' f t = dictLookup s f t.
Proof. unfold sameDicts, dictLookup. by intros (_ & _ & -> & _). Qed.

Lemma sameDicts_fieldIdOf s s' name :
  sameDicts s s' → fieldIdOf s' name = fieldIdOf s name.
Proof. unfold sameDicts, fieldIdOf, extId. by intros (-> & _). Qed.

Lemma sameDicts_dictOK ord s s' : sameDicts s s' → dictOK ord s → dictOK ord s'.
Proof.
  intros Hs [Hnd H]. split; [done|]. intros f t v.
  by rewrite (sameDicts_dictLookup _ _ _ _ Hs).
Qed.

Lemma sameDicts_grows s s' : sameDicts s s' → grows s s'.
Proof.
  intros (HM & _ & HD & _). split; [by rewrite HM|].
  exists 0%nat. simpl. by rewrite app_nil_r.
Qed.

Lemma sameDicts_scanIds sched s s' results h :
  sameDicts s s' → scanIds sched s' results h = scanIds sched s results h.
Proof.
  intros Hs. unfold scanIds. apply list_fmap_ext. intros i e _.
  by rewrite (sameDicts_fieldIdOf _ _ _ Hs).
Qed.

Lemma allocate_spec n s s' :
  0 ≤ n → allocate n s = Ok s' →
  n ≤ maxInt ∧ sameDicts s s' ∧
  arrays s' = (make n ∅, make n ∅, make n [], make n [], make n [],
               make n [], make n [], make n [], make n []) ∧
  documents s' = documents s ∧ DocValueFields s' = DocValueFields s ∧
  sizeInBytes s' = sizeInBytes s.
Proof.
  intros Hn. unfold allocate. destruct (n <=? maxInt) eqn:E; [|done].
  apply Z.leb_le in E. intros [= <-]. by split_and!.
Qed.

Lemma dictLookup_initial f t : dictLookup initial f t = None.
Proof.
  unfold initial.
  rewrite (grows_dictLookup New) by apply getOrDefineField_grows.
  unfold dictLookup. simpl. by rewrite (proj2 (get_None [] f)) by (unfold len; simpl; lia).
Qed.

Lemma elem_of_scanFrom sched h n fields name t :
  (name, t) ∈ scanFrom sched h n fields ↔
  ∃ a, (name, a) ∈ fields ∧ t ∈ dom (deref h a).
Proof.
  revert n. induction fields as [|[name' a'] fields IH]; intros n; simpl.
  - split; [by intros ?%elem_of_nil|]. by intros (a & ?%elem_of_nil & _).
  - rewrite elem_of_app, IH, list_elem_of_fmap. split.
    + intros [([t' tf] & [= -> ->] & Hin)|(a & Ha & Ht)].
      * exists a'. split; [left|]. unfold range in Hin.
        rewrite (pick_perm sched), elem_of_map_to_list in Hin.
        apply elem_of_dom. eauto.
      * exists a. split; [by right|done].
    + intros (a & [[= -> ->]|Ha]%elem_of_cons & Ht).
      * left. apply elem_of_dom in Ht as [tf Htf]. exists (t, tf).
        split; [done|]. unfold range.
        by rewrite (pick_perm sched), elem_of_map_to_list.
      * right. eauto.
Qed.

Lemma elem_of_batchPairs s results h f t :
  (f, t) ∈ batchPairs s results h ↔
  ∃ name a, (name, a) ∈ batchFields results ∧ fieldIdOf s name = f ∧
            t ∈ dom (deref h a).
Proof.
  unfold batchPairs. rewrite elem_of_list_to_set, list_elem_of_bind. split.
  - intros ([name a] & (t' & Heq & Ht)%list_elem_of_fmap & Hin).
    simpl in *. injection Heq as -> ->. apply elem_of_elements in Ht.
    eauto.
  - intros (name & a & Hin & <- & Ht). exists (name, a). split; [|done].
    simpl. apply list_elem_of_fmap. exists t. split; [done|].
    by apply elem_of_elements.
Qed.

Lemma elem_of_scanIds sched s results h f t :
  (f, t) ∈ scanIds sched s results h ↔ (f, t) ∈ batchPairs s results h.
Proof.
  rewrite elem_of_batchPairs. unfold scanIds, scan.
  rewrite list_elem_of_fmap. split.
  - intros ([name t'] & [= -> ->] & (a & Ha & Ht)%elem_of_scanFrom). eauto.
  - intros (name & a & Ha & <- & Ht). exists (name, t). split; [done|].
    apply elem_of_scanFrom. eauto.
Qed.

(** The number of distinct pairs visited is the number of pairs of the
    batch, whatever the order of the visits. *)
Lemma distinct_scanIds_size sched s results h :
  length (distinctInOrder (scanIds sched s results h))
  = size (batchPairs s results h).
Proof.
  rewrite <- (size_list_to_set (C := gset (Z * string)))
    by apply NoDup_distinctInOrder.
  f_equal. apply set_eq. intros [f t].
  by rewrite elem_of_list_to_set, elem_of_distinctInOrder, elem_of_scanIds.
Qed.

(** The state after the first pass of a build. *)
Lemma initializeDict_spec sched results h st' :
  initializeDict sched results (start h) = Ok st' →
  let s' := seg st' in
  let ord := distinctInOrder (scanIds sched s' results h) in
  registryOK s' ∧ postingsOK ord s' ∧
  (∀ name, name ∈ (batchFields results).*1 → is_Some (FieldsMap s' !! name)) ∧
  FieldsMap initial ⊆ FieldsMap s' ∧
  arrays s' = (make (len ord) ∅, make (len ord) ∅, make (len ord) [],
               make (len ord) [], make (len ord) [], make (len ord) [],
               make (len ord) [], make (len ord) [], make (len ord) []) ∧
  documents s' = ([], [], []) ∧ DocValueFields s' = ∅ ∧
  store st' = h ∧ clock st' = length (batchFields results).
Proof.
  unfold initializeDict.
  intros ([st1 n] & Hloop & (s2 & Halloc & [= <-])%bind_Ok)%bind_Ok.
  apply dictDocuments_inv in Hloop;
    [|apply registryOK_initial|apply dictLookup_initial].
  unfold dictPassInv in Hloop. simpl in Hloop.
  destruct Hloop as (Hreg & Hsub & Hnames & Hok & Hn & Hst & Hcl & Harr & Hdoc & Hdv & Hsz).
  apply allocate_spec in Halloc
    as (Hmax & Hsame & Harr2 & Hdoc2 & Hdv2 & _);
    [|rewrite Hn; apply len_nonneg].
  simpl. rewrite (sameDicts_scanIds _ _ _ _ _ Hsame).
  unfold scanIds, scan. rewrite <- Hn.
  pose proof Hsame as (HFM & _).
  split_and!; try done.
  - by eapply sameDicts_registryOK.
  - assert (0 ≤ n) as Hn0 by (rewrite Hn; apply len_nonneg).
    unfold postingsOK. injection Harr2 as -> -> -> -> -> -> -> -> ->.
    rewrite <- Hn, !len_make by done.
    split_and!; try done. eapply sameDicts_dictOK; [done|]. by subst n.
  - by rewrite HFM.
  - by rewrite HFM.
  - by rewrite Hdoc2, Hdoc.
  - by rewrite Hdv2, Hdv.
Qed.

(** ** The second pass: the walk over the collated fields *)

Arguments walkLocation : simpl never.
Arguments walkTerm : simpl never.

Lemma slot_arrays s s' p : arrays s' = arrays s → slot s' p = slot s p.
Proof.
  unfold arrays, slot. by intros [= -> -> -> -> -> -> -> -> ->].
Qed.

Lemma postingsOK_frame ord s s' :
  arrays s' = arrays s → grows s s' → postingsOK ord s → postingsOK ord s'.
Proof.
  unfold arrays, postingsOK.
  intros [= -> -> -> -> -> -> -> -> ->] Hg ([Hnd Hd] & H).
  split; [|done]. split; [done|]. intros f t v.
  by rewrite (grows_dictLookup _ _ _ _ Hg).
Qed.

Lemma slot_is_Some ord s p :
  postingsOK ord s → is_Some (slot s p) ↔ 0 ≤ p < len ord.
Proof.
  intros (_ & H1 & _ & H2 & H3 & H4 & H5 & H6 & H7 & H8 & H9).
  split.
  - intros [sl Hsl]. unfold slot in Hsl.
    destruct (get (Postings s) p) eqn:E; [|done].
    rewrite <- H1. apply get_is_Some. eauto.
  - intros Hp. unfold slot.
    destruct (proj2 (get_is_Some (Postings s) p)) as [? ->]; [lia|].
    destruct (proj2 (get_is_Some (PostingsLocs s) p)) as [? ->]; [lia|].
    destruct (proj2 (get_is_Some (Freqs s) p)) as [? ->]; [lia|].
    destruct (proj2 (get_is_Some (Norms s) p)) as [? ->]; [lia|].
    destruct (proj2 (get_is_Some (Locfields s) p)) as [? ->]; [lia|].
    destruct (proj2 (get_is_Some (Locstarts s) p)) as [? ->]; [lia|].
    destruct (proj2 (get_is_Some (Locends s) p)) as [? ->]; [lia|].
    destruct (proj2 (get_is_Some (Locpos s) p)) as [? ->]; [lia|].
    destruct (proj2 (get_is_Some (Locarraypos s) p)) as [? ->]; [lia|].
    simpl. eauto.
Qed.

Lemma slot_Some s p sl :
  slot s p = Some sl ↔
  get (Postings s) p = Some (sPostings sl) ∧
  get (PostingsLocs s) p = Some (sPostingsLocs sl) ∧
  get (Freqs s) p = Some (sFreqs sl) ∧ get (Norms s) p = Some (sNorms sl) ∧
  get (Locfields s) p = Some (sLocfields sl) ∧
  get (Locstarts s) p = Some (sLocstarts sl) ∧
  get (Locends s) p = Some (sLocends sl) ∧
  get (Locpos s) p = Some (sLocpos sl) ∧
  get (Locarraypos s) p = Some (sLocarraypos sl).
Proof.
  unfold slot. split.
  - intros H.
    destruct (get (Postings s) p); [|done].
    destruct (get (PostingsLocs s) p); [|done].
    destruct (get (Freqs s) p); [|done].
    destruct (get (Norms s) p); [|done].
    destruct (get (Locfields s) p); [|done].
    destruct (get (Locstarts s) p); [|done].
    destruct (get (Locends s) p); [|done].
    destruct (get (Locpos s) p); [|done].
    destruct (get (Locarraypos s) p); [|done].
    simpl in H. injection H as <-. done.
  - intros (-> & -> & -> & -> & -> & -> & -> & -> & ->). simpl.
    by destruct sl.
Qed.

Lemma locsAdded_refl sl : locsAdded 0 sl sl.
Proof. unfold locsAdded. split_and!; try done; lia. Qed.

Lemma locsAdded_trans n m sl1 sl2 sl3 :
  locsAdded n sl1 sl2 → locsAdded m sl2 sl3 → locsAdded (n + m) sl1 sl3.
Proof.
  unfold locsAdded.
  intros (?&?&?&?&?&?&?&?&?) (?&?&?&?&?&?&?&?&?).
  split_and!; try congruence; lia.
Qed.

(** One location: the five location sequences of the slot grow by one. *)
Lemma walkLocation_spec ord pid fieldID loc s s' sl :
  registryOK s → postingsOK ord s → slot s pid = Some sl →
  walkLocation pid fieldID loc s = Ok s' →
  registryOK s' ∧ postingsOK ord s' ∧ grows s s' ∧
  documents s' = documents s ∧ DocValueFields s' = DocValueFields s ∧
  (∃ sl', slot s' pid = Some sl' ∧ locsAdded 1 sl sl') ∧
  (∀ p, p ≠ pid → slot s' p = slot s p).
Proof.
  intros Hreg Hpost Hsl Hrun. unfold walkLocation in Hrun.
  set (r := if decide (Field loc = EmptyString) then (fieldID, s)
            else let '(f, s0) := getOrDefineField (Field loc) s in
                 (uint16 f, s0)) in Hrun.
  assert (registryOK r.2 ∧ grows s r.2 ∧ arrays r.2 = arrays s ∧
          documents r.2 = documents s ∧
          DocValueFields r.2 = DocValueFields s) as (Hreg1 & Hg1 & Ha1 & Hd1 & Hv1).
  { subst r. case_decide.
    - simpl. split_and!; try done. apply grows_refl.
    - pose proof (getOrDefineField_registryOK (Field loc) s Hreg).
      pose proof (getOrDefineField_grows (Field loc) s).
      pose proof (getOrDefineField_frame (Field loc) s) as (? & ? & ? & _).
      destruct (getOrDefineField (Field loc) s). simpl in *. by split_and!. }
  destruct r as [locf s1]. simpl in *.
  apply (slot_arrays _ _ pid) in Ha1 as Hsl1. rewrite Hsl in Hsl1.
  apply slot_Some in Hsl1 as (G1 & G2 & G3 & G4 & G5 & G6 & G7 & G8 & G9).
  apply bind_Ok in Hrun as (lf & (x1 & Hx1 & ->)%modify_Ok & Hrun).
  apply bind_Ok in Hrun as (ls & (x2 & Hx2 & ->)%modify_Ok & Hrun).
  apply bind_Ok in Hrun as (le & (x3 & Hx3 & ->)%modify_Ok & Hrun).
  apply bind_Ok in Hrun as (lp & (x4 & Hx4 & ->)%modify_Ok & Hrun).
  simpl in *.
  assert (∃ y, s' = set_Locarraypos
                      (<[Z.to_nat pid := sLocarraypos sl ++ [y]]> (Locarraypos s1))
                      (set_Locpos (<[Z.to_nat pid := x4 ++ [uint64 (Position loc)]]> (Locpos s1))
                         (set_Locends (<[Z.to_nat pid := x3 ++ [uint64 (End_ loc)]]> (Locends s1))
                            (set_Locstarts (<[Z.to_nat pid := x2 ++ [uint64 (Start loc)]]> (Locstarts s1))
                               (set_Locfields (<[Z.to_nat pid := x1 ++ [locf]]> (Locfields s1)) s1)))))
    as [y ->].
  { destruct (0 <? len (ArrayPositions loc));
      apply bind_Ok in Hrun as (la & (x5 & Hx5 & ->)%modify_Ok & [= <-]);
      simpl in *; rewrite G9 in Hx5; injection Hx5 as <-; eauto. }
  clear Hrun.
  rewrite G5 in Hx1. rewrite G6 in Hx2. rewrite G7 in Hx3. rewrite G8 in Hx4.
  injection Hx1 as <-. injection Hx2 as <-. injection Hx3 as <-.
  injection Hx4 as <-.
  assert (arrays s1 = arrays s) as Ha1' by done.
  unfold arrays in Ha1'. injection Ha1' as E1 E2 E3 E4 E5 E6 E7 E8 E9.
  split_and!.
  - eapply sameDicts_registryOK; [|exact Hreg1]. done.
  - pose proof (postingsOK_frame _ _ _ Ha1 Hg1 Hpost)
      as (Hd & L1 & L0 & L2 & L3 & L4 & L5 & L6 & L7 & L8 & L9).
    unfold postingsOK. simpl. rewrite !len_insert. by split_and!.
  - destruct Hg1 as [? [k ?]]. split; [done|]. by exists k.
  - done.
  - done.
  - exists {| sPostings := sPostings sl; sPostingsLocs := sPostingsLocs sl;
              sFreqs := sFreqs sl; sNorms := sNorms sl;
              sLocfields := sLocfields sl ++ [locf];
              sLocstarts := sLocstarts sl ++ [uint64 (Start loc)];
              sLocends := sLocends sl ++ [uint64 (End_ loc)];
              sLocpos := sLocpos sl ++ [uint64 (Position loc)];
              sLocarraypos := sLocarraypos sl ++ [y] |}.
    split.
    + apply slot_Some. simpl.
      rewrite !(get_insert _ pid pid) by (apply get_is_Some; eauto).
      rewrite !decide_True by done. by split_and!.
    + unfold locsAdded. simpl. rewrite !length_app. simpl.
      split_and!; done.
  - intros p Hp. unfold slot. simpl.
    rewrite !(get_insert _ pid p) by (apply get_is_Some; eauto).
    rewrite !decide_False by done.
    by rewrite E1, E2, E3, E4, E5, E6, E7, E8, E9.
Qed.

Lemma walkLocations_spec ord pid fieldID locs s s' sl :
  registryOK s → postingsOK ord s → slot s pid = Some sl →
  forEach (walkLocation pid fieldID) locs s = Ok s' →
  registryOK s' ∧ postingsOK ord s' ∧ grows s s' ∧
  documents s' = documents s ∧ DocValueFields s' = DocValueFields s ∧
  (∃ sl', slot s' pid = Some sl' ∧ locsAdded (length locs) sl sl') ∧
  (∀ p, p ≠ pid → slot s' p = slot s p).
Proof.
  revert s sl. induction locs as [|loc locs IH]; intros s sl Hreg Hpost Hsl.
  - intros [= <-]. split_and!; try done; [apply grows_refl|].
    exists sl. split; [done|apply locsAdded_refl].
  - simpl. intros (s1 & Hloc & Hrest)%bind_Ok.
    destruct (walkLocation_spec _ _ _ _ _ _ _ Hreg Hpost Hsl Hloc)
      as (Hreg1 & Hpost1 & Hg1 & Hd1 & Hv1 & (sl1 & Hsl1 & Hadd1) & Hoth1).
    destruct (IH _ _ Hreg1 Hpost1 Hsl1 Hrest)
      as (Hreg2 & Hpost2 & Hg2 & Hd2 & Hv2 & (sl2 & Hsl2 & Hadd2) & Hoth2).
    split_and!; try done; try congruence.
    + by eapply grows_trans.
    + exists sl2. split; [done|].
      apply (locsAdded_trans 1 (length locs) _ _ _ Hadd1 Hadd2).
    + intros p Hp. by rewrite Hoth2, Hoth1.
Qed.

(** The ordinals of the dictionary are the positions in [ord], counted from
    one, and index the arrays once one is subtracted. *)
Lemma dictLookup_ordinal ord s f t v :
  postingsOK ord s → dictLookup s f t = Some v →
  ∃ i : nat, ord !! i = Some (f, t) ∧ v = Z.of_nat i + 1 ∧
             uint64 (v - 1) = Z.of_nat i ∧ 0 ≤ v - 1 < len ord.
Proof.
  intros ([_ Hd] & _ & Hmax & _) (i & Hi & ->)%Hd. exists i.
  apply lookup_lt_Some in Hi as Hlt. unfold len in Hmax.
  rewrite (uint64_small (Z.of_nat i + 1)) by lia.
  replace (Z.of_nat i + 1 - 1) with (Z.of_nat i) by lia.
  rewrite uint64_small by lia. unfold len. split_and!; try done; lia.
Qed.

Lemma dictLookup_inj ord s f t f' t' v :
  postingsOK ord s → dictLookup s f t = Some v → dictLookup s f' t' = Some v →
  f = f' ∧ t = t'.
Proof.
  intros Hpost (i & Hi & -> & _)%(dictLookup_ordinal ord)
    (j & Hj & Hv & _)%(dictLookup_ordinal ord); [|done..].
  assert (i = j) as -> by lia. naive_solver.
Qed.

(** One term of a collated field: the term has an ordinal, and the document
    is entered into the slot of that ordinal and into no other. *)
Lemma walkTerm_spec ord docNum lens fieldID term tf s s' :
  registryOK s → postingsOK ord s →
  walkTerm docNum lens fieldID (term, tf) s = Ok s' →
  registryOK s' ∧ postingsOK ord s' ∧ grows s s' ∧
  documents s' = documents s ∧ DocValueFields s' = DocValueFields s ∧
  ∃ v sl sl',
    dictLookup s fieldID term = Some v ∧
    slot s (v - 1) = Some sl ∧ slot s' (v - 1) = Some sl' ∧
    hit docNum (InvSqrt (default 0 (lens !! fieldID))) tf sl sl' ∧
    ∀ p, p ≠ v - 1 → slot s' p = slot s p.
Proof.
  intros Hreg Hpost Hrun. unfold walkTerm in Hrun.
  apply bind_Ok in Hrun as (dict & Hdict%index_Ok & Hrun).
  apply bind_Ok in Hrun as (bs & Hbs%index_Ok & Hrun).
  assert (∃ v, dict !! term = Some v) as [v Hv].
  { destruct (dict !! term) as [v|] eqn:E; [eauto|]. exfalso.
    simpl in Hbs. assert (is_Some (get (Postings s) (uint64 (0 - 1)))) as Hs
      by eauto.
    apply get_is_Some in Hs. rewrite uint64_minus_one in Hs.
    destruct Hpost as (_ & HL & Hmax & _). unfold maxInt in Hmax. lia. }
  rewrite Hv in Hrun, Hbs. simpl in Hrun, Hbs.
  assert (dictLookup s fieldID term = Some v) as Hlook.
  { unfold dictLookup. by rewrite Hdict. }
  destruct (dictLookup_ordinal _ _ _ _ _ Hpost Hlook) as (i & Hi & Hvi & Hpid & Hrange).
  rewrite Hpid in Hrun, Hbs.
  assert (v - 1 = Z.of_nat i) as Hp by lia. rewrite Hp in *.
  set (p := Z.of_nat i) in *.
  destruct (proj2 (slot_is_Some _ _ p Hpost)) as [sl Hsl]; [done|].
  apply slot_Some in Hsl as Hgets.
  destruct Hgets as (G1 & G2 & G3 & G4 & G5 & G6 & G7 & G8 & G9).
  assert (bs = sPostings sl) as -> by congruence.
  apply bind_Ok in Hrun as (ps & [_ ->]%assign_Ok & Hrun).
  apply bind_Ok in Hrun as (fs & (x1 & Hx1 & ->)%modify_Ok & Hrun).
  apply bind_Ok in Hrun as (ns & (x2 & Hx2 & ->)%modify_Ok & Hrun).
  apply bind_Ok in Hrun as (lbs & Hlbs%index_Ok & Hrun).
  simpl in *. rewrite G3 in Hx1. rewrite G4 in Hx2. rewrite G2 in Hlbs.
  injection Hx1 as <-. injection Hx2 as <-. injection Hlbs as <-.
  set (s3 := set_Norms _ (set_Freqs _ (set_Postings _ s))) in *.
  set (nrm := InvSqrt (default 0 (lens !! fieldID))) in *.
  assert (sameDicts s s3) as Hsame3 by done.
  pose proof Hpost as (Hd & L1 & L0 & L2 & L3 & L4 & L5 & L6 & L7 & L8 & L9).
  assert (postingsOK ord s3) as Hpost3.
  { unfold postingsOK. subst s3. simpl. rewrite !len_insert. by split_and!. }
  assert (∀ q, q ≠ p → slot s3 q = slot s q) as Hoth3.
  { intros q Hq. unfold slot. subst s3. simpl.
    rewrite !(get_insert _ p q) by (apply get_is_Some; eauto).
    by rewrite !decide_False by done. }
  destruct (0 <? len (Locations tf)) eqn:Elocs.
  - apply Z.ltb_lt in Elocs.
    assert (Locations tf ≠ []) as Hne.
    { intros E. rewrite E in Elocs. unfold len in Elocs. simpl in Elocs. lia. }
    apply bind_Ok in Hrun as (pl & [_ ->]%assign_Ok & Hrun).
    set (s4 := set_PostingsLocs _ s3) in *.
    set (sl4 := {| sPostings := AddInt (int docNum) (sPostings sl);
                   sPostingsLocs := AddInt (int docNum) (sPostingsLocs sl);
                   sFreqs := sFreqs sl ++ [uint64 (Frequency tf)];
                   sNorms := sNorms sl ++ [nrm];
                   sLocfields := sLocfields sl;
                   sLocstarts := sLocstarts sl; sLocends := sLocends sl;
                   sLocpos := sLocpos sl;
                   sLocarraypos := sLocarraypos sl |}).
    assert (slot s4 p = Some sl4) as Hsl4.
    { apply slot_Some. subst s4 s3 sl4. simpl.
      rewrite !(get_insert _ p p) by (apply get_is_Some; eauto).
      rewrite !decide_True by done. by split_and!. }
    assert (postingsOK ord s4) as Hpost4.
    { destruct Hpost3 as (? & ? & ? & ? & ?).
      unfold postingsOK. subst s4. simpl. rewrite !len_insert. by split_and!. }
    assert (registryOK s4) as Hreg4 by (by eapply sameDicts_registryOK).
    destruct (walkLocations_spec _ _ _ _ _ _ _ Hreg4 Hpost4 Hsl4 Hrun)
      as (Hreg5 & Hpost5 & Hg5 & Hd5 & Hv5 & (sl5 & Hsl5 & Hadd) & Hoth5).
    split_and!; try done.
    exists v, sl, sl5. rewrite Hp. split_and!; try done.
    + destruct Hadd as (A1 & A2 & A3 & A4 & A5 & A6 & A7 & A8 & A9).
      unfold hit. rewrite decide_False by done.
      rewrite A1, A2, A3, A4, A5, A6, A7, A8, A9. by split_and!.
    + intros q Hq. rewrite Hoth5 by done. rewrite <- Hoth3 by done.
      unfold slot. subst s4. simpl.
      rewrite !(get_insert _ p q) by (apply get_is_Some; eauto).
      by rewrite !decide_False by done.
  - apply Z.ltb_ge in Elocs.
    assert (Locations tf = []) as He.
    { destruct (Locations tf); [done|]. unfold len in Elocs. simpl in Elocs. lia. }
    injection Hrun as <-.
    split_and!; try done; [by apply sameDicts_grows|].
    exists v, sl,
        {| sPostings := AddInt (int docNum) (sPostings sl);
           sPostingsLocs := sPostingsLocs sl;
           sFreqs := sFreqs sl ++ [uint64 (Frequency tf)];
           sNorms := sNorms sl ++ [nrm];
           sLocfields := sLocfields sl;
           sLocstarts := sLocstarts sl; sLocends := sLocends sl;
           sLocpos := sLocpos sl;
           sLocarraypos := sLocarraypos sl |}.
    rewrite Hp. split_and!; try done.
    + apply slot_Some. subst s3. simpl.
      rewrite !(get_insert _ p p) by (apply get_is_Some; eauto).
      rewrite !decide_True by done. by split_and!.
    + unfold hit. simpl. rewrite decide_True by done. rewrite He. simpl.
      split_and!; try done; lia.
Qed.

Section Walk.

Context (sched : Schedule).

Lemma walkFields_flat docNum lens h fields s n s' n' :
  forEach (walkField sched docNum lens h) fields (s, n) = Ok (s', n') →
  forEach (walkEntry docNum lens) (walked sched h n fields) s = Ok s' ∧
  n' = (n + length fields)%nat.
Proof.
  revert s n. induction fields as [|[f a] fields IH]; intros s n; simpl.
  - intros [= <- <-]. split; [done|lia].
  - intros ([s1 n1] & Hf & Hrest)%bind_Ok. unfold walkField in Hf.
    apply bind_Ok in Hf as (s2 & Hterms & [= <- <-]).
    destruct (IH _ _ Hrest) as [Hflat ->]. split; [|lia].
    rewrite forEach_app, forEach_fmap.
    rewrite (forEach_ext _ (walkTerm docNum lens f)), Hterms; [done|].
    intros [t tf] u _. done.
Qed.

Lemma elem_of_walked h n fields f t tf :
  (f, t, tf) ∈ walked sched h n fields ↔
  ∃ a, (f, a) ∈ fields ∧ deref h a !! t = Some tf.
Proof.
  revert n. induction fields as [|[f' a'] fields IH]; intros n; simpl.
  - split; [by intros ?%elem_of_nil|]. by intros (a & ?%elem_of_nil & _).
  - rewrite elem_of_app, IH, list_elem_of_fmap. split.
    + intros [([t' tf'] & [= -> -> ->] & Hin)|(a & Ha & Ht)].
      * exists a'. split; [left|]. unfold range in Hin.
        by rewrite (pick_perm sched), elem_of_map_to_list in Hin.
      * exists a. split; [by right|done].
    + intros (a & [[= -> ->]|Ha]%elem_of_cons & Ht).
      * left. exists (t, tf). split; [done|]. unfold range.
        by rewrite (pick_perm sched), elem_of_map_to_list.
      * right. eauto.
Qed.

Lemma walked_fields h n fields e :
  e ∈ walked sched h n fields → e.1.1 ∈ fields.*1.
Proof.
  destruct e as [[f t] tf]. intros (a & Ha & _)%elem_of_walked. simpl.
  apply list_elem_of_fmap. by exists (f, a).
Qed.

Lemma walked_NoDup h n fields :
  NoDup fields.*1 → NoDup (walked sched h n fields).*1.
Proof.
  revert n. induction fields as [|[f a] fields IH]; intros n; simpl.
  - intros _. apply NoDup_nil_2.
  - intros [Hf Hnd]%NoDup_cons. rewrite fmap_app. apply NoDup_app.
    split_and!; [| |by apply IH].
    + rewrite <- list_fmap_compose.
      apply (NoDup_fmap_2_strong _).
      * intros [t1 tf1] [t2 tf2] H1 H2 [= Ht]. simpl in *. subst t2.
        unfold range in H1, H2.
        rewrite (pick_perm sched), elem_of_map_to_list in H1, H2. congruence.
      * unfold range. rewrite (pick_perm sched). apply NoDup_map_to_list.
    + intros [f1 t1] (e1 & E1 & H1)%list_elem_of_fmap
        (e2 & E2 & H2)%list_elem_of_fmap.
      apply list_elem_of_fmap in H1 as (e3 & -> & _).
      apply walked_fields in H2. simpl in *. destruct Hf.
      injection E1 as -> _. destruct e2 as [[f2 t2] tf2]. simpl in *.
      by injection E2 as -> _.
Qed.

End Walk.

(** The walk over a list of entries with distinct (field id, term) pairs. *)
Lemma walkEntries_spec ord docNum lens entries s s' :
  registryOK s → postingsOK ord s → NoDup entries.*1 →
  forEach (walkEntry docNum lens) entries s = Ok s' →
  registryOK s' ∧ postingsOK ord s' ∧ grows s s' ∧
  documents s' = documents s ∧ DocValueFields s' = DocValueFields s ∧
  (∀ e, e ∈ entries → is_Some (dictLookup s e.1.1 e.1.2)) ∧
  slotEffect docNum lens entries s s'.
Proof.
  intros Hreg Hpost Hnd Hrun.
  apply (forEach_invariant_split _
    (λ pre t,
       registryOK t ∧ postingsOK ord t ∧ grows s t ∧
       documents t = documents s ∧ DocValueFields t = DocValueFields s ∧
       (∀ e, e ∈ pre → is_Some (dictLookup s e.1.1 e.1.2)) ∧
       slotEffect docNum lens pre s t)) in Hrun; [done| |].
  - split_and!; try done; [apply grows_refl|by intros ? ?%elem_of_nil|].
    intros p sl Hsl. left. split; [done|]. by intros ? ?%elem_of_nil.
  - clear Hrun. intros pre [[f t] tf] rest u u' Hsplit
      (Hreg1 & Hpost1 & Hg1 & Hd1 & Hv1 & Hall & Heff) Hstep.
    unfold walkEntry in Hstep. simpl in Hstep.
    destruct (walkTerm_spec _ _ _ _ _ _ _ _ Hreg1 Hpost1 Hstep)
      as (Hreg2 & Hpost2 & Hg2 & Hd2 & Hv2 & v & sl & sl' & Hlook & Hsl & Hsl' & Hhit & Hoth).
    rewrite (grows_dictLookup _ _ _ _ Hg1) in Hlook.
    assert ((f, t) ∉ pre.*1) as Hfresh.
    { rewrite Hsplit, fmap_app in Hnd. apply NoDup_app in Hnd as (_ & Hnd & _).
      intros Hin. apply (Hnd _ Hin). simpl. left. }
    split_and!; try done; try congruence.
    + by eapply grows_trans.
    + intros e [He| ->%list_elem_of_singleton]%elem_of_app; [by apply Hall|].
      simpl. eauto.
    + intros p sl0 Hsl0. destruct (decide (p = v - 1)) as [->|Hp].
      * right. exists (f, t, tf), sl'. simpl.
        replace (v - 1 + 1) with v by lia.
        split_and!; [set_solver|done|done|].
        destruct (Heff _ _ Hsl0) as [[Hsame _]|(e & sl1 & He & Hle & _)].
        -- assert (sl = sl0) as -> by congruence. done.
        -- exfalso. replace (v - 1 + 1) with v in Hle by lia.
           destruct (dictLookup_inj _ _ _ _ _ _ _ Hpost Hle Hlook) as [E1 E2].
           apply Hfresh. apply list_elem_of_fmap. exists e. split; [|done].
           destruct e as [[??]?]. simpl in *. congruence.
      * rewrite (Hoth p Hp).
        destruct (Heff _ _ Hsl0) as [[Hsame Hno]|(e & sl1 & He & Hle & Hs1 & Hh)].
        -- left. split; [done|].
           intros e [He| ->%list_elem_of_singleton]%elem_of_app; [by apply Hno|].
           simpl. rewrite Hlook. intros [= ->]. lia.
        -- right. exists e, sl1. split_and!; try done. set_solver.
Qed.

(** ** The second pass: the collation of a document *)

Arguments processField : simpl never.
Arguments storeField : simpl never.

Lemma collateComposite_item docNum c a :
  collateComposite c a = collateItem docNum (compositeItem c) a.
Proof.
  unfold collateComposite, collateItem. simpl.
  destruct (getOrDefineField (CompositeName c) (aseg a)) as [fid s].
  by destruct (processField _ _ _ _ _) as [[c' h']|].
Qed.

Lemma collateRegular_items r docNum k fields a a' :
  (k ≤ length (Analyzed r))%nat → (k ≤ length (Length r))%nat →
  forEach (collateRegular r docNum) (enumerateFrom (Z.of_nat k) fields) a
  = Ok a' →
  forEach (collateItem docNum)
    (regularItems fields (drop k (Analyzed r)) (drop k (Length r))) a = Ok a' ∧
  (k + length fields ≤ length (Analyzed r))%nat ∧
  (k + length fields ≤ length (Length r))%nat.
Proof.
  revert k a. induction fields as [|fld fields IH]; intros k a Hk1 Hk2.
  { simpl. intros [= <-]. split; [done|lia]. }
  simpl. intros (a1 & Hstep & Hrest)%bind_Ok.
  unfold collateRegular in Hstep.
  destruct (getOrDefineField (Name fld) (aseg a)) as [fid s] eqn:Hg.
  apply bind_Ok in Hstep as (l & Hl%index_Ok & Hstep).
  apply bind_Ok in Hstep as (tf & Htf%index_Ok & Hstep).
  rewrite get_of_nat in Hl. rewrite get_of_nat in Htf.
  apply lookup_lt_Some in Hl as Hl', Htf as Htf'.
  replace (Z.of_nat k + 1) with (Z.of_nat (S k)) in Hrest by lia.
  destruct (IH (S k) a1) as (Hitems & ? & ?); [lia|lia|done|].
  split; [|simpl; lia].
  rewrite (drop_S _ _ _ Htf), (drop_S _ _ _ Hl). simpl.
  unfold collateItem at 1. simpl. rewrite Hg.
  apply bind_Ok in Hstep as ([c h] & -> & Hstep). simpl.
  apply bind_Ok in Hstep as (s1 & Hs1 & [= <-]).
  rewrite Hs1. simpl. done.
Qed.

Lemma collate_items r docNum a a' :
  collate r docNum a = Ok a' →
  forEach (collateItem docNum) (itemsOf r) a = Ok a' ∧ aligned r.
Proof.
  unfold collate, itemsOf.
  intros (a1 & Hc & Hr)%bind_Ok.
  apply (collateRegular_items r docNum 0) in Hr as (Hr & ? & ?);
    [|lia|lia].
  rewrite !drop_0 in Hr. split; [|split; simpl in *; lia].
  rewrite forEach_app, forEach_fmap.
  rewrite (forEach_ext _ collateComposite), Hc; [done|].
  intros. by rewrite (collateComposite_item docNum).
Qed.

Lemma regularItems_fields fields analyzed lengths :
  (length fields ≤ length analyzed)%nat →
  (length fields ≤ length lengths)%nat →
  omap iField (regularItems fields analyzed lengths) = fields ∧
  (λ it, (iName it, iFreqs it)) <$> regularItems fields analyzed lengths
  = zip (Name <$> fields) analyzed ∧
  (λ it, (iName it, iLength it)) <$> regularItems fields analyzed lengths
  = zip (Name <$> fields) lengths.
Proof.
  revert analyzed lengths.
  induction fields as [|f fields IH]; intros [|a analyzed] [|l lengths];
    simpl; intros H1 H2; try lia; try done.
  destruct (IH analyzed lengths) as (E1 & E2 & E3); [lia|lia|].
  split_and!; f_equal; [exact E1|exact E2|exact E3].
Qed.

(** The items of a document are its fields in scan order. *)
Lemma itemsOf_fields r :
  aligned r →
  omap iField (itemsOf r) = Fields (Doc r) ∧
  (λ it, (iName it, iFreqs it)) <$> itemsOf r = fieldsOf r ∧
  (λ it, (iName it, iLength it)) <$> itemsOf r = lengthsOf r.
Proof.
  intros [H1 H2]. unfold itemsOf, fieldsOf, lengthsOf.
  destruct (regularItems_fields _ _ _ H1 H2) as (E1 & E2 & E3).
  rewrite omap_app, !fmap_app, E1, E2, E3, <- !list_fmap_compose.
  split_and!; [|done|done].
  replace (omap iField (compositeItem <$> CompositeFields (Doc r)))
    with (@nil DocField); [done|].
  induction (CompositeFields (Doc r)); simpl; [done|]. done.
Qed.

Lemma get_snoc_insert {A} (l : list A) x y :
  <[Z.to_nat (len l) := y]> (l ++ [x]) = l ++ [y].
Proof.
  unfold len. rewrite Nat2Z.id, insert_app_r_alt by lia.
  by rewrite Nat.sub_diag.
Qed.

Lemma storeField_spec docNum f typ val pos s s' St Ty Po m1 m2 m3 :
  documents s = (St ++ [m1], Ty ++ [m2], Po ++ [m3]) →
  docNum = len St → docNum = len Ty → docNum = len Po →
  storeField docNum f typ val pos s = Ok s' →
  documents s' = (St ++ [<[f := default [] (m1 !! f) ++ [val]]> m1],
                  Ty ++ [<[f := default [] (m2 !! f) ++ [typ]]> m2],
                  Po ++ [<[f := default [] (m3 !! f) ++ [pos]]> m3]) ∧
  sameDicts s s' ∧ arrays s' = arrays s ∧
  DocValueFields s' = DocValueFields s.
Proof.
  unfold documents. intros [= E1 E2 E3] H1 H2 H3 Hrun.
  unfold storeField in Hrun.
  apply bind_Ok in Hrun as (st & (x1 & Hx1 & ->)%modify_Ok & Hrun).
  apply bind_Ok in Hrun as (ty & (x2 & Hx2 & ->)%modify_Ok & Hrun).
  apply bind_Ok in Hrun as (po & (x3 & Hx3 & ->)%modify_Ok & Hrun).
  injection Hrun as <-. simpl in *.
  rewrite E1 in *. rewrite E2 in *. rewrite E3 in *.
  rewrite H1, get_snoc in Hx1. rewrite H2, get_snoc in Hx2.
  rewrite H3, get_snoc in Hx3.
  injection Hx1 as <-. injection Hx2 as <-. injection Hx3 as <-.
  rewrite H1 at 1. rewrite H2 at 1. rewrite H3.
  rewrite !get_snoc_insert. done.
Qed.

(** A merge that returns: the receiving map is in the store and gets the
    merged entries, or it is nil and there was nothing to merge. *)
Lemma mergeInto_Ok name e tf h h' :
  mergeInto name e tf h = Ok h' →
  (∃ tfs, h !! e = Some tfs ∧
          h' = <[e := MergeAll name tfs (deref h tf)]> h) ∨
  (h !! e = None ∧ deref h tf = ∅ ∧ h' = h).
Proof.
  unfold mergeInto. destruct (h !! e) as [tfs|] eqn:E.
  - intros [= <-]. left. eauto.
  - case_decide as Hn; [|done]. intros [= <-]. right.
    by apply map_size_empty_iff in Hn.
Qed.

Lemma MergeAll_empty name : MergeAll name ∅ ∅ = ∅.
Proof. unfold MergeAll. apply map_eq. intros t. by rewrite lookup_union_with. Qed.

(** What a merge that returns leaves to be read at the addresses. *)
Lemma mergeInto_deref name e tf h h' :
  mergeInto name e tf h = Ok h' →
  (∀ a, is_Some (h' !! a) ↔ is_Some (h !! a)) ∧
  deref h' e = MergeAll name (deref h e) (deref h tf) ∧
  ∀ a, a ≠ e → deref h' a = deref h a.
Proof.
  intros [(tfs & E & ->)|(E & Hn & ->)]%mergeInto_Ok.
  - split_and!.
    + intros a. destruct (decide (a = e)) as [->|Hne].
      * rewrite lookup_insert_eq, E. split; eauto.
      * by rewrite lookup_insert_ne.
    + unfold deref. by rewrite lookup_insert_eq, E.
    + intros a Hne. unfold deref. by rewrite lookup_insert_ne.
  - split_and!; [done| |done].
    rewrite Hn. unfold deref at 1 2. rewrite E. simpl.
    by rewrite MergeAll_empty.
Qed.

Lemma processField_Ok f name l tf c h c' h' :
  processField f name l tf (c, h) = Ok (c', h') →
  c' = {| docMap := match docMap c !! f with
                    | Some _ => docMap c
                    | None => <[f := tf]> (docMap c)
                    end;
          fieldLens := <[f := int (default 0 (fieldLens c !! f) + l)]>
                         (fieldLens c) |} ∧
  match docMap c !! f with
  | Some existingFreqs => mergeInto name existingFreqs tf h = Ok h'
  | None => h' = h
  end.
Proof.
  unfold processField. destruct (docMap c !! f) as [e|].
  - intros (h1 & Hm & [= <- <-])%bind_Ok. done.
  - intros [= <- <-]. done.
Qed.

Lemma filter_fieldIdOf_weaken {A} (g : A → string) s s' f (l : list A) :
  FieldsMap s ⊆ FieldsMap s' →
  (∀ e, e ∈ l → is_Some (FieldsMap s !! g e)) →
  filter (λ e, fieldIdOf s' (g e) = f) l
  = filter (λ e, fieldIdOf s (g e) = f) l.
Proof.
  intros Hsub. induction l as [|e l IH]; intros Hreg; [done|].
  rewrite !filter_cons.
  rewrite (fieldIdOf_weaken s s' (g e)) by (try done; apply Hreg; left).
  rewrite IH by (intros; apply Hreg; by right). done.
Qed.

Lemma filter_stored_weaken s s' f (l : list DocField) :
  FieldsMap s ⊆ FieldsMap s' →
  (∀ e, e ∈ l → is_Some (FieldsMap s !! Name e)) →
  filter (λ e, IsStored e = true ∧ fieldIdOf s' (Name e) = f) l
  = filter (λ e, IsStored e = true ∧ fieldIdOf s (Name e) = f) l.
Proof.
  intros Hsub. induction l as [|e l IH]; intros Hreg; [done|].
  rewrite !filter_cons.
  rewrite (fieldIdOf_weaken s s' (Name e)) by (try done; apply Hreg; left).
  rewrite IH by (intros; apply Hreg; by right). done.
Qed.

Lemma itemsOf_wf r it fld :
  it ∈ itemsOf r → iField it = Some fld → Name fld = iName it.
Proof.
  unfold itemsOf. rewrite elem_of_app, list_elem_of_fmap.
  intros [(c & -> & _)|Hin]; [done|].
  revert Hin. generalize (Analyzed r) (Length r).
  induction (Fields (Doc r)) as [|f fields IH]; intros [|a an] [|l ln];
    simpl; try by intros ?%elem_of_nil.
  intros [->|Hin]%elem_of_cons; [by intros [= <-]|]. by eapply IH.
Qed.

Lemma collateItem_step s0 St Ty Po docNum pre it a a' :
  docNum = len St → docNum = len Ty → docNum = len Po →
  (∀ fld, iField it = Some fld → Name fld = iName it) →
  collateInv s0 St Ty Po pre a →
  collateItem docNum it a = Ok a' →
  collateInv s0 St Ty Po (pre ++ [it]) a'.
Proof.
  intros HSt HTy HPo Hwf.
  unfold collateInv. simpl.
  intros (Hreg & Hg & Harr & Hnames & Hwfs & Hlens & Hmap & m1 & m2 & m3 & Hdoc & Hst).
  unfold collateItem.
  pose proof (getOrDefineField_registryOK (iName it) _ Hreg) as Hreg1.
  pose proof (getOrDefineField_grows (iName it) (aseg a)) as Hg1.
  pose proof (getOrDefineField_id (iName it) _ Hreg) as (Hid & _ & Hfid).
  pose proof (getOrDefineField_frame (iName it) (aseg a)) as (Harr1 & Hdoc1 & Hdv1 & _).
  destruct (getOrDefineField (iName it) (aseg a)) as [fid s1]. simpl in *.
  rewrite Hfid.
  intros ([c1 h1] & [-> _]%processField_Ok & Hrest)%bind_Ok.
  apply bind_Ok in Hrest as (s2 & Hstore & [= <-]). simpl.
  set (s3 := match iField it with
             | Some field =>
                 if IncludeDocValues field
                 then set_DocValueFields (<[fid:=true]> (DocValueFields s2)) s2
                 else s2
             | None => s2
             end).
  assert (sameDicts s2 s3 ∧ arrays s3 = arrays s2 ∧ documents s3 = documents s2)
    as (Hsame23 & Harr23 & Hdoc23).
  { subst s3. destruct (iField it) as [fld|]; [|done].
    by destruct (IncludeDocValues fld). }
  set (stored := match iField it with
                 | Some fld => IsStored fld
                 | None => false
                 end).
  assert (sameDicts s1 s2 ∧ arrays s2 = arrays s1 ∧
          ∃ n1 n2 n3,
            documents s2 = (St ++ [n1], Ty ++ [n2], Po ++ [n3]) ∧
            ∀ f,
              let new := match iField it with
                         | Some fld =>
                             if decide (IsStored fld = true ∧ fid = f)
                             then [fld] else []
                         | None => []
                         end in
              default [] (n1 !! f) = default [] (m1 !! f) ++ (Value <$> new) ∧
              default [] (n2 !! f) = default [] (m2 !! f) ++ (encodeFieldType <$> new) ∧
              default [] (n3 !! f) = default [] (m3 !! f) ++ (FieldArrayPositions <$> new))
    as (Hsame12 & Harr12 & n1 & n2 & n3 & Hdoc2 & Hn).
  { rewrite Hdoc in Hdoc1.
    destruct (iField it) as [fld|] eqn:Efld.
    - destruct (IsStored fld) eqn:Es.
      + destruct (storeField_spec _ _ _ _ _ _ _ _ _ _ _ _ _ Hdoc1 HSt HTy HPo Hstore)
          as (Hd & ? & ? & ?).
        split_and!; [done..|]. do 3 eexists. split; [exact Hd|].
        intros f. simpl. case_decide as Ef.
        * destruct Ef as [_ <-]. rewrite !lookup_insert_eq. done.
        * rewrite !lookup_insert_ne by naive_solver. simpl.
          by rewrite !app_nil_r.
      + injection Hstore as <-. split_and!; [done..|].
        exists m1, m2, m3. split; [done|]. intros f. simpl.
        by rewrite !app_nil_r.
    - injection Hstore as <-. split_and!; [done..|].
      exists m1, m2, m3. split; [done|]. intros f. simpl.
      by rewrite !app_nil_r. }
  pose proof Hsame12 as (HFM12 & _). pose proof Hsame23 as (HFM23 & _).
  assert (FieldsMap (aseg a) ⊆ FieldsMap s3) as Hsub.
  { rewrite HFM23, HFM12. apply Hg1. }
  assert (fieldIdOf s3 (iName it) = fid) as Hname.
  { unfold fieldIdOf, extId in *. rewrite HFM23, HFM12.
    destruct (FieldsMap s1 !! iName it); simpl in *; congruence. }
  assert (grows (aseg a) s3) as Hg3.
  { eapply grows_trans; [exact Hg1|]. eapply grows_trans;
      by apply sameDicts_grows. }
  split_and!.
  - eapply sameDicts_registryOK; [exact Hsame23|].
    by eapply sameDicts_registryOK.
  - by eapply grows_trans.
  - congruence.
  - intros it' [Hin| ->%list_elem_of_singleton]%elem_of_app.
    + destruct (Hnames _ Hin) as [w Hw]. exists w. by eapply lookup_weaken.
    + rewrite HFM23, HFM12. unfold extId in Hid.
      destruct (FieldsMap s1 !! iName it); [eauto|done].
  - intros it' fld [Hin| ->%list_elem_of_singleton]%elem_of_app; eauto.
  - intros f. rewrite fmap_app, filter_app, fmap_app, foldl_app.
    rewrite (filter_fieldIdOf_weaken fst (aseg a)); [|done|].
    2:{ intros e (it' & -> & Hin)%list_elem_of_fmap. by apply Hnames. }
    rewrite <- Hlens. simpl. rewrite filter_cons, filter_nil. simpl.
    rewrite Hname. rewrite lookup_insert. case_decide as Ef.
    + by subst f.
    + done.
  - intros f addr Hf.
    assert (docMap (acoll a) !! f = Some addr ∨
            (f = fid ∧ addr = iFreqs it)) as [Hold|[-> ->]].
    { destruct (docMap (acoll a) !! fid) eqn:E; [by left|].
      rewrite lookup_insert in Hf. case_decide; [|by left].
      right. split; congruence. }
    + destruct (Hmap _ _ Hold) as (name & Hin & Hn').
      exists name. split; [rewrite fmap_app; set_solver|].
      rewrite <- Hn'. apply fieldIdOf_weaken; [done|].
      apply list_elem_of_fmap in Hin as (it' & [= -> _] & Hin).
      by apply Hnames.
    + exists (iName it). split; [rewrite fmap_app; set_solver|done].
  - exists n1, n2, n3. split; [congruence|].
    intros f. rewrite omap_app, filter_app, !fmap_app.
    rewrite (filter_stored_weaken (aseg a)); [|done|].
    2:{ intros e (it' & Hin & Hfe)%list_elem_of_omap.
        rewrite (Hwfs _ _ Hin Hfe). by apply Hnames. }
    destruct (Hst f) as (<- & <- & <-). destruct (Hn f) as (-> & -> & ->).
    assert (filter (λ fld, IsStored fld = true ∧ fieldIdOf s3 (Name fld) = f)
              (omap iField [it])
            = match iField it with
              | Some fld =>
                  if decide (IsStored fld = true ∧ fid = f) then [fld] else []
              | None => []
              end) as ->; [|done].
    simpl. destruct (iField it) as [fld|] eqn:Efld; [|done].
    rewrite filter_cons, filter_nil. rewrite (Hwf _ eq_refl), Hname.
    by repeat case_decide.
Qed.

(** The collation of a document. *)
Lemma collate_spec r docNum s0 h St Ty Po a :
  registryOK s0 → documents s0 = (St ++ [∅], Ty ++ [∅], Po ++ [∅]) →
  docNum = len St → docNum = len Ty → docNum = len Po →
  collate r docNum {| aseg := s0; astore := h; acoll := emptyCollation |}
  = Ok a →
  collateInv s0 St Ty Po (itemsOf r) a ∧ aligned r.
Proof.
  intros Hreg Hdoc HSt HTy HPo [Hrun Hal]%collate_items. split; [|done].
  eapply (forEach_invariant _ (collateInv s0 St Ty Po)); [| |exact Hrun].
  - unfold collateInv. simpl. split_and!; try done.
    + apply grows_refl.
    + by intros ? ?%elem_of_nil.
    + by intros ? ? ?%elem_of_nil.
    + exists ∅, ∅, ∅. split; [done|]. intros f. simpl.
      by rewrite !lookup_empty.
  - intros pre it t t' Hin. apply collateItem_step; try done.
    intros fld. by apply (itemsOf_wf r).
Qed.

(** ** The second pass: one document *)

Arguments collate : simpl never.
Arguments walkField : simpl never.

Lemma slotEffect_frame docNum lens entries s0 s s' :
  arrays s = arrays s0 → grows s0 s →
  slotEffect docNum lens entries s s' → slotEffect docNum lens entries s0 s'.
Proof.
  intros Harr Hg Heff p sl Hsl.
  rewrite <- (slot_arrays _ _ p Harr) in Hsl.
  destruct (Heff p sl Hsl) as [[H1 H2]|(e & sl' & H1 & H2 & H3)].
  - left. split; [done|]. intros e He.
    rewrite <- (grows_dictLookup _ _ _ _ Hg). by apply H2.
  - right. exists e, sl'. by rewrite <- (grows_dictLookup _ _ _ _ Hg).
Qed.

Lemma addDocument_spec s :
  let r := addDocument s in
  r.1 = len (Stored s) ∧ sameDicts s r.2 ∧ arrays r.2 = arrays s ∧
  documents r.2 = (Stored s ++ [∅], StoredTypes s ++ [∅], StoredPos s ++ [∅]) ∧
  DocValueFields r.2 = DocValueFields s.
Proof. done. Qed.

Section Document.

Context (sched : Schedule).

Lemma range_NoDup `{Countable K} {V} n (m : gmap K V) :
  NoDup (range sched n m).*1.
Proof.
  unfold range. rewrite (pick_perm sched). apply NoDup_fst_map_to_list.
Qed.

Lemma processDocument_spec ord r st st' :
  registryOK (seg st) → postingsOK ord (seg st) →
  len (StoredTypes (seg st)) = len (Stored (seg st)) →
  len (StoredPos (seg st)) = len (Stored (seg st)) →
  processDocument sched r st = Ok st' →
  ∃ a,
    let docNum := len (Stored (seg st)) in
    let s0 := (addDocument (seg st)).2 in
    let entries :=
      walked sched (astore a) (S (clock st))
        (range sched (clock st) (docMap (acoll a))) in
    collate r docNum {| aseg := s0; astore := store st;
                        acoll := emptyCollation |} = Ok a ∧
    collateInv s0 (Stored (seg st)) (StoredTypes (seg st))
      (StoredPos (seg st)) (itemsOf r) a ∧
    aligned r ∧ NoDup entries.*1 ∧
    registryOK (seg st') ∧ postingsOK ord (seg st') ∧
    grows (seg st) (seg st') ∧ grows (aseg a) (seg st') ∧
    documents (seg st') = documents (aseg a) ∧ store st' = astore a ∧
    (∀ e, e ∈ entries → is_Some (dictLookup (seg st) e.1.1 e.1.2)) ∧
    slotEffect docNum (fieldLens (acoll a)) entries (seg st) (seg st').
Proof.
  intros Hreg Hpost HTy HPo Hrun. unfold processDocument in Hrun.
  pose proof (addDocument_spec (seg st)) as (HdocNum & Hsame0 & Harr0 & Hdoc0 & _).
  destruct (addDocument (seg st)) as [docNum s0]. simpl in *. subst docNum.
  apply bind_Ok in Hrun as (a & Hcol & Hrun).
  apply bind_Ok in Hrun as ([s1 n1] & Hwalk & [= <-]).
  exists a. simpl.
  apply collate_spec with (St := Stored (seg st)) (Ty := StoredTypes (seg st))
    (Po := StoredPos (seg st)) in Hcol as Hinv; try done;
    [|by eapply sameDicts_registryOK].
  destruct Hinv as [Hinv Hal].
  pose proof Hinv as (Hreg1 & Hg1 & Harr1 & _).
  apply walkFields_flat in Hwalk as [Hwalk _].
  assert (grows (seg st) (aseg a)) as Hg.
  { eapply grows_trans; [by apply sameDicts_grows|done]. }
  assert (arrays (aseg a) = arrays (seg st)) as Harr by congruence.
  assert (NoDup (walked sched (astore a) (S (clock st))
                   (range sched (clock st) (docMap (acoll a)))).*1) as Hnd.
  { apply walked_NoDup, range_NoDup. }
  destruct (walkEntries_spec ord _ _ _ _ _ Hreg1
              (postingsOK_frame _ _ _ Harr Hg Hpost) Hnd Hwalk)
    as (Hreg2 & Hpost2 & Hg2 & Hdoc2 & Hdv2 & Hall & Heff).
  split_and!; try done.
  - by eapply grows_trans.
  - intros e He. rewrite <- (grows_dictLookup _ _ _ _ Hg). by apply Hall.
  - by eapply slotEffect_frame.
Qed.

End Document.

(** ** The second pass: the run over the batch *)

Arguments processDocument : simpl never.
Arguments initializeDict : simpl never.

Section Run.

Context (sched : Schedule).

Lemma assembledUpTo_0 results h :
  assembledUpTo sched results h 0 = initializeDict sched results (start h).
Proof.
  unfold assembledUpTo. rewrite take_0. simpl.
  by destruct (initializeDict sched results (start h)).
Qed.

Lemma assembledUpTo_S results h k r :
  results !! k = Some r →
  assembledUpTo sched results h (S k)
  = do st <- assembledUpTo sched results h k; processDocument sched r st.
Proof.
  intros Hr. unfold assembledUpTo. rewrite (take_S_r _ _ _ Hr).
  destruct (initializeDict sched results (start h)) as [st1|]; simpl; [|done].
  apply forEach_snoc.
Qed.

Lemma assembledUpTo_ge results h k :
  (length results ≤ k)%nat →
  assembledUpTo sched results h k
  = assembledUpTo sched results h (length results).
Proof.
  intros Hk. unfold assembledUpTo. by rewrite !take_ge by lia.
Qed.

Lemma assembled_upTo results h :
  assembled sched results h
  = assembledUpTo sched results h (length results).
Proof. unfold assembled, assembledUpTo. by rewrite take_ge by lia. Qed.

Lemma assembledUpTo_pred results h k st :
  assembledUpTo sched results h (S k) = Ok st →
  ∃ st', assembledUpTo sched results h k = Ok st'.
Proof.
  destruct (results !! k) as [r|] eqn:Hr.
  - rewrite (assembledUpTo_S _ _ _ _ Hr). intros (st' & H & _)%bind_Ok. eauto.
  - apply lookup_ge_None in Hr.
    rewrite (assembledUpTo_ge _ _ (S k)), <- (assembledUpTo_ge _ _ k) by lia.
    eauto.
Qed.

Lemma assembledUpTo_prefix results h k j st :
  (j ≤ k)%nat → assembledUpTo sched results h k = Ok st →
  ∃ st', assembledUpTo sched results h j = Ok st'.
Proof.
  intros Hjk. revert st. induction Hjk as [|k Hjk IH]; intros st H; [eauto|].
  apply assembledUpTo_pred in H as [st' H]. by eapply IH.
Qed.

(** The step from [k] to [k + 1] documents of a run that returned. *)
Lemma assembledUpTo_step results h k r st' :
  results !! k = Some r →
  assembledUpTo sched results h (S k) = Ok st' →
  ∃ st, assembledUpTo sched results h k = Ok st ∧
        processDocument sched r st = Ok st'.
Proof.
  intros Hr. rewrite (assembledUpTo_S _ _ _ _ Hr).
  intros (st & H1 & H2)%bind_Ok. eauto.
Qed.

Lemma run_inv results h k st :
  (k ≤ length results)%nat →
  assembledUpTo sched results h k = Ok st →
  ∃ st1,
    initializeDict sched results (start h) = Ok st1 ∧
    runInv (distinctInOrder (scanIds sched (seg st1) results h)) k st ∧
    grows (seg st1) (seg st).
Proof.
  revert st. induction k as [|k IH]; intros st Hk Hrun.
  - rewrite assembledUpTo_0 in Hrun. exists st. split; [done|].
    destruct (initializeDict_spec _ _ _ _ Hrun)
      as (Hreg & Hpost & _ & _ & _ & Hdoc & _).
    injection Hdoc as H1 H2 H3.
    split; [|apply grows_refl]. unfold runInv. rewrite H1, H2, H3.
    by split_and!.
  - destruct (lookup_lt_is_Some_2 results k) as [r Hr]; [lia|].
    destruct (assembledUpTo_step _ _ _ _ _ Hr Hrun) as (st0 & Hrun0 & Hdoc).
    destruct (IH _ ltac:(lia) Hrun0)
      as (st1 & Hinit & (Hreg & Hpost & L1 & L2 & L3) & Hg).
    exists st1. split; [done|].
    destruct (processDocument_spec _ _ _ _ _ Hreg Hpost
                ltac:(congruence) ltac:(congruence) Hdoc)
      as (a & _ & Hinv & _ & _ & Hreg' & Hpost' & Hg' & _ & Hdocs & _).
    split; [|by eapply grows_trans].
    destruct Hinv as (_ & _ & _ & _ & _ & _ & _ & m1 & m2 & m3 & Hd & _).
    rewrite Hd in Hdocs. injection Hdocs as E1 E2 E3.
    unfold runInv. rewrite E1, E2, E3, !len_app. unfold len at 2 4 6.
    simpl. split_and!; try done; lia.
Qed.

End Run.

Lemma NewFromAnalyzedDocs_Ok sched footprint results h s h' :
  NewFromAnalyzedDocs sched footprint results h = Ok (s, h') →
  ∃ st,
    assembledUpTo sched results h (length results) = Ok st ∧
    s = updateSizeInBytes footprint (sortDictKeys (seg st)) ∧
    h' = store st ∧
    arrays s = arrays (seg st) ∧ documents s = documents (seg st) ∧
    FieldsMap s = FieldsMap (seg st) ∧ FieldsInv s = FieldsInv (seg st) ∧
    Dicts s = Dicts (seg st) ∧
    DictKeys s = sortStrings <$> DictKeys (seg st) ∧
    DocValueFields s = DocValueFields (seg st).
Proof.
  unfold NewFromAnalyzedDocs. intros (st & Hst & [= <- <-])%bind_Ok.
  rewrite assembled_upTo in Hst. exists st. by split_and!.
Qed.

(** Sorting the term lists and recording the size leave the dictionaries
    and the field ids alone. *)
Lemma built_dictLookup footprint s f t :
  dictLookup (updateSizeInBytes footprint (sortDictKeys s)) f t
  = dictLookup s f t.
Proof. done. Qed.

Lemma built_fieldIdOf footprint s name :
  fieldIdOf (updateSizeInBytes footprint (sortDictKeys s)) name
  = fieldIdOf s name.
Proof. done. Qed.

Lemma built_slot footprint s p :
  slot (updateSizeInBytes footprint (sortDictKeys s)) p = slot s p.
Proof. done. Qed.

Lemma members_NoDup b : NoDup (members b).
Proof.
  unfold members. rewrite merge_sort_Permutation. apply NoDup_elements.
Qed.

Lemma members_length b : length (members b) = size b.
Proof. unfold members. by rewrite merge_sort_Permutation. Qed.

Lemma elem_of_members b z : z ∈ members b ↔ z ∈ b.
Proof.
  unfold members. by rewrite merge_sort_Permutation, elem_of_elements.
Qed.

Lemma members_sorted b : Sorted Z.le (members b).
Proof. apply (Sorted_merge_sort Z.le). Qed.

(** A number above all members comes last. *)
Lemma members_add d b :
  (∀ z, z ∈ b → z < d) → members ({[d]} ∪ b) = members b ++ [d].
Proof.
  intros Hlt.
  assert (d ∉ b) as Hd by (intros ?%Hlt; lia).
  apply (Sorted_unique Z.le).
  - apply members_sorted.
  - pose proof (members_sorted b) as Hs.
    assert (∀ z, z ∈ members b → z < d) as Hlt'
      by (intros z ?%elem_of_members; eauto).
    induction Hs as [|x l Hs IH Hhd]; simpl.
    + repeat constructor.
    + constructor.
      * apply IH. intros z Hz. apply Hlt'. by right.
      * destruct Hhd; simpl; constructor; [|done].
        assert (x < d) by (apply Hlt'; left). lia.
  - unfold members. rewrite !merge_sort_Permutation.
    rewrite elements_union_singleton by done.
    by rewrite Permutation_cons_append.
Qed.

Lemma get_make_Some {A} n (x y : A) p : get (make n x) p = Some y → y = x.
Proof.
  intros [_ H]%get_Some. unfold make in H.
  by apply lookup_replicate in H as [-> _].
Qed.

(** [AddInt] keeps the low 32 bits of the number. *)
Lemma uint32_int z : uint32 (int z) = uint32 z.
Proof.
  unfold uint32, int. rewrite (Z.mod_eq (z + 2 ^ 63) (2 ^ 64)) by lia.
  set (q := (z + 2 ^ 63) / 2 ^ 64).
  replace (z + 2 ^ 63 - 2 ^ 64 * q - 2 ^ 63) with (z + - (2 ^ 32 * q) * 2 ^ 32)
    by lia.
  apply Z_mod_plus_full.
Qed.

Lemma uint32_small z : 0 ≤ z < 2 ^ 32 → uint32 z = z.
Proof. intros. unfold uint32. apply Z.mod_small. lia. Qed.

Lemma uint32_range z : 0 ≤ uint32 z < 2 ^ 32.
Proof. unfold uint32. apply Z.mod_pos_bound. lia. Qed.

Lemma AddInt_small d b : 0 ≤ d < 2 ^ 32 → AddInt (int d) b = {[d]} ∪ b.
Proof. intros. unfold AddInt. by rewrite uint32_int, uint32_small. Qed.

Lemma slotsOK_step k ord lens entries s s' :
  Z.of_nat k < 2 ^ 32 →
  postingsOK ord s → postingsOK ord s' → slotsOK k s →
  slotEffect (Z.of_nat k) lens entries s s' → slotsOK (S k) s'.
Proof.
  intros Hk Hpost Hpost' Hok Heff p sl' Hsl'.
  destruct (proj2 (slot_is_Some _ _ p Hpost)) as [sl Hsl].
  { apply (slot_is_Some _ _ _ Hpost'). eauto. }
  destruct (Hok _ _ Hsl) as (H1 & H2 & H3).
  destruct (Heff _ _ Hsl) as [[Hsame _]|(e & sl1 & _ & _ & Hsl1 & Hhit)].
  - assert (sl' = sl) as -> by congruence.
    split_and!; try done. intros z Hz%H3. lia.
  - assert (sl1 = sl') as -> by congruence.
    destruct Hhit as (E1 & _ & E3 & E4 & _).
    rewrite AddInt_small in E1 by lia.
    assert (Z.of_nat k ∉ sPostings sl) as Hfresh by (intros ?%H3; lia).
    rewrite E1, E3, E4, !length_app.
    rewrite size_union, size_singleton by set_solver. simpl.
    split_and!; try lia.
    intros z [->%elem_of_singleton|Hz%H3]%elem_of_union; lia.
Qed.

Lemma locsOK_step docNum ord lens entries s s' :
  postingsOK ord s → postingsOK ord s' → locsOK s →
  slotEffect docNum lens entries s s' → locsOK s'.
Proof.
  intros Hpost Hpost' Hok Heff p sl' Hsl'.
  destruct (proj2 (slot_is_Some _ _ p Hpost)) as [sl Hsl].
  { apply (slot_is_Some _ _ _ Hpost'). eauto. }
  destruct (Hok _ _ Hsl) as (H4 & H5 & H6 & H7 & H8).
  destruct (Heff _ _ Hsl) as [[Hsame _]|(e & sl1 & _ & _ & Hsl1 & Hhit)].
  - assert (sl' = sl) as -> by congruence. done.
  - assert (sl1 = sl') as -> by congruence.
    destruct Hhit as (E1 & E2 & _ & _ & E5 & E6 & E7 & E8 & E9).
    rewrite E1, E2, E5, E6, E7, E8, E9.
    split_and!; try lia.
    unfold AddInt. case_decide; set_solver.
Qed.

Section Slots.

Context (sched : Schedule).

(** After the first pass every slot is empty. *)
Lemma slots_start results h st p sl :
  initializeDict sched results (start h) = Ok st →
  slot (seg st) p = Some sl →
  sl = {| sPostings := ∅; sPostingsLocs := ∅; sFreqs := []; sNorms := [];
          sLocfields := []; sLocstarts := []; sLocends := []; sLocpos := [];
          sLocarraypos := [] |}.
Proof.
  intros (_ & _ & _ & _ & Harr & _)%initializeDict_spec.
  cbv zeta in Harr. injection Harr as E1 E2 E3 E4 E5 E6 E7 E8 E9.
  intros (G1 & G2 & G3 & G4 & G5 & G6 & G7 & G8 & G9)%slot_Some.
  rewrite E1 in G1. rewrite E2 in G2. rewrite E3 in G3. rewrite E4 in G4.
  rewrite E5 in G5. rewrite E6 in G6. rewrite E7 in G7. rewrite E8 in G8.
  rewrite E9 in G9.
  apply get_make_Some in G1, G2, G3, G4, G5, G6, G7, G8, G9.
  destruct sl. simpl in *. congruence.
Qed.

Lemma slotsOK_start results h st :
  initializeDict sched results (start h) = Ok st → slotsOK 0 (seg st).
Proof.
  intros Hinit p sl Hsl. rewrite (slots_start _ _ _ _ _ Hinit Hsl). simpl.
  by split_and!.
Qed.

Lemma locsOK_start results h st :
  initializeDict sched results (start h) = Ok st → locsOK (seg st).
Proof.
  intros Hinit p sl Hsl. rewrite (slots_start _ _ _ _ _ Hinit Hsl). simpl.
  by split_and!.
Qed.

(** The step of a run, with what it does to the slots. *)
Lemma run_step results h k r st st' :
  results !! k = Some r →
  assembledUpTo sched results h k = Ok st →
  assembledUpTo sched results h (S k) = Ok st' →
  ∃ ord lens entries,
    postingsOK ord (seg st) ∧ postingsOK ord (seg st') ∧
    slotEffect (Z.of_nat k) lens entries (seg st) (seg st').
Proof.
  intros Hr Hst Hst'.
  destruct (assembledUpTo_step _ _ _ _ _ _ Hr Hst') as (st0 & Hst0 & Hdoc).
  assert (st0 = st) as -> by congruence.
  apply lookup_lt_Some in Hr as Hk.
  assert (k ≤ length results)%nat as Hk' by lia.
  destruct (run_inv _ _ _ _ _ Hk' Hst)
    as (st1 & _ & (Hreg & Hpost & L1 & L2 & L3) & _).
  destruct (processDocument_spec _ _ _ _ _ Hreg Hpost
              ltac:(congruence) ltac:(congruence) Hdoc)
    as (a & _ & _ & _ & _ & _ & Hpost' & _ & _ & _ & _ & _ & Heff).
  cbv zeta in Heff. rewrite L1 in Heff. eauto 10.
Qed.

(** While the document numbers fit the 32 bits of a bitmap member, the
    bitmaps hold one number for each entry of the sequences. *)
Lemma run_slotsOK results h k st :
  Z.of_nat k ≤ 2 ^ 32 → (k ≤ length results)%nat →
  assembledUpTo sched results h k = Ok st → slotsOK k (seg st).
Proof.
  revert st. induction k as [|k IH]; intros st Hb Hk Hrun.
  - rewrite assembledUpTo_0 in Hrun. by eapply slotsOK_start.
  - destruct (lookup_lt_is_Some_2 results k) as [r Hr]; [lia|].
    destruct (assembledUpTo_pred _ _ _ _ _ Hrun) as [st0 Hst0].
    destruct (run_step _ _ _ _ _ _ Hr Hst0 Hrun)
      as (ord & lens & entries & Hpost & Hpost' & Heff).
    eapply slotsOK_step; [lia|exact Hpost|exact Hpost'| |exact Heff].
    apply IH; [lia|lia|done].
Qed.

Lemma run_locsOK results h k st :
  (k ≤ length results)%nat →
  assembledUpTo sched results h k = Ok st → locsOK (seg st).
Proof.
  revert st. induction k as [|k IH]; intros st Hk Hrun.
  - rewrite assembledUpTo_0 in Hrun. by eapply locsOK_start.
  - destruct (lookup_lt_is_Some_2 results k) as [r Hr]; [lia|].
    destruct (assembledUpTo_pred _ _ _ _ _ Hrun) as [st0 Hst0].
    destruct (run_step _ _ _ _ _ _ Hr Hst0 Hrun)
      as (ord & lens & entries & Hpost & Hpost' & Heff).
    eapply locsOK_step; [exact Hpost|exact Hpost'| |exact Heff].
    apply IH; [lia|done].
Qed.

(** The members of a slot, in increasing order, are the documents that
    contributed the entries of its sequences, in the order of the
    entries. *)
Lemma run_history results h k st p sl :
  Z.of_nat k ≤ 2 ^ 32 → (k ≤ length results)%nat →
  assembledUpTo sched results h k = Ok st →
  slot (seg st) p = Some sl →
  (∀ K d, members (sPostings sl) !! K = Some (Z.of_nat d) →
          (d < k)%nat ∧
          ∃ x y, contributes sched results h p d K x y ∧
                 sFreqs sl !! K = Some x ∧ sNorms sl !! K = Some y) ∧
  (∀ K d x y, (d < k)%nat → contributes sched results h p d K x y →
              members (sPostings sl) !! K = Some (Z.of_nat d) ∧
              sFreqs sl !! K = Some x ∧ sNorms sl !! K = Some y).
Proof.
  revert st sl. induction k as [|k IH]; intros st sl' Hb Hk Hrun Hsl'.
  { rewrite assembledUpTo_0 in Hrun.
    rewrite (slots_start _ _ _ _ _ Hrun Hsl'). simpl.
    split; [done|]. intros. lia. }
  destruct (lookup_lt_is_Some_2 results k) as [r Hr]; [lia|].
  destruct (assembledUpTo_pred _ _ _ _ _ Hrun) as [st0 Hst0].
  destruct (run_step _ _ _ _ _ _ Hr Hst0 Hrun)
    as (ord & lens & entries & Hpost & Hpost' & Heff).
  assert (k ≤ length results)%nat as Hk' by lia.
  assert (Z.of_nat k ≤ 2 ^ 32) as Hb' by lia.
  pose proof (run_slotsOK _ _ _ _ Hb' Hk' Hst0) as Hok.
  destruct (proj2 (slot_is_Some _ _ p Hpost)) as [sl Hsl].
  { apply (slot_is_Some _ _ _ Hpost'). eauto. }
  destruct (IH _ _ Hb' Hk' Hst0 Hsl) as [IH1 IH2].
  destruct (Hok _ _ Hsl) as (L1 & L2 & L3).
  assert (∀ K x y, contributes sched results h p k K x y →
            K = length (sFreqs sl) ∧ sFreqs sl' = sFreqs sl ++ [x] ∧
            sNorms sl' = sNorms sl ++ [y]) as Hnow.
  { intros K x y (stA & stB & slA & slB & HA & HB & HsA & HsB & HK & _ & HF & HN).
    assert (stA = st0) as -> by congruence.
    assert (stB = st) as -> by congruence.
    assert (slA = sl) as -> by congruence.
    assert (slB = sl') as -> by congruence. done. }
  destruct (Heff _ _ Hsl) as [[Hsame _]|(e & sl1 & _ & _ & Hsl1 & Hhit)].
  - assert (sl' = sl) as -> by congruence. split.
    + intros K d (? & ?)%IH1. split; [lia|done].
    + intros K d x y Hd Hc. destruct (decide (d = k)) as [->|Hne].
      * destruct (Hnow _ _ _ Hc) as (_ & E & _).
        apply (f_equal length) in E. rewrite length_app in E. simpl in E. lia.
      * apply IH2; [lia|done].
  - assert (sl1 = sl') as -> by congruence.
    destruct Hhit as (E1 & _ & E3 & E4 & _).
    assert (members (sPostings sl') = members (sPostings sl) ++ [Z.of_nat k])
      as Hmem.
    { rewrite E1, AddInt_small by lia. apply members_add.
      intros z ?%L3. lia. }
    rewrite Hmem, E3, E4. split.
    + intros K d HK.
      apply lookup_app_Some in HK as [HK|[HKge HK]].
      * destruct (IH1 _ _ HK) as (Hd & x & y & Hc & Hx & Hy).
        split; [lia|]. exists x, y. split; [done|].
        split; by apply lookup_app_l_Some.
      * apply list_lookup_singleton_Some in HK as [HK0 Hd].
        apply Nat2Z.inj in Hd as <-. split; [lia|].
        rewrite members_length in HKge, HK0.
        assert (K = size (sPostings sl)) as -> by lia.
        exists (uint64 (Frequency e.2)),
          (InvSqrt (default 0 (lens !! e.1.1))).
        split; [|split].
        -- exists st0, st, sl, sl'. by split_and!.
        -- rewrite <- L1. by apply list_lookup_middle.
        -- rewrite <- L2. by apply list_lookup_middle.
    + intros K d x y Hd Hc. destruct (decide (d = k)) as [->|Hne].
      * destruct (Hnow _ _ _ Hc) as (-> & EF & EN).
        rewrite E3 in EF. rewrite E4 in EN.
        apply app_inj_tail in EF as [_ <-]. apply app_inj_tail in EN as [_ <-].
        split_and!.
        -- rewrite L1, <- members_length. by apply list_lookup_middle.
        -- by apply list_lookup_middle.
        -- rewrite L1, <- L2. by apply list_lookup_middle.
      * assert (d < k)%nat as Hdk by lia.
        destruct (IH2 K d x y Hdk Hc) as (H1 & H2 & H3).
        split_and!; by apply lookup_app_l_Some.
Qed.

End Slots.

Section RunDocuments.

Context (sched : Schedule).

(** Later states of a run extend earlier ones. *)
Lemma run_mono results h j k stj stk :
  (j ≤ k)%nat → (k ≤ length results)%nat →
  assembledUpTo sched results h j = Ok stj →
  assembledUpTo sched results h k = Ok stk →
  grows (seg stj) (seg stk) ∧
  Stored (seg stj) `prefix_of` Stored (seg stk) ∧
  StoredTypes (seg stj) `prefix_of` StoredTypes (seg stk) ∧
  StoredPos (seg stj) `prefix_of` StoredPos (seg stk).
Proof.
  intros Hjk. revert stk. induction Hjk as [|k Hjk IH]; intros stk Hk Hj Hrun.
  { assert (stk = stj) as -> by congruence.
    split_and!; [apply grows_refl|done..]. }
  destruct (lookup_lt_is_Some_2 results k) as [r Hr]; [lia|].
  destruct (assembledUpTo_step _ _ _ _ _ _ Hr Hrun) as (st0 & Hst0 & Hdoc).
  assert (k ≤ length results)%nat as Hk' by lia.
  destruct (IH _ Hk' Hj Hst0) as (Hg & P1 & P2 & P3).
  destruct (run_inv _ _ _ _ _ Hk' Hst0)
    as (st1 & _ & (Hreg & Hpost & L1 & L2 & L3) & _).
  destruct (processDocument_spec _ _ _ _ _ Hreg Hpost
              ltac:(congruence) ltac:(congruence) Hdoc)
    as (a & _ & Hinv & _ & _ & _ & _ & Hg' & _ & Hdocs & _).
  destruct Hinv as (_ & _ & _ & _ & _ & _ & _ & m1 & m2 & m3 & Hd & _).
  rewrite Hd in Hdocs. injection Hdocs as E1 E2 E3.
  rewrite E1, E2, E3. split_and!.
  - by eapply grows_trans.
  - etrans; [done|]. by apply prefix_app_r.
  - etrans; [done|]. by apply prefix_app_r.
  - etrans; [done|]. by apply prefix_app_r.
Qed.

(** The assembly of document [d] in a run that returned, seen from the
    final state [stn] of the run. *)
Lemma run_document results h d r stn :
  results !! d = Some r →
  assembledUpTo sched results h (length results) = Ok stn →
  ∃ st st' a ord,
    assembledUpTo sched results h d = Ok st ∧
    assembledUpTo sched results h (S d) = Ok st' ∧
    runInv ord d st ∧ postingsOK ord (seg stn) ∧
    collateInv (addDocument (seg st)).2 (Stored (seg st))
      (StoredTypes (seg st)) (StoredPos (seg st)) (itemsOf r) a ∧
    aligned r ∧
    grows (seg st) (seg stn) ∧ grows (aseg a) (seg stn) ∧
    documents (seg st') = documents (aseg a) ∧
    Stored (seg st') `prefix_of` Stored (seg stn) ∧
    StoredTypes (seg st') `prefix_of` StoredTypes (seg stn) ∧
    StoredPos (seg st') `prefix_of` StoredPos (seg stn) ∧
    slotEffect (Z.of_nat d) (fieldLens (acoll a))
      (walked sched (astore a) (S (clock st))
         (range sched (clock st) (docMap (acoll a))))
      (seg st) (seg st').
Proof.
  intros Hr Hn. apply lookup_lt_Some in Hr as Hd.
  assert (S d ≤ length results)%nat as HSd by lia.
  destruct (assembledUpTo_prefix _ _ _ _ (S d) _ HSd Hn) as [st' Hst'].
  destruct (assembledUpTo_step _ _ _ _ _ _ Hr Hst') as (st & Hst & Hdoc).
  assert (d ≤ length results)%nat as Hd' by lia.
  destruct (run_inv _ _ _ _ _ Hd' Hst) as (st1 & Hinit & Hinv & Hg1).
  pose proof Hinv as (Hreg & Hpost & L1 & L2 & L3).
  destruct (run_inv _ _ _ _ _ (Nat.le_refl _) Hn)
    as (st1' & Hinit' & (_ & Hpostn & _) & _).
  assert (st1' = st1) as -> by congruence.
  destruct (processDocument_spec _ _ _ _ _ Hreg Hpost
              ltac:(congruence) ltac:(congruence) Hdoc)
    as (a & _ & Hcinv & Hal & _ & _ & _ & _ & Hga & Hdocs & _ & _ & Heff).
  cbv zeta in Heff. rewrite L1 in Heff.
  destruct (run_mono _ _ _ _ _ _ Hd' (Nat.le_refl _) Hst Hn) as (Hg & _).
  assert (S d ≤ length results)%nat as Hd'' by lia.
  destruct (run_mono _ _ _ _ _ _ Hd'' (Nat.le_refl _) Hst' Hn)
    as (Hg' & P1 & P2 & P3).
  exists st, st', a, (distinctInOrder (scanIds sched (seg st1) results h)).
  split_and!; try done. by eapply grows_trans.
Qed.

End RunDocuments.

(** ** The panic of line 185 *)

Lemma avoids_Ok {A} (a : A) : avoids185 (Ok a).
Proof. done. Qed.

Lemma avoids_bind {A B} (m : Result A) (k : A → Result B) :
  avoids185 m → (∀ a, m = Ok a → avoids185 (k a)) → avoids185 (bind m k).
Proof.
  destruct m as [a|line]; simpl; intros H1 H2; [by apply H2|].
  intros [= E]. apply H1. by rewrite E.
Qed.

Lemma avoids_index {A} line (l : list A) i :
  line ≠ 185%nat → avoids185 (index line l i).
Proof. intros H [_ E]%index_Panic. by apply H. Qed.

Lemma avoids_modify {A} line (l : list A) i f :
  line ≠ 185%nat → avoids185 (modify line l i f).
Proof. intros H [_ E]%modify_Panic. by apply H. Qed.

Lemma avoids_assign {A} line (l : list A) i x :
  line ≠ 185%nat → avoids185 (assign line l i x).
Proof.
  intros H. unfold assign, avoids185. destruct (inBounds l i); [done|].
  intros [= E]. by apply H.
Qed.

Lemma forEach_avoids {A S} (body : A → S → Result S) (I : S → Prop) l s :
  I s →
  (∀ x t, x ∈ l → I t → avoids185 (body x t)) →
  (∀ x t t', x ∈ l → I t → body x t = Ok t' → I t') →
  avoids185 (forEach body l s).
Proof.
  revert s. induction l as [|x l IH]; intros s Hs Hav Hstep; simpl; [done|].
  apply avoids_bind; [apply Hav; [left|done]|].
  intros t Ht. apply IH.
  - eapply Hstep; [left|done|done].
  - intros ????. apply Hav; [by right|done].
  - intros ??????. eapply Hstep; [by right|done|done].
Qed.

Lemma forEach_avoids_all {A S} (body : A → S → Result S) l s :
  (∀ x t, avoids185 (body x t)) → avoids185 (forEach body l s).
Proof.
  intros H. apply (forEach_avoids body (λ _, True)); [done| |done].
  intros ????. apply H.
Qed.

(** Steps that do not touch line 185. *)
Ltac avoid :=
  repeat match goal with
  | |- avoids185 (Ok _) => apply avoids_Ok
  | |- avoids185 (index _ _ _) => apply avoids_index; lia
  | |- avoids185 (modify _ _ _ _) => apply avoids_modify; lia
  | |- avoids185 (assign _ _ _ _) => apply avoids_assign; lia
  | |- avoids185 (bind _ _) => apply avoids_bind; [|intros ? _]
  end.

Lemma dictTerm_avoids fieldID term acc : avoids185 (dictTerm fieldID term acc).
Proof.
  destruct acc as [s n]. unfold dictTerm. avoid.
  destruct (_ !! term); avoid.
Qed.

Lemma dictField_avoids sched fieldID tf acc :
  avoids185 (dictField sched fieldID tf acc).
Proof.
  destruct acc as [st n]. unfold dictField.
  apply avoids_bind; [apply forEach_avoids_all, dictTerm_avoids|].
  intros [s n'] _. avoid.
Qed.

Lemma dictDocument_avoids sched r acc : avoids185 (dictDocument sched r acc).
Proof.
  unfold dictDocument. apply avoids_bind.
  - apply forEach_avoids_all. intros c [st n]. unfold dictComposite.
    destruct (getOrDefineField _ _). simpl. apply dictField_avoids.
  - intros acc' _. apply forEach_avoids_all. intros [i fld] [st n].
    unfold dictRegular. destruct (getOrDefineField _ _). avoid.
    apply dictField_avoids.
Qed.

Lemma initializeDict_avoids sched results st :
  avoids185 (initializeDict sched results st).
Proof.
  unfold initializeDict. apply avoids_bind.
  - apply forEach_avoids_all. intros. apply dictDocument_avoids.
  - intros [st' n] _. apply avoids_bind; [|intros; avoid].
    unfold allocate. destruct (n <=? maxInt); [avoid|]. by intros [=].
Qed.

Lemma storeField_avoids docNum field typ val pos s :
  avoids185 (storeField docNum field typ val pos s).
Proof. unfold storeField. avoid. Qed.

Lemma processField_avoids field name l tf acc :
  avoids185 (processField field name l tf acc).
Proof.
  destruct acc as [c h]. unfold processField.
  destruct (docMap c !! field) as [e|]; [|avoid].
  apply avoids_bind; [|intros; avoid].
  unfold mergeInto. destruct (h !! e); [avoid|].
  case_decide; [avoid|]. by intros [=].
Qed.

Lemma collate_avoids r docNum a : avoids185 (collate r docNum a).
Proof.
  unfold collate. apply avoids_bind.
  - apply forEach_avoids_all. intros c t. unfold collateComposite.
    destruct (getOrDefineField _ _). simpl.
    apply avoids_bind; [apply processField_avoids|]. intros [c' h'] _. avoid.
  - intros a' _. apply forEach_avoids_all. intros [i fld] t.
    unfold collateRegular. destruct (getOrDefineField _ _).
    apply avoids_bind; [avoid|]. intros l _.
    apply avoids_bind; [avoid|]. intros tf _.
    apply avoids_bind; [apply processField_avoids|]. intros [c' h'] _.
    apply avoids_bind; [|intros; avoid].
    destruct (IsStored fld); [apply storeField_avoids|avoid].
Qed.

Lemma walkLocation_avoids pid fieldID loc s :
  avoids185 (walkLocation pid fieldID loc s).
Proof.
  unfold walkLocation.
  destruct (if decide (Field loc = EmptyString) then _ else _) as [locf s'].
  avoid. destruct (0 <? len (ArrayPositions loc)); avoid.
Qed.

(** A term that the dictionary knows is entered without the panic of
    line 185. *)
Lemma walkTerm_avoids ord docNum lens fieldID term tf s :
  postingsOK ord s → is_Some (dictLookup s fieldID term) →
  avoids185 (walkTerm docNum lens fieldID (term, tf) s).
Proof.
  intros Hpost [v Hv]. unfold walkTerm.
  destruct (dictLookup_ordinal _ _ _ _ _ Hpost Hv) as (i & Hi & -> & Hu & Hr).
  unfold dictLookup in Hv.
  destruct (get (Dicts s) fieldID) as [dict|] eqn:Hd; [|done]. simpl in Hv.
  rewrite (proj2 (index_Ok 183 _ _ _) Hd). simpl. rewrite Hv. simpl.
  assert (len (Postings s) = len ord) as HP by apply Hpost.
  assert (is_Some (get (Postings s) (uint64 (Z.of_nat i + 1 - 1)))) as [bs Hbs].
  { apply get_is_Some. rewrite Hu, HP. lia. }
  rewrite (proj2 (index_Ok 185 _ _ _) Hbs). simpl.
  unfold assign.
  assert (inBounds (Postings s) (uint64 (Z.of_nat i + 1 - 1)) = true) as ->.
  { apply inBounds_true. rewrite Hu, HP. lia. }
  simpl. avoid.
  destruct (0 <? len (Locations tf)); [|avoid].
  apply avoids_bind; [|intros ? _].
  - unfold assign. destruct (inBounds _ _); [avoid|]. by intros [=].
  - apply forEach_avoids_all. intros. apply walkLocation_avoids.
Qed.

Lemma postingsOK_known ord s s' f t :
  postingsOK ord s → postingsOK ord s' →
  is_Some (dictLookup s f t) → is_Some (dictLookup s' f t).
Proof.
  intros [[_ H] _] [[_ H'] _] [v Hv]. apply H in Hv as (i & Hi & ->).
  exists (uint64 (Z.of_nat i + 1)). apply H'. eauto.
Qed.

(** ** The maps of the batch and the dictionaries *)

Lemma elem_of_dom_MergeAll name tfs other t :
  t ∈ dom (MergeAll name tfs other) → t ∈ dom tfs ∨ t ∈ dom other.
Proof.
  unfold MergeAll. rewrite !elem_of_dom, lookup_union_with.
  destruct (tfs !! t), (other !! t); simpl; intros [? ?]; eauto.
Qed.

Lemma deref_insert (h : Store) a m a' :
  deref (<[a := m]> h) a' = if decide (a = a') then m else deref h a'.
Proof.
  unfold deref. destruct (decide (a = a')) as [->|Hne].
  - by rewrite lookup_insert_eq.
  - by rewrite lookup_insert_ne.
Qed.

Lemma collateItem_store docNum it a a' :
  collateItem docNum it a = Ok a' →
  processField (uint16 (getOrDefineField (iName it) (aseg a)).1)
    (iName it) (iLength it) (iFreqs it) (acoll a, astore a)
  = Ok (acoll a', astore a').
Proof.
  unfold collateItem. destruct (getOrDefineField _ _) as [f s]. simpl.
  intros ([c h] & -> & Hrest)%bind_Ok.
  by apply bind_Ok in Hrest as (s' & _ & [= <-]).
Qed.

Lemma collateInv_nil s0 h St Ty Po :
  registryOK s0 → documents s0 = (St ++ [∅], Ty ++ [∅], Po ++ [∅]) →
  collateInv s0 St Ty Po []
    {| aseg := s0; astore := h; acoll := emptyCollation |}.
Proof.
  intros Hreg Hdoc. unfold collateInv. simpl. split_and!; try done.
  - apply grows_refl.
  - by intros ? ?%elem_of_nil.
  - by intros ? ? ?%elem_of_nil.
  - exists ∅, ∅, ∅. split; [done|]. intros f. simpl.
    by rewrite !lookup_empty.
Qed.

(** Merging a field into the map collated for its field id keeps every
    term of every map in the dictionary of its field, as long as no map
    is shared between fields of different names. *)
Lemma collateItem_storeOK results s1 s0 St Ty Po docNum pre it a a' :
  ownedByName results →
  (∀ name, name ∈ (batchFields results).*1 → is_Some (FieldsMap s1 !! name)) →
  grows s1 s0 →
  (∀ e, e ∈ (λ it, (iName it, iFreqs it)) <$> (pre ++ [it]) →
        e ∈ batchFields results) →
  collateInv s0 St Ty Po pre a →
  storeOK s1 results (astore a) →
  collateItem docNum it a = Ok a' →
  storeOK s1 results (astore a').
Proof.
  intros Hown Hnames Hg1 Hsub Hinv Hst Hrun.
  apply collateItem_store, processField_Ok in Hrun as [_ Hrun].
  destruct (docMap (acoll a) !! _) as [ex|] eqn:Hex; [|by rewrite Hrun].
  apply mergeInto_deref in Hrun as (_ & Hex' & Hoth).
  destruct Hinv as (Hreg & Hg & _ & _ & _ & _ & Hmap & _).
  destruct (Hmap _ _ Hex) as (name_e & Hin & Hid).
  assert ((name_e, ex) ∈ batchFields results) as Hine.
  { apply Hsub. rewrite fmap_app. apply elem_of_app. by left. }
  assert ((iName it, iFreqs it) ∈ batchFields results) as Hinit.
  { apply Hsub. rewrite fmap_app. apply elem_of_app. right. simpl. left. }
  assert (∀ name a, (name, a) ∈ batchFields results →
                    is_Some (FieldsMap s1 !! name)) as Hknown.
  { intros name a0 H. apply Hnames, list_elem_of_fmap. by exists (name, a0). }
  assert (grows s1 (aseg a)) as Hg2 by (by eapply grows_trans).
  pose proof (getOrDefineField_id (iName it) _ Hreg) as (Hext & _ & Hu).
  pose proof (getOrDefineField_grows (iName it) (aseg a)) as Hg3.
  assert (fieldIdOf s1 (iName it)
          = uint16 (getOrDefineField (iName it) (aseg a)).1) as Hit.
  { rewrite Hu, <- (grows_fieldIdOf s1 (getOrDefineField (iName it) (aseg a)).2).
    - unfold fieldIdOf. by rewrite Hext.
    - by eapply grows_trans.
    - by eapply Hknown. }
  assert (fieldIdOf s1 name_e
          = uint16 (getOrDefineField (iName it) (aseg a)).1) as Hne.
  { rewrite <- Hid. symmetry. apply grows_fieldIdOf; [done|].
    by eapply Hknown. }
  intros name' a0 t Hin' Ht.
  destruct (decide (a0 = ex)) as [->|Hneq];
    [|rewrite Hoth in Ht by done; by eapply Hst].
  rewrite Hex' in Ht.
  apply elem_of_dom_MergeAll in Ht as [Ht|Ht]; [by eapply Hst|].
  assert (name' = name_e) as -> by (by eapply Hown).
  rewrite Hne, <- Hit. by eapply Hst.
Qed.

Lemma collate_storeOK results r docNum s1 s0 h St Ty Po a :
  r ∈ results → ownedByName results →
  (∀ name, name ∈ (batchFields results).*1 → is_Some (FieldsMap s1 !! name)) →
  grows s1 s0 →
  registryOK s0 → documents s0 = (St ++ [∅], Ty ++ [∅], Po ++ [∅]) →
  docNum = len St → docNum = len Ty → docNum = len Po →
  storeOK s1 results h →
  collate r docNum {| aseg := s0; astore := h; acoll := emptyCollation |}
  = Ok a →
  storeOK s1 results (astore a).
Proof.
  intros Hr Hown Hnames Hg Hreg Hdoc HSt HTy HPo Hst [Hrun Hal]%collate_items.
  destruct (itemsOf_fields r Hal) as (_ & Hflds & _).
  cut (collateInv s0 St Ty Po (itemsOf r) a ∧ storeOK s1 results (astore a));
    [by intros [_ ?]|].
  eapply (forEach_invariant_split _
    (λ pre a, collateInv s0 St Ty Po pre a ∧ storeOK s1 results (astore a)));
    [| |exact Hrun].
  - split; [by apply collateInv_nil|done].
  - intros pre it rest t t' Heq [Hinv Hs] Hstep. split.
    + eapply collateItem_step; try done.
      intros fld. apply (itemsOf_wf r). rewrite Heq.
      apply elem_of_app. right. left.
    + eapply collateItem_storeOK; try done.
      intros e He. unfold batchFields. apply list_elem_of_bind.
      exists r. split; [|done]. rewrite <- Hflds, Heq.
      replace (pre ++ it :: rest) with ((pre ++ [it]) ++ rest)
        by (by rewrite <- app_assoc).
      rewrite fmap_app. apply elem_of_app. by left.
Qed.

(** The entries of the collated maps of a document are in the
    dictionaries. *)
Lemma collated_known results r s1 s0 St Ty Po a :
  r ∈ results → aligned r →
  (∀ name, name ∈ (batchFields results).*1 → is_Some (FieldsMap s1 !! name)) →
  grows s1 s0 →
  collateInv s0 St Ty Po (itemsOf r) a →
  storeOK s1 results (astore a) →
  ∀ f addr t, docMap (acoll a) !! f = Some addr →
              t ∈ dom (deref (astore a) addr) →
              is_Some (dictLookup s1 f t).
Proof.
  intros Hr Hal Hnames Hg1 Hinv Hst f addr t Hf Ht.
  destruct (itemsOf_fields r Hal) as (_ & Hflds & _).
  destruct Hinv as (_ & Hg & _ & _ & _ & _ & Hmap & _).
  destruct (Hmap _ _ Hf) as (name & Hin & <-). rewrite Hflds in Hin.
  assert ((name, addr) ∈ batchFields results) as Hb.
  { unfold batchFields. apply list_elem_of_bind. by exists r. }
  rewrite (grows_fieldIdOf s1).
  - by eapply Hst.
  - by eapply grows_trans.
  - apply Hnames, list_elem_of_fmap. by exists (name, addr).
Qed.

Section Ordinals.

Context (sched : Schedule).

Lemma walkField_inv ord docNum lens h e acc acc' :
  registryOK acc.1 ∧ postingsOK ord acc.1 →
  walkField sched docNum lens h e acc = Ok acc' →
  registryOK acc'.1 ∧ postingsOK ord acc'.1.
Proof.
  destruct e as [f a], acc as [s n]. unfold walkField.
  intros HI (s' & Hrun & [= <-])%bind_Ok. simpl in *.
  revert Hrun.
  apply (forEach_preserves _ (λ t, registryOK t ∧ postingsOK ord t)); [done|].
  intros [t tf] u u' _ [Hr Hp] Hw.
  by destruct (walkTerm_spec _ _ _ _ _ _ _ _ Hr Hp Hw) as (? & ? & _).
Qed.

Lemma walkFields_avoid ord docNum lens h fields s n :
  registryOK s → postingsOK ord s →
  (∀ f a t, (f, a) ∈ fields → t ∈ dom (deref h a) →
            is_Some (dictLookup s f t)) →
  avoids185 (forEach (walkField sched docNum lens h) fields (s, n)).
Proof.
  intros Hr Hp Hall.
  apply (forEach_avoids _ (λ acc, registryOK acc.1 ∧ postingsOK ord acc.1));
    [done| |].
  - intros [f a] [u m] Hin [Hru Hpu]. simpl in *. unfold walkField.
    apply avoids_bind; [|intros; avoid].
    apply (forEach_avoids _ (λ t, registryOK t ∧ postingsOK ord t)); [done| |].
    + intros [t tf] w Ht [Hrw Hpw]. eapply walkTerm_avoids; [done|].
      apply (postingsOK_known ord s); [done|done|].
      apply (Hall f a t Hin). unfold range in Ht.
      rewrite (pick_perm sched) in Ht. apply elem_of_map_to_list in Ht.
      apply elem_of_dom. eauto.
    + intros [t tf] w w' _ [Hrw Hpw] Hw.
      by destruct (walkTerm_spec _ _ _ _ _ _ _ _ Hrw Hpw Hw) as (? & ? & _).
  - intros e acc acc' _ HI Hw. by eapply walkField_inv.
Qed.

End Ordinals.

Lemma ownedByNameb_true results :
  ownedByNameb results = true → ownedByName results.
Proof.
  unfold ownedByNameb. rewrite forallb_forall. intros H name1 name2 a H1 H2.
  apply list_elem_of_In in H1, H2.
  specialize (H _ H1). rewrite forallb_forall in H. specialize (H _ H2).
  simpl in H. rewrite decide_True in H by done.
  by apply bool_decide_eq_true in H.
Qed.

Section OrdinalsRun.

Context (sched : Schedule).

(** One document keeps the invariant, and its assembly does not reach the
    panic of line 185. *)
Lemma processDocument_ordinals ord s1 results r st :
  r ∈ results → ownedByName results →
  (∀ name, name ∈ (batchFields results).*1 → is_Some (FieldsMap s1 !! name)) →
  postingsOK ord s1 →
  ordinalsInv ord s1 results st →
  avoids185 (processDocument sched r st) ∧
  ∀ st', processDocument sched r st = Ok st' → ordinalsInv ord s1 results st'.
Proof.
  intros Hr Hown Hnames Hp1 (Hreg & Hpost & HTy & HPo & Hg & Hst).
  pose proof (addDocument_spec (seg st))
    as (HdocNum & Hsame0 & Harr0 & Hdoc0 & _).
  assert (registryOK (addDocument (seg st)).2) as Hreg0
    by (by eapply sameDicts_registryOK).
  assert (grows s1 (addDocument (seg st)).2) as Hg0.
  { eapply grows_trans; [done|]. by apply sameDicts_grows. }
  split.
  - unfold processDocument.
    destruct (addDocument (seg st)) as [docNum s0]. simpl in *. subst docNum.
    apply avoids_bind; [apply collate_avoids|]. intros a Hcol.
    apply avoids_bind; [|intros [s n] _; avoid].
    destruct (collate_spec _ _ _ _ _ _ _ _ Hreg0 Hdoc0 eq_refl
                (eq_sym HTy) (eq_sym HPo) Hcol) as [Hinv Hal].
    pose proof (collate_storeOK _ _ _ _ _ _ _ _ _ _ Hr Hown Hnames Hg0 Hreg0
                  Hdoc0 eq_refl (eq_sym HTy) (eq_sym HPo) Hst Hcol) as Hst'.
    pose proof Hinv as (Hreg1 & Hg1 & Harr1 & _).
    assert (postingsOK ord (aseg a)) as Hpost1.
    { apply (postingsOK_frame ord (seg st)); [congruence| |done].
      eapply grows_trans; [by apply sameDicts_grows|done]. }
    apply (walkFields_avoid sched ord); [done|done|].
    intros f addr t Hin Ht. apply (postingsOK_known ord s1); [done|done|].
    eapply collated_known; try done.
    unfold range in Hin. rewrite (pick_perm sched) in Hin.
    by apply elem_of_map_to_list in Hin.
  - intros st' Hrun.
    destruct (processDocument_spec sched ord _ _ _ Hreg Hpost HTy HPo Hrun)
      as (a & Hcol & Hinv & Hal & _ & Hreg' & Hpost' & Hg' & _ & Hdoc' & Hs'
          & _).
    simpl in Hcol.
    pose proof (collate_storeOK _ _ _ _ _ _ _ _ _ _ Hr Hown Hnames Hg0 Hreg0
                  Hdoc0 eq_refl (eq_sym HTy) (eq_sym HPo) Hst Hcol) as Hst'.
    destruct Hinv as (_ & _ & _ & _ & _ & _ & _ & m1 & m2 & m3 & Hdoc & _).
    rewrite <- Hdoc' in Hdoc. injection Hdoc as E1 E2 E3.
    unfold ordinalsInv. rewrite Hs', E1, E2, E3, !len_app.
    split_and!; try done;
      [unfold len in *; simpl; lia|unfold len in *; simpl; lia|
       by eapply grows_trans].
Qed.

(** The first pass establishes the invariant. *)
Lemma ordinalsInv_start results h st1 :
  initializeDict sched results (start h) = Ok st1 →
  let ord := distinctInOrder (scanIds sched (seg st1) results h) in
  (∀ name, name ∈ (batchFields results).*1 →
           is_Some (FieldsMap (seg st1) !! name)) ∧
  postingsOK ord (seg st1) ∧ ordinalsInv ord (seg st1) results st1.
Proof.
  intros Hrun.
  destruct (initializeDict_spec _ _ _ _ Hrun)
    as (Hreg & Hpost & Hnames & _ & _ & Hdoc & _ & Hs & _).
  simpl. split; [done|]. split; [done|].
  injection Hdoc as E1 E2 E3. unfold ordinalsInv. rewrite E1, E2, E3, Hs.
  split_and!; try done; [apply grows_refl|].
  intros name a t Hin Ht.
  assert ((fieldIdOf (seg st1) name, t)
          ∈ distinctInOrder (scanIds sched (seg st1) results h)) as Hord.
  { apply elem_of_distinctInOrder, elem_of_scanIds, elem_of_batchPairs.
    eauto. }
  apply list_elem_of_lookup in Hord as [i Hi].
  exists (uint64 (Z.of_nat i + 1)). apply Hpost. eauto.
Qed.

Lemma run_ordinals results h k st :
  ownedByName results →
  assembledUpTo sched results h k = Ok st →
  ∃ st1,
    initializeDict sched results (start h) = Ok st1 ∧
    let ord := distinctInOrder (scanIds sched (seg st1) results h) in
    (∀ name, name ∈ (batchFields results).*1 →
             is_Some (FieldsMap (seg st1) !! name)) ∧
    postingsOK ord (seg st1) ∧ ordinalsInv ord (seg st1) results st.
Proof.
  intros Hown (st1 & H1 & Hrun)%bind_Ok. exists st1. split; [done|].
  destruct (ordinalsInv_start _ _ _ H1) as (Hnames & Hp1 & Hinv). simpl.
  split; [done|]. split; [done|]. revert Hrun.
  apply forEach_preserves; [done|].
  intros r t t' Hr%subseteq_take Ht Hstep.
  by apply (processDocument_ordinals _ _ _ _ _ Hr Hown Hnames Hp1 Ht).
Qed.

Lemma assembled_avoids results h :
  ownedByName results → avoids185 (assembled sched results h).
Proof.
  intros Hown. unfold assembled. apply avoids_bind.
  { apply initializeDict_avoids. }
  intros st1 H1.
  destruct (ordinalsInv_start _ _ _ H1) as (Hnames & Hp1 & Hinv).
  eapply forEach_avoids; [exact Hinv| |].
  - intros r t Hr Ht.
    by apply (processDocument_ordinals _ _ _ _ _ Hr Hown Hnames Hp1 Ht).
  - intros r t t' Hr Ht.
    by apply (processDocument_ordinals _ _ _ _ _ Hr Hown Hnames Hp1 Ht).
Qed.

End OrdinalsRun.

(** ** The dictionary pass *)

(** C5.  The posting ordinal of a (field id, term) pair is one more than
    the position of the pair among the distinct pairs of the batch, taken
    in the order of their first appearance in the scan (documents in batch
    order, composite fields before regular fields, the terms of a field in
    the order of the loop over its map): of two pairs, the one that first
    appears earlier in the scan has the smaller ordinal, and the pair the
    scan starts with has ordinal 1.  Filing a term subtracts one from its
    ordinal to index the arrays; the bitmap at that index takes the
    document number as a 32-bit member. *)
Theorem ordinals_by_first_appearance sched results h st :
  initializeDict sched results (start h) = Ok st →
  let s := seg st in
  let visited := scanIds sched s results h in
  let firsts := distinctInOrder visited in
  (∀ f t v, dictLookup s f t = Some v ↔
            ∃ i : nat, firsts !! i = Some (f, t) ∧ v = Z.of_nat i + 1) ∧
  (∀ f t v f' t' v',
     dictLookup s f t = Some v → dictLookup s f' t' = Some v' →
     ∃ a b : nat,
       position (f, t) visited = Some a ∧ position (f', t') visited = Some b ∧
       (v < v' ↔ (a < b)%nat)) ∧
  (∀ e rest, visited = e :: rest → dictLookup s e.1 e.2 = Some 1) ∧
  (∀ docNum lens f t tf s',
     walkTerm docNum lens f (t, tf) s = Ok s' →
     ∃ v sl sl',
       dictLookup s f t = Some v ∧ uint64 (v - 1) = v - 1 ∧
       slot s (v - 1) = Some sl ∧ slot s' (v - 1) = Some sl' ∧
       sPostings sl' = {[uint32 docNum]} ∪ sPostings sl ∧
       ∀ p, p ≠ v - 1 → slot s' p = slot s p).
Proof.
  intros Hrun. apply initializeDict_spec in Hrun as (Hreg & Hpost & _).
  cbv zeta in *.
  assert (∀ f t v,
            dictLookup (seg st) f t = Some v ↔
            ∃ i : nat,
              distinctInOrder (scanIds sched (seg st) results h) !! i
              = Some (f, t) ∧ v = Z.of_nat i + 1) as Hord.
  { intros f t v. split.
    - intros (i & Hi & Hv & _)%(dictLookup_ordinal _ _ _ _ _ Hpost). eauto.
    - intros (i & Hi & ->). destruct Hpost as ([_ Hd] & _ & Hmax & _).
      apply Hd. exists i. split; [done|].
      apply lookup_lt_Some in Hi. unfold len in Hmax.
      rewrite uint64_small; [done|lia]. }
  split_and!.
  - exact Hord.
  - intros f t v f' t' v' (i & Hi & ->)%Hord (j & Hj & ->)%Hord.
    destruct (distinctInOrder_order _ _ _ _ _ Hi Hj) as (a & b & Ha & Hb & Hab).
    exists a, b. split_and!; [done..|]. rewrite <- Hab. lia.
  - intros [f t] rest Heq. apply Hord. exists 0%nat. split; [|done].
    rewrite Heq. apply distinctInOrder_head.
  - intros docNum lens f t tf s' Hwalk.
    destruct (walkTerm_spec _ _ _ _ _ _ _ _ Hreg Hpost Hwalk)
      as (_ & _ & _ & _ & _ & v & sl & sl' & Hv & Hsl & Hsl' & Hhit & Hoth).
    exists v, sl, sl'. split_and!; try done.
    + destruct (dictLookup_ordinal _ _ _ _ _ Hpost Hv) as (i & _ & -> & Hu & _).
      rewrite Hu. lia.
    + destruct Hhit as [-> _]. unfold AddInt. by rewrite uint32_int.
Qed.

Lemma ordinals_by_first_appearance_witness :
  (∀ f t v, dictLookup (seg exDictState) f t = Some v ↔
            ∃ i : nat,
              distinctInOrder
                (scanIds inOrder (seg exDictState) exBatch exStore) !! i
              = Some (f, t) ∧ v = Z.of_nat i + 1) ∧
  dictLookup (seg exDictState) 1 "cat" = Some 1 ∧
  dictLookup (seg exDictState) 1 "dog" = Some 2.
Proof.
  split; [|split; vm_compute; reflexivity].
  apply (ordinals_by_first_appearance inOrder exBatch exStore exDictState).
  vm_compute. reflexivity.
Defined.

(** C6.  When the first pass returns, each of the nine arrays indexed by
    posting ordinal has one slot for each distinct (field id, term) pair of
    the batch, every slot holds the empty set or the empty sequence, and
    no stored value and no document has been added. *)
Theorem initializeDict_allocates sched results h st :
  initializeDict sched results (start h) = Ok st →
  let s := seg st in
  let P := Z.of_nat (size (batchPairs s results h)) in
  Postings s = make P ∅ ∧ PostingsLocs s = make P ∅ ∧
  Freqs s = make P [] ∧ Norms s = make P [] ∧ Locfields s = make P [] ∧
  Locstarts s = make P [] ∧ Locends s = make P [] ∧ Locpos s = make P [] ∧
  Locarraypos s = make P [] ∧
  Stored s = [] ∧ StoredTypes s = [] ∧ StoredPos s = [] ∧
  DocValueFields s = ∅ ∧ store st = h.
Proof.
  intros Hrun.
  apply initializeDict_spec in Hrun
    as (_ & _ & _ & _ & Harr & Hdoc & Hdv & Hst & _).
  cbv zeta in *. unfold len in Harr. rewrite distinct_scanIds_size in Harr.
  injection Harr as -> -> -> -> -> -> -> -> ->.
  injection Hdoc as -> -> ->. by split_and!.
Qed.

Lemma initializeDict_allocates_witness :
  Postings (seg exDictState) = [∅; ∅] ∧ Freqs (seg exDictState) = [[]; []] ∧
  Stored (seg exDictState) = [].
Proof.
  pose proof (initializeDict_allocates inOrder exBatch exStore exDictState)
    as H.
  assert (size (batchPairs (seg exDictState) exBatch exStore) = 2%nat) as E
    by (vm_compute; reflexivity).
  cbv zeta in H. rewrite E in H.
  destruct H as (H1 & _ & H3 & _ & _ & _ & _ & _ & _ & H10 & _);
    [vm_compute; reflexivity|].
  by split_and!.
Defined.

(** ** The postings of a built segment *)

(** C1.  In a segment built from a batch of no more than 2^32 documents,
    the frequency sequence, the norm sequence and the membership bitmap of
    a posting ordinal have one size, the members are document numbers of
    the batch, and the member number [K] in increasing order is the
    document that contributed the entries number [K] of the two
    sequences. *)
Theorem alignment sched footprint results h s h' :
  NewFromAnalyzedDocs sched footprint results h = Ok (s, h') →
  len results ≤ 2 ^ 32 →
  ∀ p sl, slot s p = Some sl →
    length (sFreqs sl) = size (sPostings sl) ∧
    length (sNorms sl) = size (sPostings sl) ∧
    (∀ z, z ∈ sPostings sl → 0 ≤ z < len results) ∧
    ∀ K d : nat,
      members (sPostings sl) !! K = Some (Z.of_nat d) ↔
      ∃ x y, contributes sched results h p d K x y ∧
             sFreqs sl !! K = Some x ∧ sNorms sl !! K = Some y.
Proof.
  intros (st & Hst & -> & _)%NewFromAnalyzedDocs_Ok Hb p sl Hsl.
  rewrite built_slot in Hsl.
  destruct (run_slotsOK _ _ _ _ _ Hb (Nat.le_refl _) Hst _ _ Hsl)
    as (H1 & H2 & H3).
  destruct (run_history _ _ _ _ _ _ _ Hb (Nat.le_refl _) Hst Hsl)
    as [Hh1 Hh2].
  split_and!; [done..|]. intros K d. split.
  - intros (_ & Hc)%Hh1. done.
  - intros (x & y & Hc & _). eapply Hh2; [|done].
    destruct (decide (d < length results)%nat) as [|Hge]; [done|]. exfalso.
    destruct Hc as (stA & stB & slA & slB & HA & HB & HsA & HsB & _ & _ & HF & _).
    rewrite assembledUpTo_ge in HA, HB by lia.
    assert (slA = slB) as -> by congruence.
    apply (f_equal length) in HF. rewrite length_app in HF. simpl in HF. lia.
Qed.

Lemma alignment_witness :
  ∃ sl, slot exBuilt.1 1 = Some sl ∧
        length (sFreqs sl) = size (sPostings sl) ∧ sFreqs sl = [1; 1] ∧
        members (sPostings sl) = [0; 1].
Proof.
  destruct (slot exBuilt.1 1) as [sl|] eqn:E; [|vm_compute in E; discriminate E].
  exists sl. split; [done|].
  split; [|vm_compute in E; injection E as <-; split; vm_compute; reflexivity].
  apply (alignment inOrder noFootprint exBatch exStore exBuilt.1 exBuilt.2
           ltac:(vm_compute; reflexivity) ltac:(vm_compute; discriminate)
           1 sl E).
Defined.

(** C10.  After the first pass and after every document, the five location
    sequences of a posting ordinal have one length and the location bitmap
    is contained in the membership bitmap; and a number enters the location
    bitmap only as the 32-bit member that stands for the number of the
    document being assembled, in the step that enters the same member into
    the membership bitmap, for a collated term that carries at least one
    location.  While the document numbers fit 32 bits, the member is the
    document number itself and is new to the membership bitmap. *)
Theorem locations_consistent sched results h k st :
  (k ≤ length results)%nat →
  assembledUpTo sched results h k = Ok st →
  (∀ p sl, slot (seg st) p = Some sl →
     length (sLocstarts sl) = length (sLocfields sl) ∧
     length (sLocends sl) = length (sLocfields sl) ∧
     length (sLocpos sl) = length (sLocfields sl) ∧
     length (sLocarraypos sl) = length (sLocfields sl) ∧
     sPostingsLocs sl ⊆ sPostings sl) ∧
  (∀ r st' p sl sl' z,
     results !! k = Some r → processDocument sched r st = Ok st' →
     slot (seg st) p = Some sl → slot (seg st') p = Some sl' →
     z ∈ sPostingsLocs sl' → z ∉ sPostingsLocs sl →
     z = uint32 (Z.of_nat k) ∧ sPostings sl' = {[z]} ∪ sPostings sl ∧
     sPostingsLocs sl' = {[z]} ∪ sPostingsLocs sl ∧
     (Z.of_nat k < 2 ^ 32 → z = Z.of_nat k ∧ z ∉ sPostings sl) ∧
     ∃ a f t tf addr,
       collate r (Z.of_nat k)
         {| aseg := (addDocument (seg st)).2; astore := store st;
            acoll := emptyCollation |} = Ok a ∧
       docMap (acoll a) !! f = Some addr ∧
       deref (astore a) addr !! t = Some tf ∧
       dictLookup (seg st) f t = Some (p + 1) ∧ Locations tf ≠ []).
Proof.
  intros Hk Hst.
  pose proof (run_locsOK _ _ _ _ _ Hk Hst) as Hok. split.
  - intros p sl Hsl. destruct (Hok _ _ Hsl) as (? & ? & ? & ? & ?).
    by split_and!.
  - intros r st' p sl sl' z Hr Hdoc Hsl Hsl' Hz Hnz.
    destruct (run_inv _ _ _ _ _ Hk Hst)
      as (st1 & _ & (Hreg & Hpost & L1 & L2 & L3) & _).
    destruct (processDocument_spec _ _ _ _ _ Hreg Hpost
                ltac:(congruence) ltac:(congruence) Hdoc)
      as (a & Hcol & _ & _ & _ & _ & _ & _ & _ & _ & _ & _ & Heff).
    cbv zeta in Heff, Hcol. rewrite L1 in Heff, Hcol.
    destruct (Heff _ _ Hsl) as [[Hsame _]|(e & sl1 & He & Hlook & Hsl1 & Hhit)].
    { assert (sl' = sl) as -> by congruence. done. }
    assert (sl1 = sl') as -> by congruence.
    destruct Hhit as (E1 & E2 & _).
    destruct (decide (Locations e.2 = [])) as [Hnil|Hne];
      [rewrite E2 in Hz; done|].
    unfold AddInt in E1, E2. rewrite uint32_int in E1, E2.
    rewrite E2 in Hz.
    apply elem_of_union in Hz as [->%elem_of_singleton|Hz]; [|done].
    split_and!; [done|done|done| |].
    { intros Hb. rewrite uint32_small by lia. split; [done|].
      assert (Z.of_nat k ≤ 2 ^ 32) as Hb' by lia.
      destruct (run_slotsOK _ _ _ _ _ Hb' Hk Hst _ _ Hsl) as (_ & _ & Hlt).
      intros ?%Hlt. lia. }
    destruct e as [[f t] tf]. simpl in *.
    apply elem_of_walked in He as (addr & Ha & Htf).
    unfold range in Ha. rewrite (pick_perm sched), elem_of_map_to_list in Ha.
    exists a, f, t, tf, addr. by split_and!.
Qed.

Lemma locations_consistent_witness :
  (2 ≤ length exBatch)%nat ∧
  assembledUpTo inOrder exBatch exStore 2 = Ok exAssembled ∧
  ∀ p sl, slot (seg exAssembled) p = Some sl →
    length (sLocstarts sl) = length (sLocfields sl) ∧
    length (sLocends sl) = length (sLocfields sl) ∧
    length (sLocpos sl) = length (sLocfields sl) ∧
    length (sLocarraypos sl) = length (sLocfields sl) ∧
    sPostingsLocs sl ⊆ sPostings sl.
Proof.
  assert (2 ≤ length exBatch)%nat as H1 by (simpl; lia).
  assert (assembledUpTo inOrder exBatch exStore 2 = Ok exAssembled) as H2
    by (vm_compute; reflexivity).
  split; [exact H1|]. split; [exact H2|].
  apply (locations_consistent inOrder exBatch exStore 2 exAssembled H1 H2).
Defined.

(** ** Norms and stored values *)



(** C8.  In a built segment, the stored values, type tags and array
    positions recorded for document number [d] and field id [f] are those
    of the stored regular fields of document [d] with field id [f], in the
    order of the fields in the document; fields that share a field id are
    all there, none replaces another. *)
Theorem stored_round_trip sched footprint results h s h' :
  NewFromAnalyzedDocs sched footprint results h = Ok (s, h') →
  len (Stored s) = len results ∧
  ∀ (d : nat) r f,
    results !! d = Some r →
    let fs := storedFields s r f in
    default [] (Stored s !! d ≫= (λ m, m !! f)) = Value <$> fs ∧
    default [] (StoredTypes s !! d ≫= (λ m, m !! f)) = encodeFieldType <$> fs ∧
    default [] (StoredPos s !! d ≫= (λ m, m !! f)) = FieldArrayPositions <$> fs.
Proof.
  intros (stn & Hn & -> & _)%NewFromAnalyzedDocs_Ok. split.
  { destruct (run_inv _ _ _ _ _ (Nat.le_refl _) Hn) as (_ & _ & (_ & _ & L & _) & _).
    done. }
  intros d r f Hr.
  destruct (run_document _ _ _ _ _ _ Hr Hn)
    as (st & st' & a & ord & _ & _ & (_ & _ & L1 & L2 & L3) & _ & Hcinv & Hal & _ & Hga & Hdocs & P1 & P2 & P3 & _).
  destruct Hcinv as (_ & _ & _ & Hnames & Hwf & _ & _ & m1 & m2 & m3 & Hd & Hst).
  rewrite Hd in Hdocs. injection Hdocs as E1 E2 E3.
  assert (Stored (seg stn) !! d = Some m1 ∧ StoredTypes (seg stn) !! d = Some m2
          ∧ StoredPos (seg stn) !! d = Some m3) as (G1 & G2 & G3).
  { unfold len in L1, L2, L3.
    split_and!; (eapply prefix_lookup_Some; [|done]).
    - rewrite E1. replace d with (length (Stored (seg st))) by lia.
      by apply list_lookup_middle.
    - rewrite E2. replace d with (length (StoredTypes (seg st))) by lia.
      by apply list_lookup_middle.
    - rewrite E3. replace d with (length (StoredPos (seg st))) by lia.
      by apply list_lookup_middle. }
  cbv zeta. simpl. rewrite G1, G2, G3. simpl.
  destruct (Hst f) as (-> & -> & ->).
  destruct (itemsOf_fields _ Hal) as (Hflds & _).
  assert (filter (λ fld, IsStored fld = true ∧ fieldIdOf (aseg a) (Name fld) = f)
            (omap iField (itemsOf r))
          = storedFields (updateSizeInBytes footprint (sortDictKeys (seg stn)))
              r f) as ->; [|done].
  unfold storedFields. rewrite <- Hflds.
  rewrite <- (filter_stored_weaken (aseg a) (seg stn)); [|apply Hga|].
  - apply list_filter_iff. intros fld. by rewrite built_fieldIdOf.
  - intros fld (it & Hin & Hfld)%list_elem_of_omap.
    rewrite (Hwf _ _ Hin Hfld). by apply Hnames.
Qed.

Lemma stored_round_trip_witness :
  len (Stored exBuilt.1) = 2 ∧
  default [] (Stored exBuilt.1 !! 0%nat ≫= (λ m, m !! 1)) = [[x63; x61; x74]] ∧
  default [] (StoredTypes exBuilt.1 !! 0%nat ≫= (λ m, m !! 1)) = [x74].
Proof.
  destruct (stored_round_trip inOrder noFootprint exBatch exStore
              exBuilt.1 exBuilt.2 ltac:(vm_compute; reflexivity))
    as [Hlen Hst].
  split; [exact Hlen|].
  destruct (Hst 0%nat exDoc0 1 eq_refl) as (H1 & H2 & _).
  split; [rewrite H1|rewrite H2]; vm_compute; reflexivity.
Defined.

(** ** The term lists *)

Lemma sortStrings_sorted l : Sorted String.le (sortStrings l).
Proof. apply (Sorted_merge_sort String.le). Qed.

Lemma sortStrings_perm l : sortStrings l ≡ₚ l.
Proof. apply merge_sort_Permutation. Qed.

(** A sorted list is what sorting it gives. *)
Lemma sortStrings_of_sorted l : Sorted String.le l → sortStrings l = l.
Proof.
  intros Hl. apply (Sorted_unique String.le);
    [apply sortStrings_sorted|done|apply sortStrings_perm].
Qed.

Lemma sortStrings_idemp l : sortStrings (sortStrings l) = sortStrings l.
Proof. apply sortStrings_of_sorted, sortStrings_sorted. Qed.

(** C9.  When [NewFromAnalyzedDocs] returns, every term list is sorted by
    the byte-wise order of strings and holds the terms it held before the
    sort; sorting the term lists of the built segment again changes none;
    and the sort step leaves the dictionaries, hence every posting ordinal,
    as they were. *)
Theorem term_lists_sorted sched footprint results h s h' :
  NewFromAnalyzedDocs sched footprint results h = Ok (s, h') →
  (∀ keys, keys ∈ DictKeys s → Sorted String.le keys) ∧
  DictKeys (sortDictKeys s) = DictKeys s ∧
  (∃ st, assembled sched results h = Ok st ∧ Dicts s = Dicts (seg st) ∧
         Forall2 (≡ₚ) (DictKeys s) (DictKeys (seg st))) ∧
  (∀ s0 : Segment, Dicts (sortDictKeys s0) = Dicts s0).
Proof.
  intros (st & Hst & -> & _)%NewFromAnalyzedDocs_Ok. simpl.
  split_and!.
  - intros keys (l & -> & _)%list_elem_of_fmap. apply sortStrings_sorted.
  - rewrite <- list_fmap_compose. apply list_fmap_ext.
    intros i l _. apply sortStrings_idemp.
  - exists st. rewrite assembled_upTo. split_and!; [done..|].
    apply Forall2_fmap_l, Forall_Forall2_diag, Forall_forall.
    intros l _. apply sortStrings_perm.
  - done.
Qed.

Lemma term_lists_sorted_witness :
  DictKeys exBuilt.1 = [[]; ["cat"; "dog"]] ∧
  (∀ keys, keys ∈ DictKeys exBuilt.1 → Sorted String.le keys) ∧
  DictKeys (sortDictKeys exBuilt.1) = DictKeys exBuilt.1.
Proof.
  split; [vm_compute; reflexivity|].
  destruct (term_lists_sorted inOrder noFootprint exBatch exStore
              exBuilt.1 exBuilt.2 ltac:(vm_compute; reflexivity))
    as (H1 & H2 & _).
  by split.
Defined.

(** ** The field registry under the operations of the build *)

Lemma getOrDefineField_FieldsInv name s :
  registryOK s →
  FieldsInv (getOrDefineField name s).2 = addDistinct (FieldsInv s) name.
Proof.
  intros (_ & _ & _ & _ & Hmap).
  destruct (FieldsMap s !! name) as [v|] eqn:E.
  - rewrite (getOrDefineField_known _ _ _ E). simpl.
    apply Hmap in E as (k & Hk & _). symmetry. apply addDistinct_old.
    by eapply list_elem_of_lookup_2.
  - destruct (getOrDefineField_new name s E) as (_ & -> & _).
    symmetry. apply addDistinct_new.
    intros (k & Hk)%list_elem_of_lookup.
    assert (FieldsMap s !! name = Some (uint16 (Z.of_nat k + 1))) as Hv
      by (apply Hmap; eauto).
    congruence.
Qed.

Lemma registryOf_lookup names s name :
  registryOf names s → registryOf (names ++ [name]) (getOrDefineField name s).2.
Proof.
  intros [Hreg Hinv]. split; [by apply getOrDefineField_registryOK|].
  rewrite getOrDefineField_FieldsInv by done.
  by rewrite distinctInOrder_app, Hinv.
Qed.

Lemma registryOf_sameDicts names s s' :
  sameDicts s s' → registryOf names s → registryOf names s'.
Proof.
  intros Hs [Hreg Hinv]. split; [by eapply sameDicts_registryOK|].
  destruct Hs as (_ & -> & _). done.
Qed.

Lemma registryOf_sameButDicts names s s' :
  sameButDicts s s' → registryOf names s → registryOf names s'.
Proof.
  intros Hs [Hreg Hinv]. split; [by eapply sameButDicts_registryOK|].
  destruct Hs as (_ & -> & _). done.
Qed.

Lemma walkLocation_registryOf names pid f loc s s' :
  registryOf names s → walkLocation pid f loc s = Ok s' →
  registryOf (names ++ filter (λ name, name ≠ EmptyString) [Field loc]) s'.
Proof.
  intros Hreg Hrun. unfold walkLocation in Hrun.
  set (r := if decide (Field loc = EmptyString) then (f, s)
            else let '(f0, s0) := getOrDefineField (Field loc) s in
                 (uint16 f0, s0)) in Hrun.
  assert (registryOf (names ++ filter (λ name, name ≠ EmptyString) [Field loc]) r.2)
    as Hreg1.
  { subst r. rewrite filter_cons, filter_nil. case_decide as E.
    - rewrite decide_False by naive_solver. by rewrite app_nil_r.
    - rewrite decide_True by done.
      pose proof (registryOf_lookup _ _ (Field loc) Hreg).
      by destruct (getOrDefineField (Field loc) s). }
  destruct r as [locf s1]. simpl in *.
  apply bind_Ok in Hrun as (lf & _ & Hrun).
  apply bind_Ok in Hrun as (ls & _ & Hrun).
  apply bind_Ok in Hrun as (le & _ & Hrun).
  apply bind_Ok in Hrun as (lp & _ & Hrun).
  eapply registryOf_sameDicts; [|exact Hreg1].
  destruct (0 <? len (ArrayPositions loc));
    apply bind_Ok in Hrun as (la & _ & [= <-]); done.
Qed.

Lemma walkLocations_registryOf names pid f locs s s' :
  registryOf names s → forEach (walkLocation pid f) locs s = Ok s' →
  registryOf (names ++ filter (λ name, name ≠ EmptyString) (Field <$> locs)) s'.
Proof.
  revert names s. induction locs as [|loc locs IH]; intros names s Hreg.
  - intros [= <-]. by rewrite app_nil_r.
  - intros Hrun. rewrite fmap_cons. simpl in Hrun.
    apply bind_Ok in Hrun as (s1 & Hloc & Hrest).
    apply (walkLocation_registryOf names) in Hloc; [|done].
    apply (IH _ _ Hloc) in Hrest.
    rewrite <- app_assoc in Hrest. rewrite filter_cons.
    rewrite filter_cons, filter_nil in Hrest. by destruct (decide _).
Qed.

Lemma walkTerm_registryOf names docNum lens f e s s' :
  registryOf names s → walkTerm docNum lens f e s = Ok s' →
  registryOf (names ++ locationNames e.2) s'.
Proof.
  intros Hreg Hrun. destruct e as [t tf]. unfold walkTerm in Hrun.
  apply bind_Ok in Hrun as (dict & _ & Hrun).
  apply bind_Ok in Hrun as (bs & _ & Hrun).
  apply bind_Ok in Hrun as (ps & _ & Hrun).
  apply bind_Ok in Hrun as (fs & _ & Hrun).
  apply bind_Ok in Hrun as (ns & _ & Hrun).
  apply bind_Ok in Hrun as (lbs & _ & Hrun).
  simpl in *. unfold locationNames.
  destruct (0 <? len (Locations tf)) eqn:E.
  - apply bind_Ok in Hrun as (pl & _ & Hrun).
    eapply walkLocations_registryOf; [|exact Hrun].
    by eapply registryOf_sameDicts; [|exact Hreg].
  - apply Z.ltb_ge in E. injection Hrun as <-.
    destruct (Locations tf); [|unfold len in E; simpl in E; lia].
    simpl. rewrite filter_nil, app_nil_r.
    by eapply registryOf_sameDicts; [|exact Hreg].
Qed.

Lemma reach_registryOf names s : reach names s → registryOf names s.
Proof.
  induction 1 as [|names s name _ IH|names s f t n s' n' _ IH Hop
                  |names s n s' _ IH Hop|names s _ IH
                  |names s docNum f typ val pos s' _ IH Hop|names s f _ IH
                  |names s docNum lens f e s' _ IH Hop|names s _ IH
                  |names s footprint _ IH].
  - split; [apply registryOK_initial|].
    unfold initial. rewrite getOrDefineField_FieldsInv by apply registryOK_New.
    done.
  - by apply registryOf_lookup.
  - destruct IH as [Hreg Hinv].
    assert (∃ ord, dictOK ord s' ∨ True) as _ by (exists []; by right).
    unfold dictTerm in Hop.
    apply bind_Ok in Hop as (dict & _ & Hop).
    destruct (dict !! t); [by injection Hop as <- <-|].
    apply bind_Ok in Hop as (dicts & (d0 & _ & ->)%modify_Ok & Hop).
    apply bind_Ok in Hop as (keys & (k0 & _ & ->)%modify_Ok & [= <- <-]).
    apply (registryOf_sameButDicts names s); [|done].
    unfold sameButDicts. simpl. by rewrite !length_insert.
  - destruct (n <=? maxInt) eqn:E; unfold allocate in Hop; rewrite E in Hop;
      [|done].
    injection Hop as <-. by apply (registryOf_sameDicts names s).
  - by apply (registryOf_sameDicts names s).
  - unfold storeField in Hop.
    apply bind_Ok in Hop as (st & _ & Hop).
    apply bind_Ok in Hop as (ty & _ & Hop).
    apply bind_Ok in Hop as (po & _ & [= <-]).
    by apply (registryOf_sameDicts names s).
  - by apply (registryOf_sameDicts names s).
  - by eapply walkTerm_registryOf.
  - destruct IH as [(H1 & H2 & H3 & H4 & H5) Hinv].
    split; [|done]. unfold registryOK, sortDictKeys. simpl.
    by rewrite length_fmap.
  - by apply (registryOf_sameDicts names s).
Qed.

Lemma reach_head names s : reach names s → ∃ rest, names = "_id" :: rest.
Proof.
  induction 1 as [|? ? ? _ [rest ->]| | | | | |? ? ? ? ? ? ? _ [rest ->] _| |];
    try done.
  - by exists [].
  - eexists. by rewrite <- app_comm_cons.
  - eexists. by rewrite <- app_comm_cons.
Qed.

(** C4, as the code has it.  After the identity field is registered and
    after every later operation of the build: "_id" has field id 0; the
    map, the inverse list, the dictionaries and the term lists have one
    size; the inverse list holds the distinct names looked up, in the
    order of their first look-ups; the name at index [k] has the 16-bit
    value of [k] as its field id; and as long as no more than 65536 names
    are registered, field id [k] is held by the name at index [k] and by
    no other. *)
Theorem registry_invariant names s :
  reach names s →
  extId s "_id" = Some 0 ∧
  size (FieldsMap s) = length (FieldsInv s) ∧
  length (Dicts s) = length (FieldsInv s) ∧
  length (DictKeys s) = length (FieldsInv s) ∧
  FieldsInv s = distinctInOrder names ∧
  (∀ name (k : nat), FieldsInv s !! k = Some name →
                     extId s name = Some (uint16 (Z.of_nat k))) ∧
  (∀ name, name ∉ FieldsInv s → extId s name = None) ∧
  (len (FieldsInv s) ≤ 2 ^ 16 →
   ∀ name (k : nat),
     extId s name = Some (Z.of_nat k) ↔ FieldsInv s !! k = Some name).
Proof.
  intros Hreach. destruct (reach_head _ _ Hreach) as [rest Hnames].
  destruct (reach_registryOf _ _ Hreach) as [(HD & HK & HS & Hnd & Hmap) Hinv].
  assert (∀ name (k : nat), FieldsInv s !! k = Some name →
            extId s name = Some (uint16 (Z.of_nat k))) as Hpos.
  { intros name k Hk. unfold extId.
    rewrite (proj2 (Hmap name _) (ex_intro _ k (conj Hk eq_refl))). simpl.
    by rewrite uint16_pred_succ. }
  assert (∀ name, name ∉ FieldsInv s → extId s name = None) as Hout.
  { intros name Hn. unfold extId.
    destruct (FieldsMap s !! name) as [v|] eqn:E; [|done].
    apply Hmap in E as (k & Hk & _). destruct Hn.
    by eapply list_elem_of_lookup_2. }
  split_and!; try done.
  - rewrite (Hpos "_id" 0%nat); [done|].
    rewrite Hinv, Hnames. unfold distinctInOrder. simpl.
    change (addDistinct [] "_id") with ["_id"].
    destruct (foldl_addDistinct_prefix ["_id"] rest) as [k ->]. done.
  - intros Hlen name k. split.
    + unfold extId. destruct (FieldsMap s !! name) as [v|] eqn:E; [|done].
      apply Hmap in E as (k0 & Hk0 & ->). simpl. rewrite uint16_pred_succ.
      apply lookup_lt_Some in Hk0 as Hlt. unfold len in Hlen.
      rewrite uint16_small by lia. intros [= ?%Nat2Z.inj]. by subst.
    + intros Hk. rewrite (Hpos _ _ Hk).
      apply lookup_lt_Some in Hk as Hlt. unfold len in Hlen.
      by rewrite uint16_small by lia.
Qed.

Lemma registry_invariant_witness :
  extId exBuilt.1 "_id" = Some 0 ∧ extId exBuilt.1 "body" = Some 1 ∧
  FieldsInv initial = distinctInOrder ["_id"].
Proof.
  split; [vm_compute; reflexivity|]. split; [vm_compute; reflexivity|].
  apply (registry_invariant ["_id"] initial reach_initial).
Defined.

Lemma reach_lookups names more s :
  reach names s → reach (names ++ more) (lookups more s).
Proof.
  revert names s. induction more as [|name more IH]; intros names s H.
  - by rewrite app_nil_r.
  - replace (names ++ name :: more) with ((names ++ [name]) ++ more)
      by (by rewrite <- app_assoc).
    apply IH. by constructor.
Qed.

Lemma fieldNames_NoDup n : NoDup ("_id" :: fieldNames n).
Proof.
  apply NoDup_cons. split.
  - intros (i & Heq & _)%list_elem_of_fmap. discriminate Heq.
  - unfold fieldNames. apply NoDup_fmap_2; [|apply NoDup_seq].
    intros x y Heq. by apply (inj (String.app "f")), (inj pretty) in Heq.
Qed.

(** With 65536 names registered after "_id", the last of them has the
    field id of "_id". *)
Lemma fieldNames_wrap n :
  Z.of_nat n = 2 ^ 16 →
  ¬ (∀ name (k : nat),
       extId (lookups (fieldNames n) initial) name = Some (Z.of_nat k) ↔
       FieldsInv (lookups (fieldNames n) initial) !! k = Some name).
Proof.
  intros Hn Hclaim.
  assert (reach ("_id" :: fieldNames n) (lookups (fieldNames n) initial))
    as Hreach by apply (reach_lookups ["_id"] _ initial reach_initial).
  destruct (reach_registryOf _ _ Hreach) as [(_ & _ & _ & _ & Hmap) Hinv].
  rewrite distinctInOrder_NoDup in Hinv by apply fieldNames_NoDup.
  destruct n as [|m]; [done|].
  assert (FieldsInv (lookups (fieldNames (S m)) initial) !! S m
          = Some ("f" +:+ pretty m)) as Hk.
  { rewrite Hinv. rewrite lookup_cons. unfold fieldNames.
    rewrite list_lookup_fmap, lookup_seq_lt by lia. done. }
  assert (extId (lookups (fieldNames (S m)) initial) ("f" +:+ pretty m)
          = Some (Z.of_nat 0)) as Hid.
  { unfold extId.
    rewrite (proj2 (Hmap _ _) (ex_intro _ _ (conj Hk eq_refl))). simpl.
    rewrite uint16_pred_succ, Hn. reflexivity. }
  apply Hclaim in Hid. rewrite Hinv in Hid. discriminate Hid.
Qed.

(** C4, as the claim has it, fails once more than 65536 names are
    registered: the name at index 65536 is given field id 0, which "_id"
    holds. *)
Lemma field_ids_wrap :
  reach ("_id" :: manyNames) manyFields ∧
  ¬ (∀ name (k : nat),
       extId manyFields name = Some (Z.of_nat k) ↔
       FieldsInv manyFields !! k = Some name).
Proof.
  split.
  - apply (reach_lookups ["_id"] manyNames initial reach_initial).
  - apply fieldNames_wrap. apply Z2Nat.id. apply Z.pow_nonneg. lia.
Qed.

(** The passes of the build are made of the operations of [reach]. *)
Lemma forEach_reach {A S} (π : S → Segment) (body : A → S → Result S) l :
  (∀ x names t t',
     reach names (π t) → body x t = Ok t' →
     ∃ more, reach (names ++ more) (π t')) →
  ∀ names t t',
    reach names (π t) → forEach body l t = Ok t' →
    ∃ more, reach (names ++ more) (π t').
Proof.
  intros Hstep. induction l as [|x l IH]; intros names t t' Hreach.
  - intros [= <-]. exists []. by rewrite app_nil_r.
  - simpl. intros (t1 & Hx & Hrest)%bind_Ok.
    destruct (Hstep _ _ _ _ Hreach Hx) as [m1 H1].
    destruct (IH _ _ _ H1 Hrest) as [m2 H2].
    exists (m1 ++ m2). by rewrite app_assoc.
Qed.

Section Reach.

Context (sched : Schedule).

Lemma dictField_reach names f a acc acc' :
  reach names (seg acc.1) → dictField sched f a acc = Ok acc' →
  ∃ more, reach (names ++ more) (seg acc'.1).
Proof.
  destruct acc as [st n]. unfold dictField. simpl.
  intros Hreach ([s1 n1] & Hloop & [= <-])%bind_Ok. simpl.
  eapply (forEach_reach fst) in Hloop; [exact Hloop| |exact Hreach].
  intros t names' [s2 n2] [s3 n3] Hr Hop. exists []. rewrite app_nil_r.
  by eapply reach_dictTerm.
Qed.

Lemma dictDocument_reach names r acc acc' :
  reach names (seg acc.1) → dictDocument sched r acc = Ok acc' →
  ∃ more, reach (names ++ more) (seg acc'.1).
Proof.
  unfold dictDocument. intros Hreach (acc1 & Hc & Hr)%bind_Ok.
  eapply (forEach_reach (λ acc, seg acc.1)) in Hc; [| |exact Hreach].
  - destruct Hc as [m1 H1].
    eapply (forEach_reach (λ acc, seg acc.1)) in Hr; [| |exact H1].
    + destruct Hr as [m2 H2]. exists (m1 ++ m2). by rewrite app_assoc.
    + intros [i fld] names' [st n] acc2 Hr' Hop. unfold dictRegular in Hop.
      simpl in Hr'.
      pose proof (reach_getOrDefineField _ _ (Name fld) Hr') as Hr2.
      destruct (getOrDefineField (Name fld) (seg st)) as [fid s1].
      apply bind_Ok in Hop as (tf & _ & Hop).
      apply (dictField_reach (names' ++ [Name fld])) in Hop as [m Hm];
        [|done].
      exists ([Name fld] ++ m). by rewrite app_assoc.
  - intros c names' [st n] acc2 Hr' Hop. unfold dictComposite in Hop.
    simpl in Hr'.
    pose proof (reach_getOrDefineField _ _ (CompositeName c) Hr') as Hr2.
    destruct (getOrDefineField (CompositeName c) (seg st)) as [fid s1].
    simpl in Hop.
    apply (dictField_reach (names' ++ [CompositeName c])) in Hop as [m Hm];
      [|done].
    exists ([CompositeName c] ++ m). by rewrite app_assoc.
Qed.

Lemma initializeDict_reach names results st st' :
  reach names (seg st) → initializeDict sched results st = Ok st' →
  ∃ more, reach (names ++ more) (seg st').
Proof.
  unfold initializeDict.
  intros Hreach ([st1 n] & Hloop & (s2 & Halloc & [= <-])%bind_Ok)%bind_Ok.
  eapply (forEach_reach (λ acc, seg acc.1)) in Hloop; [| |exact Hreach].
  - destruct Hloop as [m Hm]. exists m. simpl. by eapply reach_allocate.
  - intros r names' acc acc'. apply dictDocument_reach.
Qed.

Lemma collate_reach names r docNum a a' :
  reach names (aseg a) → collate r docNum a = Ok a' →
  ∃ more, reach (names ++ more) (aseg a').
Proof.
  intros Hreach [Hrun _]%collate_items.
  eapply (forEach_reach aseg) in Hrun; [exact Hrun| |exact Hreach].
  intros it names' t t' Hr Hop. unfold collateItem in Hop.
  pose proof (reach_getOrDefineField _ _ (iName it) Hr) as Hr2.
  destruct (getOrDefineField (iName it) (aseg t)) as [fid s1].
  apply bind_Ok in Hop as ([c h1] & _ & Hop).
  apply bind_Ok in Hop as (s2 & Hstore & [= <-]). simpl in *.
  exists [iName it].
  destruct (iField it) as [fld|]; [|by injection Hstore as <-].
  assert (reach (names' ++ [iName it]) s2) as Hr3.
  { destruct (IsStored fld); [by eapply reach_storeField|].
    by injection Hstore as <-. }
  destruct (IncludeDocValues fld); [by apply reach_docValues|done].
Qed.

Lemma processDocument_reach names r st st' :
  reach names (seg st) → processDocument sched r st = Ok st' →
  ∃ more, reach (names ++ more) (seg st').
Proof.
  unfold processDocument. intros Hreach Hrun.
  pose proof (reach_addDocument _ _ Hreach) as Hr1.
  destruct (addDocument (seg st)) as [docNum s0].
  apply bind_Ok in Hrun as (a & Hcol & Hrun).
  apply bind_Ok in Hrun as ([s1 n1] & Hwalk & [= <-]).
  apply (collate_reach names) in Hcol as [m1 Hm1]; [|exact Hr1].
  apply walkFields_flat in Hwalk as [Hwalk _].
  eapply (forEach_reach id) in Hwalk; [| |exact Hm1].
  - destruct Hwalk as [m2 Hm2]. exists (m1 ++ m2). by rewrite app_assoc.
  - intros e names' t t' Hr Hop. unfold walkEntry in Hop. eexists.
    eapply reach_walkTerm; [exact Hr|exact Hop].
Qed.

(** A segment that [NewFromAnalyzedDocs] returns is reached. *)
Lemma NewFromAnalyzedDocs_reach footprint results h s h' :
  NewFromAnalyzedDocs sched footprint results h = Ok (s, h') →
  ∃ names, reach names s.
Proof.
  unfold NewFromAnalyzedDocs, assembled.
  intros (st & (st1 & Hinit & Hdocs)%bind_Ok & [= <- <-])%bind_Ok.
  apply (initializeDict_reach ["_id"]) in Hinit as [m1 Hm1];
    [|apply reach_initial].
  eapply (forEach_reach seg) in Hdocs; [| |exact Hm1].
  - destruct Hdocs as [m2 Hm2]. eexists.
    apply reach_updateSizeInBytes, reach_sortDictKeys, Hm2.
  - intros r names' t t'. apply processDocument_reach.
Qed.

End Reach.

(** ** Two runs over one batch *)

Lemma dictTerm_same f t s n s' n' :
  dictTerm f t (s, n) = Ok (s', n') → sameButDicts s s'.
Proof.
  unfold dictTerm. intros (dict & _ & Hop)%bind_Ok.
  destruct (dict !! t); [injection Hop as <- <-; apply sameButDicts_refl|].
  apply bind_Ok in Hop as (dicts & (d0 & _ & ->)%modify_Ok & Hop).
  apply bind_Ok in Hop as (keys & (k0 & _ & ->)%modify_Ok & [= <- <-]).
  unfold sameButDicts. simpl. by rewrite !length_insert.
Qed.

Lemma dictField_same sched f a st n st' n' :
  dictField sched f a (st, n) = Ok (st', n') → sameButDicts (seg st) (seg st').
Proof.
  unfold dictField. intros ([s1 n1] & Hloop & [= <- <-])%bind_Ok. simpl.
  apply (forEach_preserves _ (λ acc, sameButDicts (seg st) acc.1)) in Hloop;
    [done|apply sameButDicts_refl|].
  intros t [s2 n2] [s3 n3] _ H Hop. simpl in *.
  eapply sameButDicts_trans; [done|]. by eapply dictTerm_same.
Qed.

(** The first pass registers the names of the fields in scan order. *)
Lemma dictNamed_FieldsInv sched fields acc acc' :
  registryOK (seg acc.1) →
  forEach (dictNamed sched) fields acc = Ok acc' →
  registryOK (seg acc'.1) ∧
  FieldsInv (seg acc'.1) = foldl addDistinct (FieldsInv (seg acc.1)) fields.*1.
Proof.
  revert acc. induction fields as [|[name a] fields IH]; intros [st n] Hreg.
  - by intros [= <-].
  - simpl. intros ([st1 n1] & Hstep & Hrest)%bind_Ok.
    unfold dictNamed in Hstep. simpl in *.
    pose proof (getOrDefineField_registryOK name _ Hreg) as Hreg1.
    pose proof (getOrDefineField_FieldsInv name _ Hreg) as Hinv1.
    destruct (getOrDefineField name (seg st)) as [fid s1]. simpl in *.
    apply dictField_same in Hstep. simpl in Hstep.
    destruct (IH (st1, n1)) as [Hreg2 Hinv2]; [|done|].
    { by eapply sameButDicts_registryOK. }
    split; [done|]. simpl in *. rewrite Hinv2.
    destruct Hstep as (_ & -> & _). by rewrite Hinv1.
Qed.

Lemma initializeDict_FieldsInv sched results h st :
  initializeDict sched results (start h) = Ok st →
  FieldsInv (seg st) = distinctInOrder ("_id" :: (batchFields results).*1).
Proof.
  unfold initializeDict.
  intros ([st1 n] & Hloop & (s2 & Halloc & [= <-])%bind_Ok)%bind_Ok.
  apply dictDocuments_named, dictNamed_FieldsInv in Hloop as [_ Hinv];
    [|apply registryOK_initial].
  simpl in *. unfold allocate in Halloc.
  destruct (n <=? maxInt); [|done]. injection Halloc as <-. simpl.
  rewrite Hinv. unfold initial.
  by rewrite getOrDefineField_FieldsInv by apply registryOK_New.
Qed.

(** The map of the registry is determined by its inverse list. *)
Lemma registryOK_FieldsMap s1 s2 :
  registryOK s1 → registryOK s2 → FieldsInv s1 = FieldsInv s2 →
  FieldsMap s1 = FieldsMap s2.
Proof.
  intros (_ & _ & _ & _ & H1) (_ & _ & _ & _ & H2) Hinv.
  apply map_eq. intros name. apply option_eq. intros v.
  by rewrite H1, H2, Hinv.
Qed.

Lemma batchPairs_FieldsMap s1 s2 results h :
  FieldsMap s1 = FieldsMap s2 →
  batchPairs s1 results h = batchPairs s2 results h.
Proof.
  intros E. unfold batchPairs, fieldIdOf, extId. by rewrite E.
Qed.

Lemma scanIds_FieldsMap sched s1 s2 results h :
  FieldsMap s1 = FieldsMap s2 →
  scanIds sched s1 results h = scanIds sched s2 results h.
Proof.
  intros E. unfold scanIds, fieldIdOf, extId. by rewrite E.
Qed.

(** C3, as the claim has it, fails: the order in which the terms of a map
    are enumerated decides their ordinals. *)
Lemma ordinals_depend_on_map_order :
  NewFromAnalyzedDocs inOrder noFootprint exBatch exStore = Ok exBuilt ∧
  NewFromAnalyzedDocs reversed noFootprint exBatch exStore
  = Ok exBuiltReversed ∧
  dictLookup exBuilt.1 1 "cat" = Some 1 ∧
  dictLookup exBuiltReversed.1 1 "cat" = Some 2.
Proof. split_and!; vm_compute; reflexivity. Qed.

(** C3, as the code has it.  Two runs over one batch give the same field
    id to "_id" and to the name of every field of the batch, give ordinals
    to the same (field id, term) pairs, and use the same ordinals, one to
    the number of slots; and when both runs enumerate the terms in the same
    order, every pair has the same ordinal in both. *)
Theorem build_determinism sched1 sched2 fp1 fp2 results h s1 h1 s2 h2 :
  NewFromAnalyzedDocs sched1 fp1 results h = Ok (s1, h1) →
  NewFromAnalyzedDocs sched2 fp2 results h = Ok (s2, h2) →
  (∀ name, name ∈ "_id" :: (batchFields results).*1 →
           is_Some (extId s1 name) ∧ extId s1 name = extId s2 name) ∧
  (∀ f t, is_Some (dictLookup s1 f t) ↔ is_Some (dictLookup s2 f t)) ∧
  len (Postings s1) = len (Postings s2) ∧
  (∀ f t v, dictLookup s1 f t = Some v → 1 ≤ v ≤ len (Postings s1)) ∧
  (scan sched1 results h = scan sched2 results h →
   ∀ f t, dictLookup s1 f t = dictLookup s2 f t).
Proof.
  intros (stn1 & Hn1 & -> & _ & Harr1 & _ & HFM1 & _)%NewFromAnalyzedDocs_Ok
         (stn2 & Hn2 & -> & _ & Harr2 & _ & HFM2 & _)%NewFromAnalyzedDocs_Ok.
  destruct (run_inv _ _ _ _ _ (Nat.le_refl _) Hn1)
    as (st1 & Hinit1 & (_ & Hpost1 & _) & Hg1).
  destruct (run_inv _ _ _ _ _ (Nat.le_refl _) Hn2)
    as (st2 & Hinit2 & (_ & Hpost2 & _) & Hg2).
  pose proof (initializeDict_FieldsInv _ _ _ _ Hinit1) as Hinv1.
  pose proof (initializeDict_FieldsInv _ _ _ _ Hinit2) as Hinv2.
  destruct (initializeDict_spec _ _ _ _ Hinit1) as (Hreg1 & Hp1 & Hnames1 & Hsub1 & _).
  destruct (initializeDict_spec _ _ _ _ Hinit2) as (Hreg2 & Hp2 & Hnames2 & Hsub2 & _).
  cbv zeta in *.
  assert (FieldsMap (seg st1) = FieldsMap (seg st2)) as HFM.
  { apply registryOK_FieldsMap; [done..|congruence]. }
  rewrite (scanIds_FieldsMap sched2 _ _ _ _ (eq_sym HFM)) in Hpost2, Hp2.
  set (ord1 := distinctInOrder (scanIds sched1 (seg st1) results h)) in *.
  set (ord2 := distinctInOrder (scanIds sched2 (seg st1) results h)) in *.
  assert (∀ f t, (f, t) ∈ ord1 ↔ (f, t) ∈ ord2) as Hsame.
  { intros f t. subst ord1 ord2.
    by rewrite !elem_of_distinctInOrder, !elem_of_scanIds. }
  assert (len ord1 = len ord2) as Hlen.
  { unfold len. f_equal. subst ord1 ord2. by rewrite !distinct_scanIds_size. }
  split_and!.
  - intros name Hname.
    assert (is_Some (FieldsMap (seg st1) !! name)) as [w Hw].
    { apply elem_of_cons in Hname as [->|Hname]; [|by apply Hnames1].
      assert (is_Some (FieldsMap initial !! "_id")) as [w Hw].
      { unfold initial.
        destruct (getOrDefineField_id "_id" New registryOK_New) as (Hid & _).
        unfold extId in Hid.
        destruct (FieldsMap _ !! "_id"); [eauto|done]. }
      exists w. by eapply lookup_weaken. }
    assert (extId (seg st1) name = Some (uint16 (w - 1))) as E1
      by (unfold extId; by rewrite Hw).
    assert (extId (seg st2) name = Some (uint16 (w - 1))) as E2
      by (unfold extId; by rewrite <- HFM, Hw).
    apply (grows_extId _ _ _ _ Hg1) in E1.
    apply (grows_extId _ _ _ _ Hg2) in E2.
    unfold extId in *. simpl. rewrite E1, E2. split; [eauto|done].
  - intros f t. rewrite !built_dictLookup.
    destruct Hpost1 as (Hd1 & _). destruct Hpost2 as (Hd2 & _).
    rewrite <- (dictOK_in _ _ _ _ Hd1), <- (dictOK_in _ _ _ _ Hd2).
    apply Hsame.
  - destruct Hpost1 as (_ & L1 & _). destruct Hpost2 as (_ & L2 & _).
    simpl. congruence.
  - intros f t v. rewrite built_dictLookup. intros Hv.
    destruct (dictLookup_ordinal _ _ _ _ _ Hpost1 Hv) as (i & _ & _ & _ & Hr).
    destruct Hpost1 as (_ & L1 & _). simpl. lia.
  - intros Hscan f t. rewrite !built_dictLookup.
    assert (ord1 = ord2) as Hord.
    { subst ord1 ord2. unfold scanIds. by rewrite Hscan. }
    destruct Hpost1 as ([_ Hd1] & _). destruct Hpost2 as ([_ Hd2] & _).
    apply option_eq. intros v. by rewrite Hd1, Hd2, Hord.
Qed.

Lemma build_determinism_witness :
  (∀ f t, is_Some (dictLookup exBuilt.1 f t) ↔
          is_Some (dictLookup exBuiltReversed.1 f t)) ∧
  extId exBuilt.1 "body" = extId exBuiltReversed.1 "body" ∧
  len (Postings exBuilt.1) = len (Postings exBuiltReversed.1).
Proof.
  destruct (build_determinism inOrder reversed noFootprint noFootprint
              exBatch exStore exBuilt.1 exBuilt.2
              exBuiltReversed.1 exBuiltReversed.2
              ltac:(vm_compute; reflexivity) ltac:(vm_compute; reflexivity))
    as (H1 & H2 & H3 & _).
  split; [exact H2|]. split; [|exact H3].
  apply H1. vm_compute. right. left.
Defined.

(** ** The ordinals of the walked terms *)

(** C2, as the claim has it, fails when one map is handed to fields of
    different names: merging the second field "a" into the map shared with
    "b" puts a term under "b" that the first pass never saw there. *)
Lemma shared_map_panics :
  CompositeFields (Doc exSharedDoc) = [] ∧ aligned exSharedDoc ∧
  NewFromAnalyzedDocs inOrder noFootprint [exSharedDoc] exSharedStore
  = Panic 185.
Proof.
  split; [reflexivity|]. split; [split; simpl; lia|].
  vm_compute. reflexivity.
Qed.

(** C2, amended: when no token-frequency map is shared between fields of
    different names, the build does not reach the panic of line 185, and
    every (field id, term) entry walked for a document has an ordinal in
    the dictionaries of the first pass; the lookup of line 183, in the
    segment as it is when the entry is reached, finds that ordinal, which
    is not 0 and, less one, is an index of [Postings]. *)
Theorem walked_terms_have_ordinals sched footprint results h :
  ownedByName results →
  NewFromAnalyzedDocs sched footprint results h ≠ Panic 185 ∧
  ∀ k r st a,
    results !! k = Some r →
    assembledUpTo sched results h k = Ok st →
    collate r (addDocument (seg st)).1
      {| aseg := (addDocument (seg st)).2; astore := store st;
         acoll := emptyCollation |} = Ok a →
    ∃ st1,
      initializeDict sched results (start h) = Ok st1 ∧
      ∀ pre f t tf rest u,
        walked sched (astore a) (S (clock st))
          (range sched (clock st) (docMap (acoll a)))
        = pre ++ (f, t, tf) :: rest →
        forEach (walkEntry (addDocument (seg st)).1 (fieldLens (acoll a)))
          pre (aseg a) = Ok u →
        ∃ v, dictLookup (seg st1) f t = Some v ∧
             dictLookup u f t = Some v ∧ v ≠ 0 ∧
             0 ≤ uint64 (v - 1) < len (Postings u).
Proof.
  intros Hown. split.
  { unfold NewFromAnalyzedDocs.
    apply avoids_bind; [by apply assembled_avoids|]. intros; avoid. }
  intros k r st a Hr Hst Hcol.
  destruct (run_ordinals _ _ _ _ _ Hown Hst)
    as (st1 & H1 & Hnames & Hp1 & Hreg & Hpost & HTy & HPo & Hg & Hstore).
  exists st1. split; [done|].
  apply list_elem_of_lookup_2 in Hr.
  pose proof (addDocument_spec (seg st))
    as (HdocNum & Hsame0 & Harr0 & Hdoc0 & _).
  assert (registryOK (addDocument (seg st)).2) as Hreg0
    by (by eapply sameDicts_registryOK).
  assert (grows (seg st1) (addDocument (seg st)).2) as Hg0.
  { eapply grows_trans; [done|]. by apply sameDicts_grows. }
  destruct (collate_spec _ _ _ _ _ _ _ _ Hreg0 Hdoc0 HdocNum
              (eq_trans HdocNum (eq_sym HTy)) (eq_trans HdocNum (eq_sym HPo))
              Hcol) as [Hinv Hal].
  pose proof (collate_storeOK _ _ _ _ _ _ _ _ _ _ Hr Hown Hnames Hg0 Hreg0
                Hdoc0 HdocNum (eq_trans HdocNum (eq_sym HTy))
                (eq_trans HdocNum (eq_sym HPo)) Hstore Hcol) as Hst'.
  pose proof Hinv as (Hreg1 & Hg1 & Harr1 & _).
  assert (postingsOK (distinctInOrder (scanIds sched (seg st1) results h))
            (aseg a)) as Hpost1.
  { eapply postingsOK_frame; [|
      eapply grows_trans; [by apply sameDicts_grows|done]|done].
    congruence. }
  intros pre f t tf rest u Heq Hwalk.
  assert ((f, t, tf) ∈ walked sched (astore a) (S (clock st))
            (range sched (clock st) (docMap (acoll a)))) as Hin.
  { rewrite Heq. apply elem_of_app. right. left. }
  apply elem_of_walked in Hin as (addr & Hf & Ht).
  unfold range in Hf. rewrite (pick_perm sched) in Hf.
  apply elem_of_map_to_list in Hf.
  destruct (collated_known _ _ _ _ _ _ _ _ Hr Hal Hnames Hg0 Hinv Hst'
              f addr t Hf) as [v Hv].
  { apply elem_of_dom. eauto. }
  exists v. split; [done|].
  assert (registryOK u ∧
          postingsOK (distinctInOrder (scanIds sched (seg st1) results h)) u)
    as [_ Hpostu].
  { revert Hwalk.
    apply (forEach_preserves _
      (λ w, registryOK w ∧
            postingsOK (distinctInOrder (scanIds sched (seg st1) results h))
              w)); [done|].
    intros [[f' t'] tf'] w w' _ [Hrw Hpw] Hw. unfold walkEntry in Hw.
    by destruct (walkTerm_spec _ _ _ _ _ _ _ _ Hrw Hpw Hw) as (? & ? & _). }
  assert (dictLookup u f t = Some v) as Hu.
  { apply Hpostu. by apply Hp1. }
  split; [done|].
  destruct (dictLookup_ordinal _ _ _ _ _ Hpostu Hu) as (i & _ & -> & E & Hi).
  assert (len (Postings u)
          = len (distinctInOrder (scanIds sched (seg st1) results h))) as ->
    by apply Hpostu.
  rewrite E. lia.
Qed.

Lemma walked_terms_have_ordinals_witness :
  ownedByName exBatch ∧
  NewFromAnalyzedDocs inOrder noFootprint exBatch exStore ≠ Panic 185.
Proof.
  assert (ownedByName exBatch) as H
    by (apply ownedByNameb_true; vm_compute; reflexivity).
  split; [exact H|].
  apply (walked_terms_have_ordinals inOrder noFootprint exBatch exStore H).
Defined.

(** ** Where the build can panic *)

Lemma within_Ok {A} lines (a : A) : within lines (Ok a).
Proof. done. Qed.

Lemma within_bind {A B} lines (m : Result A) (k : A → Result B) :
  within lines m → (∀ a, m = Ok a → within lines (k a)) →
  within lines (bind m k).
Proof. destruct m as [a|line]; simpl; intros H1 H2; [by apply H2|done]. Qed.

Lemma within_weaken {A} lines lines' (r : Result A) :
  lines ⊆ lines' → within lines r → within lines' r.
Proof. intros Hsub. destruct r; simpl; [done|]. apply Hsub. Qed.

Lemma within_nil {A} (r : Result A) : within [] r ↔ ∃ a, r = Ok a.
Proof.
  destruct r as [a|line]; simpl.
  - split; [eauto|done].
  - split; [by intros ?%elem_of_nil|by intros [? ?]].
Qed.

Lemma within_avoids {A} lines (r : Result A) :
  within lines r → avoids185 r → within (filter (λ l, l ≠ 185%nat) lines) r.
Proof.
  destruct r as [a|line]; simpl; [done|]. intros Hin Hav.
  apply list_elem_of_filter. split; [|done]. intros ->. by apply Hav.
Qed.

Lemma within_index {A} lines line (l : list A) i :
  line ∈ lines ∨ 0 ≤ i < len l → within lines (index line l i).
Proof.
  intros H. destruct (index line l i) as [x|line'] eqn:E; simpl; [done|].
  apply index_Panic in E as [E ->]. destruct H as [H|H]; [done|].
  apply get_is_Some in H. rewrite E in H. by destruct H.
Qed.

Lemma within_modify {A} lines line (l : list A) i f :
  line ∈ lines ∨ 0 ≤ i < len l → within lines (modify line l i f).
Proof.
  intros H. destruct (modify line l i f) as [x|line'] eqn:E; simpl; [done|].
  apply modify_Panic in E as [E ->]. destruct H as [H|H]; [done|].
  apply get_is_Some in H. rewrite E in H. by destruct H.
Qed.

Lemma within_assign {A} lines line (l : list A) i x :
  line ∈ lines ∨ 0 ≤ i < len l → within lines (assign line l i x).
Proof.
  intros H. unfold assign. destruct (inBounds l i) eqn:E; simpl; [done|].
  apply inBounds_false in E. destruct H as [H|H]; [done|]. by destruct E.
Qed.

Lemma forEach_within {A S} lines (body : A → S → Result S) (I : S → Prop)
    l s :
  I s →
  (∀ x t, x ∈ l → I t → within lines (body x t)) →
  (∀ x t t', x ∈ l → I t → body x t = Ok t' → I t') →
  within lines (forEach body l s).
Proof.
  revert s. induction l as [|x l IH]; intros s Hs Hw Hstep; simpl; [done|].
  apply within_bind; [apply Hw; [left|done]|].
  intros t Ht. apply IH.
  - eapply Hstep; [left|done|done].
  - intros ????. apply Hw; [by right|done].
  - intros ??????. eapply Hstep; [by right|done|done].
Qed.

(** A loop that returns keeps what every step keeps. *)
Lemma forEach_returns {A S} (body : A → S → Result S) (I : S → Prop) l s :
  I s →
  (∀ x t, x ∈ l → I t → ∃ t', body x t = Ok t' ∧ I t') →
  ∃ s', forEach body l s = Ok s' ∧ I s'.
Proof.
  revert s. induction l as [|x l IH]; intros s Hs Hstep; simpl; [eauto|].
  destruct (Hstep x s) as (t & -> & Ht); [left|done|]. simpl.
  apply IH; [done|]. intros y u Hy. apply Hstep. by right.
Qed.

Lemma elem_of_enumerateFrom {A} k (l : list A) i x :
  (i, x) ∈ enumerateFrom k l → k ≤ i < k + len l.
Proof.
  revert k. induction l as [|y l IH]; intros k; simpl.
  { by intros ?%elem_of_nil. }
  unfold len. simpl.
  intros [[= -> ->]|Hin%IH]%elem_of_cons; [lia|]. unfold len in Hin. lia.
Qed.

Lemma enumerateFrom_app {A} k (l1 l2 : list A) :
  enumerateFrom k (l1 ++ l2)
  = enumerateFrom k l1 ++ enumerateFrom (k + len l1) l2.
Proof.
  revert k. induction l1 as [|y l1 IH]; intros k; simpl.
  { unfold len. simpl. by rewrite Z.add_0_r. }
  rewrite IH. do 3 f_equal. unfold len. simpl. lia.
Qed.

(** *** The first pass *)

Lemma dictTerm_sameButDicts f t s n s' n' :
  dictTerm f t (s, n) = Ok (s', n') → sameButDicts s s'.
Proof.
  unfold dictTerm. intros (dict & _ & Hrun)%bind_Ok.
  destruct (dict !! t); [injection Hrun as <- <-; apply sameButDicts_refl|].
  apply bind_Ok in Hrun as (dicts & (d & _ & ->)%modify_Ok & Hrun).
  apply bind_Ok in Hrun as (keys & (k & _ & ->)%modify_Ok & [= <- <-]).
  unfold sameButDicts. simpl. rewrite !length_insert. by split_and!.
Qed.

Lemma dictTerm_within lines f t s n :
  0 ≤ f < len (Dicts s) → len (DictKeys s) = len (Dicts s) →
  within lines (dictTerm f t (s, n)).
Proof.
  intros Hf HK. unfold dictTerm.
  apply within_bind; [apply within_index; by right|]. intros dict _.
  destruct (dict !! t); [done|].
  apply within_bind; [apply within_modify; by right|]. intros dicts _.
  apply within_bind; [|done]. apply within_modify. right. simpl. lia.
Qed.

Lemma registryOK_lens s :
  registryOK s → len (DictKeys s) = len (Dicts s).
Proof. intros (H1 & H2 & _). unfold len. by rewrite H1, H2. Qed.

Section FirstPassPanics.

Context (sched : Schedule).

Lemma dictField_sameButDicts f a st n st' n' :
  dictField sched f a (st, n) = Ok (st', n') →
  sameButDicts (seg st) (seg st').
Proof.
  unfold dictField. intros ([s1 n1] & Hloop & [= <- <-])%bind_Ok. simpl.
  revert Hloop.
  apply (forEach_preserves _ (λ acc, sameButDicts (seg st) acc.1));
    [apply sameButDicts_refl|].
  intros t [u m] [u' m'] _ Hu Hstep. simpl in *.
  eapply sameButDicts_trans; [done|]. by eapply dictTerm_sameButDicts.
Qed.

Lemma dictField_within lines f a st n :
  registryOK (seg st) → 0 ≤ f < len (Dicts (seg st)) →
  within lines (dictField sched f a (st, n)).
Proof.
  intros Hreg Hf. unfold dictField.
  apply within_bind; [|by intros [s' n'] _].
  apply (forEach_within _ _ (λ acc, sameButDicts (seg st) acc.1));
    [apply sameButDicts_refl| |].
  - intros t [u m] _ Hu. simpl in Hu.
    pose proof (sameButDicts_registryOK _ _ Hu Hreg) as Hregu.
    apply dictTerm_within; [|by apply registryOK_lens].
    destruct Hu as (_ & _ & HD & _). unfold len. rewrite HD. exact Hf.
  - intros t [u m] [u' m'] _ Hu Hstep. simpl in *.
    eapply sameButDicts_trans; [done|]. by eapply dictTerm_sameButDicts.
Qed.

(** What one field does in the first pass, once its map is at hand. *)
Lemma dictNamed_registryOK e acc acc' :
  registryOK (seg acc.1) → dictNamed sched e acc = Ok acc' →
  registryOK (seg acc'.1).
Proof.
  destruct acc as [st n], acc' as [st' n']. unfold dictNamed. simpl.
  intros Hreg.
  pose proof (getOrDefineField_registryOK e.1 _ Hreg) as Hreg1.
  destruct (getOrDefineField e.1 (seg st)) as [fid s1]. simpl in *.
  intros Hrun%dictField_sameButDicts. simpl in Hrun.
  by eapply sameButDicts_registryOK.
Qed.

Lemma dictNamed_within lines e acc :
  registryOK (seg acc.1) → within lines (dictNamed sched e acc).
Proof.
  destruct acc as [st n]. unfold dictNamed. simpl. intros Hreg.
  pose proof (getOrDefineField_registryOK e.1 _ Hreg) as Hreg1.
  pose proof (getOrDefineField_id e.1 _ Hreg) as (_ & Hr & Hu).
  destruct (getOrDefineField e.1 (seg st)) as [fid s1]. simpl in *.
  apply dictField_within; [done|]. simpl. by rewrite Hu.
Qed.

Lemma dictComposite_is_named c acc :
  dictComposite sched c acc
  = dictNamed sched (CompositeName c, compositeFrequencies c) acc.
Proof.
  destruct acc as [st n]. unfold dictComposite, dictNamed. simpl.
  by destruct (getOrDefineField _ _).
Qed.

Lemma dictRegular_is_named r i fld a acc :
  get (Analyzed r) i = Some a →
  dictRegular sched r (i, fld) acc = dictNamed sched (Name fld, a) acc.
Proof.
  destruct acc as [st n]. unfold dictRegular, dictNamed. simpl. intros Ha.
  destruct (getOrDefineField _ _).
  by rewrite (proj2 (index_Ok 114 _ _ _) Ha).
Qed.

Lemma dictRegular_registryOK r e acc acc' :
  registryOK (seg acc.1) → dictRegular sched r e acc = Ok acc' →
  registryOK (seg acc'.1).
Proof.
  destruct e as [i fld]. intros Hreg Hrun.
  destruct (get (Analyzed r) i) as [a|] eqn:Ha.
  - rewrite (dictRegular_is_named _ _ _ _ _ Ha) in Hrun.
    by eapply dictNamed_registryOK.
  - destruct acc as [st n]. unfold dictRegular in Hrun.
    destruct (getOrDefineField _ _).
    apply bind_Ok in Hrun as (a & Ha'%index_Ok & _). congruence.
Qed.

Lemma dictRegular_within lines r i fld acc :
  registryOK (seg acc.1) →
  114%nat ∈ lines ∨ 0 ≤ i < len (Analyzed r) →
  within lines (dictRegular sched r (i, fld) acc).
Proof.
  intros Hreg H.
  destruct (get (Analyzed r) i) as [a|] eqn:Ha.
  - rewrite (dictRegular_is_named _ _ _ _ _ Ha). by apply dictNamed_within.
  - destruct acc as [st n]. unfold dictRegular.
    destruct (getOrDefineField _ _).
    apply within_bind; [by apply within_index|].
    intros a Ha'%index_Ok. congruence.
Qed.

Lemma dictDocument_registryOK r acc acc' :
  registryOK (seg acc.1) → dictDocument sched r acc = Ok acc' →
  registryOK (seg acc'.1).
Proof.
  intros Hreg (acc1 & H1 & H2)%bind_Ok.
  revert H2. apply (forEach_preserves _ (λ acc, registryOK (seg acc.1))).
  - revert H1. apply (forEach_preserves _ (λ acc, registryOK (seg acc.1)));
      [done|].
    intros c t t' _ Ht. rewrite dictComposite_is_named.
    by apply dictNamed_registryOK.
  - intros e t t' _. apply dictRegular_registryOK.
Qed.

Lemma dictDocument_within lines r acc :
  registryOK (seg acc.1) →
  114%nat ∈ lines ∨ hasAnalyzed r →
  within lines (dictDocument sched r acc).
Proof.
  intros Hreg H. unfold dictDocument. apply within_bind.
  - apply (forEach_within _ _ (λ acc, registryOK (seg acc.1))); [done| |].
    + intros c t _ Ht. rewrite dictComposite_is_named.
      by apply dictNamed_within.
    + intros c t t' _ Ht. rewrite dictComposite_is_named.
      by apply dictNamed_registryOK.
  - intros acc1 H1.
    assert (registryOK (seg acc1.1)) as Hreg1.
    { revert H1.
      apply (forEach_preserves _ (λ acc, registryOK (seg acc.1))); [done|].
      intros c t t' _ Ht. rewrite dictComposite_is_named.
      by apply dictNamed_registryOK. }
    apply (forEach_within _ _ (λ acc, registryOK (seg acc.1))); [done| |].
    + intros [i fld] t Hin Ht. apply dictRegular_within; [done|].
      destruct H as [H|H]; [by left|right].
      apply elem_of_enumerateFrom in Hin. unfold hasAnalyzed in H.
      unfold len in *. lia.
    + intros e t t' _. apply dictRegular_registryOK.
Qed.

End FirstPassPanics.

Lemma length_foldl_addDistinct {A} `{EqDecision A} (acc l : list A) :
  (length (foldl addDistinct acc l) ≤ length acc + length l)%nat.
Proof.
  revert acc. induction l as [|x l IH]; intros acc; simpl; [lia|].
  etrans; [apply IH|]. unfold addDistinct. case_decide; [lia|].
  rewrite length_app. simpl. lia.
Qed.

Lemma length_distinctInOrder {A} `{EqDecision A} (l : list A) :
  (length (distinctInOrder l) ≤ length l)%nat.
Proof. apply (length_foldl_addDistinct [] l). Qed.

Lemma length_scanFrom sched h n fields :
  length (scanFrom sched h n fields)
  = sum_list ((λ e, size (deref h e.2)) <$> fields).
Proof.
  revert n. induction fields as [|[name a] fields IH]; intros n; simpl; [done|].
  rewrite length_app, length_fmap, IH. f_equal. unfold range.
  by rewrite (pick_perm sched), length_map_to_list.
Qed.

Section FirstPassReturns.

Context (sched : Schedule).

(** The first pass panics only where it reads [Analyzed] (line 114) and
    where it makes the arrays (line 119). *)
Lemma initializeDict_within lines results h :
  114%nat ∈ lines ∨ Forall hasAnalyzed results →
  119%nat ∈ lines ∨ Z.of_nat (termCount results h) ≤ maxInt →
  within lines (initializeDict sched results (start h)).
Proof.
  intros H114 H119. unfold initializeDict. apply within_bind.
  { apply (forEach_within _ _ (λ acc, registryOK (seg acc.1)));
      [apply registryOK_initial| |].
    - intros r t Hr Ht. apply dictDocument_within; [done|].
      destruct H114 as [H|H]; [by left|right].
      by apply (proj1 (Forall_forall _ _) H).
    - intros r t t' _. apply dictDocument_registryOK. }
  intros [st n] Hloop.
  apply (dictDocuments_inv sched (start h)) in Hloop
    as (_ & _ & _ & _ & Hn & _); [|apply registryOK_initial|
                                   apply dictLookup_initial].
  simpl in Hn. apply within_bind; [|done].
  unfold allocate. destruct (n <=? maxInt) eqn:E; [done|]. simpl.
  apply Z.leb_gt in E. destruct H119 as [H|H]; [done|]. exfalso.
  rewrite Hn in E. unfold len in E.
  pose proof (length_distinctInOrder
    ((λ e : string * string, (fieldIdOf (seg st) e.1, e.2))
       <$> scanFrom sched h 0 (batchFields results))) as Hle.
  rewrite length_fmap, length_scanFrom in Hle. unfold termCount in H. lia.
Qed.

End FirstPassReturns.

(** *** The second pass *)

Lemma storeField_within lines docNum f typ val pos s :
  0 ≤ docNum < len (Stored s) → 0 ≤ docNum < len (StoredTypes s) →
  0 ≤ docNum < len (StoredPos s) →
  within lines (storeField docNum f typ val pos s).
Proof.
  intros H1 H2 H3. unfold storeField.
  apply within_bind; [apply within_modify; by right|]. intros ? _.
  apply within_bind; [apply within_modify; by right|]. intros ? _.
  apply within_bind; [apply within_modify; by right|]. done.
Qed.

Lemma storeField_keeps docNum f typ val pos s s' :
  storeField docNum f typ val pos s = Ok s' →
  sameDicts s s' ∧ len (Stored s') = len (Stored s) ∧
  len (StoredTypes s') = len (StoredTypes s) ∧
  len (StoredPos s') = len (StoredPos s) ∧
  arrays s' = arrays s ∧ DocValueFields s' = DocValueFields s.
Proof.
  unfold storeField.
  intros (l1 & (x1 & _ & ->)%modify_Ok & Hrun)%bind_Ok.
  apply bind_Ok in Hrun as (l2 & (x2 & _ & ->)%modify_Ok & Hrun).
  apply bind_Ok in Hrun as (l3 & (x3 & _ & ->)%modify_Ok & [= <-]).
  simpl. rewrite !len_insert. by split_and!.
Qed.

(** The merge of line 146 panics only into a nil map. *)
Lemma processField_within lines f name l tf c h :
  146%nat ∈ lines ∨ (∀ e, docMap c !! f = Some e → is_Some (h !! e)) →
  within lines (processField f name l tf (c, h)).
Proof.
  intros H. unfold processField.
  destruct (docMap c !! f) as [e|] eqn:E; [|done].
  apply within_bind; [|done]. unfold mergeInto.
  destruct (h !! e) eqn:Eh; [done|]. case_decide; [done|]. simpl.
  destruct H as [H|H]; [done|]. destruct (H e eq_refl) as [? ?]. congruence.
Qed.

(** A merge makes no map nil and none non-nil, and the maps collated are
    those collated before and the map of the field. *)
Lemma processField_dom f name l tf c h c' h' :
  processField f name l tf (c, h) = Ok (c', h') →
  (∀ x, is_Some (h' !! x) ↔ is_Some (h !! x)) ∧
  ∀ g e, docMap c' !! g = Some e → docMap c !! g = Some e ∨ e = tf.
Proof.
  intros [-> Hh]%processField_Ok. simpl.
  destruct (docMap c !! f) as [ex|] eqn:E.
  - apply mergeInto_deref in Hh as [Hdom _]. split; [done|]. by left.
  - subst h'. split; [done|]. intros g e.
    destruct (decide (g = f)) as [->|Hne].
    + rewrite lookup_insert_eq. intros [= <-]. by right.
    + rewrite lookup_insert_ne by done. by left.
Qed.

Lemma collateItem_held fields docNum it a a' :
  held fields a → (iName it, iFreqs it) ∈ fields →
  collateItem docNum it a = Ok a' → held fields a'.
Proof.
  intros [H1 H2] Hin Hrun.
  apply collateItem_store, processField_dom in Hrun as [Hdom Hmap]. split.
  - intros name e He. apply Hdom. eauto.
  - intros g e [He| ->]%Hmap; apply Hdom; eauto.
Qed.

Lemma collateItem_collating docNum it a a' :
  collating docNum a → collateItem docNum it a = Ok a' → collating docNum a'.
Proof.
  intros (Hreg & H1 & H2 & H3). unfold collateItem.
  pose proof (getOrDefineField_registryOK (iName it) _ Hreg) as Hreg1.
  pose proof (getOrDefineField_frame (iName it) (aseg a)) as (_ & Hdoc & _).
  destruct (getOrDefineField (iName it) (aseg a)) as [fid s1]. simpl in *.
  injection Hdoc as E1 E2 E3.
  intros ([c h] & _ & Hrest)%bind_Ok.
  apply bind_Ok in Hrest as (s2 & Hs2 & [= <-]).
  assert (sameDicts s1 s2 ∧ len (Stored s2) = len (Stored s1) ∧
          len (StoredTypes s2) = len (StoredTypes s1) ∧
          len (StoredPos s2) = len (StoredPos s1)) as (Hsame & L1 & L2 & L3).
  { destruct (iField it) as [fld|]; [|injection Hs2 as <-; by split_and!].
    destruct (IsStored fld); [|injection Hs2 as <-; by split_and!].
    apply storeField_keeps in Hs2 as (? & ? & ? & ? & _). by split_and!. }
  assert (registryOK s2) as Hreg2 by (by eapply sameDicts_registryOK).
  unfold collating. simpl.
  assert (∀ s3, (s3 = s2 ∨ ∃ f, s3 = set_DocValueFields
                                        (<[f := true]> (DocValueFields s2)) s2) →
                registryOK s3 ∧ 0 ≤ docNum < len (Stored s3) ∧
                0 ≤ docNum < len (StoredTypes s3) ∧
                0 ≤ docNum < len (StoredPos s3)) as Hany.
  { intros s3 [->|[f ->]]; (split; [exact Hreg2|]); simpl;
      rewrite ?L1, ?L2, ?L3, ?E1, ?E2, ?E3; lia. }
  apply Hany. destruct (iField it) as [fld|]; [|by left].
  destruct (IncludeDocValues fld); [right; eauto|by left].
Qed.

Lemma collateItem_within lines fields docNum it a :
  collating docNum a → 146%nat ∈ lines ∨ held fields a →
  within lines (collateItem docNum it a).
Proof.
  intros (Hreg & H1 & H2 & H3) H146. unfold collateItem.
  pose proof (getOrDefineField_frame (iName it) (aseg a)) as (_ & Hdoc & _).
  destruct (getOrDefineField (iName it) (aseg a)) as [fid s1]. simpl in *.
  injection Hdoc as E1 E2 E3.
  apply within_bind.
  { apply processField_within. destruct H146 as [?|[_ H]]; [by left|right].
    intros e. apply H. }
  intros [c h] _.
  apply within_bind; [|done].
  destruct (iField it) as [fld|]; [|done].
  destruct (IsStored fld); [|done].
  apply storeField_within; by rewrite ?E1, ?E2, ?E3.
Qed.

Lemma collateRegular_is_item r docNum i fld l tf a :
  get (Length r) i = Some l → get (Analyzed r) i = Some tf →
  collateRegular r docNum (i, fld) a
  = collateItem docNum {| iName := Name fld; iLength := l; iFreqs := tf;
                          iField := Some fld |} a.
Proof.
  intros Hl Htf. unfold collateRegular, collateItem. simpl.
  destruct (getOrDefineField _ _).
  by rewrite (proj2 (index_Ok 168 _ _ _) Hl), (proj2 (index_Ok 169 _ _ _) Htf).
Qed.

Lemma collateRegular_collating r docNum e a a' :
  collating docNum a → collateRegular r docNum e a = Ok a' →
  collating docNum a'.
Proof.
  destruct e as [i fld]. intros Hc Hrun.
  destruct (get (Length r) i) as [l|] eqn:Hl;
    [destruct (get (Analyzed r) i) as [tf|] eqn:Htf|].
  - rewrite (collateRegular_is_item _ _ _ _ _ _ _ Hl Htf) in Hrun.
    by eapply collateItem_collating.
  - unfold collateRegular in Hrun. destruct (getOrDefineField _ _).
    apply bind_Ok in Hrun as (? & _ & Hrun).
    apply bind_Ok in Hrun as (? & ?%index_Ok & _). congruence.
  - unfold collateRegular in Hrun. destruct (getOrDefineField _ _).
    apply bind_Ok in Hrun as (? & ?%index_Ok & _). congruence.
Qed.

Lemma collateRegular_held fields r docNum i fld a a' :
  held fields a →
  (∀ tf, get (Analyzed r) i = Some tf → (Name fld, tf) ∈ fields) →
  collateRegular r docNum (i, fld) a = Ok a' → held fields a'.
Proof.
  intros Hh Hin Hrun.
  destruct (get (Length r) i) as [l|] eqn:Hl;
    [destruct (get (Analyzed r) i) as [tf|] eqn:Htf|].
  - rewrite (collateRegular_is_item _ _ _ _ _ _ _ Hl Htf) in Hrun.
    eapply collateItem_held; [exact Hh| |exact Hrun]. simpl. by apply Hin.
  - unfold collateRegular in Hrun. destruct (getOrDefineField _ _).
    apply bind_Ok in Hrun as (? & _ & Hrun).
    apply bind_Ok in Hrun as (? & ?%index_Ok & _). congruence.
  - unfold collateRegular in Hrun. destruct (getOrDefineField _ _).
    apply bind_Ok in Hrun as (? & ?%index_Ok & _). congruence.
Qed.

Lemma collateRegular_within lines fields r docNum i fld a :
  collating docNum a →
  146%nat ∈ lines ∨ held fields a →
  168%nat ∈ lines ∨ 0 ≤ i < len (Length r) →
  169%nat ∈ lines ∨ 0 ≤ i < len (Analyzed r) →
  within lines (collateRegular r docNum (i, fld) a).
Proof.
  intros Hc H146 H168 H169.
  destruct (get (Length r) i) as [l|] eqn:Hl;
    [destruct (get (Analyzed r) i) as [tf|] eqn:Htf|].
  - rewrite (collateRegular_is_item _ _ _ _ _ _ _ Hl Htf).
    by apply (collateItem_within _ fields).
  - unfold collateRegular. destruct (getOrDefineField _ _).
    apply within_bind; [by apply within_index|]. intros ? _.
    apply within_bind; [by apply within_index|].
    intros ? ?%index_Ok. congruence.
  - unfold collateRegular. destruct (getOrDefineField _ _).
    apply within_bind; [by apply within_index|].
    intros ? ?%index_Ok. congruence.
Qed.

Lemma enumerateFrom_lookup {A} k (l : list A) i x :
  (i, x) ∈ enumerateFrom k l → l !! Z.to_nat (i - k) = Some x.
Proof.
  revert k. induction l as [|y l IH]; intros k; simpl.
  { by intros ?%elem_of_nil. }
  intros [[= -> ->]|Hin]%elem_of_cons.
  - by rewrite Z.sub_diag.
  - pose proof (elem_of_enumerateFrom _ _ _ _ Hin) as Hi.
    apply IH in Hin.
    replace (Z.to_nat (i - k)) with (S (Z.to_nat (i - (k + 1)))) by lia.
    done.
Qed.

(** The regular field number [i] of a document with its map is among the
    fields of the document. *)
Lemma regular_fieldsOf r i fld tf :
  (i, fld) ∈ enumerate (Fields (Doc r)) → get (Analyzed r) i = Some tf →
  (Name fld, tf) ∈ fieldsOf r.
Proof.
  intros Hin%enumerateFrom_lookup [_ Htf]%get_Some.
  rewrite Z.sub_0_r in Hin. unfold fieldsOf. apply elem_of_app. right.
  apply (list_elem_of_lookup_2 _ (Z.to_nat i)).
  apply lookup_zip_with_Some. exists (Name fld), tf.
  split_and!; [done| |done]. by rewrite list_lookup_fmap, Hin.
Qed.

Lemma collate_within lines r docNum a :
  collating docNum a →
  146%nat ∈ lines ∨ held (fieldsOf r) a →
  168%nat ∈ lines ∨ hasLengths r →
  169%nat ∈ lines ∨ hasAnalyzed r →
  within lines (collate r docNum a).
Proof.
  intros Hc H146 H168 H169. unfold collate.
  set (I := λ t, collating docNum t ∧
                 (146%nat ∈ lines ∨ held (fieldsOf r) t)).
  assert (∀ c t t', c ∈ CompositeFields (Doc r) → I t →
                    collateComposite c t = Ok t' → I t') as Hkeep.
  { intros c t t' Hin [Ht Hh]. rewrite (collateComposite_item docNum).
    intros Hrun. split; [by eapply collateItem_collating|].
    destruct Hh as [?|Hh]; [by left|right].
    eapply collateItem_held; [exact Hh| |exact Hrun]. simpl.
    unfold fieldsOf. apply elem_of_app. left.
    apply list_elem_of_fmap. by exists c. }
  apply within_bind.
  - apply (forEach_within _ _ I); [done| |].
    + intros c t _ [Ht Hh]. rewrite (collateComposite_item docNum).
      by apply (collateItem_within _ (fieldsOf r)).
    + exact Hkeep.
  - intros a1 H1.
    assert (I a1) as Hc1.
    { revert H1. by apply (forEach_preserves _ I). }
    apply (forEach_within _ _ I); [done| |].
    + intros [i fld] t Hin [Ht Hh]. apply elem_of_enumerateFrom in Hin.
      unfold hasLengths, hasAnalyzed, len in *.
      apply (collateRegular_within _ (fieldsOf r)); [done|done| |].
      * destruct H168 as [?|?]; [by left|right]. unfold len. lia.
      * destruct H169 as [?|?]; [by left|right]. unfold len. lia.
    + intros [i fld] t t' Hin [Ht Hh] Hrun.
      split; [by eapply collateRegular_collating|].
      destruct Hh as [?|Hh]; [by left|right].
      eapply collateRegular_held; [exact Hh| |exact Hrun].
      intros tf. by apply regular_fieldsOf.
Qed.

(** The collation makes no map nil and none non-nil. *)
Lemma collate_dom r docNum a a' :
  collate r docNum a = Ok a' →
  ∀ x, is_Some (astore a' !! x) ↔ is_Some (astore a !! x).
Proof.
  intros [Hrun _]%collate_items. revert Hrun.
  apply (forEach_preserves _
    (λ t, ∀ x, is_Some (astore t !! x) ↔ is_Some (astore a !! x))); [done|].
  intros it t t' _ Ht Hstep x.
  apply collateItem_store, processField_dom in Hstep as [Hdom _].
  by rewrite Hdom.
Qed.

Lemma walkLocation_within lines ord pid fieldID loc s :
  postingsOK ord s → 0 ≤ pid < len ord →
  within lines (walkLocation pid fieldID loc s).
Proof.
  intros Hpost Hpid. unfold walkLocation.
  set (r := if decide (Field loc = EmptyString) then (fieldID, s)
            else let '(f, s0) := getOrDefineField (Field loc) s in
                 (uint16 f, s0)).
  assert (arrays r.2 = arrays s) as Harr.
  { subst r. destruct (decide _); [done|].
    pose proof (getOrDefineField_frame (Field loc) s) as (H & _).
    by destruct (getOrDefineField _ _). }
  destruct r as [locf s1]. simpl in Harr. unfold arrays in Harr.
  destruct Hpost as (_ & _ & _ & _ & _ & _ & L5 & L6 & L7 & L8 & L9).
  injection Harr as _ _ _ _ E5 E6 E7 E8 E9.
  apply within_bind; [apply within_modify; right; by rewrite E5, L5|].
  intros ? _. simpl.
  apply within_bind; [apply within_modify; right; by rewrite E6, L6|].
  intros ? _. simpl.
  apply within_bind; [apply within_modify; right; by rewrite E7, L7|].
  intros ? _. simpl.
  apply within_bind; [apply within_modify; right; by rewrite E8, L8|].
  intros ? _. simpl.
  destruct (0 <? _);
    (apply within_bind; [apply within_modify; right; by rewrite E9, L9|done]).
Qed.

(** Filing a term panics at line 185 or not at all. *)
Lemma walkTerm_within lines ord docNum lens fieldID term tf s :
  registryOK s → postingsOK ord s → 0 ≤ fieldID < len (Dicts s) →
  185%nat ∈ lines ∨ is_Some (dictLookup s fieldID term) →
  within lines (walkTerm docNum lens fieldID (term, tf) s).
Proof.
  intros Hreg Hpost Hf H185. unfold walkTerm.
  apply within_bind; [apply within_index; by right|].
  intros dict Hdict%index_Ok.
  pose proof Hpost as (Hd & L1 & L0 & L2 & L3 & L4 & L5 & L6 & L7 & L8 & L9).
  apply within_bind.
  { apply within_index. destruct H185 as [?|[v Hv]]; [by left|right].
    destruct (dictLookup_ordinal _ _ _ _ _ Hpost Hv) as (i & _ & Hi & Hu & Hr).
    unfold dictLookup in Hv. rewrite Hdict in Hv. simpl in Hv.
    rewrite Hv. simpl. rewrite L1. lia. }
  intros bs Hbs%index_Ok.
  assert (0 ≤ uint64 (default 0 (dict !! term) - 1) < len ord) as Hpid.
  { rewrite <- L1. apply get_is_Some. eauto. }
  set (pid := uint64 (default 0 (dict !! term) - 1)) in *.
  apply within_bind; [apply within_assign; right; by rewrite L1|].
  intros ps [_ ->]%assign_Ok. simpl.
  apply within_bind; [apply within_modify; right; by rewrite L3|].
  intros fs (x1 & _ & ->)%modify_Ok. simpl.
  apply within_bind; [apply within_modify; right; by rewrite L4|].
  intros ns (x2 & _ & ->)%modify_Ok. simpl.
  apply within_bind; [apply within_index; right; by rewrite L2|].
  intros lbs _.
  destruct (0 <? len (Locations tf)); [|done].
  apply within_bind; [apply within_assign; right; simpl; by rewrite L2|].
  intros pl [_ ->]%assign_Ok.
  match goal with |- within _ (forEach _ _ ?u) => set (s4 := u) end.
  assert (registryOK s4) as Hreg4 by exact Hreg.
  assert (postingsOK ord s4) as Hpost4.
  { unfold postingsOK. subst s4. simpl. rewrite !len_insert. by split_and!. }
  apply (forEach_within _ _ (λ t, registryOK t ∧ postingsOK ord t)); [done| |].
  - intros loc t _ [_ Ht]. by eapply walkLocation_within.
  - intros loc t t' _ [Hrt Hpt] Hstep.
    destruct (proj2 (slot_is_Some _ _ pid Hpt) Hpid) as [sl Hsl].
    by destruct (walkLocation_spec _ _ _ _ _ _ _ Hrt Hpt Hsl Hstep)
      as (? & ? & _).
Qed.

Lemma registered_in_range s name :
  registryOK s → is_Some (FieldsMap s !! name) →
  0 ≤ fieldIdOf s name < len (Dicts s).
Proof.
  intros Hreg [v Hv].
  pose proof (getOrDefineField_id name s Hreg) as (Hext & Hr & _).
  rewrite (getOrDefineField_known _ _ _ Hv) in Hext, Hr. simpl in *.
  unfold fieldIdOf. by rewrite Hext.
Qed.

Section SecondPassPanics.

Context (sched : Schedule).

Lemma walkTerms_keep ord docNum lens f entries s s' :
  registryOK s → postingsOK ord s →
  forEach (walkTerm docNum lens f) entries s = Ok s' →
  registryOK s' ∧ postingsOK ord s' ∧ grows s s'.
Proof.
  intros Hreg Hpost.
  apply (forEach_preserves _
    (λ t, registryOK t ∧ postingsOK ord t ∧ grows s t));
    [split_and!; [done|done|apply grows_refl]|].
  intros [t tf] u u' _ (Hru & Hpu & Hgu) Hstep.
  destruct (walkTerm_spec _ _ _ _ _ _ _ _ Hru Hpu Hstep) as (? & ? & ? & _).
  split_and!; [done|done|by eapply grows_trans].
Qed.

Lemma walkFields_within lines ord docNum lens h fields s n :
  registryOK s → postingsOK ord s →
  (∀ f a, (f, a) ∈ fields → 0 ≤ f < len (Dicts s)) →
  185%nat ∈ lines →
  within lines (forEach (walkField sched docNum lens h) fields (s, n)).
Proof.
  intros Hreg Hpost Hf H185.
  apply (forEach_within _ _
    (λ acc, registryOK acc.1 ∧ postingsOK ord acc.1 ∧ grows s acc.1));
    [split_and!; [done|done|apply grows_refl]| |].
  - intros [f a] [u m] Hin (Hru & Hpu & Hgu). simpl in *. unfold walkField.
    apply within_bind; [|by intros].
    apply (forEach_within _ _
      (λ t, registryOK t ∧ postingsOK ord t ∧ grows u t));
      [split_and!; [done|done|apply grows_refl]| |].
    + intros [t tf] w _ (Hrw & Hpw & Hgw).
      apply (walkTerm_within _ ord); [done|done| |by left].
      pose proof (Hf _ _ Hin).
      pose proof (grows_len_Dicts _ _ Hgu). pose proof (grows_len_Dicts _ _ Hgw).
      lia.
    + intros [t tf] w w' _ (Hrw & Hpw & Hgw) Hstep.
      destruct (walkTerm_spec _ _ _ _ _ _ _ _ Hrw Hpw Hstep)
        as (? & ? & ? & _).
      split_and!; [done|done|by eapply grows_trans].
  - intros [f a] [u m] [u' m'] _ (Hru & Hpu & Hgu) Hstep. simpl in *.
    unfold walkField in Hstep.
    apply bind_Ok in Hstep as (w & Hw & [= <- <-]).
    destruct (walkTerms_keep _ _ _ _ _ _ _ Hru Hpu Hw) as (? & ? & ?).
    split_and!; [done|done|by eapply grows_trans].
Qed.

(** One document: the panics of the collation and that of line 185. *)
Lemma processDocument_within lines ord r st :
  registryOK (seg st) → postingsOK ord (seg st) →
  len (StoredTypes (seg st)) = len (Stored (seg st)) →
  len (StoredPos (seg st)) = len (Stored (seg st)) →
  185%nat ∈ lines →
  146%nat ∈ lines ∨
    (∀ name e, (name, e) ∈ fieldsOf r → is_Some (store st !! e)) →
  168%nat ∈ lines ∨ hasLengths r →
  169%nat ∈ lines ∨ hasAnalyzed r →
  within lines (processDocument sched r st).
Proof.
  intros Hreg Hpost HTy HPo H185 H146 H168 H169.
  pose proof (addDocument_spec (seg st))
    as (HdocNum & Hsame0 & Harr0 & Hdoc0 & _).
  assert (registryOK (addDocument (seg st)).2) as Hreg0
    by (by eapply sameDicts_registryOK).
  unfold processDocument.
  destruct (addDocument (seg st)) as [docNum s0]. simpl in *. subst docNum.
  apply within_bind.
  { apply collate_within; [| |done|done].
    - unfold collating. simpl. injection Hdoc0 as -> -> ->.
      rewrite !len_app. unfold len in *. simpl.
      split; [done|]. lia.
    - destruct H146 as [?|H]; [by left|right]. split; [exact H|].
      simpl. intros f e. by rewrite lookup_empty. }
  intros a Hcol. apply within_bind; [|by intros [s n] _].
  destruct (collate_spec _ _ _ _ _ _ _ _ Hreg0 Hdoc0 eq_refl
              (eq_sym HTy) (eq_sym HPo) Hcol) as [Hinv Hal].
  pose proof Hinv as (Hreg1 & Hg1 & Harr1 & Hnames & _ & _ & Hmap & _).
  apply (walkFields_within _ ord); [done| | |done].
  - apply (postingsOK_frame ord (seg st)); [congruence| |done].
    eapply grows_trans; [by apply sameDicts_grows|done].
  - intros f addr Hin. unfold range in Hin. rewrite (pick_perm sched) in Hin.
    apply elem_of_map_to_list in Hin.
    destruct (Hmap _ _ Hin) as (name & (it & [= -> _] & Hit)%list_elem_of_fmap
                                 & <-).
    apply registered_in_range; [done|]. by apply Hnames.
Qed.

Lemma processDocument_dom r st st' :
  processDocument sched r st = Ok st' →
  ∀ x, is_Some (store st' !! x) ↔ is_Some (store st !! x).
Proof.
  unfold processDocument. destruct (addDocument (seg st)) as [docNum s0].
  intros (a & Hcol & Hrest)%bind_Ok.
  apply bind_Ok in Hrest as ([s n] & _ & [= <-]).
  exact (collate_dom _ _ _ _ Hcol).
Qed.

Lemma processDocument_keeps ord r st st' :
  registryOK (seg st) → postingsOK ord (seg st) →
  len (StoredTypes (seg st)) = len (Stored (seg st)) →
  len (StoredPos (seg st)) = len (Stored (seg st)) →
  processDocument sched r st = Ok st' →
  registryOK (seg st') ∧ postingsOK ord (seg st') ∧
  len (StoredTypes (seg st')) = len (Stored (seg st')) ∧
  len (StoredPos (seg st')) = len (Stored (seg st')) ∧ aligned r.
Proof.
  intros Hreg Hpost HTy HPo Hrun.
  destruct (processDocument_spec sched ord _ _ _ Hreg Hpost HTy HPo Hrun)
    as (a & _ & Hinv & Hal & _ & Hreg' & Hpost' & _ & _ & Hdoc' & _).
  destruct Hinv as (_ & _ & _ & _ & _ & _ & _ & m1 & m2 & m3 & Hdoc & _).
  rewrite <- Hdoc' in Hdoc. injection Hdoc as E1 E2 E3.
  rewrite E1, E2, E3, !len_app. split_and!; try done.
  - unfold len in *. simpl. lia.
  - unfold len in *. simpl. lia.
Qed.

Lemma dictRegular_aligned r k fields acc acc' :
  forEach (dictRegular sched r) (enumerateFrom (Z.of_nat k) fields) acc
  = Ok acc' →
  fields = [] ∨ (k + length fields ≤ length (Analyzed r))%nat.
Proof.
  revert k acc. induction fields as [|fld fields IH]; intros k acc; [by left|].
  simpl. intros (acc1 & Hstep & Hrest)%bind_Ok. right.
  destruct acc as [st n]. unfold dictRegular in Hstep.
  destruct (getOrDefineField _ _).
  apply bind_Ok in Hstep as (tf & Htf%index_Ok & _).
  rewrite get_of_nat in Htf. apply lookup_lt_Some in Htf.
  replace (Z.of_nat k + 1) with (Z.of_nat (S k)) in Hrest by lia.
  destruct (IH _ _ Hrest) as [->|?]; simpl; lia.
Qed.

(** A first pass that returns has read an entry of [Analyzed] for every
    regular field. *)
Lemma initializeDict_hasAnalyzed results st st' :
  initializeDict sched results st = Ok st' → Forall hasAnalyzed results.
Proof.
  unfold initializeDict. intros (acc & Hloop & _)%bind_Ok.
  revert Hloop. generalize (st, 0). clear st.
  induction results as [|r results IH]; intros acc0; [by constructor|].
  simpl. intros (acc1 & Hdoc & Hrest)%bind_Ok. constructor; [|by eapply IH].
  unfold dictDocument in Hdoc. apply bind_Ok in Hdoc as (acc2 & _ & Hreg).
  apply (dictRegular_aligned r 0) in Hreg. unfold hasAnalyzed.
  destruct Hreg as [->|?]; simpl in *; lia.
Qed.

(** The two passes panic only at lines 114, 119, 146, 168 and 185; each
    of these lines has its own cause. *)
Lemma assembled_within lines results h :
  185%nat ∈ lines →
  114%nat ∈ lines ∨ Forall hasAnalyzed results →
  119%nat ∈ lines ∨ Z.of_nat (termCount results h) ≤ maxInt →
  146%nat ∈ lines ∨ noNilMaps results h →
  168%nat ∈ lines ∨ Forall hasLengths results →
  within lines (assembled sched results h).
Proof.
  intros H185 H114 H119 H146 H168. unfold assembled. apply within_bind.
  { by apply initializeDict_within. }
  intros st1 H1.
  pose proof (initializeDict_hasAnalyzed _ _ _ H1) as Han.
  destruct (initializeDict_spec _ _ _ _ H1)
    as (Hreg & Hpost & _ & _ & _ & Hdoc & _ & Hst1 & _).
  injection Hdoc as E1 E2 E3.
  set (ord := distinctInOrder (scanIds sched (seg st1) results h)) in *.
  apply (forEach_within _ _
    (λ st, registryOK (seg st) ∧ postingsOK ord (seg st) ∧
           len (StoredTypes (seg st)) = len (Stored (seg st)) ∧
           len (StoredPos (seg st)) = len (Stored (seg st)) ∧
           ∀ x, is_Some (store st !! x) ↔ is_Some (h !! x))).
  - rewrite E1, E2, E3. split_and!; try done. intros x. by rewrite Hst1.
  - intros r t Hr (Hrt & Hpt & T1 & T2 & Hdom).
    apply (processDocument_within _ ord); try done.
    + destruct H146 as [?|H]; [by left|right].
      intros name e He. apply Hdom, (H name).
      unfold batchFields. apply list_elem_of_bind. eauto.
    + destruct H168 as [?|H]; [by left|right].
      by apply (proj1 (Forall_forall _ _) H).
    + right. by apply (proj1 (Forall_forall _ _) Han).
  - intros r t t' _ (Hrt & Hpt & T1 & T2 & Hdom) Hstep.
    destruct (processDocument_keeps _ _ _ _ Hrt Hpt T1 T2 Hstep)
      as (? & ? & ? & ? & _).
    split_and!; try done. intros x.
    by rewrite (processDocument_dom _ _ _ Hstep).
Qed.

End SecondPassPanics.

Lemma NewFromAnalyzedDocs_within lines sched footprint results h :
  185%nat ∈ lines ∨ ownedByName results →
  114%nat ∈ lines ∨ Forall hasAnalyzed results →
  119%nat ∈ lines ∨ Z.of_nat (termCount results h) ≤ maxInt →
  146%nat ∈ lines ∨ noNilMaps results h →
  168%nat ∈ lines ∨ Forall hasLengths results →
  within lines (NewFromAnalyzedDocs sched footprint results h).
Proof.
  intros H185 H114 H119 H146 H168. unfold NewFromAnalyzedDocs.
  apply within_bind; [|done].
  assert (within (185%nat :: lines) (assembled sched results h)) as Hw.
  { apply assembled_within; [left| | | |].
    - destruct H114 as [?|?]; [left; by right|by right].
    - destruct H119 as [?|?]; [left; by right|by right].
    - destruct H146 as [?|?]; [left; by right|by right].
    - destruct H168 as [?|?]; [left; by right|by right]. }
  destruct H185 as [H|Hown].
  - eapply within_weaken; [|exact Hw].
    intros l [->|?]%elem_of_cons; done.
  - apply within_avoids with (lines := 185%nat :: lines) in Hw;
      [|by apply assembled_avoids].
    eapply within_weaken; [|exact Hw].
    intros l [Hl [->|?]%elem_of_cons]%list_elem_of_filter; done.
Qed.

Lemma forEach_Panic_at {A S} (body : A → S → Result S) pre x rest s t line :
  forEach body pre s = Ok t → body x t = Panic line →
  forEach body (pre ++ x :: rest) s = Panic line.
Proof. intros H1 H2. rewrite forEach_app, H1. simpl. by rewrite H2. Qed.

Lemma Exists_first {A} (P : A → Prop) `{∀ x, Decision (P x)} (l : list A) :
  Exists P l →
  ∃ pre x rest, l = pre ++ x :: rest ∧ Forall (λ y, ¬ P y) pre ∧ P x.
Proof.
  induction l as [|y l IH]; [by intros ?%Exists_nil|].
  intros Hex. destruct (decide (P y)) as [Hy|Hy].
  - exists [], y, l. by split_and!.
  - apply Exists_cons in Hex as [?|Hex]; [done|].
    destruct (IH Hex) as (pre & x & rest & -> & Hpre & Hx).
    exists (y :: pre), x, rest. split_and!; [done| |done]. by constructor.
Qed.

Section MissingEntries.

Context (sched : Schedule).

(** A document with fewer entries of [Analyzed] than regular fields stops
    the first pass at line 114. *)
Lemma dictDocument_short r acc :
  registryOK (seg acc.1) →
  (length (Analyzed r) < length (Fields (Doc r)))%nat →
  dictDocument sched r acc = Panic 114.
Proof.
  intros Hreg Hshort. unfold dictDocument.
  destruct (forEach_returns (dictComposite sched)
              (λ acc, registryOK (seg acc.1)) (CompositeFields (Doc r)) acc
              Hreg) as (acc1 & -> & Hreg1).
  { intros c t _ Ht. rewrite dictComposite_is_named.
    destruct (proj1 (within_nil _)
                (dictNamed_within sched []
                   (CompositeName c, compositeFrequencies c) t Ht))
      as [t' Ht'].
    exists t'. split; [done|]. by eapply dictNamed_registryOK. }
  simpl.
  destruct (lookup_lt_is_Some_2 (Fields (Doc r)) (length (Analyzed r)) Hshort)
    as [fld Hfld].
  rewrite <- (take_drop_middle _ _ _ Hfld). unfold enumerate.
  rewrite enumerateFrom_app. simpl.
  assert (len (take (length (Analyzed r)) (Fields (Doc r)))
          = len (Analyzed r)) as Hlen.
  { unfold len. rewrite length_take. f_equal. lia. }
  rewrite Hlen.
  destruct (forEach_returns (dictRegular sched r)
              (λ acc, registryOK (seg acc.1))
              (enumerateFrom 0 (take (length (Analyzed r)) (Fields (Doc r))))
              acc1 Hreg1) as (acc2 & Hacc2 & Hreg2).
  { intros [i f] t Hin Ht. apply elem_of_enumerateFrom in Hin.
    rewrite Hlen in Hin.
    destruct (proj1 (within_nil _)
                (dictRegular_within sched [] r i f t Ht (or_intror Hin)))
      as [t' Ht'].
    exists t'. split; [done|]. by eapply dictRegular_registryOK. }
  eapply forEach_Panic_at; [exact Hacc2|].
  destruct acc2 as [st n]. unfold dictRegular.
  destruct (getOrDefineField _ _).
  assert (index 114 (Analyzed r) (0 + len (Analyzed r)) = Panic 114) as ->;
    [|done].
  apply index_Panic. split; [|done]. apply get_None. lia.
Qed.

Lemma initializeDict_short pre r rest h :
  Forall hasAnalyzed pre →
  (length (Analyzed r) < length (Fields (Doc r)))%nat →
  initializeDict sched (pre ++ r :: rest) (start h) = Panic 114.
Proof.
  intros Hpre Hshort. unfold initializeDict.
  destruct (forEach_returns (dictDocument sched)
              (λ acc, registryOK (seg acc.1)) pre (start h, 0)
              registryOK_initial) as (acc & Hacc & Hreg).
  { intros d t Hd Ht.
    destruct (proj1 (within_nil _)
                (dictDocument_within sched [] d t Ht
                   (or_intror (proj1 (Forall_forall _ _) Hpre _ Hd))))
      as [t' Ht'].
    exists t'. split; [done|]. by eapply dictDocument_registryOK. }
  rewrite (forEach_Panic_at _ _ _ _ _ _ _ Hacc
             (dictDocument_short r acc Hreg Hshort)).
  done.
Qed.

End MissingEntries.

Lemma noNilMapsb_true results h :
  noNilMapsb results h = true → noNilMaps results h.
Proof.
  unfold noNilMapsb. rewrite forallb_forall. intros H name a Hin.
  apply list_elem_of_In in Hin. specialize (H _ Hin). simpl in H.
  by apply bool_decide_eq_true in H.
Qed.

Lemma build_total_aux sched footprint results h :
  Forall hasAnalyzed results → Forall hasLengths results →
  Z.of_nat (termCount results h) ≤ maxInt →
  ownedByName results → noNilMaps results h →
  ∃ s h', NewFromAnalyzedDocs sched footprint results h = Ok (s, h').
Proof.
  intros Han Hlen Hcount Hown Hnil.
  destruct (proj1 (within_nil _)
              (NewFromAnalyzedDocs_within [] sched footprint results h
                 (or_intror Hown) (or_intror Han) (or_intror Hcount)
                 (or_intror Hnil) (or_intror Hlen))) as [[s h'] H].
  eauto.
Qed.

(** ** Batches of more than 2^32 documents *)

(** A bitmap whose members are below [m] has no more than [m] members. *)
Lemma size_below (b : Bitmap) (m : nat) :
  (∀ z, z ∈ b → 0 ≤ z < Z.of_nat m) → (size b ≤ m)%nat.
Proof.
  intros Hb.
  assert (b ⊆ list_to_set (Z.of_nat <$> seq 0 m)) as Hsub.
  { intros z Hz%Hb. apply elem_of_list_to_set, list_elem_of_fmap.
    exists (Z.to_nat z). split; [lia|]. apply elem_of_seq. lia. }
  apply subseteq_size in Hsub. rewrite size_list_to_set in Hsub.
  - by rewrite length_fmap, length_seq in Hsub.
  - apply NoDup_fmap_2; [apply _|apply NoDup_seq].
Qed.

Section ManyDocuments.

Context (sched : Schedule) (n : nat).

Lemma many_fields e : e ∈ batchFields (replicate n exDoc1) → e = ("body", 2%nat).
Proof.
  unfold batchFields.
  intros (r & He & ->%elem_of_replicate_inv)%list_elem_of_bind.
  by apply list_elem_of_singleton in He.
Qed.

Lemma many_fields_body :
  (1 ≤ n)%nat → ("body", 2%nat) ∈ batchFields (replicate n exDoc1).
Proof.
  intros Hn. unfold batchFields. apply list_elem_of_bind. exists exDoc1.
  split; [by apply list_elem_of_singleton|].
  apply elem_of_replicate. split; [done|lia].
Qed.

Lemma many_termCount : termCount (replicate n exDoc1) exStore = n.
Proof.
  unfold termCount, batchFields. induction n as [|m IH]; [done|].
  change (replicate (S m) exDoc1) with (exDoc1 :: replicate m exDoc1).
  rewrite bind_cons, fmap_app, sum_list_with_app, IH. done.
Qed.

(** The build of the batch returns. *)
Lemma many_returns footprint :
  Z.of_nat n ≤ maxInt →
  ∃ s h', NewFromAnalyzedDocs sched footprint (replicate n exDoc1) exStore
          = Ok (s, h').
Proof.
  intros Hn. apply build_total_aux.
  - apply Forall_replicate. unfold hasAnalyzed. simpl. lia.
  - apply Forall_replicate. unfold hasLengths. simpl. lia.
  - by rewrite many_termCount.
  - intros name1 name2 a [= -> ->]%many_fields [= ->]%many_fields. done.
  - intros name a [= -> ->]%many_fields. by eexists.
Qed.

(** The collation of one of the documents. *)
Lemma many_collate docNum s h w :
  FieldsMap s !! "body" = Some w →
  collate exDoc1 docNum {| aseg := s; astore := h; acoll := emptyCollation |}
  = Ok {| aseg := s; astore := h;
          acoll := {| docMap := {[uint16 (w - 1) := 2%nat]};
                      fieldLens := {[uint16 (w - 1) := int (0 + 1)]} |} |}.
Proof.
  intros Hw. unfold collate, collateRegular. simpl.
  rewrite (getOrDefineField_known _ _ _ Hw), uint16_idemp. simpl.
  unfold processField. simpl. rewrite lookup_empty. simpl.
  by rewrite !insert_empty.
Qed.

(** Every document of the batch adds an entry to the frequency sequence
    of ("body", "dog") and a 32-bit member to its bitmap. *)
Lemma many_run k st st1 v :
  initializeDict sched (replicate n exDoc1) (start exStore) = Ok st1 →
  dictLookup (seg st1) (fieldIdOf (seg st1) "body") "dog" = Some v →
  (k ≤ n)%nat →
  assembledUpTo sched (replicate n exDoc1) exStore k = Ok st →
  store st = exStore ∧
  ∃ sl, slot (seg st) (v - 1) = Some sl ∧ length (sFreqs sl) = k ∧
        ∀ z, z ∈ sPostings sl → 0 ≤ z < 2 ^ 32.
Proof.
  intros Hinit Hv. revert st. induction k as [|k IH]; intros st Hk Hrun.
  { rewrite assembledUpTo_0, Hinit in Hrun. injection Hrun as <-.
    destruct (initializeDict_spec _ _ _ _ Hinit)
      as (_ & Hpost & _ & _ & _ & _ & _ & Hst & _).
    split; [done|].
    destruct (dictLookup_ordinal _ _ _ _ _ Hpost Hv) as (_ & _ & _ & _ & Hp).
    destruct (proj2 (slot_is_Some _ _ (v - 1) Hpost) Hp) as [sl Hsl].
    exists sl. split; [done|].
    rewrite (slots_start _ _ _ _ _ _ Hinit Hsl). simpl.
    split; [done|]. by intros z ?%elem_of_empty. }
  assert (replicate n exDoc1 !! k = Some exDoc1) as Hr
    by (apply lookup_replicate_2; lia).
  destruct (assembledUpTo_step _ _ _ _ _ _ Hr Hrun) as (st0 & Hst0 & Hdoc).
  destruct (IH st0 ltac:(lia) Hst0) as (Hs0 & sl0 & Hsl0 & Hlen0 & Hmem0).
  assert (k ≤ length (replicate n exDoc1))%nat as Hk'
    by (rewrite length_replicate; lia).
  destruct (run_inv _ _ _ _ _ Hk' Hst0)
    as (st1' & Hinit' & (Hreg & Hpost & L1 & L2 & L3) & Hg).
  assert (st1' = st1) as -> by congruence.
  destruct (processDocument_spec _ _ _ _ _ Hreg Hpost
              ltac:(congruence) ltac:(congruence) Hdoc)
    as (a & Hcol & _ & _ & _ & _ & _ & _ & _ & _ & Hs & _ & Heff).
  cbv zeta in Hcol, Heff.
  destruct (initializeDict_spec _ _ _ _ Hinit) as (_ & _ & Hnames & _).
  destruct (Hnames "body") as [w Hw].
  { apply list_elem_of_fmap. exists ("body", 2%nat). split; [done|].
    apply many_fields_body. lia. }
  assert (FieldsMap (addDocument (seg st0)).2 !! "body" = Some w) as Hw0.
  { destruct Hg as [Hsub _]. simpl. by eapply lookup_weaken. }
  rewrite (many_collate _ _ _ _ Hw0) in Hcol. injection Hcol as <-.
  simpl in Hs, Heff.
  split; [congruence|].
  assert (fieldIdOf (seg st1) "body" = uint16 (w - 1)) as Hf.
  { unfold fieldIdOf, extId. by rewrite Hw. }
  rewrite Hf in Hv.
  destruct (Heff _ _ Hsl0) as [[_ Hnone]|(e & sl & _ & _ & Hsl & Hhit)].
  - exfalso. apply (Hnone (uint16 (w - 1), "dog", freq 1 [])).
    + apply elem_of_walked. exists 2%nat. split.
      * unfold range. rewrite (pick_perm sched), elem_of_map_to_list.
        apply lookup_singleton_eq.
      * by rewrite Hs0.
    + simpl. rewrite (grows_dictLookup _ _ _ _ Hg), Hv. f_equal. lia.
  - exists sl. split; [done|].
    destruct Hhit as (E1 & _ & E3 & _). rewrite E1, E3, length_app. simpl.
    split; [lia|]. unfold AddInt.
    intros z [->%elem_of_singleton|Hz]%elem_of_union;
      [apply uint32_range|by apply Hmem0].
Qed.

(** The segment built from the batch. *)
Lemma many_built footprint :
  (1 ≤ n)%nat → Z.of_nat n ≤ maxInt →
  ∃ s h' p sl,
    NewFromAnalyzedDocs sched footprint (replicate n exDoc1) exStore
    = Ok (s, h') ∧
    slot s p = Some sl ∧ length (sFreqs sl) = n ∧
    ∀ z, z ∈ sPostings sl → 0 ≤ z < 2 ^ 32.
Proof.
  intros Hn1 Hn. destruct (many_returns footprint Hn) as (s & h' & Hrun).
  destruct (NewFromAnalyzedDocs_Ok _ _ _ _ _ _ Hrun)
    as (stn & Hstn & -> & _).
  rewrite length_replicate in Hstn.
  destruct (run_inv sched (replicate n exDoc1) exStore n stn)
    as (st1 & Hinit & _); [by rewrite length_replicate|done|].
  destruct (ordinalsInv_start _ _ _ _ Hinit)
    as (_ & _ & _ & _ & _ & _ & _ & Hstore).
  destruct (initializeDict_spec _ _ _ _ Hinit)
    as (_ & _ & _ & _ & _ & _ & _ & Hst1 & _).
  rewrite Hst1 in Hstore.
  destruct (Hstore "body" 2%nat "dog") as [v Hv].
  { by apply many_fields_body. }
  { apply elem_of_dom. by eexists. }
  destruct (many_run n stn st1 v Hinit Hv (Nat.le_refl _) Hstn)
    as (_ & sl & Hsl & Hlen & Hmem).
  exists (updateSizeInBytes footprint (sortDictKeys (seg stn))), h',
    (v - 1), sl.
  by rewrite built_slot.
Qed.

End ManyDocuments.

(** C1, as the claim has it, fails for a batch of more than 2^32
    documents: the frequency sequence of a term that every document holds
    gets an entry for each of the 2^32 + 1 documents, and the bitmap, whose
    members are 32-bit numbers, has no more than 2^32 members. *)
Lemma members_wrap :
  ∃ s h' p sl,
    NewFromAnalyzedDocs inOrder noFootprint manyDocs exStore = Ok (s, h') ∧
    slot s p = Some sl ∧
    Z.of_nat (length (sFreqs sl)) = 2 ^ 32 + 1 ∧
    Z.of_nat (size (sPostings sl)) ≤ 2 ^ 32 ∧
    length (sFreqs sl) ≠ size (sPostings sl).
Proof.
  destruct (many_built inOrder (Z.to_nat (2 ^ 32 + 1)) noFootprint)
    as (s & h' & p & sl & Hrun & Hsl & Hlen & Hmem).
  { lia. }
  { unfold maxInt. lia. }
  exists s, h', p, sl. split; [exact Hrun|]. split; [exact Hsl|].
  assert (size (sPostings sl) ≤ Z.to_nat (2 ^ 32))%nat as Hsize.
  { apply size_below. intros z Hz%Hmem. lia. }
  split_and!; lia.
Qed.

(** * Further properties of the build *)

(** ** Panics *)

(** X1.  Whatever the batch, a build that panics does so at line 114, 119,
    146, 168 or 185: the registry keeps every field id within the
    dictionaries (lines 94, 97, 98, 183), every document has its slot in
    the stored values (lines 153 to 155), a posting read at line 185 is
    there at lines 187 to 204, and line 169 reads what line 114 has read.
    The panic of line 146 is that of a merge into a nil map. *)
Theorem panics_only_at sched footprint results h line :
  NewFromAnalyzedDocs sched footprint results h = Panic line →
  line = 114%nat ∨ line = 119%nat ∨ line = 146%nat ∨ line = 168%nat ∨
  line = 185%nat.
Proof.
  intros Hp.
  assert (within [114; 119; 146; 168; 185]%nat
            (NewFromAnalyzedDocs sched footprint results h)) as Hw.
  { apply NewFromAnalyzedDocs_within; left; rewrite !elem_of_cons; eauto 10. }
  rewrite Hp in Hw. simpl in Hw.
  rewrite !elem_of_cons, elem_of_nil in Hw.
  destruct Hw as [?|[?|[?|[?|[?|[]]]]]]; eauto 10.
Qed.

Lemma panics_only_at_witness :
  NewFromAnalyzedDocs inOrder noFootprint [exNilDoc] exSharedStore
  = Panic 146 ∧
  (146 = 114 ∨ 146 = 119 ∨ 146 = 146 ∨ 146 = 168 ∨ 146 = 185)%nat.
Proof.
  assert (NewFromAnalyzedDocs inOrder noFootprint [exNilDoc] exSharedStore
          = Panic 146) as H by (vm_compute; reflexivity).
  split; [exact H|].
  apply (panics_only_at inOrder noFootprint [exNilDoc] exSharedStore 146 H).
Defined.

(** X2.  The build returns a segment when every document has an entry of
    [Analyzed] and of [Length] for each regular field, the maps of the
    batch have no more than [maxInt] entries in all, no map is shared
    between fields of different names, and no map of the batch is nil. *)
Theorem build_returns sched footprint results h :
  Forall hasAnalyzed results → Forall hasLengths results →
  Z.of_nat (termCount results h) ≤ maxInt →
  ownedByName results → noNilMaps results h →
  ∃ s h', NewFromAnalyzedDocs sched footprint results h = Ok (s, h').
Proof.
  intros Han Hlen Hcount Hown Hnil.
  destruct (proj1 (within_nil _)
              (NewFromAnalyzedDocs_within [] sched footprint results h
                 (or_intror Hown) (or_intror Han) (or_intror Hcount)
                 (or_intror Hnil) (or_intror Hlen))) as [[s h'] H].
  eauto.
Qed.

Lemma build_returns_witness :
  ∃ s h', NewFromAnalyzedDocs reversed noFootprint exBatch exStore
          = Ok (s, h').
Proof.
  apply (build_returns reversed noFootprint exBatch exStore).
  - repeat constructor.
  - repeat constructor.
  - vm_compute. discriminate.
  - apply ownedByNameb_true. vm_compute. reflexivity.
  - apply noNilMapsb_true. vm_compute. reflexivity.
Defined.

(** X3.  The build panics at line 114 exactly when some document has
    fewer entries of [Analyzed] than regular fields; it does so in the
    first pass, before any document is assembled. *)
Theorem missing_analysis_panics sched footprint results h :
  Exists (λ r, ¬ hasAnalyzed r) results ↔
  NewFromAnalyzedDocs sched footprint results h = Panic 114.
Proof.
  split.
  - intros (pre & r & rest & -> & Hpre & Hr)%Exists_first; [|apply _].
    unfold NewFromAnalyzedDocs, assembled.
    change {| seg := initial; store := h; clock := 0 |} with (start h).
    rewrite initializeDict_short; [done| |unfold hasAnalyzed in Hr; lia].
    eapply Forall_impl; [exact Hpre|]. intros d Hd.
    by apply dec_stable.
  - intros Hp. apply not_Forall_Exists; [apply _|]. intros Hall.
    assert (within [119; 146; 168; 185]%nat
              (NewFromAnalyzedDocs sched footprint results h)) as Hw.
    { apply NewFromAnalyzedDocs_within; [left|by right|left|left|left];
        rewrite !elem_of_cons; eauto 10. }
    rewrite Hp in Hw. simpl in Hw.
    rewrite !elem_of_cons, elem_of_nil in Hw.
    destruct Hw as [?|[?|[?|[?|[]]]]]; done.
Qed.

Lemma missing_analysis_panics_witness :
  NewFromAnalyzedDocs inOrder noFootprint [exDoc0; exUnanalyzedDoc] exStore
  = Panic 114.
Proof.
  apply (missing_analysis_panics inOrder noFootprint
           [exDoc0; exUnanalyzedDoc] exStore).
  apply Exists_cons_tl, Exists_cons_hd. unfold hasAnalyzed. simpl. lia.
Defined.

(** X4.  When every regular field has its entry of [Analyzed], the maps
    have no more than [maxInt] entries, none is shared between fields of
    different names and none is nil, the build panics at line 168 exactly
    when some document has fewer entries of [Length] than regular fields,
    and returns otherwise. *)
Theorem missing_length_panics sched footprint results h :
  Forall hasAnalyzed results →
  Z.of_nat (termCount results h) ≤ maxInt →
  ownedByName results → noNilMaps results h →
  (Exists (λ r, ¬ hasLengths r) results ↔
   NewFromAnalyzedDocs sched footprint results h = Panic 168) ∧
  (Forall hasLengths results ↔
   ∃ s h', NewFromAnalyzedDocs sched footprint results h = Ok (s, h')).
Proof.
  intros Han Hcount Hown Hnil.
  pose proof (NewFromAnalyzedDocs_within [168]%nat sched footprint results h
                (or_intror Hown) (or_intror Han) (or_intror Hcount)
                (or_intror Hnil) (or_introl (list_elem_of_here _ _))) as Hw.
  assert ((∃ s h', NewFromAnalyzedDocs sched footprint results h
                   = Ok (s, h')) → Forall hasLengths results) as Hok.
  { intros (s & h' & (stn & Hn & _)%NewFromAnalyzedDocs_Ok).
    apply Forall_forall. intros r (d & Hd)%list_elem_of_lookup_1.
    destruct (run_document _ _ _ _ _ _ Hd Hn)
      as (_ & _ & _ & _ & _ & _ & _ & _ & _ & Hal & _).
    apply Hal. }
  split; split.
  - intros Hex.
    destruct (NewFromAnalyzedDocs sched footprint results h)
      as [[s h']|line] eqn:E.
    + exfalso. apply Exists_not_Forall in Hex. apply Hex, Hok. eauto.
    + simpl in Hw. apply list_elem_of_singleton in Hw. by subst.
  - intros Hp. apply not_Forall_Exists; [apply _|]. intros Hall.
    destruct (build_total_aux sched footprint results h Han Hall Hcount Hown
                Hnil) as (s & h' & E). congruence.
  - intros Hall.
    apply (build_total_aux sched footprint results h Han Hall Hcount Hown
             Hnil).
  - exact Hok.
Qed.

Lemma missing_length_panics_witness :
  NewFromAnalyzedDocs inOrder noFootprint [exDoc0; exUnmeasuredDoc] exStore
  = Panic 168.
Proof.
  apply (missing_length_panics inOrder noFootprint
           [exDoc0; exUnmeasuredDoc] exStore).
  - repeat constructor.
  - vm_compute. discriminate.
  - apply ownedByNameb_true. vm_compute. reflexivity.
  - apply noNilMapsb_true. vm_compute. reflexivity.
  - apply Exists_cons_tl, Exists_cons_hd. unfold hasLengths. simpl. lia.
Defined.

(** ** The registry and the ordinals *)

(** X5.  Looking a name up a second time returns the same id and changes
    nothing; the id returned is the one recorded for the name; a look-up
    changes the id of no name registered before; and looking up a
    registered name leaves the segment as it is. *)
Theorem getOrDefineField_stable name s :
  let r := getOrDefineField name s in
  getOrDefineField name r.2 = r ∧
  extId r.2 name = Some r.1 ∧
  (∀ name' v, extId s name' = Some v → extId r.2 name' = Some v) ∧
  (is_Some (FieldsMap s !! name) → r.2 = s).
Proof.
  cbv zeta. split_and!.
  - destruct (FieldsMap s !! name) as [v|] eqn:E.
    + rewrite (getOrDefineField_known _ _ _ E). simpl.
      apply (getOrDefineField_known _ _ _ E).
    + destruct (getOrDefineField_new name s E) as (HM & _ & _ & _ & Hid).
      destruct (getOrDefineField name s) as [fid s'] eqn:Hr. simpl in *.
      assert (FieldsMap s' !! name = Some (uint16 (len (FieldsInv s) + 1)))
        as Hk by (by rewrite HM, lookup_insert_eq).
      rewrite (getOrDefineField_known _ _ _ Hk), uint16_pred_succ.
      by rewrite Hid.
  - destruct (FieldsMap s !! name) as [v|] eqn:E.
    + rewrite (getOrDefineField_known _ _ _ E). simpl. unfold extId.
      by rewrite E.
    + destruct (getOrDefineField_new name s E) as (HM & _ & _ & _ & Hid).
      unfold extId. rewrite HM, lookup_insert_eq. simpl.
      by rewrite uint16_pred_succ, Hid.
  - intros name' v. apply grows_extId, getOrDefineField_grows.
  - intros [v E]. by rewrite (getOrDefineField_known _ _ _ E).
Qed.

(** X6.  In a built segment the posting ordinals are the numbers from 1
    to the number of posting slots, each held by exactly one
    (field id, term) pair. *)
Theorem ordinals_one_to_one sched footprint results h s h' :
  NewFromAnalyzedDocs sched footprint results h = Ok (s, h') →
  (∀ f t v, dictLookup s f t = Some v → 1 ≤ v ≤ len (Postings s)) ∧
  (∀ v, 1 ≤ v ≤ len (Postings s) → ∃ f t, dictLookup s f t = Some v) ∧
  (∀ f t f' t' v,
     dictLookup s f t = Some v → dictLookup s f' t' = Some v →
     f = f' ∧ t = t').
Proof.
  intros (st & Hst & -> & _)%NewFromAnalyzedDocs_Ok.
  destruct (run_inv _ _ _ _ _ (Nat.le_refl _) Hst)
    as (st1 & _ & (_ & Hpost & _) & _).
  set (ord := distinctInOrder (scanIds sched (seg st1) results h)) in *.
  assert (len (Postings (seg st)) = len ord) as HP by apply Hpost.
  simpl. split_and!.
  - intros f t v Hv. rewrite built_dictLookup in Hv.
    destruct (dictLookup_ordinal _ _ _ _ _ Hpost Hv) as (i & _ & _ & _ & Hr).
    lia.
  - intros v Hv.
    destruct (lookup_lt_is_Some_2 ord (Z.to_nat (v - 1))) as [[f t] Hi].
    { unfold len in *. lia. }
    exists f, t. rewrite built_dictLookup. apply Hpost.
    exists (Z.to_nat (v - 1)). split; [done|].
    destruct Hpost as (_ & _ & Hmax & _).
    rewrite uint64_small; lia.
  - intros f t f' t' v Hv Hv'. rewrite built_dictLookup in Hv, Hv'.
    by eapply dictLookup_inj.
Qed.

Lemma ordinals_one_to_one_witness :
  ∃ f t, dictLookup exBuilt.1 f t = Some 2.
Proof.
  destruct (ordinals_one_to_one inOrder noFootprint exBatch exStore
              exBuilt.1 exBuilt.2 ltac:(vm_compute; reflexivity))
    as (_ & H & _).
  apply H. vm_compute. split; discriminate.
Defined.

(** X7.  The second pass assigns no ordinal and changes none: the
    dictionaries of the built segment are those of the first pass,
    followed by empty dictionaries (of the fields that locations were the
    first to name), and the names registered in the first pass keep their
    ids. *)
Theorem second_pass_keeps_dictionaries sched footprint results h s h' :
  NewFromAnalyzedDocs sched footprint results h = Ok (s, h') →
  ∃ st1 k,
    initializeDict sched results (start h) = Ok st1 ∧
    Dicts s = Dicts (seg st1) ++ replicate k ∅ ∧
    (∀ f t, dictLookup s f t = dictLookup (seg st1) f t) ∧
    (∀ name v, extId (seg st1) name = Some v → extId s name = Some v).
Proof.
  intros (st & Hst & -> & _)%NewFromAnalyzedDocs_Ok.
  destruct (run_inv _ _ _ _ _ (Nat.le_refl _) Hst)
    as (st1 & H1 & _ & Hg).
  pose proof Hg as [_ [k Hk]]. exists st1, k. split_and!; [done|done| |].
  - intros f t. rewrite built_dictLookup. by apply grows_dictLookup.
  - intros name v Hv. by apply (grows_extId _ _ _ _ Hg).
Qed.

Lemma second_pass_keeps_dictionaries_witness :
  ∃ st1 k,
    initializeDict inOrder exBatch (start exStore) = Ok st1 ∧
    Dicts exBuilt.1 = Dicts (seg st1) ++ replicate k ∅ ∧
    (∀ f t, dictLookup exBuilt.1 f t = dictLookup (seg st1) f t) ∧
    (∀ name v, extId (seg st1) name = Some v → extId exBuilt.1 name = Some v).
Proof.
  apply (second_pass_keeps_dictionaries inOrder noFootprint exBatch exStore
           exBuilt.1 exBuilt.2).
  vm_compute. reflexivity.
Defined.

(** X8.  For the empty batch the build returns the segment with the
    identity field alone: one empty dictionary, one empty term list, no
    posting slot and no document; the store is as it was. *)
Theorem empty_batch sched footprint h :
  ∃ s,
    NewFromAnalyzedDocs sched footprint [] h = Ok (s, h) ∧
    FieldsInv s = ["_id"] ∧ extId s "_id" = Some 0 ∧
    Dicts s = [∅] ∧ DictKeys s = [[]] ∧
    arrays s = ([], [], [], [], [], [], [], [], []) ∧
    documents s = ([], [], []) ∧ DocValueFields s = ∅.
Proof.
  eexists. split; [reflexivity|]. split_and!; vm_compute; reflexivity.
Qed.

(** ** Term lists and dictionaries *)

Lemma keysOK_same s s' :
  Dicts s' = Dicts s → DictKeys s' = DictKeys s → keysOK s → keysOK s'.
Proof. unfold keysOK. by intros -> ->. Qed.

Lemma keysOK_New : keysOK New.
Proof.
  split; [done|]. intros i dict keys H. simpl in H.
  by rewrite lookup_nil in H.
Qed.

Lemma keysOK_lookup name s : keysOK s → keysOK (getOrDefineField name s).2.
Proof.
  intros [Hlen Hok].
  destruct (FieldsMap s !! name) as [v|] eqn:E.
  { by rewrite (getOrDefineField_known _ _ _ E). }
  destruct (getOrDefineField_new name s E) as (_ & _ & HD & HK & _).
  split; [by rewrite HD, HK, !length_app, Hlen|].
  intros i dict keys. rewrite HD, HK.
  intros [Hd|[Hi Hd]]%lookup_app_Some [Hk|[Hi' Hk]]%lookup_app_Some.
  - by eapply Hok.
  - apply lookup_lt_Some in Hd. lia.
  - apply lookup_lt_Some in Hk. lia.
  - apply list_lookup_singleton_Some in Hd as [_ <-].
    apply list_lookup_singleton_Some in Hk as [_ <-].
    split; [apply NoDup_nil_2|]. intros t. rewrite lookup_empty.
    split; [by intros ?%elem_of_nil|by intros [? ?]].
Qed.

Lemma keysOK_dictTerm f t s n s' n' :
  keysOK s → dictTerm f t (s, n) = Ok (s', n') → keysOK s'.
Proof.
  intros [Hlen Hok]. unfold dictTerm.
  intros (dict & Hdict%index_Ok & Hrun)%bind_Ok.
  destruct (dict !! t) as [v|] eqn:Ht; [by injection Hrun as <- <-|].
  apply bind_Ok in Hrun as (dicts & (d0 & Hd0 & ->)%modify_Ok & Hrun).
  apply bind_Ok in Hrun as (keys & (k0 & Hk0 & ->)%modify_Ok & [= <- <-]).
  simpl in *. assert (d0 = dict) as -> by congruence.
  apply get_Some in Hd0 as [_ Hd0]. apply get_Some in Hk0 as [_ Hk0].
  destruct (Hok _ _ _ Hd0 Hk0) as [Hnd Hin].
  split; [simpl; by rewrite !length_insert|].
  intros i d k Hd Hk. simpl in Hd, Hk.
  destruct (decide (i = Z.to_nat f)) as [->|Hne].
  - rewrite list_lookup_insert_eq in Hd by (by eapply lookup_lt_Some).
    rewrite list_lookup_insert_eq in Hk by (by eapply lookup_lt_Some).
    injection Hd as <-. injection Hk as <-. split.
    + apply NoDup_app. split_and!; [done| |apply NoDup_singleton].
      intros x Hx ->%list_elem_of_singleton.
      apply Hin in Hx as [w Hw]. congruence.
    + intros x. rewrite elem_of_app, list_elem_of_singleton, Hin.
      rewrite lookup_insert_is_Some. destruct (decide (t = x)); naive_solver.
  - rewrite list_lookup_insert_ne in Hd by done.
    rewrite list_lookup_insert_ne in Hk by done. by eapply Hok.
Qed.

Lemma keysOK_walkLocation pid f loc s s' :
  keysOK s → walkLocation pid f loc s = Ok s' → keysOK s'.
Proof.
  intros Hok Hrun. unfold walkLocation in Hrun.
  set (r := if decide (Field loc = EmptyString) then (f, s)
            else let '(f0, s0) := getOrDefineField (Field loc) s in
                 (uint16 f0, s0)) in Hrun.
  assert (keysOK r.2) as Hok1.
  { subst r. case_decide; [done|].
    pose proof (keysOK_lookup (Field loc) s Hok).
    by destruct (getOrDefineField (Field loc) s). }
  destruct r as [locf s1]. simpl in *.
  apply bind_Ok in Hrun as (lf & _ & Hrun).
  apply bind_Ok in Hrun as (ls & _ & Hrun).
  apply bind_Ok in Hrun as (le & _ & Hrun).
  apply bind_Ok in Hrun as (lp & _ & Hrun).
  destruct (0 <? len (ArrayPositions loc));
    apply bind_Ok in Hrun as (la & _ & [= <-]); exact Hok1.
Qed.

Lemma keysOK_walkTerm docNum lens f e s s' :
  keysOK s → walkTerm docNum lens f e s = Ok s' → keysOK s'.
Proof.
  intros Hok Hrun. destruct e as [t tf]. unfold walkTerm in Hrun.
  apply bind_Ok in Hrun as (dict & _ & Hrun).
  apply bind_Ok in Hrun as (bs & _ & Hrun).
  apply bind_Ok in Hrun as (ps & _ & Hrun).
  apply bind_Ok in Hrun as (fs & _ & Hrun).
  apply bind_Ok in Hrun as (ns & _ & Hrun).
  apply bind_Ok in Hrun as (lbs & _ & Hrun).
  simpl in *.
  destruct (0 <? len (Locations tf)); [|by injection Hrun as <-].
  apply bind_Ok in Hrun as (pl & _ & Hrun). revert Hrun.
  apply (forEach_preserves _ keysOK); [exact Hok|].
  intros loc u u' _. apply keysOK_walkLocation.
Qed.

Lemma keysOK_sortDictKeys s : keysOK s → keysOK (sortDictKeys s).
Proof.
  intros [Hlen Hok]. split; [simpl; by rewrite length_fmap|].
  intros i dict keys Hd Hk. simpl in *. rewrite list_lookup_fmap in Hk.
  destruct (DictKeys s !! i) as [k0|] eqn:Hk0; [|done].
  injection Hk as <-. destruct (Hok _ _ _ Hd Hk0) as [Hnd Hin]. split.
  - by rewrite sortStrings_perm.
  - intros t. by rewrite sortStrings_perm.
Qed.

(** Every operation of the build keeps the term lists and the
    dictionaries together. *)
Lemma reach_keysOK names s : reach names s → keysOK s.
Proof.
  induction 1 as [|names s name _ IH|names s f t n s' n' _ IH Hop
                  |names s n s' _ IH Hop|names s _ IH
                  |names s docNum f typ val pos s' _ IH Hop|names s f _ IH
                  |names s docNum lens f e s' _ IH Hop|names s _ IH
                  |names s footprint _ IH].
  - apply keysOK_lookup, keysOK_New.
  - by apply keysOK_lookup.
  - by eapply keysOK_dictTerm.
  - unfold allocate in Hop. destruct (n <=? maxInt); [|done].
    injection Hop as <-. exact IH.
  - exact IH.
  - apply storeField_keeps in Hop as ((_ & _ & HD & HK) & _).
    by eapply keysOK_same; [..|exact IH].
  - exact IH.
  - by eapply keysOK_walkTerm.
  - by apply keysOK_sortDictKeys.
  - exact IH.
Qed.

(** X9.  In a built segment there is a term list for every dictionary,
    and the term list of a field is the sorted list of the terms of its
    dictionary, each term once: every term with an ordinal can be
    enumerated, and every enumerated term has an ordinal. *)
Theorem term_lists_match sched footprint results h s h' :
  NewFromAnalyzedDocs sched footprint results h = Ok (s, h') →
  length (DictKeys s) = length (Dicts s) ∧
  ∀ (i : nat) dict keys,
    Dicts s !! i = Some dict → DictKeys s !! i = Some keys →
    keys = sortStrings (elements (dom dict)).
Proof.
  intros Hrun.
  destruct (NewFromAnalyzedDocs_reach _ _ _ _ _ _ Hrun) as [names Hreach].
  apply reach_keysOK in Hreach as [Hlen Hok]. split; [done|].
  intros i dict keys Hd Hk. destruct (Hok _ _ _ Hd Hk) as [Hnd Hin].
  apply NewFromAnalyzedDocs_Ok in Hrun
    as (st & _ & _ & _ & _ & _ & _ & _ & _ & HK & _).
  rewrite HK, list_lookup_fmap in Hk.
  destruct (DictKeys (seg st) !! i) as [k0|]; [|done]. injection Hk as Hk.
  apply (Sorted_unique String.le).
  - rewrite <- Hk. apply sortStrings_sorted.
  - apply sortStrings_sorted.
  - rewrite sortStrings_perm. apply NoDup_Permutation; [done|apply NoDup_elements|].
    intros t. by rewrite Hin, elem_of_elements, elem_of_dom.
Qed.

Lemma term_lists_match_witness :
  DictKeys exBuilt.1 !! 1%nat = Some ["cat"; "dog"] ∧
  ["cat"; "dog"]
  = sortStrings (elements (dom ({[ "cat" := 1; "dog" := 2 ]} : gmap string Z))).
Proof.
  split; [vm_compute; reflexivity|].
  destruct (term_lists_match inOrder noFootprint exBatch exStore
              exBuilt.1 exBuilt.2 ltac:(vm_compute; reflexivity)) as [_ H].
  apply (H 1%nat); vm_compute; reflexivity.
Defined.

(** ** The documents of a posting *)

Section Members.

Context (sched : Schedule).

(** The step of a run, with the entries it walks. *)
Lemma run_entries results h k r st st' :
  results !! k = Some r →
  assembledUpTo sched results h k = Ok st →
  assembledUpTo sched results h (S k) = Ok st' →
  ∃ ord a,
    let entries :=
      walked sched (astore a) (S (clock st))
        (range sched (clock st) (docMap (acoll a))) in
    postingsOK ord (seg st) ∧ postingsOK ord (seg st') ∧
    grows (seg st) (seg st') ∧
    collate r (Z.of_nat k)
      {| aseg := (addDocument (seg st)).2; astore := store st;
         acoll := emptyCollation |} = Ok a ∧
    NoDup entries.*1 ∧
    (∀ f t tf, (f, t, tf) ∈ entries ↔ collated sched results h k f t tf) ∧
    slotEffect (Z.of_nat k) (fieldLens (acoll a)) entries (seg st) (seg st').
Proof.
  intros Hr Hst Hst'.
  destruct (assembledUpTo_step _ _ _ _ _ _ Hr Hst') as (st0 & Hst0 & Hdoc).
  assert (st0 = st) as -> by congruence.
  apply lookup_lt_Some in Hr as Hk.
  assert (k ≤ length results)%nat as Hk' by lia.
  destruct (run_inv _ _ _ _ _ Hk' Hst)
    as (st1 & _ & (Hreg & Hpost & L1 & L2 & L3) & _).
  destruct (processDocument_spec _ _ _ _ _ Hreg Hpost
              ltac:(congruence) ltac:(congruence) Hdoc)
    as (a & Hcol & _ & _ & Hnd & _ & Hpost' & Hg & _ & _ & _ & _ & Heff).
  cbv zeta in Hcol, Hnd, Heff. rewrite L1 in Hcol, Heff.
  exists (distinctInOrder (scanIds sched (seg st1) results h)), a.
  cbv zeta. split_and!; try done.
  intros f t tf. rewrite elem_of_walked. unfold range, collated. split.
  - intros (addr & Hin & Ht). rewrite (pick_perm sched) in Hin.
    apply elem_of_map_to_list in Hin. by exists r, st, a, addr.
  - intros (r' & stA & a' & addr & Hr' & HstA & Hcol' & Hf & Ht).
    assert (r' = r) as -> by congruence.
    assert (stA = st) as -> by congruence.
    assert (a' = a) as -> by congruence.
    exists addr. split; [|done].
    rewrite (pick_perm sched). by apply elem_of_map_to_list.
Qed.

(** While the document numbers fit 32 bits, the members of a slot are the
    documents that hold the term of the slot; their frequencies stand in
    the order of the members, and a member is in the location bitmap when
    its entry has locations. *)
Lemma run_members results h k st p sl :
  Z.of_nat k ≤ 2 ^ 32 → (k ≤ length results)%nat →
  assembledUpTo sched results h k = Ok st →
  slot (seg st) p = Some sl →
  (∀ K d, members (sPostings sl) !! K = Some (Z.of_nat d) →
          (d < k)%nat ∧
          ∃ f t tf, collated sched results h d f t tf ∧
                    dictLookup (seg st) f t = Some (p + 1) ∧
                    sFreqs sl !! K = Some (uint64 (Frequency tf)) ∧
                    (Z.of_nat d ∈ sPostingsLocs sl ↔ Locations tf ≠ [])) ∧
  (∀ d f t tf, (d < k)%nat → collated sched results h d f t tf →
               dictLookup (seg st) f t = Some (p + 1) →
               ∃ K, members (sPostings sl) !! K = Some (Z.of_nat d)).
Proof.
  revert st sl. induction k as [|k IH]; intros st sl' Hb Hk Hrun Hsl'.
  { split; [|intros; lia]. intros K d HK. exfalso.
    rewrite assembledUpTo_0 in Hrun.
    destruct (slotsOK_start _ _ _ _ Hrun _ _ Hsl') as (_ & _ & H3).
    apply list_elem_of_lookup_2, elem_of_members, H3 in HK. lia. }
  destruct (lookup_lt_is_Some_2 results k) as [r Hr]; [lia|].
  destruct (assembledUpTo_pred _ _ _ _ _ Hrun) as [st0 Hst0].
  destruct (run_entries _ _ _ _ _ _ Hr Hst0 Hrun)
    as (ord & a & Hpost & Hpost' & Hg & Hcol & Hnd & Hent & Heff).
  cbv zeta in Hnd, Hent, Heff.
  set (entries := walked sched (astore a) (S (clock st0))
                    (range sched (clock st0) (docMap (acoll a)))) in *.
  assert (k ≤ length results)%nat as Hk' by lia.
  assert (Z.of_nat k ≤ 2 ^ 32) as Hb' by lia.
  pose proof (run_slotsOK _ _ _ _ _ Hb' Hk' Hst0) as Hok.
  destruct (proj2 (slot_is_Some _ _ p Hpost)) as [sl Hsl].
  { apply (slot_is_Some _ _ _ Hpost'). eauto. }
  destruct (IH _ _ Hb' Hk' Hst0 Hsl) as [IH1 IH2].
  destruct (Hok _ _ Hsl) as (L1 & L2 & L3).
  destruct (run_locsOK _ _ _ _ _ Hk' Hst0 _ _ Hsl) as (L4 & _).
  assert (∀ f t, dictLookup (seg st) f t = dictLookup (seg st0) f t) as Hsame.
  { intros f t. by apply grows_dictLookup. }
  destruct (Heff _ _ Hsl) as [[Hslot Hnone]|(e & sl1 & He & Hlook & Hsl1 & Hhit)].
  - assert (sl' = sl) as -> by congruence. split.
    + intros K d HK. destruct (IH1 _ _ HK) as (Hd & f & t & tf & ? & ? & ?).
      split; [lia|]. exists f, t, tf. by rewrite Hsame.
    + intros d f t tf Hd Hc Hv. destruct (decide (d = k)) as [->|Hne].
      * apply Hent in Hc. rewrite Hsame in Hv. by destruct (Hnone _ Hc).
      * apply (IH2 d f t tf); [lia|done|by rewrite <- Hsame].
  - assert (sl1 = sl') as -> by congruence.
    destruct Hhit as (E1 & E2 & E3 & _).
    rewrite AddInt_small in E1, E2 by lia.
    assert (Z.of_nat k ∉ sPostings sl) as Hfresh by (intros ?%L3; lia).
    assert (members (sPostings sl') = members (sPostings sl) ++ [Z.of_nat k])
      as Hmem.
    { rewrite E1. apply members_add. intros z ?%L3. lia. }
    rewrite Hmem, E3. split.
    + intros K d HK.
      apply lookup_app_Some in HK as [HK|[HKge HK]].
      * destruct (IH1 _ _ HK) as (Hd & f & t & tf & Hc & Hv & Hfr & Hloc).
        split; [lia|]. exists f, t, tf. rewrite Hsame.
        split_and!; [done|done|by apply lookup_app_l_Some|].
        rewrite <- Hloc, E2. case_decide; [done|].
        rewrite elem_of_union, elem_of_singleton. split; [|by right].
        intros [?|?]; [lia|done].
      * apply list_lookup_singleton_Some in HK as [HK0 Hd].
        apply Nat2Z.inj in Hd as <-. split; [lia|].
        rewrite members_length in HKge, HK0.
        assert (K = size (sPostings sl)) as -> by lia.
        destruct e as [[f t] tf]. simpl in *.
        exists f, t, tf. rewrite Hsame.
        split_and!; [by apply Hent|done| |].
        -- rewrite <- L1. by apply list_lookup_middle.
        -- rewrite E2. case_decide as El.
           ++ split; [|done]. intros Hin. exfalso. by apply Hfresh, L4.
           ++ split; [done|]. intros _. apply elem_of_union. left.
              by apply elem_of_singleton.
    + intros d f t tf Hd Hc Hv. destruct (decide (d = k)) as [->|Hne].
      * exists (length (members (sPostings sl))). by apply list_lookup_middle.
      * destruct (IH2 d f t tf) as [K HK]; [lia|done|by rewrite <- Hsame|].
        exists K. by apply lookup_app_l_Some.
Qed.

End Members.

Lemma members_collated sched footprint results h s h' :
  NewFromAnalyzedDocs sched footprint results h = Ok (s, h') →
  len results ≤ 2 ^ 32 →
  ∀ f t v sl,
    dictLookup s f t = Some v → slot s (v - 1) = Some sl →
    (∀ z, z ∈ sPostings sl ↔
          ∃ (d : nat) tf,
            z = Z.of_nat d ∧ collated sched results h d f t tf) ∧
    (∀ K d, members (sPostings sl) !! K = Some (Z.of_nat d) →
            ∃ tf, collated sched results h d f t tf ∧
                  sFreqs sl !! K = Some (uint64 (Frequency tf)) ∧
                  (Z.of_nat d ∈ sPostingsLocs sl ↔ Locations tf ≠ [])).
Proof.
  intros (st & Hst & -> & _)%NewFromAnalyzedDocs_Ok Hb f t v sl Hv Hsl.
  rewrite built_dictLookup in Hv. rewrite built_slot in Hsl.
  destruct (run_inv _ _ _ _ _ (Nat.le_refl _) Hst)
    as (st1 & _ & (_ & Hpost & _) & _).
  destruct (run_members _ _ _ _ _ _ _ Hb (Nat.le_refl _) Hst Hsl)
    as [H1 H2].
  destruct (run_slotsOK _ _ _ _ _ Hb (Nat.le_refl _) Hst _ _ Hsl)
    as (_ & _ & H3).
  assert (∀ K d, members (sPostings sl) !! K = Some (Z.of_nat d) →
            ∃ tf, collated sched results h d f t tf ∧
                  sFreqs sl !! K = Some (uint64 (Frequency tf)) ∧
                  (Z.of_nat d ∈ sPostingsLocs sl ↔ Locations tf ≠ []))
    as Hmem.
  { intros K d HK.
    destruct (H1 _ _ HK) as (_ & f' & t' & tf & Hc & Hv' & Hfr & Hloc).
    replace (v - 1 + 1) with v in Hv' by lia.
    destruct (dictLookup_inj _ _ _ _ _ _ _ Hpost Hv' Hv) as [-> ->].
    by exists tf. }
  split; [|exact Hmem]. intros z. split.
  - intros Hz. pose proof (H3 _ Hz) as Hr.
    apply elem_of_members, list_elem_of_lookup in Hz as [K HK].
    replace z with (Z.of_nat (Z.to_nat z)) in HK |- * by lia.
    destruct (Hmem _ _ HK) as (tf & Hc & _). eauto.
  - intros (d & tf & -> & Hc).
    assert (d < length results)%nat as Hd.
    { destruct Hc as (r & _ & _ & _ & Hr & _). by eapply lookup_lt_Some. }
    destruct (H2 d f t tf Hd Hc) as [K HK].
    { by replace (v - 1 + 1) with v by lia. }
    apply list_elem_of_lookup_2 in HK. by apply elem_of_members in HK.
Qed.

(** X10.  In a segment built from a batch of no more than 2^32 documents,
    the posting of a (field id, term) pair holds exactly the documents
    whose collated map for that field id has the term.  The frequency
    entry that stands at the place of a member is the frequency of the
    term in the collated map of that document, and a member is in the
    location bitmap exactly when its entry comes with locations. *)
Theorem postings_hold_the_documents sched footprint results h s h' :
  NewFromAnalyzedDocs sched footprint results h = Ok (s, h') →
  len results ≤ 2 ^ 32 →
  ∀ f t v sl,
    dictLookup s f t = Some v → slot s (v - 1) = Some sl →
    (∀ z, z ∈ sPostings sl ↔
          ∃ (d : nat) tf,
            z = Z.of_nat d ∧ collated sched results h d f t tf) ∧
    (∀ K d, members (sPostings sl) !! K = Some (Z.of_nat d) →
            ∃ tf, collated sched results h d f t tf ∧
                  sFreqs sl !! K = Some (uint64 (Frequency tf)) ∧
                  (Z.of_nat d ∈ sPostingsLocs sl ↔ Locations tf ≠ [])).
Proof. apply members_collated. Qed.


Lemma postings_hold_the_documents_witness :
  ∃ sl, slot exBuilt.1 (2 - 1) = Some sl ∧
        ∀ z, z ∈ sPostings sl ↔
             ∃ (d : nat) tf,
               z = Z.of_nat d ∧ collated inOrder exBatch exStore d 1 "dog" tf.
Proof.
  destruct (slot exBuilt.1 (2 - 1)) as [sl|] eqn:E;
    [|vm_compute in E; discriminate E].
  exists sl. split; [done|].
  apply (postings_hold_the_documents inOrder noFootprint exBatch exStore
           exBuilt.1 exBuilt.2 ltac:(vm_compute; reflexivity)
           ltac:(vm_compute; discriminate)
           1 "dog" 2 sl ltac:(vm_compute; reflexivity) E).
Defined.

(** ** Documents that name no field twice *)

(** Without wrap-around, different registered names have different ids. *)
Lemma fieldIdOf_inj s n1 n2 :
  registryOK s → len (FieldsInv s) ≤ 2 ^ 16 →
  is_Some (FieldsMap s !! n1) → is_Some (FieldsMap s !! n2) →
  fieldIdOf s n1 = fieldIdOf s n2 → n1 = n2.
Proof.
  intros (_ & _ & _ & Hnd & Hmap) Hlen [v1 H1] [v2 H2].
  unfold fieldIdOf, extId. rewrite H1, H2. simpl.
  apply Hmap in H1 as (k1 & Hk1 & ->). apply Hmap in H2 as (k2 & Hk2 & ->).
  rewrite !uint16_pred_succ.
  apply lookup_lt_Some in Hk1 as L1. apply lookup_lt_Some in Hk2 as L2.
  unfold len in Hlen. rewrite !uint16_small by lia. intros E.
  apply Nat2Z.inj in E as ->. congruence.
Qed.

Lemma collateItem_grows docNum it a a' :
  collateItem docNum it a = Ok a' → grows (aseg a) (aseg a').
Proof.
  unfold collateItem.
  pose proof (getOrDefineField_grows (iName it) (aseg a)) as Hg.
  destruct (getOrDefineField _ _) as [f s]. simpl in *.
  intros ([c h] & _ & Hrest)%bind_Ok.
  apply bind_Ok in Hrest as (s' & Hs' & [= <-]). simpl.
  assert (grows s s') as Hg'.
  { destruct (iField it) as [fld|];
      [|injection Hs' as <-; apply grows_refl].
    destruct (IsStored fld); [|injection Hs' as <-; apply grows_refl].
    apply storeField_keeps in Hs' as (Hsame & _). by apply sameDicts_grows. }
  eapply grows_trans; [exact Hg|]. eapply grows_trans; [exact Hg'|].
  destruct (iField it) as [fld|]; [|apply grows_refl].
  destruct (IncludeDocValues fld); exact (grows_refl s').
Qed.

Lemma collateItems_grow docNum items a a' :
  forEach (collateItem docNum) items a = Ok a' → grows (aseg a) (aseg a').
Proof.
  apply (forEach_preserves _ (λ t, grows (aseg a) (aseg t)));
    [apply grows_refl|].
  intros it t t' _ Ht Hstep. eapply grows_trans; [exact Ht|].
  by eapply collateItem_grows.
Qed.

Lemma collateItem_FieldsMap docNum it a a' :
  collateItem docNum it a = Ok a' →
  FieldsMap (aseg a') = FieldsMap (getOrDefineField (iName it) (aseg a)).2.
Proof.
  unfold collateItem. destruct (getOrDefineField _ _) as [f s]. simpl.
  intros ([c h] & _ & Hrest)%bind_Ok.
  apply bind_Ok in Hrest as (s' & Hs' & [= <-]). simpl.
  assert (FieldsMap s' = FieldsMap s) as <-.
  { destruct (iField it) as [fld|]; [|by injection Hs' as <-].
    destruct (IsStored fld); [|by injection Hs' as <-].
    by apply storeField_keeps in Hs' as ((? & _) & _). }
  destruct (iField it) as [fld|]; [|done].
  by destruct (IncludeDocValues fld).
Qed.

Lemma collateItem_field docNum it a a' :
  collateItem docNum it a = Ok a' →
  uint16 (getOrDefineField (iName it) (aseg a)).1
  = fieldIdOf (aseg a') (iName it).
Proof.
  intros H%collateItem_FieldsMap.
  unfold fieldIdOf, extId. rewrite H.
  destruct (FieldsMap (aseg a) !! iName it) as [v|] eqn:E.
  - rewrite (getOrDefineField_known _ _ _ E). simpl. rewrite E. simpl.
    apply uint16_idemp.
  - destruct (getOrDefineField_new _ _ E) as (-> & _ & _ & _ & ->).
    rewrite lookup_insert_eq. simpl.
    by rewrite uint16_pred_succ, uint16_idemp.
Qed.

(** The collation of fields with pairwise different ids merges nothing:
    every field keeps its own map, and the store is left as it is. *)
Lemma collate_no_merge sF s0 St Ty Po docNum items :
  docNum = len St → docNum = len Ty → docNum = len Po →
  (∀ n1 n2, is_Some (FieldsMap sF !! n1) → is_Some (FieldsMap sF !! n2) →
            fieldIdOf sF n1 = fieldIdOf sF n2 → n1 = n2) →
  ∀ pre a0 a,
    (∀ it fld, it ∈ items → iField it = Some fld → Name fld = iName it) →
    forEach (collateItem docNum) items a0 = Ok a →
    grows (aseg a) sF →
    collateInv s0 St Ty Po pre a0 →
    NoDup (iName <$> (pre ++ items)) →
    (∀ it, it ∈ pre →
           docMap (acoll a0) !! fieldIdOf sF (iName it) = Some (iFreqs it)) →
    astore a = astore a0 ∧
    (∀ it, it ∈ pre ++ items →
           docMap (acoll a) !! fieldIdOf sF (iName it) = Some (iFreqs it)).
Proof.
  intros HSt HTy HPo Hinj.
  induction items as [|it items IH]; intros pre a0 a Hwf Hrun HgF Hinv Hnd Hall.
  { injection Hrun as <-. rewrite app_nil_r. by split. }
  simpl in Hrun. apply bind_Ok in Hrun as (a1 & Hstep & Hrest).
  assert (collateInv s0 St Ty Po (pre ++ [it]) a1) as Hinv1.
  { eapply collateItem_step; try done. intros fld. apply Hwf. left. }
  pose proof (collateItem_grows _ _ _ _ Hstep) as Hg01.
  pose proof (collateItems_grow _ _ _ _ Hrest) as Hg1.
  assert (grows (aseg a1) sF) as Hg1F by (by eapply grows_trans).
  assert (grows (aseg a0) sF) as Hg0F by (by eapply grows_trans).
  pose proof Hinv as (_ & _ & _ & Hnames0 & _ & _ & Hmap0 & _).
  pose proof Hinv1 as (_ & _ & _ & Hnames1 & _).
  assert (∀ it', it' ∈ pre ++ [it] → is_Some (FieldsMap sF !! iName it'))
    as HregF.
  { intros it' Hin. destruct (Hnames1 _ Hin) as [v Hv]. exists v.
    destruct Hg1F as [Hsub _]. by eapply lookup_weaken. }
  assert (uint16 (getOrDefineField (iName it) (aseg a0)).1
          = fieldIdOf sF (iName it)) as Hf.
  { rewrite (collateItem_field _ _ _ _ Hstep). symmetry.
    apply grows_fieldIdOf; [done|]. apply Hnames1.
    apply elem_of_app. right. left. }
  rewrite fmap_app, fmap_cons in Hnd.
  apply NoDup_app in Hnd as (Hnd1 & Hdisj & Hnd2).
  assert (∀ it', it' ∈ pre → fieldIdOf sF (iName it') ≠ fieldIdOf sF (iName it))
    as Hne.
  { intros it' Hin E. apply Hinj in E.
    - apply (Hdisj (iName it')); [by apply list_elem_of_fmap_2|].
      rewrite E. left.
    - apply HregF, elem_of_app. by left.
    - apply HregF, elem_of_app. right. left. }
  assert (docMap (acoll a0) !! fieldIdOf sF (iName it) = None) as Hfree.
  { destruct (docMap (acoll a0) !! fieldIdOf sF (iName it)) as [ex|] eqn:E;
      [|done]. exfalso.
    destruct (Hmap0 _ _ E) as (name & (it' & [= -> _] & Hin)%list_elem_of_fmap
                                 & Hid).
    apply (Hne it' Hin). rewrite <- Hid.
    apply grows_fieldIdOf; [done|]. by apply Hnames0. }
  pose proof (collateItem_store _ _ _ _ Hstep) as Hpf.
  apply processField_Ok in Hpf as [Hc1 Hs1].
  rewrite Hf, Hfree in Hs1, Hc1.
  destruct (IH (pre ++ [it]) a1 a) as [Hst Hdm]; try done.
  - intros it' fld Hin. apply Hwf. by right.
  - rewrite <- app_assoc. simpl. rewrite fmap_app, fmap_cons.
    apply NoDup_app. by split_and!.
  - intros it' [Hin|Hin]%elem_of_app; rewrite Hc1; simpl.
    + rewrite lookup_insert_ne by (intros E; by apply (Hne it' Hin)).
      by apply Hall.
    + apply list_elem_of_singleton in Hin as ->. by rewrite lookup_insert_eq.
  - split; [congruence|]. intros it' Hin. apply Hdm.
    by rewrite <- app_assoc.
Qed.

Section PlainDocuments.

Context (sched : Schedule).

Lemma fieldsOf_names r :
  aligned r → (fieldsOf r).*1 = iName <$> itemsOf r.
Proof.
  intros Hal. destruct (itemsOf_fields r Hal) as (_ & <- & _).
  by rewrite <- list_fmap_compose.
Qed.

(** The assembly of a document that names no field twice, in a run that
    ends with no more than 65536 names registered. *)
Lemma plain_document results h stn d r st a :
  assembledUpTo sched results h (length results) = Ok stn →
  len (FieldsInv (seg stn)) ≤ 2 ^ 16 →
  NoDup (fieldsOf r).*1 →
  results !! d = Some r →
  assembledUpTo sched results h d = Ok st →
  collate r (Z.of_nat d)
    {| aseg := (addDocument (seg st)).2; astore := store st;
       acoll := emptyCollation |} = Ok a →
  astore a = store st ∧
  ∀ f addr,
    docMap (acoll a) !! f = Some addr ↔
    ∃ name, (name, addr) ∈ fieldsOf r ∧ fieldIdOf (seg stn) name = f.
Proof.
  intros Hn Hlen Hnd Hr Hst Hcol.
  apply lookup_lt_Some in Hr as Hd.
  assert (S d ≤ length results)%nat as HSd by lia.
  assert (d ≤ length results)%nat as Hd' by lia.
  destruct (assembledUpTo_prefix _ _ _ _ (S d) _ HSd Hn) as [st' Hst'].
  destruct (assembledUpTo_step _ _ _ _ _ _ Hr Hst') as (st0 & Hst0 & Hdoc).
  assert (st0 = st) as -> by congruence.
  destruct (run_inv _ _ _ _ _ Hd' Hst)
    as (st1 & _ & (Hreg & Hpost & L1 & L2 & L3) & _).
  destruct (run_inv _ _ _ _ _ (Nat.le_refl _) Hn)
    as (_ & _ & (Hregn & _) & _).
  destruct (processDocument_spec _ _ _ _ _ Hreg Hpost
              ltac:(congruence) ltac:(congruence) Hdoc)
    as (a' & Hcol' & Hinv & Hal & _ & _ & _ & _ & Hga & _).
  cbv zeta in Hcol', Hinv. rewrite L1 in Hcol'.
  assert (a' = a) as -> by congruence.
  destruct (run_mono _ _ _ _ _ _ _ HSd (Nat.le_refl _) Hst' Hn) as (Hg' & _).
  assert (grows (aseg a) (seg stn)) as HgF by (by eapply grows_trans).
  pose proof (addDocument_spec (seg st)) as (_ & Hsame0 & _ & Hdoc0 & _).
  apply collate_items in Hcol as [Hitems _].
  destruct (collate_no_merge (seg stn) (addDocument (seg st)).2
              (Stored (seg st)) (StoredTypes (seg st)) (StoredPos (seg st))
              (Z.of_nat d) (itemsOf r)
              ltac:(congruence) ltac:(congruence) ltac:(congruence)
              (λ n1 n2, fieldIdOf_inj _ n1 n2 Hregn Hlen)
              [] _ a (itemsOf_wf r) Hitems HgF) as [Hs Hdm].
  - apply collateInv_nil; [by eapply sameDicts_registryOK|done].
  - simpl. by rewrite <- fieldsOf_names.
  - by intros it ?%elem_of_nil.
  - split; [done|]. simpl in Hdm.
    destruct (itemsOf_fields r Hal) as (_ & Hflds & _).
    pose proof Hinv as (_ & _ & _ & Hnames & _ & _ & Hmap & _).
    intros f addr. split.
    + intros (name & Hin & Hid)%Hmap. exists name. rewrite <- Hflds.
      split; [done|]. rewrite <- Hid. apply grows_fieldIdOf; [done|].
      apply list_elem_of_fmap in Hin as (it & [= -> _] & Hit).
      by apply Hnames.
    + intros (name & Hin & <-). rewrite <- Hflds in Hin.
      apply list_elem_of_fmap in Hin as (it & [= -> ->] & Hit).
      by apply Hdm.
Qed.

Lemma plain_store results h stn k st :
  assembledUpTo sched results h (length results) = Ok stn →
  len (FieldsInv (seg stn)) ≤ 2 ^ 16 →
  (∀ r, r ∈ results → NoDup (fieldsOf r).*1) →
  (k ≤ length results)%nat →
  assembledUpTo sched results h k = Ok st → store st = h.
Proof.
  intros Hn Hlen Hnd. revert st. induction k as [|k IH]; intros st Hk Hst.
  { rewrite assembledUpTo_0 in Hst.
    by apply initializeDict_spec in Hst as (_ & _ & _ & _ & _ & _ & _ & ? & _). }
  destruct (lookup_lt_is_Some_2 results k) as [r Hr]; [lia|].
  destruct (assembledUpTo_step _ _ _ _ _ _ Hr Hst) as (st0 & Hst0 & Hdoc).
  assert (k ≤ length results)%nat as Hk' by lia.
  destruct (run_inv _ _ _ _ _ Hk' Hst0)
    as (st1 & _ & (Hreg & Hpost & L1 & L2 & L3) & _).
  destruct (processDocument_spec _ _ _ _ _ Hreg Hpost
              ltac:(congruence) ltac:(congruence) Hdoc)
    as (a & Hcol & _ & _ & _ & _ & _ & _ & _ & _ & Hs & _).
  cbv zeta in Hcol. rewrite L1 in Hcol.
  destruct (plain_document _ _ _ _ _ _ _ Hn Hlen
              (Hnd _ (list_elem_of_lookup_2 _ _ _ Hr)) Hr Hst0 Hcol)
    as [Ha _].
  rewrite Hs, Ha. by apply IH.
Qed.

Lemma plain_collated results h stn d r f t tf :
  assembledUpTo sched results h (length results) = Ok stn →
  len (FieldsInv (seg stn)) ≤ 2 ^ 16 →
  (∀ r, r ∈ results → NoDup (fieldsOf r).*1) →
  results !! d = Some r →
  collated sched results h d f t tf ↔
  ∃ name addr, (name, addr) ∈ fieldsOf r ∧ fieldIdOf (seg stn) name = f ∧
               deref h addr !! t = Some tf.
Proof.
  intros Hn Hlen Hnd Hr.
  apply lookup_lt_Some in Hr as Hd.
  assert (d ≤ length results)%nat as Hd' by lia.
  pose proof (Hnd _ (list_elem_of_lookup_2 _ _ _ Hr)) as Hndr.
  split.
  - intros (r' & st & a & addr & Hr' & Hst & Hcol & Hf & Ht).
    assert (r' = r) as -> by congruence.
    destruct (plain_document _ _ _ _ _ _ _ Hn Hlen Hndr Hr Hst Hcol)
      as [Ha Hdm].
    apply Hdm in Hf as (name & Hin & Hid).
    exists name, addr. split_and!; [done|done|].
    by rewrite <- (plain_store _ _ _ _ _ Hn Hlen Hnd Hd' Hst), <- Ha.
  - intros (name & addr & Hin & Hid & Ht).
    assert (S d ≤ length results)%nat as HSd by lia.
    destruct (assembledUpTo_prefix _ _ _ _ (S d) _ HSd Hn) as [st' Hst'].
    destruct (assembledUpTo_step _ _ _ _ _ _ Hr Hst') as (st & Hst & Hdoc).
    destruct (run_inv _ _ _ _ _ Hd' Hst)
      as (st1 & _ & (Hreg & Hpost & L1 & L2 & L3) & _).
    destruct (processDocument_spec _ _ _ _ _ Hreg Hpost
                ltac:(congruence) ltac:(congruence) Hdoc)
      as (a & Hcol & _).
    cbv zeta in Hcol. rewrite L1 in Hcol.
    destruct (plain_document _ _ _ _ _ _ _ Hn Hlen Hndr Hr Hst Hcol)
      as [Ha Hdm].
    exists r, st, a, addr. split_and!; [done|done|done| |].
    + apply Hdm. eauto.
    + by rewrite Ha, (plain_store _ _ _ _ _ Hn Hlen Hnd Hd' Hst).
Qed.

End PlainDocuments.

(** X11.  When the batch has no more than 2^32 documents, no document
    names a field twice and the build ends with no more than 65536 names
    registered, the build leaves the token-frequency maps as it was given
    them, and the posting of a (field id, term) pair holds exactly the
    documents that have a field of that id whose map has the term; the
    frequency that stands at the place of a member is the one of that
    map, and the member is in the location bitmap exactly when the map
    gives the term locations. *)
Theorem plain_documents_index sched footprint results h s h' :
  NewFromAnalyzedDocs sched footprint results h = Ok (s, h') →
  len results ≤ 2 ^ 32 →
  len (FieldsInv s) ≤ 2 ^ 16 →
  (∀ r, r ∈ results → NoDup (fieldsOf r).*1) →
  h' = h ∧
  ∀ f t v sl,
    dictLookup s f t = Some v → slot s (v - 1) = Some sl →
    (∀ (d : nat) r,
       results !! d = Some r →
       Z.of_nat d ∈ sPostings sl ↔
       ∃ name addr, (name, addr) ∈ fieldsOf r ∧ fieldIdOf s name = f ∧
                    t ∈ dom (deref h addr)) ∧
    (∀ K (d : nat),
       members (sPostings sl) !! K = Some (Z.of_nat d) →
       ∃ r name addr tf,
         results !! d = Some r ∧ (name, addr) ∈ fieldsOf r ∧
         fieldIdOf s name = f ∧ deref h addr !! t = Some tf ∧
         sFreqs sl !! K = Some (uint64 (Frequency tf)) ∧
         (Z.of_nat d ∈ sPostingsLocs sl ↔ Locations tf ≠ [])).
Proof.
  intros Hrun Hb Hlen Hnd.
  pose proof (members_collated _ _ _ _ _ _ Hrun Hb) as Hmem.
  apply NewFromAnalyzedDocs_Ok in Hrun
    as (stn & Hn & -> & -> & _ & _ & _ & HFI & _).
  rewrite HFI in Hlen. split.
  { by apply (plain_store sched results h stn (length results) stn). }
  intros f t v sl Hv Hsl. destruct (Hmem _ _ _ _ Hv Hsl) as [H1 H2]. split.
  - intros d r Hr. rewrite H1. split.
    + intros (d' & tf & ->%Nat2Z.inj & Hc).
      apply (plain_collated sched results h stn d' r) in Hc
        as (name & addr & ? & ? & ?); try done.
      exists name, addr. split_and!; [done|done|]. apply elem_of_dom. eauto.
    + intros (name & addr & Hin & Hid & [tf Ht]%elem_of_dom).
      exists d, tf. split; [done|].
      apply (plain_collated sched results h stn d r); try done.
      by exists name, addr.
  - intros K d HK. destruct (H2 _ _ HK) as (tf & Hc & Hfr & Hloc).
    pose proof Hc as (r & _ & _ & _ & Hr & _).
    apply (plain_collated sched results h stn d r) in Hc
      as (name & addr & ? & ? & ?); try done.
    by exists r, name, addr, tf.
Qed.

Lemma plain_documents_index_witness :
  exBuilt.2 = exStore ∧
  ∃ sl, slot exBuilt.1 (2 - 1) = Some sl ∧
        (Z.of_nat 1 ∈ sPostings sl ↔
         ∃ name addr, (name, addr) ∈ fieldsOf exDoc1 ∧
                      fieldIdOf exBuilt.1 name = 1 ∧
                      "dog" ∈ dom (deref exStore addr)).
Proof.
  assert (∀ r, r ∈ exBatch → NoDup (fieldsOf r).*1) as Hnd.
  { intros r [->|[->|[]%elem_of_nil]%elem_of_cons]%elem_of_cons;
      apply NoDup_singleton. }
  destruct (plain_documents_index inOrder noFootprint exBatch exStore
              exBuilt.1 exBuilt.2 ltac:(vm_compute; reflexivity)
              ltac:(vm_compute; discriminate)
              ltac:(vm_compute; discriminate) Hnd) as [Hs Hp].
  split; [exact Hs|].
  destruct (slot exBuilt.1 (2 - 1)) as [sl|] eqn:E;
    [|vm_compute in E; discriminate E].
  exists sl. split; [done|].
  destruct (Hp 1 "dog" 2 sl ltac:(vm_compute; reflexivity) E) as [H _].
  apply (H 1%nat exDoc1). reflexivity.
Defined.

(** ** Fields with doc values *)

Lemma collateItem_docValues docNum it a a' :
  collateItem docNum it a = Ok a' →
  DocValueFields (aseg a')
  = match iField it with
    | Some fld =>
        if IncludeDocValues fld
        then <[fieldIdOf (aseg a') (iName it) := true]>
               (DocValueFields (aseg a))
        else DocValueFields (aseg a)
    | None => DocValueFields (aseg a)
    end.
Proof.
  intros Hrun. rewrite <- (collateItem_field _ _ _ _ Hrun).
  unfold collateItem in Hrun.
  pose proof (getOrDefineField_frame (iName it) (aseg a)) as (_ & _ & Hdv & _).
  destruct (getOrDefineField _ _) as [f s]. simpl in *.
  apply bind_Ok in Hrun as ([c h] & _ & Hrun).
  apply bind_Ok in Hrun as (s' & Hs' & [= <-]). simpl.
  assert (DocValueFields s' = DocValueFields (aseg a)) as <-.
  { rewrite <- Hdv.
    destruct (iField it) as [fld|]; [|by injection Hs' as <-].
    destruct (IsStored fld); [|by injection Hs' as <-].
    by apply storeField_keeps in Hs' as (_ & _ & _ & _ & _ & ?). }
  destruct (iField it) as [fld|]; [|done].
  by destruct (IncludeDocValues fld).
Qed.

(** The doc-value flags after the collation of a document: those there
    before, and the ids of its regular fields that ask for doc values. *)
Lemma collate_docValues sF s0 St Ty Po docNum items :
  docNum = len St → docNum = len Ty → docNum = len Po →
  ∀ pre a0 a,
    (∀ it fld, it ∈ items → iField it = Some fld → Name fld = iName it) →
    forEach (collateItem docNum) items a0 = Ok a →
    grows (aseg a) sF →
    collateInv s0 St Ty Po pre a0 →
    (∀ f b, DocValueFields (aseg a0) !! f = Some b → b = true) →
    (∀ f b, DocValueFields (aseg a) !! f = Some b → b = true) ∧
    ∀ f, DocValueFields (aseg a) !! f = Some true ↔
         DocValueFields (aseg a0) !! f = Some true ∨
         ∃ fld, fld ∈ omap iField items ∧ IncludeDocValues fld = true ∧
                fieldIdOf sF (Name fld) = f.
Proof.
  intros HSt HTy HPo.
  induction items as [|it items IH]; intros pre a0 a Hwf Hrun HgF Hinv Htrue.
  { injection Hrun as <-. split; [done|]. intros f. split; [by left|].
    intros [?|(fld & ?%elem_of_nil & _)]; done. }
  simpl in Hrun. apply bind_Ok in Hrun as (a1 & Hstep & Hrest).
  assert (collateInv s0 St Ty Po (pre ++ [it]) a1) as Hinv1.
  { eapply collateItem_step; try done. intros fld. apply Hwf. left. }
  pose proof (collateItems_grow _ _ _ _ Hrest) as Hg1.
  assert (grows (aseg a1) sF) as Hg1F by (by eapply grows_trans).
  pose proof Hinv1 as (_ & _ & _ & Hnames1 & _).
  assert (fieldIdOf (aseg a1) (iName it) = fieldIdOf sF (iName it)) as Hf.
  { symmetry. apply grows_fieldIdOf; [done|]. apply Hnames1.
    apply elem_of_app. right. left. }
  pose proof (collateItem_docValues _ _ _ _ Hstep) as Hdv. rewrite Hf in Hdv.
  assert (∀ f b, DocValueFields (aseg a1) !! f = Some b → b = true) as Htrue1.
  { intros f b. rewrite Hdv. destruct (iField it) as [fld|]; [|apply Htrue].
    destruct (IncludeDocValues fld); [|apply Htrue].
    intros [[_ <-]|[_ ?]]%lookup_insert_Some; [done|by eapply Htrue]. }
  destruct (IH (pre ++ [it]) a1 a) as [Hall Hiff]; try done.
  { intros it' fld Hin. apply Hwf. by right. }
  split; [done|]. intros f. rewrite Hiff, Hdv. simpl.
  destruct (iField it) as [fld|] eqn:Efld; simpl.
  - assert (Name fld = iName it) as Hname by (apply Hwf; [left|done]).
    destruct (IncludeDocValues fld) eqn:Edv.
    + rewrite lookup_insert_Some. split.
      * intros [[[<- _]|[_ ?]]|(fld' & Hin & ? & ?)]; [right|by left|right].
        -- exists fld. rewrite Hname. split_and!; [left|done|done].
        -- exists fld'. split_and!; [by right|done|done].
      * intros [?|(fld' & [->|Hin]%elem_of_cons & Hdv' & Hid)].
        -- destruct (decide (fieldIdOf sF (iName it) = f)); [|by left; right].
           left. by left.
        -- left. left. by rewrite <- Hname.
        -- right. by exists fld'.
    + split.
      * intros [?|(fld' & Hin & ? & ?)]; [by left|right].
        exists fld'. split_and!; [by right|done|done].
      * intros [?|(fld' & [->|Hin]%elem_of_cons & Hdv' & Hid)];
          [by left|congruence|right; by exists fld'].
  - done.
Qed.

Section DocValues.

Context (sched : Schedule).

Lemma processDocument_docValues ord r st st' :
  registryOK (seg st) → postingsOK ord (seg st) →
  len (StoredTypes (seg st)) = len (Stored (seg st)) →
  len (StoredPos (seg st)) = len (Stored (seg st)) →
  processDocument sched r st = Ok st' →
  ∃ a,
    collate r (len (Stored (seg st)))
      {| aseg := (addDocument (seg st)).2; astore := store st;
         acoll := emptyCollation |} = Ok a ∧
    DocValueFields (seg st') = DocValueFields (aseg a).
Proof.
  intros Hreg Hpost HTy HPo Hrun. unfold processDocument in Hrun.
  pose proof (addDocument_spec (seg st))
    as (HdocNum & Hsame0 & Harr0 & Hdoc0 & _).
  destruct (addDocument (seg st)) as [docNum s0]. simpl in *. subst docNum.
  apply bind_Ok in Hrun as (a & Hcol & Hrun).
  apply bind_Ok in Hrun as ([s1 n1] & Hwalk & [= <-]).
  exists a. split; [done|]. simpl.
  apply collate_spec with (St := Stored (seg st)) (Ty := StoredTypes (seg st))
    (Po := StoredPos (seg st)) in Hcol as Hinv; try done;
    [|by eapply sameDicts_registryOK].
  destruct Hinv as [(Hreg1 & Hg1 & Harr1 & _) _].
  apply walkFields_flat in Hwalk as [Hwalk _].
  assert (postingsOK ord (aseg a)) as Hpost1.
  { apply (postingsOK_frame ord (seg st)); [congruence| |done].
    eapply grows_trans; [by apply sameDicts_grows|done]. }
  assert (NoDup (walked sched (astore a) (S (clock st))
                   (range sched (clock st) (docMap (acoll a)))).*1) as Hnd.
  { apply walked_NoDup, range_NoDup. }
  by destruct (walkEntries_spec ord _ _ _ _ _ Hreg1 Hpost1 Hnd Hwalk)
    as (_ & _ & _ & _ & ? & _).
Qed.

(** The doc-value flags after the first pass and [k] documents, by the
    field ids of the final state [stn] of the run. *)
Lemma run_docValues results h stn k st :
  assembledUpTo sched results h (length results) = Ok stn →
  (k ≤ length results)%nat →
  assembledUpTo sched results h k = Ok st →
  (∀ f b, DocValueFields (seg st) !! f = Some b → b = true) ∧
  ∀ f, DocValueFields (seg st) !! f = Some true ↔
       ∃ (d : nat) r fld,
         (d < k)%nat ∧ results !! d = Some r ∧ fld ∈ Fields (Doc r) ∧
         IncludeDocValues fld = true ∧ fieldIdOf (seg stn) (Name fld) = f.
Proof.
  intros Hn. revert st. induction k as [|k IH]; intros st Hk Hst.
  { rewrite assembledUpTo_0 in Hst.
    apply initializeDict_spec in Hst as (_ & _ & _ & _ & _ & _ & Hdv & _).
    rewrite Hdv. split; [by intros f b ?%lookup_empty_Some|].
    intros f. rewrite lookup_empty. split; [done|].
    intros (d & _ & _ & ? & _). lia. }
  destruct (lookup_lt_is_Some_2 results k) as [r Hr]; [lia|].
  destruct (assembledUpTo_step _ _ _ _ _ _ Hr Hst) as (st0 & Hst0 & Hdoc).
  assert (k ≤ length results)%nat as Hk' by lia.
  destruct (IH _ Hk' Hst0) as [Htrue0 Hiff0].
  destruct (run_inv _ _ _ _ _ Hk' Hst0)
    as (st1 & _ & (Hreg & Hpost & L1 & L2 & L3) & _).
  destruct (processDocument_spec _ _ _ _ _ Hreg Hpost
              ltac:(congruence) ltac:(congruence) Hdoc)
    as (a & Hcol & Hinv & Hal & _ & _ & _ & _ & Hga & _).
  destruct (processDocument_docValues _ _ _ _ Hreg Hpost
              ltac:(congruence) ltac:(congruence) Hdoc)
    as (a' & Hcol' & Hdv).
  cbv zeta in Hcol, Hinv.
  assert (a' = a) as -> by congruence.
  destruct (run_mono _ _ _ _ _ _ _ Hk (Nat.le_refl _) Hst Hn) as (Hg' & _).
  assert (grows (aseg a) (seg stn)) as HgF by (by eapply grows_trans).
  pose proof (addDocument_spec (seg st0)) as (_ & Hsame0 & _ & Hdoc0 & _).
  apply collate_items in Hcol as [Hitems _].
  destruct (collate_docValues (seg stn) (addDocument (seg st0)).2
              (Stored (seg st0)) (StoredTypes (seg st0))
              (StoredPos (seg st0)) (len (Stored (seg st0))) (itemsOf r)
              eq_refl ltac:(congruence) ltac:(congruence)
              [] _ a (itemsOf_wf r) Hitems HgF) as [Htrue Hiff].
  - apply collateInv_nil; [by eapply sameDicts_registryOK|done].
  - exact Htrue0.
  - rewrite Hdv. split; [done|]. intros f. rewrite Hiff. simpl.
    destruct (itemsOf_fields r Hal) as (-> & _).
    change (DocValueFields (addDocument (seg st0)).2)
      with (DocValueFields (seg st0)).
    rewrite Hiff0. split.
    + intros [(d & r' & fld & ? & ? & ? & ? & ?)|(fld & ? & ? & ?)].
      * exists d, r', fld. split_and!; try done. lia.
      * exists k, r, fld. split_and!; try done. lia.
    + intros (d & r' & fld & Hd & Hr' & Hin & Hv & Hid).
      destruct (decide (d = k)) as [->|Hne].
      * right. assert (r' = r) as -> by congruence. by exists fld.
      * left. exists d, r', fld. split_and!; try done. lia.
Qed.

End DocValues.

(** X12.  In a built segment a field id is flagged for doc values exactly
    when some regular field of some document of the batch with that id
    asks for them; no field id is flagged with false. *)
Theorem doc_value_fields sched footprint results h s h' :
  NewFromAnalyzedDocs sched footprint results h = Ok (s, h') →
  (∀ f b, DocValueFields s !! f = Some b → b = true) ∧
  ∀ f, DocValueFields s !! f = Some true ↔
       ∃ r fld, r ∈ results ∧ fld ∈ Fields (Doc r) ∧
                IncludeDocValues fld = true ∧ fieldIdOf s (Name fld) = f.
Proof.
  intros (stn & Hn & -> & _)%NewFromAnalyzedDocs_Ok.
  destruct (run_docValues _ _ _ _ _ _ Hn (Nat.le_refl _) Hn) as [Htrue Hiff].
  split; [exact Htrue|]. intros f.
  change (DocValueFields (updateSizeInBytes footprint (sortDictKeys (seg stn))))
    with (DocValueFields (seg stn)).
  rewrite Hiff. split.
  - intros (d & r & fld & _ & Hr & ? & ? & ?). exists r, fld.
    split_and!; try done. by eapply list_elem_of_lookup_2.
  - intros (r & fld & (d & Hd)%list_elem_of_lookup_1 & ? & ? & ?).
    exists d, r, fld. split_and!; try done. by eapply lookup_lt_Some.
Qed.

Lemma doc_value_fields_witness :
  DocValueFields exPricedBuilt.1 !! 1 = Some true.
Proof.
  destruct (doc_value_fields inOrder noFootprint [exPricedDoc] exStore
              exPricedBuilt.1 exPricedBuilt.2 ltac:(vm_compute; reflexivity))
    as [_ H].
  apply H. exists exPricedDoc. eexists. split_and!.
  - left.
  - left.
  - reflexivity.
  - vm_compute. reflexivity.
Defined.

(** ** The locations of a posting *)

Lemma located_nil s sl : located s [] sl sl.
Proof. unfold located. simpl. by rewrite !app_nil_r. Qed.

Lemma located_app s l1 l2 sl0 sl1 sl2 :
  located s l1 sl0 sl1 → located s l2 sl1 sl2 → located s (l1 ++ l2) sl0 sl2.
Proof.
  intros (A1 & A2 & A3 & A4 & A5) (B1 & B2 & B3 & B4 & B5).
  unfold located. rewrite B1, B2, B3, B4, B5, A1, A2, A3, A4, A5.
  by rewrite !fmap_app, !app_assoc.
Qed.

Lemma walkLocation_content ord pid fieldID loc s s' sl sF :
  registryOK s → postingsOK ord s → slot s pid = Some sl →
  walkLocation pid fieldID loc s = Ok s' → grows s' sF →
  ∃ sl', slot s' pid = Some sl' ∧ located sF [(fieldID, loc)] sl sl'.
Proof.
  intros Hreg Hpost Hsl Hrun HgF. unfold walkLocation in Hrun.
  set (r := if decide (Field loc = EmptyString) then (fieldID, s)
            else let '(f, s0) := getOrDefineField (Field loc) s in
                 (uint16 f, s0)) in Hrun.
  assert (arrays r.2 = arrays s ∧
          (Field loc = EmptyString ∧ r.1 = fieldID ∨
           Field loc ≠ EmptyString ∧ is_Some (FieldsMap r.2 !! Field loc) ∧
           r.1 = fieldIdOf r.2 (Field loc))) as (Ha1 & Hlocf).
  { subst r. case_decide as E; [split; [done|by left]|].
    pose proof (getOrDefineField_frame (Field loc) s) as (? & _).
    pose proof (getOrDefineField_id (Field loc) s Hreg) as (Hext & _ & Hu).
    destruct (getOrDefineField (Field loc) s) as [f0 s0]. simpl in *.
    split; [done|]. right. split; [done|]. unfold fieldIdOf. rewrite Hext.
    simpl. split; [|done]. unfold extId in Hext.
    destruct (FieldsMap s0 !! Field loc); [eauto|done]. }
  destruct r as [locf s1]. simpl in *.
  apply (slot_arrays _ _ pid) in Ha1 as Hsl1. rewrite Hsl in Hsl1.
  apply slot_Some in Hsl1 as (G1 & G2 & G3 & G4 & G5 & G6 & G7 & G8 & G9).
  apply bind_Ok in Hrun as (lf & (x1 & Hx1 & ->)%modify_Ok & Hrun).
  apply bind_Ok in Hrun as (ls & (x2 & Hx2 & ->)%modify_Ok & Hrun).
  apply bind_Ok in Hrun as (le & (x3 & Hx3 & ->)%modify_Ok & Hrun).
  apply bind_Ok in Hrun as (lp & (x4 & Hx4 & ->)%modify_Ok & Hrun).
  simpl in *.
  assert (s' = set_Locarraypos
                 (<[Z.to_nat pid := sLocarraypos sl ++ [ArrayPositions loc]]>
                    (Locarraypos s1))
                 (set_Locpos (<[Z.to_nat pid := x4 ++ [uint64 (Position loc)]]> (Locpos s1))
                    (set_Locends (<[Z.to_nat pid := x3 ++ [uint64 (End_ loc)]]> (Locends s1))
                       (set_Locstarts (<[Z.to_nat pid := x2 ++ [uint64 (Start loc)]]> (Locstarts s1))
                          (set_Locfields (<[Z.to_nat pid := x1 ++ [locf]]> (Locfields s1)) s1)))))
    as ->.
  { destruct (0 <? len (ArrayPositions loc)) eqn:E;
      apply bind_Ok in Hrun as (la & (x5 & Hx5 & ->)%modify_Ok & [= <-]);
      simpl in *; rewrite G9 in Hx5; injection Hx5 as <-; [done|].
    apply Z.ltb_ge in E.
    destruct (ArrayPositions loc); [done|unfold len in E; simpl in E; lia]. }
  clear Hrun.
  rewrite G5 in Hx1. rewrite G6 in Hx2. rewrite G7 in Hx3. rewrite G8 in Hx4.
  injection Hx1 as <-. injection Hx2 as <-. injection Hx3 as <-.
  injection Hx4 as <-.
  exists {| sPostings := sPostings sl; sPostingsLocs := sPostingsLocs sl;
            sFreqs := sFreqs sl; sNorms := sNorms sl;
            sLocfields := sLocfields sl ++ [locf];
            sLocstarts := sLocstarts sl ++ [uint64 (Start loc)];
            sLocends := sLocends sl ++ [uint64 (End_ loc)];
            sLocpos := sLocpos sl ++ [uint64 (Position loc)];
            sLocarraypos := sLocarraypos sl ++ [ArrayPositions loc] |}.
  split.
  - apply slot_Some. simpl.
    rewrite !(get_insert _ pid pid) by (apply get_is_Some; eauto).
    rewrite !decide_True by done. by split_and!.
  - unfold located. simpl. split_and!; try done. do 2 f_equal.
    unfold locField. simpl.
    destruct Hlocf as [[E ->]|(E & Hin & ->)].
    + by rewrite decide_True.
    + rewrite decide_False by done. symmetry.
      apply (grows_fieldIdOf s1 sF); [exact HgF|exact Hin].
Qed.

Lemma walkLocations_content ord pid fieldID locs s s' sl sF :
  registryOK s → postingsOK ord s → slot s pid = Some sl →
  forEach (walkLocation pid fieldID) locs s = Ok s' → grows s' sF →
  ∃ sl', slot s' pid = Some sl' ∧
         located sF ((λ loc, (fieldID, loc)) <$> locs) sl sl'.
Proof.
  revert s sl. induction locs as [|loc locs IH]; intros s sl Hreg Hpost Hsl.
  { intros [= <-] _. exists sl. split; [done|apply located_nil]. }
  simpl. intros (s1 & Hloc & Hrest)%bind_Ok HgF.
  destruct (walkLocation_spec _ _ _ _ _ _ _ Hreg Hpost Hsl Hloc)
    as (Hreg1 & Hpost1 & _ & _ & _ & (sl1 & Hsl1 & _) & _).
  destruct (walkLocations_spec _ _ _ _ _ _ _ Hreg1 Hpost1 Hsl1 Hrest)
    as (_ & _ & Hg1 & _).
  destruct (walkLocation_content _ _ _ _ _ _ _ sF Hreg Hpost Hsl Hloc)
    as (sl1' & Hsl1' & Hc1); [by eapply grows_trans|].
  assert (sl1' = sl1) as -> by congruence.
  destruct (IH _ _ Hreg1 Hpost1 Hsl1 Hrest HgF) as (sl' & Hsl' & Hc).
  exists sl'. split; [done|].
  by apply (located_app _ [(fieldID, loc)] _ _ _ _ Hc1).
Qed.

Lemma walkTerm_content ord docNum lens fieldID term tf s s' sF :
  registryOK s → postingsOK ord s →
  walkTerm docNum lens fieldID (term, tf) s = Ok s' → grows s' sF →
  ∃ v sl sl',
    dictLookup s fieldID term = Some v ∧
    slot s (v - 1) = Some sl ∧ slot s' (v - 1) = Some sl' ∧
    located sF (locationsOf fieldID tf) sl sl'.
Proof.
  intros Hreg Hpost Hrun HgF.
  destruct (walkTerm_spec _ _ _ _ _ _ _ _ Hreg Hpost Hrun)
    as (_ & _ & _ & _ & _ & v & sl & sl' & Hlook & Hsl & Hsl' & _).
  exists v, sl, sl'. split_and!; [done..|].
  unfold walkTerm in Hrun.
  apply bind_Ok in Hrun as (dict & Hdict%index_Ok & Hrun).
  apply bind_Ok in Hrun as (bs & Hbs%index_Ok & Hrun).
  assert (dict !! term = Some v) as Hv.
  { unfold dictLookup in Hlook. by rewrite Hdict in Hlook. }
  rewrite Hv in Hrun, Hbs. simpl in Hrun, Hbs.
  destruct (dictLookup_ordinal _ _ _ _ _ Hpost Hlook)
    as (i & Hi & Hvi & Hpid & Hrange).
  rewrite Hpid in Hrun, Hbs.
  assert (v - 1 = Z.of_nat i) as Hp by lia. rewrite Hp in *.
  set (p := Z.of_nat i) in *.
  apply slot_Some in Hsl as Hgets.
  destruct Hgets as (G1 & G2 & G3 & G4 & G5 & G6 & G7 & G8 & G9).
  assert (bs = sPostings sl) as -> by congruence.
  apply bind_Ok in Hrun as (ps & [_ ->]%assign_Ok & Hrun).
  apply bind_Ok in Hrun as (fs & (x1 & Hx1 & ->)%modify_Ok & Hrun).
  apply bind_Ok in Hrun as (ns & (x2 & Hx2 & ->)%modify_Ok & Hrun).
  apply bind_Ok in Hrun as (lbs & Hlbs%index_Ok & Hrun).
  simpl in *. rewrite G3 in Hx1. rewrite G4 in Hx2. rewrite G2 in Hlbs.
  injection Hx1 as <-. injection Hx2 as <-. injection Hlbs as <-.
  set (s3 := set_Norms _ (set_Freqs _ (set_Postings _ s))) in *.
  pose proof Hpost as (Hd & L1 & L0 & L2 & L3 & L4 & L5 & L6 & L7 & L8 & L9).
  assert (postingsOK ord s3) as Hpost3.
  { unfold postingsOK. subst s3. simpl. rewrite !len_insert. by split_and!. }
  unfold locationsOf.
  destruct (0 <? len (Locations tf)) eqn:Elocs.
  - apply bind_Ok in Hrun as (pl & [_ ->]%assign_Ok & Hrun).
    set (s4 := set_PostingsLocs _ s3) in *.
    set (sl4 := {| sPostings := AddInt (int docNum) (sPostings sl);
                   sPostingsLocs := AddInt (int docNum) (sPostingsLocs sl);
                   sFreqs := sFreqs sl ++ [uint64 (Frequency tf)];
                   sNorms := sNorms sl
                             ++ [InvSqrt (default 0 (lens !! fieldID))];
                   sLocfields := sLocfields sl;
                   sLocstarts := sLocstarts sl; sLocends := sLocends sl;
                   sLocpos := sLocpos sl;
                   sLocarraypos := sLocarraypos sl |}).
    assert (slot s4 p = Some sl4) as Hsl4.
    { apply slot_Some. subst s4 s3 sl4. simpl.
      rewrite !(get_insert _ p p) by (apply get_is_Some; eauto).
      rewrite !decide_True by done. by split_and!. }
    assert (postingsOK ord s4) as Hpost4.
    { destruct Hpost3 as (? & ? & ? & ? & ?).
      unfold postingsOK. subst s4. simpl. rewrite !len_insert. by split_and!. }
    assert (registryOK s4) as Hreg4 by exact Hreg.
    destruct (walkLocations_content _ _ _ _ _ _ _ sF Hreg4 Hpost4 Hsl4 Hrun
                HgF) as (sl5 & Hsl5 & Hc).
    assert (sl5 = sl') as -> by congruence. exact Hc.
  - apply Z.ltb_ge in Elocs.
    assert (Locations tf = []) as ->.
    { destruct (Locations tf); [done|]. unfold len in Elocs. simpl in Elocs.
      lia. }
    injection Hrun as <-.
    assert (slot s3 p
            = Some {| sPostings := AddInt (int docNum) (sPostings sl);
                      sPostingsLocs := sPostingsLocs sl;
                      sFreqs := sFreqs sl ++ [uint64 (Frequency tf)];
                      sNorms := sNorms sl
                                ++ [InvSqrt (default 0 (lens !! fieldID))];
                      sLocfields := sLocfields sl;
                      sLocstarts := sLocstarts sl; sLocends := sLocends sl;
                      sLocpos := sLocpos sl;
                      sLocarraypos := sLocarraypos sl |}) as Hsl3.
    { apply slot_Some. subst s3. simpl.
      rewrite !(get_insert _ p p) by (apply get_is_Some; eauto).
      rewrite !decide_True by done. by split_and!. }
    rewrite Hsl3 in Hsl'. injection Hsl' as <-.
    unfold located. simpl. by rewrite !app_nil_r.
Qed.

Lemma dictLookup_same ord s s' f t :
  postingsOK ord s → postingsOK ord s' →
  dictLookup s' f t = dictLookup s f t.
Proof.
  intros [[_ H] _] [[_ H'] _].
  destruct (dictLookup s f t) as [v|] eqn:E.
  - apply H'. by apply H.
  - destruct (dictLookup s' f t) as [v|] eqn:E'; [|done].
    apply H', H in E'. congruence.
Qed.

Lemma walkEntries_keep ord docNum lens entries s s' :
  registryOK s → postingsOK ord s →
  forEach (walkEntry docNum lens) entries s = Ok s' →
  registryOK s' ∧ postingsOK ord s' ∧ grows s s'.
Proof.
  intros Hreg Hpost.
  apply (forEach_preserves _
    (λ t, registryOK t ∧ postingsOK ord t ∧ grows s t));
    [split_and!; [done|done|apply grows_refl]|].
  intros [[f t] tf] u u' _ (Hru & Hpu & Hgu) Hstep. unfold walkEntry in Hstep.
  destruct (walkTerm_spec _ _ _ _ _ _ _ _ Hru Hpu Hstep) as (? & ? & ? & _).
  split_and!; [done|done|by eapply grows_trans].
Qed.

(** What the walk of the entries of a document appends to the location
    sequences of a slot: the locations of the entries of its term, in the
    order of the walk. *)
Lemma walkEntries_content ord docNum lens entries s s' sF :
  registryOK s → postingsOK ord s →
  forEach (walkEntry docNum lens) entries s = Ok s' → grows s' sF →
  ∀ p sl, slot s p = Some sl →
    ∃ sl', slot s' p = Some sl' ∧ located sF (locsFor s p entries) sl sl'.
Proof.
  revert s. induction entries as [|e entries IH]; intros s Hreg Hpost.
  { intros [= <-] _ p sl Hsl. exists sl. split; [done|apply located_nil]. }
  simpl. intros (s1 & Hstep & Hrest)%bind_Ok HgF p sl Hsl.
  destruct e as [[f t] tf]. unfold walkEntry in Hstep. simpl in Hstep.
  destruct (walkTerm_spec _ _ _ _ _ _ _ _ Hreg Hpost Hstep)
    as (Hreg1 & Hpost1 & _ & _ & _ & v & slv & slv' & Hv & Hslv & Hslv' & _
        & Hoth).
  destruct (walkEntries_keep _ _ _ _ _ _ Hreg1 Hpost1 Hrest) as (_ & _ & Hg1).
  assert (grows s1 sF) as Hg1F by (by eapply grows_trans).
  assert (locsFor s1 p entries = locsFor s p entries) as Hsame.
  { unfold locsFor. f_equal. apply list_filter_iff. intros e.
    by rewrite (dictLookup_same ord s s1). }
  unfold locsFor. rewrite filter_cons. simpl.
  destruct (decide (dictLookup s f t = Some (p + 1))) as [Hp|Hp].
  - assert (v = p + 1) as -> by congruence.
    replace (p + 1 - 1) with p in * by lia.
    assert (slv = sl) as -> by congruence.
    destruct (walkTerm_content _ _ _ _ _ _ _ _ sF Hreg Hpost Hstep Hg1F)
      as (v' & sl0 & sl1 & Hv' & Hsl0 & Hsl1 & Hc1).
    assert (v' = p + 1) as -> by congruence.
    replace (p + 1 - 1) with p in * by lia.
    assert (sl0 = sl) as -> by congruence.
    destruct (IH _ Hreg1 Hpost1 Hrest HgF p _ Hsl1) as (sl' & Hsl' & Hc).
    exists sl'. split; [done|]. rewrite Hsame in Hc. simpl.
    by apply (located_app _ _ _ _ _ _ Hc1).
  - assert (slot s1 p = Some sl) as Hsl1.
    { rewrite Hoth; [done|]. intros ->. apply Hp. rewrite Hv. f_equal. lia. }
    destruct (IH _ Hreg1 Hpost1 Hrest HgF p _ Hsl1) as (sl' & Hsl' & Hc).
    exists sl'. split; [done|]. by rewrite Hsame in Hc.
Qed.

Lemma filter_none {A} (P : A → Prop) `{∀ x, Decision (P x)} (l : list A) :
  (∀ y, y ∈ l → ¬ P y) → filter P l = [].
Proof.
  induction l as [|y l IH]; intros Hno; [done|]. rewrite filter_cons.
  rewrite decide_False by (apply Hno; left).
  apply IH. intros z Hz. apply Hno. by right.
Qed.

Lemma filter_unique {A} (P : A → Prop) `{∀ x, Decision (P x)} (l : list A) x :
  NoDup l → x ∈ l → P x → (∀ y, y ∈ l → P y → y = x) → filter P l = [x].
Proof.
  induction l as [|y l IH]; intros Hnd Hin Hx Huniq.
  { by apply elem_of_nil in Hin. }
  apply NoDup_cons in Hnd as [Hy Hnd]. rewrite filter_cons.
  destruct (decide (P y)) as [HPy|HPy].
  - assert (y = x) as -> by (apply Huniq; [left|done]). f_equal.
    apply filter_none. intros z Hz HPz.
    assert (z = x) as -> by (apply Huniq; [by right|done]). done.
  - apply IH; [done| |done|].
    + apply elem_of_cons in Hin as [->|Hin]; done.
    + intros w Hw. apply Huniq. by right.
Qed.

Lemma NoDup_fst_unique {A B} (l : list (A * B)) k v1 v2 :
  NoDup l.*1 → (k, v1) ∈ l → (k, v2) ∈ l → v1 = v2.
Proof.
  induction l as [|[k' v'] l IH]; intros Hnd H1 H2.
  { by apply elem_of_nil in H1. }
  rewrite fmap_cons in Hnd. apply NoDup_cons in Hnd as [Hk Hnd]. simpl in Hk.
  apply elem_of_cons in H1 as [E1|H1]; apply elem_of_cons in H2 as [E2|H2].
  - congruence.
  - injection E1 as -> ->. exfalso. apply Hk. apply list_elem_of_fmap.
    by exists (k', v2).
  - injection E2 as -> ->. exfalso. apply Hk. apply list_elem_of_fmap.
    by exists (k', v1).
  - by apply IH.
Qed.

Section DocumentLocations.

Context (sched : Schedule).

(** What the assembly of document [d] appends to the location sequences
    of the slots. *)
Lemma document_locations results h d r st st' sF :
  results !! d = Some r →
  assembledUpTo sched results h d = Ok st →
  assembledUpTo sched results h (S d) = Ok st' →
  grows (seg st') sF →
  ∃ a,
    collate r (Z.of_nat d)
      {| aseg := (addDocument (seg st)).2; astore := store st;
         acoll := emptyCollation |} = Ok a ∧
    ∀ p sl, slot (seg st) p = Some sl →
      ∃ sl', slot (seg st') p = Some sl' ∧
             located sF
               (locsFor (seg st) p
                  (walked sched (astore a) (S (clock st))
                     (range sched (clock st) (docMap (acoll a)))))
               sl sl'.
Proof.
  intros Hr Hst Hst' HgF.
  destruct (assembledUpTo_step _ _ _ _ _ _ Hr Hst') as (st0 & Hst0 & Hrun).
  assert (st0 = st) as -> by congruence.
  apply lookup_lt_Some in Hr as Hd.
  assert (d ≤ length results)%nat as Hd' by lia.
  destruct (run_inv _ _ _ _ _ Hd' Hst)
    as (st1 & _ & (Hreg & Hpost & L1 & L2 & L3) & _).
  set (ord := distinctInOrder (scanIds sched (seg st1) results h)) in *.
  unfold processDocument in Hrun.
  pose proof (addDocument_spec (seg st))
    as (HdocNum & Hsame0 & Harr0 & Hdoc0 & _).
  destruct (addDocument (seg st)) as [docNum s0]. simpl in *. subst docNum.
  apply bind_Ok in Hrun as (a & Hcol & Hrun).
  apply bind_Ok in Hrun as ([s1 n1] & Hwalk & [= <-]).
  rewrite L1 in Hcol. exists a. split; [done|]. simpl in *.
  apply collate_spec with (St := Stored (seg st)) (Ty := StoredTypes (seg st))
    (Po := StoredPos (seg st)) in Hcol as Hinv; try done;
    [|by eapply sameDicts_registryOK|congruence..].
  destruct Hinv as [(Hreg1 & Hg1 & Harr1 & _) _].
  apply walkFields_flat in Hwalk as [Hwalk _].
  assert (grows (seg st) (aseg a)) as Hg.
  { eapply grows_trans; [by apply sameDicts_grows|done]. }
  assert (arrays (aseg a) = arrays (seg st)) as Harr by congruence.
  assert (postingsOK ord (aseg a)) as Hpost1
    by (by apply (postingsOK_frame ord (seg st))).
  intros p sl Hsl. rewrite <- (slot_arrays _ _ p Harr) in Hsl.
  destruct (walkEntries_content _ _ _ _ _ _ sF Hreg1 Hpost1 Hwalk HgF p sl Hsl)
    as (sl' & Hsl' & Hc).
  exists sl'. split; [done|].
  assert (∀ l, locsFor (aseg a) p l = locsFor (seg st) p l) as <-; [|done].
  intros l. unfold locsFor. f_equal. apply list_filter_iff. intros e.
  by rewrite (grows_dictLookup _ _ _ _ Hg).
Qed.

End DocumentLocations.

(** X13.  The assembly of a document appends to the five location
    sequences of the posting of a (field id, term) pair the locations that
    the collated map of the document gives the term, in their order: the
    start, end and position of each as 64-bit values, its array positions
    as they are, and as its field the id of the field it names, or the id
    of the field of the term when it names none.  A document whose
    collated maps lack the term appends nothing. *)
Theorem term_locations sched footprint results h s h' :
  NewFromAnalyzedDocs sched footprint results h = Ok (s, h') →
  ∀ (d : nat) st st' f t v sl sl',
    (d < length results)%nat →
    assembledUpTo sched results h d = Ok st →
    assembledUpTo sched results h (S d) = Ok st' →
    dictLookup s f t = Some v →
    slot (seg st) (v - 1) = Some sl → slot (seg st') (v - 1) = Some sl' →
    (∀ tf, collated sched results h d f t tf →
           located s (locationsOf f tf) sl sl') ∧
    ((∀ tf, ¬ collated sched results h d f t tf) → located s [] sl sl').
Proof.
  intros (stn & Hn & -> & _)%NewFromAnalyzedDocs_Ok
    d st st' f t v sl sl' Hd Hst Hst' Hv Hsl Hsl'.
  rewrite built_dictLookup in Hv.
  destruct (lookup_lt_is_Some_2 results d Hd) as [r Hr].
  assert (S d ≤ length results)%nat as HSd by lia.
  assert (d ≤ length results)%nat as Hd' by lia.
  destruct (run_mono _ _ _ _ _ _ _ HSd (Nat.le_refl _) Hst' Hn) as (Hg' & _).
  destruct (run_mono _ _ _ _ _ _ _ Hd' (Nat.le_refl _) Hst Hn) as (Hg & _).
  destruct (run_inv _ _ _ _ _ (Nat.le_refl _) Hn)
    as (st1 & _ & (_ & Hpostn & _) & _).
  destruct (run_entries _ _ _ _ _ _ _ Hr Hst Hst')
    as (ord & a & _ & _ & _ & Hcol & Hnd & Hent & _).
  destruct (document_locations _ _ _ _ _ _ _ (seg stn) Hr Hst Hst' Hg')
    as (a' & Hcol' & Hloc).
  assert (a' = a) as -> by congruence.
  destruct (Hloc _ _ Hsl) as (sl0 & Hsl0 & Hc).
  assert (sl0 = sl') as -> by congruence.
  cbv zeta in Hnd, Hent.
  set (entries := walked sched (astore a) (S (clock st))
                    (range sched (clock st) (docMap (acoll a)))) in *.
  assert (∀ e : Z * string * TokenFreq,
            dictLookup (seg st) e.1.1 e.1.2 = Some (v - 1 + 1) ↔
            e.1 = (f, t)) as Hkey.
  { intros [[f' t'] tf']. simpl.
    rewrite <- (grows_dictLookup _ _ _ _ Hg).
    replace (v - 1 + 1) with v by lia. split.
    - intros Hv'. by destruct (dictLookup_inj _ _ _ _ _ _ _ Hpostn Hv' Hv)
        as [-> ->].
    - by intros [= -> ->]. }
  split.
  - intros tf Hc'%Hent.
    assert (locsFor (seg st) (v - 1) entries = locationsOf f tf) as <-;
      [|exact Hc].
    unfold locsFor. rewrite (filter_unique _ _ (f, t, tf)); simpl.
    + by rewrite app_nil_r.
    + exact (NoDup_fmap_1 fst _ Hnd).
    + done.
    + by apply (Hkey (f, t, tf)).
    + intros [[f' t'] tf'] Hin [= -> ->]%Hkey. f_equal.
      by eapply (NoDup_fst_unique entries (f, t)).
  - intros Hno.
    assert (locsFor (seg st) (v - 1) entries = []) as <-; [|exact Hc].
    unfold locsFor. rewrite filter_none; [done|].
    intros [[f' t'] tf'] Hin [= -> ->]%Hkey. by apply (Hno tf'), Hent.
Qed.

Lemma term_locations_witness :
  ∃ sl sl',
    slot (seg exDictState) (1 - 1) = Some sl ∧
    slot (seg exAfterDoc0) (1 - 1) = Some sl' ∧
    (∀ tf, collated inOrder exBatch exStore 0 1 "cat" tf →
           located exBuilt.1 (locationsOf 1 tf) sl sl').
Proof.
  destruct (slot (seg exDictState) (1 - 1)) as [sl|] eqn:E;
    [|vm_compute in E; discriminate E].
  destruct (slot (seg exAfterDoc0) (1 - 1)) as [sl'|] eqn:E';
    [|vm_compute in E'; discriminate E'].
  exists sl, sl'. split; [done|]. split; [done|].
  apply (term_locations inOrder noFootprint exBatch exStore
           exBuilt.1 exBuilt.2 ltac:(vm_compute; reflexivity)
           0%nat exDictState exAfterDoc0 1 "cat" 1 sl sl'
           ltac:(simpl; lia) ltac:(vm_compute; reflexivity)
           ltac:(vm_compute; reflexivity) ltac:(vm_compute; reflexivity)
           E E').
Defined.
